(** * Pixel Postman: the round simulation of [components/GameLoop.tsx]

    A shallow embedding of the tick-based simulation core: the grid map and
    its generator ([initGame]), the movement resolver ([isWalkable],
    [checkMove]), the traffic flow rule ([getTrafficFlow]), the bounded
    position search ([getRandomRoadPosition]) and the tick function
    ([update]) with its frame driver ([loop]).

    Conventions of the embedding.
    - A JavaScript [number] that the code only ever uses as an integer
      (tile indices, score, health, boost charge) is a [Z]; every other
      number is a rational [Q] (IEEE rounding is not modelled).
    - [Math.random()] and [performance.now()] read two oracle streams that
      are threaded through the computation; every call of the source
      consumes exactly one element, also the calls whose value only feeds
      cosmetic entities (particles, popups, ids), which are drawn and
      dropped.
    - A [TypeError] (property access on [undefined]) is the result [Throw];
      an unbounded [while] loop takes fuel and returns [Diverge] when the
      fuel runs out.
    - The delivery block of the earlier variant of the component, kept in
      [src/unnamed/part_000], is embedded in the module [Earlier].
    - Rendering, audio, the camera and the HUD callback are sinks of the
      simulation: of [draw] the embedding keeps the calls of
      [Math.random()], which advance the stream, and none of the pixels;
      particles and text popups never feed back into the round state and
      are left out, and so are the polygon outlines of puddles (collision
      uses their boxes). *)

From Stdlib Require Import ZArith QArith Qround Qabs Qminmax Lqa Lia List String Bool.
From stdpp Require Import base option list gmap sorting.
Import ListNotations.

Local Open Scope Z_scope.

(** ** Numbers *)

Definition Qlt_bool (a b : Q) : bool := negb (Qle_bool b a).

Declare Scope js_scope.
Delimit Scope js_scope with js.
Notation "a <? b" := (Qlt_bool a%Q b%Q) : js_scope.
Notation "a <=? b" := (Qle_bool a%Q b%Q) : js_scope.
Notation "a >? b" := (Qlt_bool b%Q a%Q) : js_scope.
Notation "a >=? b" := (Qle_bool b%Q a%Q) : js_scope.

(** [Math.floor] *)
Definition Math_floor (q : Q) : Z := Qfloor q.

(** ** Constants ([constants.ts], the version [GameLoop.tsx] imports) *)

Definition TILE_SIZE : Z := 32.
Definition MAP_WIDTH : Z := 50.
Definition MAP_HEIGHT : Z := 30.
Definition INITIAL_TIME : Q := 150.
Definition PLAYER_SPEED : Q := 4.
Definition BOOST_SPEED : Q := 8.
Definition CAR_SPEED : Q := 3.5.
Definition MAX_BOOST_CHARGE : Z := 4.
Definition MAP_PIXEL_WIDTH : Z := MAP_WIDTH * TILE_SIZE.
Definition MAP_PIXEL_HEIGHT : Z := MAP_HEIGHT * TILE_SIZE.
(** [roofColors.length] and [WALL_COLORS.length] *)
Definition ROOF_COLORS_LENGTH : Z := 6.
Definition WALL_COLORS_LENGTH : Z := 6.

(** ** Results and oracles *)

Inductive Res (A : Type) : Type :=
| Ok (a : A)
| Throw
| Diverge.
Arguments Ok {A} a.
Arguments Throw {A}.
Arguments Diverge {A}.

Definition bindR {A B} (m : Res A) (k : A -> Res B) : Res B :=
  match m with
  | Ok a => k a
  | Throw => Throw
  | Diverge => Diverge
  end.

Record Oracle := mkOracle {
  rand : N -> Q;     (* the values Math.random() returns, call by call *)
  randCalls : N;     (* the number of calls of Math.random() so far *)
  perf : N -> Q;     (* the values performance.now() returns, call by call *)
  perfCalls : N      (* the number of calls of performance.now() so far *)
}.

Definition M (A : Type) : Type := Oracle -> Res (A * Oracle).

Definition ret {A} (a : A) : M A := fun o => Ok (a, o).
Definition bind {A B} (m : M A) (k : A -> M B) : M B :=
  fun o => match m o with
           | Ok (a, o') => k a o'
           | Throw => Throw
           | Diverge => Diverge
           end.
Definition liftR {A} (m : Res A) : M A :=
  fun o => match m with
           | Ok a => Ok (a, o)
           | Throw => Throw
           | Diverge => Diverge
           end.
Definition throw {A} : M A := fun _ => Throw.
Definition diverge {A} : M A := fun _ => Diverge.

Declare Scope m_scope.
Delimit Scope m_scope with M.
Notation "'let*' x ':=' e 'in' k" := (bind e (fun x => k))
  (at level 10, x name, e at level 200, k at level 200) : m_scope.
Notation "'let*' ' pat ':=' e 'in' k" := (bind e (fun x => match x with pat => k end))
  (at level 10, pat pattern, e at level 200, k at level 200) : m_scope.
Notation "'let!' x ':=' e 'in' k" := (bind (liftR e) (fun x => k))
  (at level 10, x name, e at level 200, k at level 200) : m_scope.

Declare Scope res_scope.
Delimit Scope res_scope with R.
Notation "'let?' x ':=' e 'in' k" := (bindR e (fun x => k))
  (at level 10, x name, e at level 200, k at level 200) : res_scope.

(** [Math.random()] *)
Definition Math_random : M Q :=
  fun o => Ok (rand o (randCalls o),
               mkOracle (rand o) (N.succ (randCalls o)) (perf o) (perfCalls o)).

(** [performance.now()] *)
Definition performance_now : M Q :=
  fun o => Ok (perf o (perfCalls o),
               mkOracle (rand o) (randCalls o) (perf o) (N.succ (perfCalls o))).

(** [n] calls of [Math.random()] whose values only reach cosmetic state. *)
Fixpoint skip (n : nat) : M unit :=
  match n with
  | O => ret tt
  | S n' => (let* _ := Math_random in skip n')%M
  end.

(** [Math.floor(Math.random() * n)] *)
Definition randomIndex (n : Z) : M Z :=
  (let* r := Math_random in ret (Math_floor (r * inject_Z n)))%M.

(** [for (const a of l) s = body(a, s)] *)
Fixpoint forEachM {A S} (l : list A) (body : A -> S -> M S) (s : S) : M S :=
  match l with
  | [] => ret s
  | a :: l' => (let* s' := body a s in forEachM l' body s')%M
  end.

(** [for (let i = lo; i < hi; i++)] *)
Definition range (lo hi : Z) : list Z := seqZ lo (hi - lo).

(** [arr[i]] for a JavaScript array held as a list: [undefined] is [None]. *)
Definition at_ {A} (l : list A) (i : Z) : option A :=
  if i <? 0 then None else l !! Z.to_nat i.

(** ** Data model ([types.ts]) *)

Module Vector2.
Record t := mk { x : Q; y : Q }.
End Vector2.
Abbreviation Vector2 := Vector2.t.
Abbreviation vec := Vector2.mk.

Inductive TileType := ROAD | GRASS | HOUSE | GARDEN | DRIVEWAY | FOOTPATH | WATER.
Inductive PowerUpType := COFFEE | TRAFFIC_LIGHT | CLOCK | RAINCOAT.
Inductive CarState := PARKED | MERGING | DRIVING | RETURNING.
Inductive Direction := Up | Down | Left | Right.
Inductive Shape := ShapeRect | ShapeL.
Inductive Corner := TL | TR | BL | BR.

#[global] Instance TileType_eq_dec : EqDecision TileType.
Proof. solve_decision. Defined.
#[global] Instance PowerUpType_eq_dec : EqDecision PowerUpType.
Proof. solve_decision. Defined.
#[global] Instance CarState_eq_dec : EqDecision CarState.
Proof. solve_decision. Defined.
#[global] Instance Direction_eq_dec : EqDecision Direction.
Proof. solve_decision. Defined.
#[global] Instance Shape_eq_dec : EqDecision Shape.
Proof. solve_decision. Defined.
#[global] Instance Corner_eq_dec : EqDecision Corner.
Proof. solve_decision. Defined.

(** [Entity]: what [checkCollision] reads of any record. *)
Module Entity.
Record t := mk { pos : Vector2; size : Vector2 }.
End Entity.
Abbreviation Entity := Entity.t.

Module Puddle.
Record t := mk { pos : Vector2; size : Vector2 }.
End Puddle.
Abbreviation Puddle := Puddle.t.

Module Player.
Record t := mk {
  pos : Vector2;
  size : Vector2;
  velocity : Vector2;
  speed : Q;
  isBoosting : bool;
  boostTimer : Q;
  boostCharge : Z;
  boostUnlocked : bool;
  direction : Direction;
  stunned : Q;
  puddleImmunity : Q;          (* buffs.puddleImmunity *)
  health : Z;
  maxHealth : Z;
  invulnerabilityTimer : Q
}.
Definition set_pos v p :=
  mk v (size p) (velocity p) (speed p) (isBoosting p) (boostTimer p) (boostCharge p)
     (boostUnlocked p) (direction p) (stunned p) (puddleImmunity p) (health p)
     (maxHealth p) (invulnerabilityTimer p).
Definition set_velocity v p :=
  mk (pos p) (size p) v (speed p) (isBoosting p) (boostTimer p) (boostCharge p)
     (boostUnlocked p) (direction p) (stunned p) (puddleImmunity p) (health p)
     (maxHealth p) (invulnerabilityTimer p).
Definition set_isBoosting v p :=
  mk (pos p) (size p) (velocity p) (speed p) v (boostTimer p) (boostCharge p)
     (boostUnlocked p) (direction p) (stunned p) (puddleImmunity p) (health p)
     (maxHealth p) (invulnerabilityTimer p).
Definition set_boostTimer v p :=
  mk (pos p) (size p) (velocity p) (speed p) (isBoosting p) v (boostCharge p)
     (boostUnlocked p) (direction p) (stunned p) (puddleImmunity p) (health p)
     (maxHealth p) (invulnerabilityTimer p).
Definition set_boostCharge v p :=
  mk (pos p) (size p) (velocity p) (speed p) (isBoosting p) (boostTimer p) v
     (boostUnlocked p) (direction p) (stunned p) (puddleImmunity p) (health p)
     (maxHealth p) (invulnerabilityTimer p).
Definition set_boostUnlocked v p :=
  mk (pos p) (size p) (velocity p) (speed p) (isBoosting p) (boostTimer p) (boostCharge p)
     v (direction p) (stunned p) (puddleImmunity p) (health p)
     (maxHealth p) (invulnerabilityTimer p).
Definition set_direction v p :=
  mk (pos p) (size p) (velocity p) (speed p) (isBoosting p) (boostTimer p) (boostCharge p)
     (boostUnlocked p) v (stunned p) (puddleImmunity p) (health p)
     (maxHealth p) (invulnerabilityTimer p).
Definition set_stunned v p :=
  mk (pos p) (size p) (velocity p) (speed p) (isBoosting p) (boostTimer p) (boostCharge p)
     (boostUnlocked p) (direction p) v (puddleImmunity p) (health p)
     (maxHealth p) (invulnerabilityTimer p).
Definition set_puddleImmunity v p :=
  mk (pos p) (size p) (velocity p) (speed p) (isBoosting p) (boostTimer p) (boostCharge p)
     (boostUnlocked p) (direction p) (stunned p) v (health p)
     (maxHealth p) (invulnerabilityTimer p).
Definition set_health v p :=
  mk (pos p) (size p) (velocity p) (speed p) (isBoosting p) (boostTimer p) (boostCharge p)
     (boostUnlocked p) (direction p) (stunned p) (puddleImmunity p) v
     (maxHealth p) (invulnerabilityTimer p).
Definition set_invulnerabilityTimer v p :=
  mk (pos p) (size p) (velocity p) (speed p) (isBoosting p) (boostTimer p) (boostCharge p)
     (boostUnlocked p) (direction p) (stunned p) (puddleImmunity p) (health p)
     (maxHealth p) v.
End Player.
Abbreviation Player := Player.t.

Module House.
Record t := mk {
  pos : Vector2;
  size : Vector2;
  isTarget : bool;
  doorPos : Vector2;
  facing : Direction;
  gardenPos : Vector2;
  gardenSize : Vector2;
  drivewayPos : Vector2;
  drivewaySize : Vector2;
  roofColor : Z;               (* index into roofColors *)
  wallColor : Z;               (* index into WALL_COLORS *)
  style : Z;
  shape : Shape;
  cutoutCorner : option Corner
}.
Definition set_isTarget v h :=
  mk (pos h) (size h) v (doorPos h) (facing h) (gardenPos h) (gardenSize h)
     (drivewayPos h) (drivewaySize h) (roofColor h) (wallColor h) (style h)
     (shape h) (cutoutCorner h).
End House.
Abbreviation House := House.t.

Module Car.
Record t := mk {
  pos : Vector2;
  size : Vector2;
  velocity : Vector2;
  speed : Q;
  frozenTimer : Q;
  direction : Direction;
  state : CarState;
  homePos : Vector2
}.
Definition set_pos v c :=
  mk v (size c) (velocity c) (speed c) (frozenTimer c) (direction c) (state c) (homePos c).
Definition set_velocity v c :=
  mk (pos c) (size c) v (speed c) (frozenTimer c) (direction c) (state c) (homePos c).
Definition set_frozenTimer v c :=
  mk (pos c) (size c) (velocity c) (speed c) v (direction c) (state c) (homePos c).
Definition set_direction v c :=
  mk (pos c) (size c) (velocity c) (speed c) (frozenTimer c) v (state c) (homePos c).
Definition set_state v c :=
  mk (pos c) (size c) (velocity c) (speed c) (frozenTimer c) (direction c) v (homePos c).
End Car.
Abbreviation Car := Car.t.

Module PowerUp.
Record t := mk {
  kind : option PowerUpType;   (* types[i]: undefined when i is out of range *)
  pos : Vector2;
  size : Vector2;
  life : option Q;             (* life?: number *)
  maxLife : option Q
}.
Definition set_life v u := mk (kind u) (pos u) (size u) v (maxLife u).
End PowerUp.
Abbreviation PowerUp := PowerUp.t.

Module Projectile.
Record t := mk {
  pos : Vector2;
  startPos : Vector2;
  targetPos : Vector2;
  progress : Q;
  duration : Q
}.
Definition set_progress v j := mk (pos j) (startPos j) (targetPos j) v (duration j).
End Projectile.
Abbreviation Projectile := Projectile.t.

(** [TileType[][]]: an array of rows.  A row is indexed by any integer key
    (a write beyond its length extends it, a read of an absent key is
    [undefined]); rows themselves are never added after creation. *)
Abbreviation Row := (gmap Z TileType).
Abbreviation TileMap := (list (gmap Z TileType)).

Module GameState.
Record t := mk {
  isPlaying : bool;
  isGameOver : bool;
  score : Z;
  timer : Q;
  deliveries : Z;
  lastDeliveryTime : Q;
  trafficPauseTimer : Q;
  map : TileMap;
  vRoads : list Z;
  hRoads : list Z;
  (* entities *)
  player : Player;
  houses : list House;
  cars : list Car;
  puddles : list Puddle;
  powerups : list PowerUp;
  staticObjects : list Entity;
  projectiles : list Projectile
}.
Definition set_isGameOver v s :=
  mk (isPlaying s) v (score s) (timer s) (deliveries s) (lastDeliveryTime s)
     (trafficPauseTimer s) (map s) (vRoads s) (hRoads s) (player s) (houses s) (cars s)
     (puddles s) (powerups s) (staticObjects s) (projectiles s).
Definition set_score v s :=
  mk (isPlaying s) (isGameOver s) v (timer s) (deliveries s) (lastDeliveryTime s)
     (trafficPauseTimer s) (map s) (vRoads s) (hRoads s) (player s) (houses s) (cars s)
     (puddles s) (powerups s) (staticObjects s) (projectiles s).
Definition set_timer v s :=
  mk (isPlaying s) (isGameOver s) (score s) v (deliveries s) (lastDeliveryTime s)
     (trafficPauseTimer s) (map s) (vRoads s) (hRoads s) (player s) (houses s) (cars s)
     (puddles s) (powerups s) (staticObjects s) (projectiles s).
Definition set_deliveries v s :=
  mk (isPlaying s) (isGameOver s) (score s) (timer s) v (lastDeliveryTime s)
     (trafficPauseTimer s) (map s) (vRoads s) (hRoads s) (player s) (houses s) (cars s)
     (puddles s) (powerups s) (staticObjects s) (projectiles s).
Definition set_lastDeliveryTime v s :=
  mk (isPlaying s) (isGameOver s) (score s) (timer s) (deliveries s) v
     (trafficPauseTimer s) (map s) (vRoads s) (hRoads s) (player s) (houses s) (cars s)
     (puddles s) (powerups s) (staticObjects s) (projectiles s).
Definition set_trafficPauseTimer v s :=
  mk (isPlaying s) (isGameOver s) (score s) (timer s) (deliveries s) (lastDeliveryTime s)
     v (map s) (vRoads s) (hRoads s) (player s) (houses s) (cars s)
     (puddles s) (powerups s) (staticObjects s) (projectiles s).
Definition set_player v s :=
  mk (isPlaying s) (isGameOver s) (score s) (timer s) (deliveries s) (lastDeliveryTime s)
     (trafficPauseTimer s) (map s) (vRoads s) (hRoads s) v (houses s) (cars s)
     (puddles s) (powerups s) (staticObjects s) (projectiles s).
Definition set_houses v s :=
  mk (isPlaying s) (isGameOver s) (score s) (timer s) (deliveries s) (lastDeliveryTime s)
     (trafficPauseTimer s) (map s) (vRoads s) (hRoads s) (player s) v (cars s)
     (puddles s) (powerups s) (staticObjects s) (projectiles s).
Definition set_cars v s :=
  mk (isPlaying s) (isGameOver s) (score s) (timer s) (deliveries s) (lastDeliveryTime s)
     (trafficPauseTimer s) (map s) (vRoads s) (hRoads s) (player s) (houses s) v
     (puddles s) (powerups s) (staticObjects s) (projectiles s).
Definition set_powerups v s :=
  mk (isPlaying s) (isGameOver s) (score s) (timer s) (deliveries s) (lastDeliveryTime s)
     (trafficPauseTimer s) (map s) (vRoads s) (hRoads s) (player s) (houses s) (cars s)
     (puddles s) v (staticObjects s) (projectiles s).
Definition set_projectiles v s :=
  mk (isPlaying s) (isGameOver s) (score s) (timer s) (deliveries s) (lastDeliveryTime s)
     (trafficPauseTimer s) (map s) (vRoads s) (hRoads s) (player s) (houses s) (cars s)
     (puddles s) (powerups s) (staticObjects s) v.
End GameState.
Abbreviation GameState := GameState.t.

(** The component: the [state] ref and the other refs [update] and [loop]
    read and write. *)
Module Round.
Record t := mk {
  state : GameState;
  lastTimeRef : Q;
  gameOverSentRef : bool;
  gameOverReasonRef : string;
  prevDashRef : bool;
  lastMoveSoundTime : Q
}.
Definition set_state v w :=
  mk v (lastTimeRef w) (gameOverSentRef w) (gameOverReasonRef w) (prevDashRef w)
     (lastMoveSoundTime w).
Definition set_lastTimeRef v w :=
  mk (state w) v (gameOverSentRef w) (gameOverReasonRef w) (prevDashRef w)
     (lastMoveSoundTime w).
Definition set_gameOverSentRef v w :=
  mk (state w) (lastTimeRef w) v (gameOverReasonRef w) (prevDashRef w)
     (lastMoveSoundTime w).
Definition set_gameOverReasonRef v w :=
  mk (state w) (lastTimeRef w) (gameOverSentRef w) v (prevDashRef w)
     (lastMoveSoundTime w).
Definition set_prevDashRef v w :=
  mk (state w) (lastTimeRef w) (gameOverSentRef w) (gameOverReasonRef w) v
     (lastMoveSoundTime w).
Definition set_lastMoveSoundTime v w :=
  mk (state w) (lastTimeRef w) (gameOverSentRef w) (gameOverReasonRef w) (prevDashRef w)
     v.
End Round.
Abbreviation Round := Round.t.

(** The [input] prop: a direction and the dash signal. *)
Module Input.
Record t := mk { x : Q; y : Q; dash : bool }.
End Input.
Abbreviation Input := Input.t.

Definition playerBox (p : Player) : Entity := Entity.mk (Player.pos p) (Player.size p).
Definition carBox (c : Car) : Entity := Entity.mk (Car.pos c) (Car.size c).
Definition puddleBox (u : Puddle) : Entity := Entity.mk (Puddle.pos u) (Puddle.size u).
Definition powerupBox (u : PowerUp) : Entity := Entity.mk (PowerUp.pos u) (PowerUp.size u).

(** ** Grid map access *)

(** [map[ty][tx]]: a [TypeError] when row [ty] does not exist, [undefined]
    when the row has no key [tx]. *)
Definition tileAt (map : TileMap) (ty tx : Z) : Res (option TileType) :=
  match at_ map ty with
  | Some row => Ok (row !! tx)
  | None => Throw
  end.

(** [map[ty][tx] = v] *)
Definition setTile (map : TileMap) (ty tx : Z) (v : TileType) : Res TileMap :=
  match at_ map ty with
  | Some row => Ok (<[Z.to_nat ty := <[tx := v]> row]> map)
  | None => Throw
  end.

(** [map[ty][tx] === k] *)
Definition tileIs (map : TileMap) (ty tx : Z) (k : TileType) : Res bool :=
  (let? t := tileAt map ty tx in Ok (bool_decide (t = Some k)))%R.

(** [Array(MAP_HEIGHT).fill(null).map(() => Array(MAP_WIDTH).fill(GRASS))] *)
Definition grassRow : gmap Z TileType :=
  list_to_map ((fun i => (i, GRASS)) <$> range 0 MAP_WIDTH).
Definition grassMap : TileMap := replicate (Z.to_nat MAP_HEIGHT) grassRow.

(** ** Helpers of the component *)

(** Helper: Collision Detection (AABB) *)
Definition checkCollision (rect1 rect2 : Entity) : bool :=
  ((Vector2.x (Entity.pos rect1) <? Vector2.x (Entity.pos rect2) + Vector2.x (Entity.size rect2))%js
   && (Vector2.x (Entity.pos rect1) + Vector2.x (Entity.size rect1) >? Vector2.x (Entity.pos rect2))%js
   && (Vector2.y (Entity.pos rect1) <? Vector2.y (Entity.pos rect2) + Vector2.y (Entity.size rect2))%js
   && (Vector2.y (Entity.pos rect1) + Vector2.y (Entity.size rect1) >? Vector2.y (Entity.pos rect2))%js)%bool.

(** [getDistance] takes a square root; its only use compares the result
    with a positive constant, which is the comparison of the squares. *)
Definition getDistanceSq (p1 p2 : Vector2) : Q :=
  ((Vector2.x p2 - Vector2.x p1) * (Vector2.x p2 - Vector2.x p1)
   + (Vector2.y p2 - Vector2.y p1) * (Vector2.y p2 - Vector2.y p1))%Q.
Definition distanceBelow (p1 p2 : Vector2) (radius : Q) : bool :=
  (getDistanceSq p1 p2 <? radius * radius)%js.

(** The tile a pixel coordinate falls in. *)
Definition tileOf (c : Q) : Z := Math_floor (c / inject_Z TILE_SIZE).

Definition outOfMap (tx ty : Z) : bool :=
  ((tx <? 0) || (tx >=? MAP_WIDTH) || (ty <? 0) || (ty >=? MAP_HEIGHT))%bool.

(** The four corners [isWalkable] checks, in its order. *)
Definition corners (pos size : Vector2) : list Vector2 :=
  [ vec (Vector2.x pos) (Vector2.y pos);
    vec (Vector2.x pos + Vector2.x size - 1) (Vector2.y pos);
    vec (Vector2.x pos) (Vector2.y pos + Vector2.y size - 1);
    vec (Vector2.x pos + Vector2.x size - 1) (Vector2.y pos + Vector2.y size - 1) ]%Q.

(** The body of the [for (const p of points)] loop of [isWalkable]:
    [false] stands for its [return false]. *)
Definition cornerOnRoad (map : TileMap) (p : Vector2) : Res bool :=
  let tx := tileOf (Vector2.x p) in
  let ty := tileOf (Vector2.y p) in
  if outOfMap tx ty then Ok false
  else tileIs map ty tx ROAD.

Fixpoint allOnRoad (map : TileMap) (points : list Vector2) : Res bool :=
  match points with
  | [] => Ok true
  | p :: rest =>
      (let? ok := cornerOnRoad map p in
       if ok then allOnRoad map rest else Ok false)%R
  end.

(** Check if a position (or rect) is valid on the map *)
Definition isWalkable (pos size : Vector2) (map : TileMap) : Res bool :=
  allOnRoad map (corners pos size).

Module Flow.
Record t := mk { x : Z; y : Z; d : Direction }.
End Flow.
Abbreviation Flow := Flow.t.

(** [arr.findIndex(f)] *)
Fixpoint findIndexFrom {A} (f : A -> bool) (l : list A) (i : Z) : Z :=
  match l with
  | [] => -1
  | a :: l' => if f a then i else findIndexFrom f l' (i + 1)
  end.
Definition findIndex {A} (f : A -> bool) (l : list A) : Z := findIndexFrom f l 0.

(** Determine allowed flow direction based on grid (Right Hand Traffic):
    Even index Road = Down/Left, Odd index Road = Up/Right. *)
Definition getTrafficFlow (tx ty : Z) (vRoads hRoads : list Z) : list Flow :=
  let vIndex := findIndex (fun v => (tx =? v) || (tx =? v + 1)) vRoads in
  let flows :=
    if vIndex =? -1 then []
    else if Z.rem vIndex 2 =? 0 then [Flow.mk 0 1 Down]
    else [Flow.mk 0 (-1) Up] in
  let hIndex := findIndex (fun h => (ty =? h) || (ty =? h + 1)) hRoads in
  if hIndex =? -1 then flows
  else if Z.rem hIndex 2 =? 0 then flows ++ [Flow.mk (-1) 0 Left]
  else flows ++ [Flow.mk 1 0 Right].

(** Find a random road tile.  [left] counts the attempts that remain of
    the 1000 of the [while (attempts < 1000)] loop. *)
Fixpoint randomRoadSearch (left : nat) (map : TileMap) (entitySize : Vector2)
    (avoidEntities : list Entity) : M Vector2 :=
  match left with
  | O => ret (vec 64 64)
  | S left' =>
      (let* tx := randomIndex MAP_WIDTH in
       let* ty := randomIndex MAP_HEIGHT in
       let! road := tileIs map ty tx ROAD in
       if road then
         let pos := vec (inject_Z (tx * TILE_SIZE + 4)) (inject_Z (ty * TILE_SIZE + 4)) in
         let! walkable := isWalkable pos entitySize map in
         if walkable then
           if existsb (checkCollision (Entity.mk pos entitySize)) avoidEntities
           then randomRoadSearch left' map entitySize avoidEntities
           else ret pos
         else randomRoadSearch left' map entitySize avoidEntities
       else randomRoadSearch left' map entitySize avoidEntities)%M
  end.

Definition getRandomRoadPosition (map : TileMap) (entitySize : Vector2)
    (avoidEntities : list Entity) : M Vector2 :=
  randomRoadSearch 1000 map entitySize avoidEntities.

(** ** Round generation: [initGame] *)

(** [for (const a of l) s = body(a, s)] without oracle reads. *)
Fixpoint forEachR {A S} (l : list A) (body : A -> S -> Res S) (s : S) : Res S :=
  match l with
  | [] => Ok s
  | a :: l' => (let? s' := body a s in forEachR l' body s')%R
  end.

(** [b && m], evaluating [m] only when [b] holds. *)
Definition andR (b : bool) (m : Res bool) : Res bool := if b then m else Ok false.

(** A loop that sets a flag (or returns) at the first element passing [f]. *)
Fixpoint someR {A} (f : A -> Res bool) (l : list A) : Res bool :=
  match l with
  | [] => Ok false
  | a :: l' => (let? b := f a in if b then Ok true else someR f l')%R
  end.

(** A loop that clears a flag at every element failing [f], without
    leaving the loop. *)
Fixpoint everyR {A} (f : A -> Res bool) (l : list A) : Res bool :=
  match l with
  | [] => Ok true
  | a :: l' => (let? b := f a in let? rest := everyR f l' in Ok (b && rest))%R
  end.

(** The loop of [addLines]; [arr.push(next)] appends. *)
Fixpoint addLinesLoop (fuel : nat) (arr : list Z) (last max minGap : Z) : M (list Z) :=
  match fuel with
  | O => diverge
  | S fuel' =>
      (let* r := Math_random in
       let gap := minGap + Math_floor (r * 5) in
       let next := last + gap in
       if next >=? max - minGap then ret arr
       else addLinesLoop fuel' (arr ++ [next]) next max minGap)%M
  end.

(** Generate random intervals for internal roads.  On an empty array
    [arr[0]] is [undefined], [next] is [NaN] and the loop never breaks. *)
Definition addLines (fuel : nat) (arr : list Z) (max minGap : Z) : M (list Z) :=
  match arr with
  | [] => diverge
  | last :: _ =>
      (let* arr' := addLinesLoop fuel arr last max minGap in
       ret (merge_sort Z.le arr'))%M
  end.

(** Rasterize Roads *)
Definition rasterizeV (vRoads : list Z) (map : TileMap) : Res TileMap :=
  forEachR vRoads (fun x map =>
    forEachR (range 0 MAP_HEIGHT) (fun y map =>
      (let? map := setTile map y x ROAD in
       setTile map y (x + 1) ROAD)%R) map) map.

Definition rasterizeH (hRoads : list Z) (map : TileMap) : Res TileMap :=
  forEachR hRoads (fun y map =>
    forEachR (range 0 MAP_WIDTH) (fun x map =>
      (let? map := setTile map y x ROAD in
       setTile map (y + 1) x ROAD)%R) map) map.

(** HELPER: Check Road Adjacency; [dirs] holds [[dx, dy]]. *)
Definition hasAdjacentRoad (map : TileMap) (tx ty : Z) : Res bool :=
  someR (fun '(dx, dy) =>
             let nx := tx + dx in
             let ny := ty + dy in
             andR ((nx >=? 0) && (nx <? MAP_WIDTH) && (ny >=? 0) && (ny <? MAP_HEIGHT))
                  (tileIs map ny nx ROAD))
          [(0, 1); (0, -1); (1, 0); (-1, 0)].

Module Block.
Record t := mk { x : Z; y : Z; w : Z; h : Z }.
End Block.
Abbreviation Block := Block.t.

(** [arr[i]] paired with [arr[i+1]] for [i < arr.length - 1]. *)
Definition consecutive (l : list Z) : list (Z * Z) := zip l (tail l).

(** IDENTIFY PARK ZONE: the candidate blocks, in the order they are pushed. *)
Definition parkCandidates (vRoads hRoads : list Z) : list Block :=
  flat_map (fun '(v, v') =>
    flat_map (fun '(h, h') =>
      let bx := v + 2 in
      let by_ := h + 2 in
      let bw := v' - v - 2 in
      let bh := h' - h - 2 in
      if (bw >=? 4) && (bh >=? 4) then [Block.mk bx by_ bw bh] else [])
      (consecutive hRoads))
    (consecutive vRoads).

(** The value the comparator of [blocks.sort] orders by, largest first:
    [size - center * 2]. *)
Definition blockRank (a : Block) : Q :=
  let center :=
    (Qabs ((inject_Z (Block.x a) + inject_Z (Block.w a) / 2) - inject_Z MAP_WIDTH / 2)
     + Qabs ((inject_Z (Block.y a) + inject_Z (Block.h a) / 2) - inject_Z MAP_HEIGHT / 2))%Q in
  (inject_Z (Block.w a * Block.h a) - center * 2)%Q.

(** [blocks.sort(cmp); parkBlock = blocks[0]]: the sort is stable, so its
    head is the first block of largest rank. *)
Fixpoint firstOfLargestRank (best : Block) (rest : list Block) : Block :=
  match rest with
  | [] => best
  | b :: rest' =>
      if (blockRank best <? blockRank b)%js then firstOfLargestRank b rest'
      else firstOfLargestRank best rest'
  end.

Definition chooseParkBlock (vRoads hRoads : list Z) : Block :=
  match parkCandidates vRoads hRoads with
  | [] => Block.mk 0 0 0 0
  | b :: rest => firstOfLargestRank b rest
  end.

(** The [dy], [dx] offsets of a [h]-by-[w] tile rectangle, row by row. *)
Definition offsets (h w : Z) : list (Z * Z) :=
  flat_map (fun dy => (fun dx => (dy, dx)) <$> range 0 w) (range 0 h).

(** A generated house before any attribute that depends on a later draw. *)
Definition isHousePart (shapeType : Shape) (cutoutCorner : option Corner)
    (houseW houseH dx dy : Z) : bool :=
  match shapeType with
  | ShapeRect => true
  | ShapeL =>
      negb (bool_decide (cutoutCorner = Some TL) && (dx <? 2) && (dy <? 1))
      && negb (bool_decide (cutoutCorner = Some TR) && (dx >=? houseW - 2) && (dy <? 1))
      && negb (bool_decide (cutoutCorner = Some BL) && (dx <? 2) && (dy >=? houseH - 1))
      && negb (bool_decide (cutoutCorner = Some BR) && (dx >=? houseW - 2) && (dy >=? houseH - 1))
  end.

Definition wTiles : Z := 4.
Definition hTiles : Z := 3.

(** The body of the two PLACE HOUSES loops at tile [(x, y)]. *)
Definition placeHouse (parkBlock : Block) (y x : Z) (st : TileMap * list House)
  : M (TileMap * list House) :=
  let '(map, houses) := st in
  (* SKIP PARK *)
  if (x >=? Block.x parkBlock - 1) && (x <? Block.x parkBlock + Block.w parkBlock + 1)
     && (y >=? Block.y parkBlock - 1) && (y <? Block.y parkBlock + Block.h parkBlock + 1)
  then ret st
  else
  (let! grass := tileIs map y x GRASS in
   if negb grass then ret st else
   let! above := andR (y >? 0) (tileIs map (y - 1) x ROAD) in
   let! facing :=
     (if above then Ok (Some Up)
      else (let? below := andR (y + hTiles <? MAP_HEIGHT) (tileIs map (y + hTiles) x ROAD) in
            Ok (if below then Some Down else None))%R) in
   match facing with
   | None => ret st
   | Some facing =>
   let* r := Math_random in
   if negb (r >? 0.1)%js then ret st else
   let! clear :=
     (if (y + hTiles >=? MAP_HEIGHT) || (x + wTiles >=? MAP_WIDTH) then Ok false
      else everyR (fun '(dy, dx) => tileIs map (y + dy) (x + dx) GRASS)
                   (offsets hTiles wTiles)) in
   if negb clear then ret st else
   (* Default setbacks (Front/Back) *)
   let houseX := 0 in
   let houseY := if bool_decide (facing = Up) then 1 else 0 in
   let houseW := wTiles in
   let houseH := hTiles - 1 in
   (* Side/Corner setbacks *)
   let! leftRoad := hasAdjacentRoad map x (y + 1) in
   let houseX := if leftRoad then houseX + 1 else houseX in
   let houseW := if leftRoad then houseW - 1 else houseW in
   let! rightRoad := hasAdjacentRoad map (x + wTiles - 1) (y + 1) in
   let houseW := if rightRoad then houseW - 1 else houseW in
   let! topRoad := andR (negb (bool_decide (facing = Up))) (hasAdjacentRoad map (x + 1) y) in
   let houseY := if topRoad then houseY + 1 else houseY in
   let houseH := if topRoad then houseH - 1 else houseH in
   let! bottomRoad := andR (negb (bool_decide (facing = Down)))
                           (hasAdjacentRoad map (x + 1) (y + hTiles - 1)) in
   let houseH := if bottomRoad then houseH - 1 else houseH in
   let houseW := if (houseW <? 2) || (houseH <? 1) then 0 else houseW in
   (* Initialize Lot as Garden *)
   let! map := forEachR (offsets hTiles wTiles)
                 (fun '(dy, dx) map => setTile map (y + dy) (x + dx) GARDEN) map in
   if negb (houseW >? 0) then ret (map, houses) else
   let* r := Math_random in
   let shapeType := if (r >? 0.3)%js then ShapeL else ShapeRect in
   let realW := houseW * TILE_SIZE in
   let realH := houseH * TILE_SIZE in
   let posX := (x + houseX) * TILE_SIZE in
   let posY := (y + houseY) * TILE_SIZE in
   let drivewayCol := x + houseX + houseW - 1 in
   let drivewayPos :=
     if bool_decide (facing = Down)
     then vec (inject_Z (drivewayCol * TILE_SIZE)) (inject_Z (posY + realH - TILE_SIZE))
     else vec (inject_Z (drivewayCol * TILE_SIZE)) (inject_Z posY) in
   let doorPos :=
     if bool_decide (facing = Down)
     then vec (inject_Z posX + inject_Z TILE_SIZE * 1.5)%Q (inject_Z (posY + realH - 8))
     else vec (inject_Z posX + inject_Z TILE_SIZE * 1.5)%Q (inject_Z (posY + 8)) in
   let cutoutCorner :=
     match shapeType with
     | ShapeL => if bool_decide (facing = Down) then Some BL else Some TL
     | ShapeRect => None
     end in
   (* Apply House Tiles to Map *)
   let! map := forEachR (offsets houseH houseW)
                 (fun '(dy, dx) map =>
                    if isHousePart shapeType cutoutCorner houseW houseH dx dy
                    then setTile map (y + houseY + dy) (x + houseX + dx) HOUSE
                    else Ok map) map in
   (* Apply Driveway *)
   let! map := forEachR (range 0 hTiles)
                 (fun dy map =>
                    if drivewayCol <? MAP_WIDTH then setTile map (y + dy) drivewayCol DRIVEWAY
                    else Ok map) map in
   let* roofColor := randomIndex ROOF_COLORS_LENGTH in
   let* wallColor := randomIndex WALL_COLORS_LENGTH in
   let* style := randomIndex 4 in
   ret (map,
        houses ++ [House.mk (vec (inject_Z posX) (inject_Z posY))
                            (vec (inject_Z realW) (inject_Z realH))
                            false doorPos facing
                            (vec (inject_Z (x * TILE_SIZE)) (inject_Z (y * TILE_SIZE)))
                            (vec (inject_Z (wTiles * TILE_SIZE)) (inject_Z (hTiles * TILE_SIZE)))
                            drivewayPos
                            (vec (inject_Z TILE_SIZE) (inject_Z TILE_SIZE))
                            roofColor wallColor style shapeType cutoutCorner])
   end)%M.

(** PLACE HOUSES *)
Definition placeHouses (parkBlock : Block) (map : TileMap) : M (TileMap * list House) :=
  forEachM (range 0 (MAP_HEIGHT - 3))
    (fun y st => forEachM (range 0 (MAP_WIDTH - 4)) (placeHouse parkBlock y) st)
    (map, []).

Definition inBlock (b : Block) (x y : Z) : bool :=
  (x >=? Block.x b) && (x <? Block.x b + Block.w b)
  && (y >=? Block.y b) && (y <? Block.y b + Block.h b).

(** The tiles of [for (y = y0; y <= y1; y++) for (x = x0; x <= x1; x++)]. *)
Definition cityTiles (x0 x1 y0 y1 : Z) : list (Z * Z) :=
  flat_map (fun y => (fun x => (y, x)) <$> range x0 (x1 + 1)) (range y0 (y1 + 1)).

(** FILL REMAINING SPACE: grass inside the road grid becomes garden. *)
Definition fillGardens (parkBlock : Block) (tiles : list (Z * Z)) (map : TileMap)
  : Res TileMap :=
  forEachR tiles
    (fun '(y, x) map =>
       if inBlock parkBlock x y then Ok map
       else (let? grass := tileIs map y x GRASS in
             if grass then setTile map y x GARDEN else Ok map)%R) map.

(** A tree: a 20 by 20 static object. *)
Definition tree (px py : Z) : Entity :=
  Entity.mk (vec (inject_Z px) (inject_Z py)) (vec 20 20).

(** DECORATE GARDENS (POOLS, TREES): the loop body at tile [(x, y)]. *)
Definition decorateGarden (cityMaxX cityMaxY : Z) (yx : Z * Z)
    (st : TileMap * list Entity) : M (TileMap * list Entity) :=
  let '(y, x) := yx in
  let '(map, staticObjects) := st in
  (let! garden := tileIs map y x GARDEN in
   if negb garden then ret st else
   let* r := Math_random in
   if (r <? 0.05)%js then
     (* Try to place a Pool (3x2) *)
     let pw := 3 in
     let ph := 2 in
     let! canPool :=
       (if (x + pw >? cityMaxX) || (y + ph >? cityMaxY) then Ok false
        else everyR (fun '(dy, dx) =>
                       (let? g := tileIs map (y + dy) (x + dx) GARDEN in
                        let? adj := hasAdjacentRoad map (x + dx) (y + dy) in
                        Ok (g && negb adj))%R)
                    (offsets ph pw)) in
     if canPool then
       let! map := forEachR (offsets ph pw)
                     (fun '(dy, dx) map => setTile map (y + dy) (x + dx) WATER) map in
       ret (map, staticObjects)
     else ret st
   else
   let* r := Math_random in
   if (r <? 0.15)%js then
     (* Try to place Trees *)
     ret (map, staticObjects
               ++ [tree (x * TILE_SIZE + TILE_SIZE / 2 - 10) (y * TILE_SIZE + TILE_SIZE / 2 - 10)])
   else
   let* r := Math_random in
   if (r <? 0.05)%js then
     (* Try to place Patio (Footpath patch) *)
     let! map := setTile map y x FOOTPATH in
     ret (map, staticObjects)
   else ret st)%M.

(** GENERATE FOOTPATHS & DECORATION (Roadside): [neighbors] holds [[dy, dx]]. *)
Definition roadNextTo (map : TileMap) (x y : Z) : Res bool :=
  someR (fun '(dy, dx) =>
           let ny := y + dy in
           let nx := x + dx in
           andR ((ny >=? 0) && (ny <? MAP_HEIGHT) && (nx >=? 0) && (nx <? MAP_WIDTH))
                (tileIs map ny nx ROAD))
        [(0, 1); (0, -1); (1, 0); (-1, 0)].

Definition footpathAt (yx : Z * Z) (st : TileMap * list Entity)
  : M (TileMap * list Entity) :=
  let '(y, x) := yx in
  let '(map, staticObjects) := st in
  (let! garden := tileIs map y x GARDEN in
   let! grass := (if garden then Ok true else tileIs map y x GRASS) in
   if negb grass then ret st else
   let! hasRoad := roadNextTo map x y in
   if negb hasRoad then ret st else
   let! map := setTile map y x FOOTPATH in
   (* Street Trees *)
   let* r := Math_random in
   if (r >? 0.8)%js
   then ret (map, staticObjects
                  ++ [tree (x * TILE_SIZE + TILE_SIZE / 2 - 10)
                           (y * TILE_SIZE + TILE_SIZE / 2 - 10)])
   else ret (map, staticObjects))%M.

(** DECORATE PARK *)
Definition decoratePark (parkBlock : Block)
    (st : TileMap * list Entity * list Puddle) : M (TileMap * list Entity * list Puddle) :=
  let '(map, staticObjects, puddles) := st in
  if negb (Block.w parkBlock >? 0) then ret st else
  let pondW := Z.min (Block.w parkBlock - 2) 4 in
  let pondH := Z.min (Block.h parkBlock - 2) 3 in
  let pondX := Block.x parkBlock + (Block.w parkBlock - pondW) / 2 in
  let pondY := Block.y parkBlock + (Block.h parkBlock - pondH) / 2 in
  let wPx := pondW * TILE_SIZE in
  let hPx := pondH * TILE_SIZE in
  (* the outline: ten segments, two draws each *)
  (let* _ := skip 20 in
   let puddles :=
     puddles ++ [Puddle.mk (vec (inject_Z (pondX * TILE_SIZE)) (inject_Z (pondY * TILE_SIZE)))
                           (vec (inject_Z wPx) (inject_Z hPx))] in
   let* '(map, staticObjects) :=
     forEachM
       (flat_map (fun y => (fun x => (y, x))
                             <$> range (Block.x parkBlock) (Block.x parkBlock + Block.w parkBlock))
                 (range (Block.y parkBlock) (Block.y parkBlock + Block.h parkBlock)))
       (fun '(y, x) '(map, staticObjects) =>
          let! footpath := tileIs map y x FOOTPATH in
          let! map := (if footpath then Ok map else setTile map y x GARDEN) in
          (* Don't place trees in pond *)
          if (x >=? pondX) && (x <? pondX + pondW) && (y >=? pondY) && (y <? pondY + pondH)
          then ret (map, staticObjects)
          else
          let* r := Math_random in
          if (r >? 0.6)%js
          then ret (map, staticObjects ++ [tree (x * TILE_SIZE + 6) (y * TILE_SIZE + 6)])
          else ret (map, staticObjects))
       (map, staticObjects) in
   ret (map, staticObjects, puddles))%M.

(** [houses[i].isTarget = v]; a [TypeError] when [houses[i]] is undefined. *)
Definition setTarget (houses : list House) (i : Z) (v : bool) : Res (list House) :=
  match at_ houses i with
  | Some h => Ok (<[Z.to_nat i := House.set_isTarget v h]> houses)
  | None => Throw
  end.

(** [if (houses.length > 0) houses[random index].isTarget = true] *)
Definition chooseInitialTarget (houses : list House) : M (list House) :=
  if (Z.of_nat (length houses) >? 0) then
    (let* i := randomIndex (Z.of_nat (length houses)) in
     liftR (setTarget houses i true))%M
  else ret houses.

(** Start on a valid road: the inner loop breaks at the first road tile of
    a row, the outer loop goes on, so the last row with a road decides. *)
Fixpoint firstRoadInRow (map : TileMap) (y : Z) (xs : list Z) : Res (option Z) :=
  match xs with
  | [] => Ok None
  | x :: xs' =>
      (let? road := tileIs map y x ROAD in
       if road then Ok (Some x) else firstRoadInRow map y xs')%R
  end.

Definition findStartPos (map : TileMap) : Res Vector2 :=
  forEachR (range 0 MAP_HEIGHT)
    (fun y startPos =>
       (let? found := firstRoadInRow map y (range 0 MAP_WIDTH) in
        match found with
        | Some x => Ok (vec (inject_Z (x * TILE_SIZE + 10)) (inject_Z (y * TILE_SIZE + 10)))
        | None => Ok startPos
        end)%R)
    (vec 64 64).

(** RANDOM PUDDLES: one iteration of the loop. *)
Definition addPuddle (map : TileMap) (puddles : list Puddle) : M (list Puddle) :=
  (let* rw := Math_random in
   let w := (15 + rw * 13)%Q in
   let* rh := Math_random in
   let h := (12 + rh * 10)%Q in
   let* pos := getRandomRoadPosition map (vec w h) (puddleBox <$> puddles) in
   let* n := randomIndex 4 in
   let segments := 8 + n in
   let* _ := skip (2 * Z.to_nat segments) in
   ret (puddles ++ [Puddle.mk pos (vec w h)]))%M.

(** Spawn Cars at Houses *)
Definition spawnCar (h : House) (cars : list Car) : M (list Car) :=
  (let* r := Math_random in
   if (r >? 0.5)%js then
     let carX := (Vector2.x (House.drivewayPos h) + 6)%Q in
     let carY := (Vector2.y (House.drivewayPos h) + 6)%Q in
     ret (cars ++ [Car.mk (vec carX carY) (vec 22 12) (vec 0 0) CAR_SPEED 0
                          (if bool_decide (House.facing h = Up) then Down else Up)
                          PARKED (vec carX carY)])
   else ret cars)%M.

Definition initGame (fuel : nat) (w : Round) : M Round :=
  (* 1. Generate Map Grid *)
  let map := grassMap in
  (* IRREGULAR ROAD GENERATION: perimeters first *)
  let vRoads := [2; MAP_WIDTH - 4] in
  let hRoads := [2; MAP_HEIGHT - 4] in
  (let* vRoads := addLines fuel vRoads (MAP_WIDTH - 4) 10 in
   let* hRoads := addLines fuel hRoads (MAP_HEIGHT - 4) 10 in
   let! map := rasterizeV vRoads map in
   let! map := rasterizeH hRoads map in
   let parkBlock := chooseParkBlock vRoads hRoads in
   let* '(map, houses) := placeHouses parkBlock map in
   let tiles :=
     match head vRoads, last vRoads, head hRoads, last hRoads with
     | Some cityMinX, Some vLast, Some cityMinY, Some hLast =>
         Some (vLast + 1, hLast + 1, cityTiles cityMinX (vLast + 1) cityMinY (hLast + 1))
     | _, _, _, _ => None
     end in
   let* '(map, staticObjects) :=
     match tiles with
     | Some (cityMaxX, cityMaxY, tiles) =>
         let! map := fillGardens parkBlock tiles map in
         forEachM tiles (decorateGarden cityMaxX cityMaxY) (map, [])
     | None => ret (map, [])
     end in
   let* '(map, staticObjects) :=
     forEachM (cityTiles 0 (MAP_WIDTH - 1) 0 (MAP_HEIGHT - 1)) footpathAt
              (map, staticObjects) in
   let* '(map, staticObjects, puddles) := decoratePark parkBlock (map, staticObjects, []) in
   let* houses := chooseInitialTarget houses in
   let! startPos := findStartPos map in
   let* puddles := forEachM (range 0 10) (fun _ puddles => addPuddle map puddles) puddles in
   let* cars := forEachM houses spawnCar [] in
   let* now := performance_now in
   let p := GameState.player (Round.state w) in
   let player :=
     Player.mk startPos (vec 14 14) (Player.velocity p) (Player.speed p)
               false 0 0 false (Player.direction p) (Player.stunned p) 0 3 3 0 in
   ret (Round.mk
          (GameState.mk true false 0 INITIAL_TIME 0 now 0 map vRoads hRoads
                        player houses cars puddles [] staticObjects [])
          (Round.lastTimeRef w) false EmptyString false (Round.lastMoveSoundTime w)))%M.

(** The value of the [state] ref and of the other refs when the component
    is created. *)
Definition mountState : Round :=
  Round.mk
    (GameState.mk false false 0 INITIAL_TIME 0 0 0 [] [] []
       (Player.mk (vec 0 0) (vec 14 14) (vec 0 0) PLAYER_SPEED false 0 0 false Right 0 0 3 3 0)
       [] [] [] [] [] [])
    0 false EmptyString false 0.

(** ** The tick: [update] and what it calls *)

(** [cars.filter(c => c.state === PARKED)], as positions in [cars]: the
    filtered array holds the same objects, so a write to one of its
    elements is a write to the car at that position. *)
Definition parkedIndices (cars : list Car) : list nat :=
  List.filter (fun i => match cars !! i with
                        | Some c => bool_decide (Car.state c = PARKED)
                        | None => false
                        end)
              (seq 0 (length cars)).

(** The direction [activateCar] gives the car: towards any adjacent road. *)
Definition mergeDirection (map : TileMap) (car : Car) : Res Direction :=
  let tileX := tileOf (Vector2.x (Car.pos car)) in
  let tileY := tileOf (Vector2.y (Car.pos car)) in
  (let? d := andR (tileY + 1 <? MAP_HEIGHT) (tileIs map (tileY + 1) tileX ROAD) in
   if d then Ok Down else
   let? u := andR (tileY - 1 >=? 0) (tileIs map (tileY - 1) tileX ROAD) in
   if u then Ok Up else
   let? r := andR (tileX + 1 <? MAP_WIDTH) (tileIs map tileY (tileX + 1) ROAD) in
   if r then Ok Right else
   let? l := andR (tileX - 1 >=? 0) (tileIs map tileY (tileX - 1) ROAD) in
   if l then Ok Left else Ok (Car.direction car))%R.

Definition activateCar (s : GameState) : M GameState :=
  let cars := GameState.cars s in
  let parkedCars := parkedIndices cars in
  if (Z.of_nat (length parkedCars) >? 0) then
    (let* k := randomIndex (Z.of_nat (length parkedCars)) in
     match at_ parkedCars k with
     | None => throw
     | Some i =>
         match cars !! i with
         | None => throw
         | Some car =>
             let car := Car.set_state MERGING car in
             let car :=
               if (GameState.trafficPauseTimer s >? 0)%js
               then Car.set_frozenTimer (GameState.trafficPauseTimer s) car
               else car in
             let! d := mergeDirection (GameState.map s) car in
             ret (GameState.set_cars (<[i := Car.set_direction d car]> cars) s)
         end
     end)%M
  else ret s.

(** [types[Math.floor(Math.random() * types.length)]] *)
Definition powerUpTypes : list PowerUpType := [COFFEE; TRAFFIC_LIGHT; CLOCK; RAINCOAT].

Definition spawnPowerUp (s : GameState) : M GameState :=
  (let* i := randomIndex (Z.of_nat (length powerUpTypes)) in
   let kind := at_ powerUpTypes i in
   let* pos := getRandomRoadPosition (GameState.map s) (vec 16 16)
                                     (puddleBox <$> GameState.puddles s) in
   let life := 10%Q in
   let* _ := skip 1 in
   ret (GameState.set_powerups
          (GameState.powerups s ++ [PowerUp.mk kind pos (vec 16 16) (Some life) (Some life)]) s))%M.

(** What a tick phase hands on: [Return] stands for the [return] that
    leaves [update] in the middle. *)
Inductive Step (A : Type) : Type :=
| Continue (a : A)
| Return (a : A).
Arguments Continue {A} a.
Arguments Return {A} a.

(** [s.isGameOver = true; gameOverReasonRef.current = reason] *)
Definition gameOver (reason : string) (w : Round) : Round :=
  Round.set_gameOverReasonRef reason
    (Round.set_state (GameState.set_isGameOver true (Round.state w)) w).

(** [checkMove], the closure of [update] *)
Definition checkMove (s : GameState) (p : Player) (nextPos : Vector2) : Res bool :=
  (let? walkable := isWalkable nextPos (Player.size p) (GameState.map s) in
   if negb walkable then Ok false
   else Ok (negb (existsb (checkCollision (Entity.mk nextPos (Player.size p)))
                          (GameState.staticObjects s))))%R.

(** The movement resolver: the horizontal displacement is tested and
    committed first, then the vertical one. *)
Definition movePlayer (s : GameState) (desiredX desiredY : Q) (p : Player) : Res Player :=
  (let nextPos := vec (Vector2.x (Player.pos p) + desiredX) (Vector2.y (Player.pos p)) in
   let? okX := checkMove s p nextPos in
   let p := if okX
            then Player.set_pos (vec (Vector2.x nextPos) (Vector2.y (Player.pos p))) p
            else p in
   let nextPos := vec (Vector2.x (Player.pos p)) (Vector2.y (Player.pos p) + desiredY) in
   let? okY := checkMove s p nextPos in
   Ok (if okY
       then Player.set_pos (vec (Vector2.x (Player.pos p)) (Vector2.y nextPos)) p
       else p))%R.

(** [p.health -= 1; p.invulnerabilityTimer = 2.0], the sound and the popup
    (two draws); the flag tells whether [p.health <= 0]. *)
Definition takeHit (p : Player) : M (Player * bool) :=
  let p := Player.set_health (Player.health p - 1) p in
  let p := Player.set_invulnerabilityTimer 2.0 p in
  (let* _ := skip 2 in
   ret (p, Player.health p <=? 0))%M.

Definition newDirection (currentInput : Input) (d : Direction) : Direction :=
  let d := if (Qabs (Input.x currentInput) >? 0.1)%js
           then (if (Input.x currentInput >? 0)%js then Right else Left) else d in
  if (Qabs (Input.y currentInput) >? 0.1)%js
  then (if (Input.y currentInput >? 0)%js then Down else Up) else d.

(** Player Movement, up to and including the puddle check. *)
Definition playerPhase (deltaTime : Q) (currentInput : Input) (w : Round)
  : M (Step Round) :=
  let s := Round.state w in
  let p := GameState.player s in
  if (Player.stunned p >? 0)%js then
    let p := Player.set_stunned (Player.stunned p - deltaTime) p in
    let p := Player.set_velocity (vec 0 0) p in
    ret (Continue (Round.set_state (GameState.set_player p s) w))
  else
  let currentSpeed := if Player.isBoosting p then BOOST_SPEED else Player.speed p in
  let desiredX := (Input.x currentInput * currentSpeed)%Q in
  let desiredY := (Input.y currentInput * currentSpeed)%Q in
  (* Sound for movement (subtle tick) *)
  (let* w :=
     (if (Qabs desiredX >? 0.1)%js || (Qabs desiredY >? 0.1)%js then
        let* t := performance_now in
        if (t - Round.lastMoveSoundTime w >? 200)%js then
          let* t' := performance_now in
          ret (Round.set_lastMoveSoundTime t' w)
        else ret w
      else ret w) in
   let p := Player.set_direction (newDirection currentInput (Player.direction p)) p in
   (* Boost Logic *)
   let isDashPressed := Input.dash currentInput in
   let isDashTriggered := isDashPressed && negb (Round.prevDashRef w) in
   let w := Round.set_prevDashRef isDashPressed w in
   let* p :=
     (if isDashTriggered && (Player.boostCharge p >=? 1) && negb (Player.isBoosting p) then
        let p := Player.set_boostCharge (Player.boostCharge p - 1) p in
        let p := Player.set_isBoosting true p in
        let p := Player.set_boostTimer 0.5 p in
        let* _ := skip 15 in
        ret p
      else ret p) in
   let p :=
     if Player.isBoosting p then
       let p := Player.set_boostTimer (Player.boostTimer p - deltaTime) p in
       if (Player.boostTimer p <=? 0)%js then Player.set_isBoosting false p else p
     else p in
   let! p := movePlayer s desiredX desiredY p in
   let inPuddle := existsb (fun pud => checkCollision (playerBox p) (puddleBox pud))
                           (GameState.puddles s) in
   (* Puddle immunity check *)
   if inPuddle && negb (Player.isBoosting p) && (Player.puddleImmunity p <=? 0)%js
      && (Player.invulnerabilityTimer p <=? 0)%js
   then
     let* '(p, dead) := takeHit p in
     let w := Round.set_state (GameState.set_player p s) w in
     if dead then ret (Return (gameOver "HEALTH" w)) else ret (Continue w)
   else ret (Continue (Round.set_state (GameState.set_player p s) w)))%M.

(** The two countdowns between the movement and the delivery. *)
Definition buffTimers (deltaTime : Q) (p : Player) : Player :=
  let p := if (Player.invulnerabilityTimer p >? 0)%js
           then Player.set_invulnerabilityTimer (Player.invulnerabilityTimer p - deltaTime) p
           else p in
  if (Player.puddleImmunity p >? 0)%js
  then Player.set_puddleImmunity (Player.puddleImmunity p - deltaTime) p
  else p.

(** [houses.find(h => h.isTarget)], as a position in [houses]. *)
Definition findTarget (houses : list House) : option nat :=
  match findIndex House.isTarget houses with
  | Zneg _ => None
  | i => Some (Z.to_nat i)
  end.

(** [do nextHouse = houses[random index] while (nextHouse === targetHouse)]:
    two elements of [houses] are the same object exactly when they sit at
    the same position. *)
Fixpoint pickNextHouse (fuel : nat) (count : Z) (target : Z) : M Z :=
  match fuel with
  | O => diverge
  | S fuel' =>
      (let* i := randomIndex count in
       if i =? target then pickNextHouse fuel' count target else ret i)%M
  end.

(** Delivery Logic *)
Definition deliveryLogic (fuel : nat) (s : GameState) : M GameState :=
  match findTarget (GameState.houses s) with
  | None => ret s
  | Some target =>
      match GameState.houses s !! target with
      | None => ret s
      | Some targetHouse =>
          let p := GameState.player s in
          if distanceBelow (Player.pos p) (House.doorPos targetHouse) 80 then
            (let s := GameState.set_score (GameState.score s + 1) s in
             let s := GameState.set_deliveries (GameState.deliveries s + 1) s in
             let* _ := skip 1 in
             let* now := performance_now in
             let timeSinceLast := (now / 1000 - GameState.lastDeliveryTime s)%Q in
             let bonusTime := if (timeSinceLast <? 5)%js then 4%Q else 2%Q in
             let s := GameState.set_timer
                        (Qmin (GameState.timer s + bonusTime) INITIAL_TIME) s in
             let* now := performance_now in
             let s := GameState.set_lastDeliveryTime (now / 1000)%Q s in
             (* Spawn Projectile (Visual of throw) *)
             let* _ := skip 1 in
             let from := vec (Vector2.x (Player.pos p) + 7) (Vector2.y (Player.pos p) + 7) in
             let s := GameState.set_projectiles
                        (GameState.projectiles s
                         ++ [Projectile.mk from from
                               (vec (Vector2.x (House.doorPos targetHouse) + 6)
                                    (Vector2.y (House.doorPos targetHouse) + 6))
                               0 0.3]) s in
             let houses := <[target := House.set_isTarget false targetHouse]>
                             (GameState.houses s) in
             let* next := pickNextHouse fuel (Z.of_nat (length houses)) (Z.of_nat target) in
             let! houses := setTarget houses next true in
             activateCar (GameState.set_houses houses s))%M
          else ret s
      end
  end.

(** Update Projectiles: a landed projectile turns into ten confetti
    particles (three draws each) and is removed. *)
Definition updateProjectiles (deltaTime : Q) (projs : list Projectile) : M (list Projectile) :=
  forEachM projs
    (fun proj kept =>
       let proj := Projectile.set_progress
                     (Projectile.progress proj + deltaTime / Projectile.duration proj)%Q proj in
       if (Projectile.progress proj >=? 1)%js
       then (let* _ := skip 30 in ret kept)%M
       else ret (kept ++ [proj]))
    [].

(** [pos] moved by [amount] along [d]. *)
Definition advance (d : Direction) (amount : Q) (pos : Vector2) : Vector2 :=
  match d with
  | Right => vec (Vector2.x pos + amount) (Vector2.y pos)
  | Left => vec (Vector2.x pos - amount) (Vector2.y pos)
  | Up => vec (Vector2.x pos) (Vector2.y pos - amount)
  | Down => vec (Vector2.x pos) (Vector2.y pos + amount)
  end.

Definition addVelocity (car : Car) : Car :=
  Car.set_pos (vec (Vector2.x (Car.pos car) + Vector2.x (Car.velocity car))
                   (Vector2.y (Car.pos car) + Vector2.y (Car.velocity car))) car.

(** [car.state = PARKED; car.pos = { ...car.homePos }; car.velocity = 0] *)
Definition teleportHome (car : Car) : Car :=
  Car.set_velocity (vec 0 0) (Car.set_pos (Car.homePos car) (Car.set_state PARKED car)).

Definition carCenterX (car : Car) : Q := (Vector2.x (Car.pos car) + Vector2.x (Car.size car) / 2)%Q.
Definition carCenterY (car : Car) : Q := (Vector2.y (Car.pos car) + Vector2.y (Car.size car) / 2)%Q.

(** RETURNING STATE: Moving to parking spot *)
Definition stepReturning (map : TileMap) (car : Car) : Res Car :=
  let tx := tileOf (carCenterX car) in
  let ty := tileOf (carCenterY car) in
  (let? onDriveway := tileIs map ty tx DRIVEWAY in
   if onDriveway then
     let speed := (Car.speed car * 0.5)%Q in
     let car := Car.set_pos (advance (Car.direction car) speed (Car.pos car)) car in
     let nextTx :=
       tileOf (carCenterX car
               + match Car.direction car with
                 | Right => speed * 5 | Left => - speed * 5 | _ => 0
                 end)%Q in
     let nextTy :=
       tileOf (carCenterY car
               + match Car.direction car with
                 | Down => speed * 5 | Up => - speed * 5 | _ => 0
                 end)%Q in
     let? leaves :=
       (if outOfMap nextTx nextTy then Ok true
        else (let? d := tileIs map nextTy nextTx DRIVEWAY in Ok (negb d))) in
     Ok (if leaves then Car.set_state PARKED car else car)
   else Ok (addVelocity car))%R.

Definition flowVelocity (f : Flow) (speed : Q) : Vector2 :=
  vec (inject_Z (Flow.x f) * speed) (inject_Z (Flow.y f) * speed).

(** MERGING: half speed towards the road, then onto the flow of the tile. *)
Definition stepMerging (s : GameState) (car : Car) : Res Car :=
  let speed := (Car.speed car * 0.5)%Q in
  let car := Car.set_pos (advance (Car.direction car) speed (Car.pos car)) car in
  let tx := tileOf (carCenterX car) in
  let ty := tileOf (carCenterY car) in
  (let? onRoad := andR (negb (outOfMap tx ty)) (tileIs (GameState.map s) ty tx ROAD) in
   if onRoad then
     let car := Car.set_state DRIVING car in
     let car :=
       Car.set_pos (vec (inject_Z (tx * TILE_SIZE) + (inject_Z TILE_SIZE - Vector2.x (Car.size car)) / 2)
                        (inject_Z (ty * TILE_SIZE) + (inject_Z TILE_SIZE - Vector2.y (Car.size car)) / 2))
                   car in
     let flows := getTrafficFlow tx ty (GameState.vRoads s) (GameState.hRoads s) in
     match flows with
     | bestFlow :: _ =>
         Ok (Car.set_velocity (flowVelocity bestFlow (Car.speed car))
                              (Car.set_direction (Flow.d bestFlow) car))
     | [] => Ok car
     end
   else Ok car)%R.

(** [isRoad], the closure of the turning logic *)
Definition isRoad (map : TileMap) (tx ty : Z) : Res bool :=
  if outOfMap tx ty then Ok false else tileIs map ty tx ROAD.

(** [allowedFlows.filter(...)]: the flow options a car heading
    [direction] may take from tile [(tileX, tileY)]. *)
Definition flowIsValid (map : TileMap) (tileX tileY : Z) (direction : Direction)
    (flow : Flow) : Res bool :=
  let tx := tileX + Flow.x flow in
  let ty := tileY + Flow.y flow in
  (let? ahead := isRoad map tx ty in
   if negb ahead then Ok false
   else if negb (bool_decide (Flow.d flow = direction)) then
     let ttx := tx + Flow.x flow in
     let tty := ty + Flow.y flow in
     isRoad map ttx tty
   else Ok true)%R.

Fixpoint filterR {A} (f : A -> Res bool) (l : list A) : Res (list A) :=
  match l with
  | [] => Ok []
  | a :: l' =>
      (let? keep := f a in
       let? rest := filterR f l' in
       Ok (if keep then a :: rest else rest))%R
  end.

Definition validOptionsAt (s : GameState) (tileX tileY : Z) (direction : Direction)
  : Res (list Flow) :=
  filterR (flowIsValid (GameState.map s) tileX tileY direction)
          (getTrafficFlow tileX tileY (GameState.vRoads s) (GameState.hRoads s)).

Definition reverseDir (d : Direction) : Direction :=
  match d with
  | Left => Right
  | Right => Left
  | Up => Down
  | Down => Up
  end.

Module Neighbor.
Record t := mk { dx : Z; dy : Z; d : Direction }.
End Neighbor.

Definition neighbors : list Neighbor.t :=
  [ Neighbor.mk 1 0 Right; Neighbor.mk (-1) 0 Left;
    Neighbor.mk 0 1 Down; Neighbor.mk 0 (-1) Up ].

(** The first neighbour of the tile, in the order of [neighbors], that is
    inside the map and a driveway. *)
Fixpoint findDriveway (map : TileMap) (tileX tileY : Z) (ns : list Neighbor.t)
  : Res (option Neighbor.t) :=
  match ns with
  | [] => Ok None
  | n :: ns' =>
      let nx := tileX + Neighbor.dx n in
      let ny := tileY + Neighbor.dy n in
      (let? found := andR (negb (outOfMap nx ny)) (tileIs map ny nx DRIVEWAY) in
       if found then Ok (Some n) else findDriveway map tileX tileY ns')%R
  end.

(** What the DRIVING branch does before its common tail ([Return] stands
    for [continue]: the tail is skipped). *)
Definition turningLogic (s : GameState) (car : Car) : M (Step Car) :=
  let tileX := tileOf (carCenterX car) in
  let tileY := tileOf (carCenterY car) in
  let targetCenterX := (inject_Z (tileX * TILE_SIZE) + inject_Z TILE_SIZE / 2)%Q in
  let targetCenterY := (inject_Z (tileY * TILE_SIZE) + inject_Z TILE_SIZE / 2)%Q in
  let snapped :=
    vec (targetCenterX - Vector2.x (Car.size car) / 2)
        (targetCenterY - Vector2.y (Car.size car) / 2) in
  (let* r := Math_random in
   let! driveway :=
     (if (r <? 0.1)%js then findDriveway (GameState.map s) tileX tileY neighbors
      else Ok None) in
   match driveway with
   | Some n =>
       let car := Car.set_state RETURNING car in
       let car := Car.set_direction (Neighbor.d n) car in
       let car := Car.set_velocity
                    (vec (inject_Z (Neighbor.dx n) * Car.speed car * 0.5)
                         (inject_Z (Neighbor.dy n) * Car.speed car * 0.5)) car in
       ret (Return (Car.set_pos snapped car))
   | None =>
       let! validOptions := validOptionsAt s tileX tileY (Car.direction car) in
       match validOptions with
       | [] =>
           (* Dead end or error, teleport home *)
           ret (Return (teleportHome car))
       | _ :: _ =>
           let candidates :=
             List.filter (fun o => negb (bool_decide (Flow.d o = reverseDir (Car.direction car))))
                         validOptions in
           let candidates := match candidates with [] => validOptions | _ => candidates end in
           let straight :=
             List.find (fun o => bool_decide (Flow.d o = Car.direction car)) candidates in
           let* i := randomIndex (Z.of_nat (length candidates)) in
           let choice := at_ candidates i in
           let* choice :=
             match straight with
             | Some st =>
                 let* r := Math_random in
                 ret (if (r >? 0.4)%js then Some st else choice)
             | None => ret choice
             end in
           match choice with
           | Some choice =>
               if negb (bool_decide (Flow.d choice = Car.direction car)) then
                 let car := Car.set_pos snapped car in
                 let car := Car.set_velocity (flowVelocity choice (Car.speed car)) car in
                 ret (Continue (Car.set_direction (Flow.d choice) car))
               else
                 ret (Continue (Car.set_velocity (flowVelocity choice (Car.speed car)) car))
           | None => ret (Continue car)
           end
       end
   end)%M.

(** The drift back to the lane centre between two tile centres. *)
Definition laneCorrection (car : Car) : Car :=
  let tileX := tileOf (carCenterX car) in
  let tileY := tileOf (carCenterY car) in
  let targetCenterX := (inject_Z (tileX * TILE_SIZE) + inject_Z TILE_SIZE / 2)%Q in
  let targetCenterY := (inject_Z (tileY * TILE_SIZE) + inject_Z TILE_SIZE / 2)%Q in
  match Car.direction car with
  | Left | Right =>
      let diff := (targetCenterY - carCenterY car)%Q in
      if (Qabs diff >? 1)%js
      then Car.set_pos (vec (Vector2.x (Car.pos car)) (Vector2.y (Car.pos car) + diff * 0.1)) car
      else car
  | Up | Down =>
      let diff := (targetCenterX - carCenterX car)%Q in
      if (Qabs diff >? 1)%js
      then Car.set_pos (vec (Vector2.x (Car.pos car) + diff * 0.1) (Vector2.y (Car.pos car))) car
      else car
  end.

Definition distToCenter (car : Car) : Q :=
  let tileX := tileOf (carCenterX car) in
  let tileY := tileOf (carCenterY car) in
  let targetCenterX := (inject_Z (tileX * TILE_SIZE) + inject_Z TILE_SIZE / 2)%Q in
  let targetCenterY := (inject_Z (tileY * TILE_SIZE) + inject_Z TILE_SIZE / 2)%Q in
  (Qabs (carCenterX car - targetCenterX) + Qabs (carCenterY car - targetCenterY))%Q.

Definition offMapPixels (pos : Vector2) : bool :=
  ((Vector2.x pos <? 0)%js || (Vector2.x pos >? inject_Z MAP_PIXEL_WIDTH)%js
   || (Vector2.y pos <? 0)%js || (Vector2.y pos >? inject_Z MAP_PIXEL_HEIGHT)%js)%bool.

(** One iteration of the [for (const car of s.entities.cars)] loop.  The
    flag of the result tells that [update] returned inside it (the round
    ended on health). *)
Definition carStep (s : GameState) (deltaTime : Q) (p : Player) (car : Car)
  : M (Player * Car * bool) :=
  if (Car.frozenTimer car >? 0)%js then
    ret (p, Car.set_frozenTimer (Car.frozenTimer car - deltaTime) car, false)
  else
  match Car.state car with
  | PARKED => ret (p, car, false)
  | RETURNING =>
      (let! car := stepReturning (GameState.map s) car in ret (p, car, false))%M
  | MERGING =>
      (let! car := stepMerging s car in
       if checkCollision (playerBox p) (carBox car) && negb (Player.isBoosting p)
          && (Player.invulnerabilityTimer p <=? 0)%js
       then (let* '(p, dead) := takeHit p in ret (p, car, dead))
       else ret (p, car, false))%M
  | DRIVING =>
      (let* turned :=
         (if (distToCenter car <? Car.speed car)%js then turningLogic s car
          else ret (Continue (laneCorrection car))) in
       match turned with
       | Return car => ret (p, car, false)
       | Continue car =>
           let car := addVelocity car in
           let car := if offMapPixels (Car.pos car) then teleportHome car else car in
           if checkCollision (playerBox p) (carBox car) && (Player.stunned p <=? 0)%js
              && negb (Player.isBoosting p) && (Player.invulnerabilityTimer p <=? 0)%js
           then (let* '(p, dead) := takeHit p in ret (p, car, dead))
           else ret (p, car, false)
       end)%M
  end.

(** Car Logic: the loop over the cars; the cars after the one at which
    [update] returned are left as they were. *)
Fixpoint carLoop (s : GameState) (deltaTime : Q) (p : Player) (cars : list Car)
  : M (Player * list Car * bool) :=
  match cars with
  | [] => ret (p, [], false)
  | car :: rest =>
      (let* '(p, car, dead) := carStep s deltaTime p car in
       if dead then ret (p, car :: rest, true)
       else
         let* '(p, rest, dead) := carLoop s deltaTime p rest in
         ret (p, car :: rest, dead))%M
  end.

(** The effect of a collected power-up ([switch (pup.kind)]) and its popup. *)
Definition applyPowerUp (kind : option PowerUpType) (s : GameState) : M GameState :=
  let p := GameState.player s in
  match kind with
  | Some COFFEE =>
      let p := Player.set_boostCharge (Z.min (Player.boostCharge p + 1) MAX_BOOST_CHARGE) p in
      let p := Player.set_boostUnlocked true p in
      let p := Player.set_health (Z.min (Player.health p + 1) (Player.maxHealth p)) p in
      (let* _ := skip 1 in ret (GameState.set_player p s))%M
  | Some CLOCK =>
      (let* _ := skip 1 in
       ret (GameState.set_timer (Qmin (GameState.timer s + 10) INITIAL_TIME) s))%M
  | Some TRAFFIC_LIGHT =>
      let s := GameState.set_cars (Car.set_frozenTimer 10.0 <$> GameState.cars s) s in
      (let* _ := skip 1 in ret (GameState.set_trafficPauseTimer 10.0 s))%M
  | Some RAINCOAT =>
      (let* _ := skip 1 in
       ret (GameState.set_player (Player.set_puddleImmunity 10.0 p) s))%M
  | None => ret s
  end.

(** [s.entities.powerups = s.entities.powerups.filter(...)]: the state and
    the power-ups kept so far. *)
Definition powerUpStep (deltaTime : Q) (pup : PowerUp) (st : GameState * list PowerUp)
  : M (GameState * list PowerUp) :=
  let '(s, kept) := st in
  let pup := match PowerUp.life pup with
             | Some life => PowerUp.set_life (Some (life - deltaTime)%Q) pup
             | None => pup
             end in
  if match PowerUp.life pup with Some life => (life <=? 0)%js | None => false end
  then ret (s, kept)
  else if checkCollision (playerBox (GameState.player s)) (powerupBox pup)
  then (let* s := applyPowerUp (PowerUp.kind pup) s in ret (s, kept))%M
  else ret (s, kept ++ [pup]).

Definition updatePowerUps (deltaTime : Q) (s : GameState) : M GameState :=
  (let* '(s, kept) := forEachM (GameState.powerups s) (powerUpStep deltaTime) (s, []) in
   ret (GameState.set_powerups kept s))%M.

Definition spawnChance (timer : Q) : Q :=
  if (timer <=? 60)%js
  then (let intensity := 1 - Qmax 0 timer / 60 in 0.01 + intensity * 0.04)%Q
  else 0.01%Q.

Definition update (fuel : nat) (deltaTime : Q) (currentInput : Input) (w : Round) : M Round :=
  let s := Round.state w in
  if negb (GameState.isPlaying s) || GameState.isGameOver s then ret w else
  let s := GameState.set_timer (GameState.timer s - deltaTime)%Q s in
  if (GameState.timer s <=? 0)%js then ret (gameOver "TIMEOUT" (Round.set_state s w)) else
  let s := if (GameState.trafficPauseTimer s >? 0)%js
           then GameState.set_trafficPauseTimer (GameState.trafficPauseTimer s - deltaTime)%Q s
           else s in
  (let* r := Math_random in
   let* s := (if (r <? spawnChance (GameState.timer s))%js then activateCar s else ret s) in
   let* r := Math_random in
   let* s := (if (r <? 0.005)%js && (Z.of_nat (length (GameState.powerups s)) <? 5)
              then spawnPowerUp s else ret s) in
   let* moved := playerPhase deltaTime currentInput (Round.set_state s w) in
   match moved with
   | Return w => ret w
   | Continue w =>
       let s := Round.state w in
       let s := GameState.set_player (buffTimers deltaTime (GameState.player s)) s in
       let* s := deliveryLogic fuel s in
       let* projectiles := updateProjectiles deltaTime (GameState.projectiles s) in
       let s := GameState.set_projectiles projectiles s in
       let* '(p, cars, dead) := carLoop s deltaTime (GameState.player s) (GameState.cars s) in
       let s := GameState.set_cars cars (GameState.set_player p s) in
       if dead then ret (gameOver "HEALTH" (Round.set_state s w))
       else
         let* s := updatePowerUps deltaTime s in
         ret (Round.set_state s w)
   end)%M.

(** ** The frame driver *)

(** What one animation frame brings from outside. *)
Module Frame.
Record t := mk { time : Q; isPaused : bool; input : Input }.
End Frame.
Abbreviation Frame := Frame.t.

(** [drawHouse]: the walls of a ['rect'] house are one pitched rectangle,
    those of an ['L'] house two; on a house of style 3 [drawPitchedRect]
    puts ten specks of brick noise on each, at [x + Math.random()*w] and
    [y + Math.random()*rectH]. *)
Definition pitchedRects (h : House) : nat :=
  match House.shape h with
  | ShapeRect => 1
  | ShapeL => 2
  end.

Definition drawHouse (h : House) : M unit :=
  if House.style h =? 3 then skip (20 * pitchedRects h) else ret tt.

(** [draw]: it only reads the round state, and every house is drawn, on or
    off the screen ([s.entities.houses.forEach(h => drawHouse(ctx, h))]);
    what is kept of it are the draws of [drawHouse]. *)
Definition draw (s : GameState) : M unit :=
  forEachM (GameState.houses s) (fun h _ => drawHouse h) tt.

(** [loop]: the clamped delta, the call of [update] and, with the canvas
    mounted, the call of [draw]; the game-over callback only reads the
    state, apart from [gameOverSentRef]. *)
Definition loop (fuel : nat) (f : Frame) (w : Round) : M Round :=
  let deltaTime := ((Frame.time f - Round.lastTimeRef w) / 1000)%Q in
  let w := Round.set_lastTimeRef (Frame.time f) w in
  (let* w :=
     (if negb (Frame.isPaused f) && negb (GameState.isGameOver (Round.state w))
      then let dt := Qmin deltaTime 0.1 in update fuel dt (Frame.input f) w
      else ret w) in
   let* _ := draw (Round.state w) in
   if GameState.isGameOver (Round.state w) && negb (Round.gameOverSentRef w)
   then ret (Round.set_gameOverSentRef true w)
   else ret w)%M.

(** The effect that starts the loop: [if (!isPlaying) initGame();
    lastTimeRef.current = performance.now()]. *)
Definition startLoop (fuel : nat) (w : Round) : M Round :=
  (let* w := (if negb (GameState.isPlaying (Round.state w)) then initGame fuel w else ret w) in
   let* now := performance_now in
   ret (Round.set_lastTimeRef now w))%M.


(** * The earlier variant of the component *)

(** [src/unnamed/part_000] holds an earlier variant of [GameLoop.tsx].  Its
    delivery block differs from the one above in the radius, in the score
    it adds and in the direction [activateCar] gives the car; the round
    state has a [combo] counter besides.  The block reads and writes only
    fields the two variants share, so the state is the one above with the
    counter added. *)
Module Earlier.

Record State := mk { base : GameState; combo : Z }.

(** [s.map[ty]?.[tx] === k] *)
Definition tileIsOpt (map : TileMap) (ty tx : Z) (k : TileType) : bool :=
  match at_ map ty with
  | Some row => bool_decide (row !! tx = Some k)
  | None => false
  end.

(** The direction [activateCar] gives the car: down or up, towards a road
    at most two tiles away. *)
Definition mergeDirection (map : TileMap) (car : Car) : Res Direction :=
  let tileX := tileOf (Vector2.x (Car.pos car)) in
  let tileY := tileOf (Vector2.y (Car.pos car)) in
  (let? d := andR (tileY + 1 <? MAP_HEIGHT)
                  (let? near := tileIs map (tileY + 1) tileX ROAD in
                   Ok (near || tileIsOpt map (tileY + 2) tileX ROAD)) in
   if d then Ok Down else
   let? u := andR (tileY - 1 >=? 0)
                  (let? near := tileIs map (tileY - 1) tileX ROAD in
                   Ok (near || tileIsOpt map (tileY - 2) tileX ROAD)) in
   if u then Ok Up else Ok (Car.direction car))%R.

Definition activateCar (s : GameState) : M GameState :=
  let cars := GameState.cars s in
  let parkedCars := parkedIndices cars in
  if (Z.of_nat (length parkedCars) >? 0) then
    (let* k := randomIndex (Z.of_nat (length parkedCars)) in
     match at_ parkedCars k with
     | None => throw
     | Some i =>
         match cars !! i with
         | None => throw
         | Some car =>
             let car := Car.set_state MERGING car in
             let car :=
               if (GameState.trafficPauseTimer s >? 0)%js
               then Car.set_frozenTimer (GameState.trafficPauseTimer s) car
               else car in
             let! d := mergeDirection (GameState.map s) car in
             ret (GameState.set_cars (<[i := Car.set_direction d car]> cars) s)
         end
     end)%M
  else ret s.

(** Delivery Logic *)
Definition deliveryLogic (fuel : nat) (s : State) : M State :=
  let g := base s in
  match findTarget (GameState.houses g) with
  | None => ret s
  | Some target =>
      match GameState.houses g !! target with
      | None => ret s
      | Some targetHouse =>
          let p := GameState.player g in
          if distanceBelow (Player.pos p) (House.doorPos targetHouse) 45 then
            (let g := GameState.set_score
                        (GameState.score g + (1 + (if combo s >? 5 then 1 else 0))) g in
             let combo := combo s + 1 in
             let g := GameState.set_deliveries (GameState.deliveries g + 1) g in
             let* now := performance_now in
             let timeSinceLast := (now / 1000 - GameState.lastDeliveryTime g)%Q in
             let bonusTime := if (timeSinceLast <? 5)%js then 4%Q else 2%Q in
             let g := GameState.set_timer
                        (Qmin (GameState.timer g + bonusTime) INITIAL_TIME) g in
             let* now := performance_now in
             let g := GameState.set_lastDeliveryTime (now / 1000)%Q g in
             (* ten confetti particles, three draws each *)
             let* _ := skip 30 in
             let houses := <[target := House.set_isTarget false targetHouse]>
                             (GameState.houses g) in
             let* next := pickNextHouse fuel (Z.of_nat (length houses)) (Z.of_nat target) in
             let! houses := setTarget houses next true in
             let* g := activateCar (GameState.set_houses houses g) in
             ret (mk g combo))%M
          else ret s
      end
  end.

End Earlier.
(** * Notions the statements use *)

(** ** The oracle *)

(** [Math.random()] returns a number in $[0, 1)$. *)
Definition rng_ok (o : Oracle) : Prop := forall i, (0 <= rand o i < 1)%Q.

(** [o'] is [o] after [n] more calls of [Math.random()] and no call of
    [performance.now()]. *)
Definition drawn (n : nat) (o o' : Oracle) : Prop :=
  rand o' = rand o /\ randCalls o' = (randCalls o + N.of_nat n)%N
  /\ perf o' = perf o /\ perfCalls o' = perfCalls o.


(** ** Road bands *)

(** A tile coordinate lies in the band that starts at [v]: bands are two
    tiles wide. *)
Definition inBand (t v : Z) : Prop := t = v \/ t = v + 1.

(** The band starts of one axis, sorted, no two bands sharing a tile. *)
Fixpoint bandsApart (roads : list Z) : Prop :=
  match roads with
  | [] => True
  | v :: rest => Forall (fun v' => v + 1 < v') rest /\ bandsApart rest
  end.

(** The rule in the words of the specification: [down] on a vertical band
    of even index, else [up]; [left] on a horizontal band of even index,
    else [right]. *)
Definition verticalFlow (i : nat) : Flow :=
  if Nat.even i then Flow.mk 0 1 Down else Flow.mk 0 (-1) Up.
Definition horizontalFlow (j : nat) : Flow :=
  if Nat.even j then Flow.mk (-1) 0 Left else Flow.mk 1 0 Right.

Definition bandTest (t v : Z) : bool := (t =? v) || (t =? v + 1).


(** ** Walkability *)

(** The point [c] falls on a tile inside the map whose kind is [ROAD]. *)
Definition onRoad (map : TileMap) (c : Vector2) : Prop :=
  let tx := tileOf (Vector2.x c) in
  let ty := tileOf (Vector2.y c) in
  (0 <= tx < MAP_WIDTH) /\ (0 <= ty < MAP_HEIGHT) /\ tileAt map ty tx = Ok (Some ROAD).

(** The players the movement resolver reaches from a player, by any
    sequence of displacements. *)
Inductive resolves (s : GameState) : Player -> Player -> Prop :=
| resolves_here p : resolves s p p
| resolves_move p dx dy p' p'' :
    movePlayer s dx dy p = Ok p' -> resolves s p' p'' -> resolves s p p''.

(** What [movePlayer] commits on each axis: the displaced coordinate when
    [checkMove] accepts the displaced box, the old one when it refuses. *)
Definition axisCommitted (test : Res bool) (old displaced new : Q) : Prop :=
  (test = Ok true /\ new = displaced) \/ (test = Ok false /\ new = old).

(** ** The bounded position search *)

(** [pos] is a position [getRandomRoadPosition] found, not its fallback: it
    sits at offset 4 of an in-bounds ROAD tile, the box of size
    [entitySize] at [pos] is walkable and it overlaps no entity to avoid. *)
Definition landed (map : TileMap) (entitySize : Vector2) (avoidEntities : list Entity)
    (pos : Vector2) : Prop :=
  exists tx ty,
    (0 <= tx < MAP_WIDTH) /\ (0 <= ty < MAP_HEIGHT)
    /\ pos = vec (inject_Z (tx * TILE_SIZE + 4)) (inject_Z (ty * TILE_SIZE + 4))
    /\ tileAt map ty tx = Ok (Some ROAD)
    /\ isWalkable pos entitySize map = Ok true
    /\ Forall (fun e => checkCollision (Entity.mk pos entitySize) e = false) avoidEntities.

(** ** What the phases of a tick do to the cars and to the player *)

(** [activateCar] on the car it picks: a parked car starts merging; it
    may be re-oriented and frozen again, it is not moved. *)
Record activated (c c' : Car) : Prop := {
  activated_parked : Car.state c = PARKED;
  activated_merging : Car.state c' = MERGING;
  activated_pos : Car.pos c' = Car.pos c;
  activated_size : Car.size c' = Car.size c;
  activated_velocity : Car.velocity c' = Car.velocity c;
  activated_speed : Car.speed c' = Car.speed c;
  activated_homePos : Car.homePos c' = Car.homePos c;
  activated_frozen : (0 < Car.frozenTimer c)%Q -> (0 < Car.frozenTimer c')%Q
}.

Definition activation (c c' : Car) : Prop := c' = c \/ activated c c'.

(** The damage of one hazard contact. *)
Definition hit (p : Player) : Player :=
  Player.set_invulnerabilityTimer 2.0 (Player.set_health (Player.health p - 1) p).

(** A hazard phase either leaves the vital fields alone or applies one
    hit, and a hit needs an expired invulnerability timer. *)
Definition spared (p p' : Player) : Prop :=
  Player.health p' = Player.health p
  /\ Player.invulnerabilityTimer p' = Player.invulnerabilityTimer p.

Definition struck (p p' : Player) : Prop :=
  (Player.invulnerabilityTimer p <= 0)%Q
  /\ Player.health p' = Player.health p - 1
  /\ Player.invulnerabilityTimer p' = 2.0%Q.

(** A TRAFFIC_LIGHT pick-up on one car. *)
Definition refrozen (c c' : Car) : Prop := c' = c \/ c' = Car.set_frozenTimer 10.0 c.

(** What the power-up phase may do to the player: heal up to the cap. *)
Record pickedUp (p p' : Player) : Prop := {
  pickedUp_pos : Player.pos p' = Player.pos p;
  pickedUp_size : Player.size p' = Player.size p;
  pickedUp_maxHealth : Player.maxHealth p' = Player.maxHealth p;
  pickedUp_invulnerability :
    Player.invulnerabilityTimer p' = Player.invulnerabilityTimer p;
  pickedUp_health_lower : Z.min (Player.health p) (Player.maxHealth p) <= Player.health p';
  pickedUp_health_upper : Player.health p' <= Z.max (Player.health p) (Player.maxHealth p)
}.

(** What the power-up phase may do to the round timer: raise it, never
    beyond the cap. *)
Definition clockGain (t t' : Q) : Prop :=
  t' = t \/ ((t' <= INITIAL_TIME)%Q /\ (Qmin t INITIAL_TIME <= t')%Q).

(** The part of the round state no phase of [update] writes, the terminal
    flag aside (it is written only on the way out). *)
Record sameSetting (s s' : GameState) : Prop := {
  same_isPlaying : GameState.isPlaying s' = GameState.isPlaying s;
  same_isGameOver : GameState.isGameOver s' = GameState.isGameOver s;
  same_map : GameState.map s' = GameState.map s;
  same_vRoads : GameState.vRoads s' = GameState.vRoads s;
  same_hRoads : GameState.hRoads s' = GameState.hRoads s;
  same_puddles : GameState.puddles s' = GameState.puddles s;
  same_staticObjects : GameState.staticObjects s' = GameState.staticObjects s
}.

(** No delivery: there is no target house, or the player is not within
    the radius of its door. *)
Definition missed (s : GameState) : Prop :=
  forall target targetHouse,
    findTarget (GameState.houses s) = Some target ->
    GameState.houses s !! target = Some targetHouse ->
    distanceBelow (Player.pos (GameState.player s)) (House.doorPos targetHouse) 80 = false.

(** A delivery: what [deliveryLogic] does when the player is within the
    radius of the target door. *)
Definition delivered (s s' : GameState) : Prop :=
  exists target targetHouse next bonus,
    findTarget (GameState.houses s) = Some target
    /\ GameState.houses s !! target = Some targetHouse
    /\ distanceBelow (Player.pos (GameState.player s)) (House.doorPos targetHouse) 80 = true
    /\ next <> Z.of_nat target
    /\ (bonus = 2%Q \/ bonus = 4%Q)
    /\ setTarget (<[target := House.set_isTarget false targetHouse]> (GameState.houses s))
                 next true = Ok (GameState.houses s')
    /\ GameState.score s' = GameState.score s + 1
    /\ GameState.deliveries s' = GameState.deliveries s + 1
    /\ GameState.timer s' = Qmin (GameState.timer s + bonus) INITIAL_TIME
    /\ Forall2 activation (GameState.cars s) (GameState.cars s')
    /\ GameState.player s' = GameState.player s
    /\ GameState.powerups s' = GameState.powerups s
    /\ GameState.trafficPauseTimer s' = GameState.trafficPauseTimer s
    /\ sameSetting s s'.

(** What the power-up phase may do to the round state. *)
Record powered (s s' : GameState) : Prop := {
  powered_setting : sameSetting s s';
  powered_score : GameState.score s' = GameState.score s;
  powered_deliveries : GameState.deliveries s' = GameState.deliveries s;
  powered_houses : GameState.houses s' = GameState.houses s;
  powered_projectiles : GameState.projectiles s' = GameState.projectiles s;
  powered_timer : clockGain (GameState.timer s) (GameState.timer s');
  powered_player : pickedUp (GameState.player s) (GameState.player s');
  powered_cars : Forall2 refrozen (GameState.cars s) (GameState.cars s')
}.

(** What [update] does before the player moves: the timers run down, a
    parked car may be activated and a power-up may be spawned. *)
Record premoved (deltaTime : Q) (s s1 : GameState) : Prop := {
  premoved_setting : sameSetting s s1;
  premoved_timer : GameState.timer s1 = (GameState.timer s - deltaTime)%Q;
  premoved_score : GameState.score s1 = GameState.score s;
  premoved_deliveries : GameState.deliveries s1 = GameState.deliveries s;
  premoved_player : GameState.player s1 = GameState.player s;
  premoved_houses : GameState.houses s1 = GameState.houses s;
  premoved_projectiles : GameState.projectiles s1 = GameState.projectiles s;
  premoved_cars : Forall2 activation (GameState.cars s) (GameState.cars s1)
}.

(** The rest of a tick once the player phase has handed on the round [w2]:
    countdowns, delivery, projectiles, cars, power-ups. *)
Definition afterMove (fuel : nat) (deltaTime : Q) (w2 w' : Round) : Prop :=
  exists s4 o3 o4 projectiles o5 p5 cars5 dead o6,
    let s3 := GameState.set_player
                (buffTimers deltaTime (GameState.player (Round.state w2))) (Round.state w2) in
    let s4' := GameState.set_projectiles projectiles s4 in
    let s5 := GameState.set_cars cars5 (GameState.set_player p5 s4') in
    deliveryLogic fuel s3 o3 = Ok (s4, o4)
    /\ carLoop s4' deltaTime (GameState.player s4') (GameState.cars s4') o5
       = Ok (p5, cars5, dead, o6)
    /\ ((dead = true /\ w' = gameOver "HEALTH" (Round.set_state s5 w2))
        \/ (dead = false
            /\ exists s6 o7, updatePowerUps deltaTime s5 o6 = Ok (s6, o7)
                             /\ w' = Round.set_state s6 w2)).

(** ** Reachable rounds *)

(** The rounds the component goes through: it is mounted, the effect that
    starts the loop runs ([startLoop]: it generates the round unless one is
    being played), and animation frames arrive.  Frame timestamps do not
    run backwards: a frame is not older than the time recorded last. *)
Inductive reachable : Round -> Prop :=
| reachable_mount : reachable mountState
| reachable_start fuel w o w' o' :
    reachable w -> startLoop fuel w o = Ok (w', o') -> reachable w'
| reachable_frame fuel f w o w' o' :
    reachable w -> (Round.lastTimeRef w <= Frame.time f)%Q ->
    loop fuel f w o = Ok (w', o') -> reachable w'.

(** The number of houses whose [isTarget] flag is set. *)
Definition targetCount (houses : list House) : nat :=
  length (List.filter House.isTarget houses).

(** What holds of the round state whenever a tick may start. *)
Record roundInvariant (w : Round) : Prop := {
  inv_timer_cap : (GameState.timer (Round.state w) <= INITIAL_TIME)%Q;
  inv_timer_positive :
    GameState.isGameOver (Round.state w) = false -> (0 < GameState.timer (Round.state w))%Q;
  inv_health_cap :
    Player.health (GameState.player (Round.state w))
    <= Player.maxHealth (GameState.player (Round.state w));
  inv_health_nonneg : 0 <= Player.health (GameState.player (Round.state w));
  inv_alive :
    GameState.isGameOver (Round.state w) = false ->
    0 < Player.health (GameState.player (Round.state w));
  inv_dead :
    Player.health (GameState.player (Round.state w)) <= 0 ->
    GameState.isGameOver (Round.state w) = true /\ Round.gameOverReasonRef w = "HEALTH"%string;
  inv_target :
    GameState.houses (Round.state w) <> [] ->
    targetCount (GameState.houses (Round.state w)) = 1%nat
}.

(** The vital fields of the player across one tick: unhurt, or struck once
    at a moment when the invulnerability timer had run out. *)
Inductive tickVitals (deltaTime : Q) (p p' : Player) : Prop :=
| vitals_unhurt :
    Player.health p <= Player.health p' ->
    (Player.invulnerabilityTimer p' = Player.invulnerabilityTimer p
     \/ ((0 < Player.invulnerabilityTimer p)%Q
         /\ Player.invulnerabilityTimer p' = (Player.invulnerabilityTimer p - deltaTime)%Q)) ->
    tickVitals deltaTime p p'
| vitals_struck :
    (Player.invulnerabilityTimer p <= deltaTime)%Q ->
    Player.health p - 1 <= Player.health p' ->
    (Player.invulnerabilityTimer p' = 2.0%Q
     \/ Player.invulnerabilityTimer p' = (2.0 - deltaTime)%Q) ->
    tickVitals deltaTime p p'.

(** What the phases after the player phase do, as far as the bounds of the
    round are concerned; [w2] is the round the player phase handed on. *)
Record ranOn (deltaTime : Q) (w2 w' : Round) : Prop := {
  ranOn_setting :
    sameSetting (Round.state w2) (GameState.set_isGameOver false (Round.state w'));
  ranOn_lastTime : Round.lastTimeRef w' = Round.lastTimeRef w2;
  ranOn_sent : Round.gameOverSentRef w' = Round.gameOverSentRef w2;
  ranOn_maxHealth :
    Player.maxHealth (GameState.player (Round.state w'))
    = Player.maxHealth (GameState.player (Round.state w2));
  ranOn_pos :
    Player.pos (GameState.player (Round.state w'))
    = Player.pos (GameState.player (Round.state w2));
  ranOn_size :
    Player.size (GameState.player (Round.state w'))
    = Player.size (GameState.player (Round.state w2));
  ranOn_health_nonneg : 0 <= Player.health (GameState.player (Round.state w'));
  ranOn_health_cap :
    Player.health (GameState.player (Round.state w'))
    <= Player.maxHealth (GameState.player (Round.state w2));
  ranOn_vitals :
    let p2 := GameState.player (Round.state w2) in
    let p' := GameState.player (Round.state w') in
    let timer3 := (if (Player.invulnerabilityTimer p2 >? 0)%js
                   then Player.invulnerabilityTimer p2 - deltaTime
                   else Player.invulnerabilityTimer p2)%Q in
    (Player.health p2 <= Player.health p' /\ Player.invulnerabilityTimer p' = timer3)
    \/ ((timer3 <= 0)%Q /\ Player.health p2 - 1 <= Player.health p'
        /\ Player.invulnerabilityTimer p' = 2.0%Q);
  ranOn_timer_cap : (GameState.timer (Round.state w') <= INITIAL_TIME)%Q;
  ranOn_timer_floor :
    (GameState.timer (Round.state w2) <= GameState.timer (Round.state w'))%Q;
  ranOn_alive :
    GameState.isGameOver (Round.state w') = false ->
    0 < Player.health (GameState.player (Round.state w'))
    /\ Round.gameOverReasonRef w' = Round.gameOverReasonRef w2;
  ranOn_over :
    GameState.isGameOver (Round.state w') = true ->
    Player.health (GameState.player (Round.state w')) <= 0
    /\ Round.gameOverReasonRef w' = "HEALTH"%string
}.

(** A tick of a round that is being played, as far as the bounds of the
    round are concerned. *)
Record ticked (deltaTime : Q) (w w' : Round) : Prop := {
  ticked_setting :
    sameSetting (Round.state w) (GameState.set_isGameOver false (Round.state w'));
  ticked_lastTime : Round.lastTimeRef w' = Round.lastTimeRef w;
  ticked_sent : Round.gameOverSentRef w' = Round.gameOverSentRef w;
  ticked_maxHealth :
    Player.maxHealth (GameState.player (Round.state w'))
    = Player.maxHealth (GameState.player (Round.state w));
  ticked_size :
    Player.size (GameState.player (Round.state w'))
    = Player.size (GameState.player (Round.state w));
  ticked_walkable :
    isWalkable (Player.pos (GameState.player (Round.state w)))
               (Player.size (GameState.player (Round.state w)))
               (GameState.map (Round.state w)) = Ok true ->
    isWalkable (Player.pos (GameState.player (Round.state w')))
               (Player.size (GameState.player (Round.state w')))
               (GameState.map (Round.state w')) = Ok true;
  ticked_health_nonneg : 0 <= Player.health (GameState.player (Round.state w'));
  ticked_health_cap :
    Player.health (GameState.player (Round.state w'))
    <= Player.maxHealth (GameState.player (Round.state w));
  ticked_vitals :
    tickVitals deltaTime (GameState.player (Round.state w))
               (GameState.player (Round.state w'));
  ticked_timer_cap : (GameState.timer (Round.state w') <= INITIAL_TIME)%Q;
  ticked_timer_floor :
    (GameState.timer (Round.state w) - deltaTime <= GameState.timer (Round.state w'))%Q;
  ticked_alive :
    GameState.isGameOver (Round.state w') = false ->
    0 < Player.health (GameState.player (Round.state w'))
    /\ (0 < GameState.timer (Round.state w'))%Q
    /\ Round.gameOverReasonRef w' = Round.gameOverReasonRef w;
  ticked_over :
    GameState.isGameOver (Round.state w') = true ->
    ((GameState.timer (Round.state w) - deltaTime <= 0)%Q
     /\ Round.gameOverReasonRef w' = "TIMEOUT"%string
     /\ GameState.timer (Round.state w') = (GameState.timer (Round.state w) - deltaTime)%Q
     /\ Player.health (GameState.player (Round.state w'))
        = Player.health (GameState.player (Round.state w)))
    \/ ((0 < GameState.timer (Round.state w) - deltaTime)%Q
        /\ Player.health (GameState.player (Round.state w')) <= 0
        /\ Round.gameOverReasonRef w' = "HEALTH"%string);
  ticked_timeout :
    (GameState.timer (Round.state w) - deltaTime <= 0)%Q ->
    GameState.isGameOver (Round.state w') = true
    /\ Round.gameOverReasonRef w' = "TIMEOUT"%string
}.
(** ** Concrete rounds *)

(** [Math.random()] returning 0 on every call, and 1/2 on every call; the
    clock at 0. *)
Definition zeroOracle : Oracle := mkOracle (fun _ => 0%Q) 0 (fun _ => 0%Q) 0.
Definition halfOracle : Oracle := mkOracle (fun _ => (1 # 2)%Q) 0 (fun _ => 0%Q) 0.

(** [Math.random()] running through 0, 0.1, ..., 0.9 again and again. *)
Definition stepOracle : Oracle :=
  mkOracle (fun i => (Z.of_N (i mod 10) # 10)%Q) 0 (fun _ => 0%Q) 0.

Definition started (o : Oracle) : Round :=
  match startLoop 10 mountState o with
  | Ok (w, _) => w
  | _ => mountState
  end.

(** The round [startLoop] generates when every draw is 0: no lot passes
    the density test [Math.random() > 0.1], so the town has no house and
    no car. *)
Definition emptyTown : Round := Eval vm_compute in started zeroOracle.

(** The round [startLoop] generates from [stepOracle]. *)
Definition demoTown : Round := Eval vm_compute in started stepOracle.

(** No key is held. *)
Definition idle : Input := Input.mk 0 0 false.

(** The player [initGame] puts on the start tile of [emptyTown]. *)
Definition quietPlayer : Player :=
  Player.mk (vec 74 938) (vec 14 14) (vec 0 0) PLAYER_SPEED false 0 0 false Right 0 0 3 3 0.

(** A round in which a tick with no input and no spawn only runs the
    clock: nothing is there to drive, to collect or to deliver to, and the
    player stands on a dry spot. *)
Record quiet (w : Round) : Prop := {
  quiet_playing : GameState.isPlaying (Round.state w) = true;
  quiet_over : GameState.isGameOver (Round.state w) = false;
  quiet_pause : GameState.trafficPauseTimer (Round.state w) = 0%Q;
  quiet_houses : GameState.houses (Round.state w) = [];
  quiet_cars : GameState.cars (Round.state w) = [];
  quiet_powerups : GameState.powerups (Round.state w) = [];
  quiet_projectiles : GameState.projectiles (Round.state w) = [];
  quiet_player : GameState.player (Round.state w) = quietPlayer;
  quiet_move : movePlayer (Round.state w) 0 0 quietPlayer = Ok quietPlayer;
  quiet_dry :
    existsb (fun pud => checkCollision (playerBox quietPlayer) (puddleBox pud))
            (GameState.puddles (Round.state w)) = false;
  quiet_dash : Round.prevDashRef w = false;
  quiet_sent : Round.gameOverSentRef w = false
}.

(** The clamped delta between two frames 90 ms apart, and the round timer
    after [k] such frames. *)
Definition idleDelta : Q := Qmin (inject_Z 90 / 1000) 0.1.

Fixpoint idleTimer (k : nat) : Q :=
  match k with
  | O => INITIAL_TIME
  | S k' => (idleTimer k' - idleDelta)%Q
  end.

(** ** Runs of ticks *)

(** The deltas [loop] can pass on are not negative; any bound below the
    length of the invulnerability window will do for what follows. *)
Definition frameDelta (d : Q) : Prop := (0 <= d)%Q /\ (d < 2)%Q.

(** A run of consecutive ticks inside the invulnerability window, with the
    rounds it goes through: at the start of each tick the invulnerability
    timer is above the delta of the tick, so that it is still positive
    when the tick has taken its delta off. *)
Inductive shielded : Round -> list Round -> Prop :=
| shielded_nil w : shielded w []
| shielded_cons fuel deltaTime input w o w1 o1 rounds :
    frameDelta deltaTime ->
    (deltaTime < Player.invulnerabilityTimer (GameState.player (Round.state w)))%Q ->
    update fuel deltaTime input w o = Ok (w1, o1) ->
    shielded w1 rounds ->
    shielded w (w1 :: rounds).

(** No step from a round to the next one of the list lowers the health. *)
Fixpoint unhurt (w : Round) (rounds : list Round) : Prop :=
  match rounds with
  | [] => True
  | w1 :: rest =>
      Player.health (GameState.player (Round.state w))
      <= Player.health (GameState.player (Round.state w1))
      /\ unhurt w1 rest
  end.

(** ** Running the model on a concrete round *)

(** The round a computation returns, [d] if it does not return one. *)
Definition outcome {A} (d : A) (r : Res (A * Oracle)) : A :=
  match r with
  | Ok (a, _) => a
  | _ => d
  end.

Definition succeeded {A} (r : Res A) : bool :=
  match r with
  | Ok _ => true
  | _ => false
  end.

(** [w] with the player at [pos]. *)
Definition placePlayer (pos : Vector2) (w : Round) : Round :=
  Round.set_state
    (GameState.set_player (Player.set_pos pos (GameState.player (Round.state w)))
                          (Round.state w)) w.

(** [demoTown] with the player standing in the puddle at (64, 64). *)
Definition inPuddle : Round := placePlayer (vec 64 64) demoTown.

(** One tick of 0.1 s with no key held and every draw 1/2. *)
Definition idleTick (w : Round) : Round :=
  outcome mountState (update 10 0.1 idle w halfOracle).

(** [demoTown] right after a TRAFFIC_LIGHT pick-up: the traffic is paused
    and every car is frozen for 10 s. *)
Definition pausedTown : Round :=
  Round.set_state
    (outcome (Round.state demoTown)
             (applyPowerUp (Some TRAFFIC_LIGHT) (Round.state demoTown) halfOracle))
    demoTown.

(** One tick of 0.1 s on [pausedTown] with no key held, drawing from
    [stepOracle]: the first draw, 0, is below the spawn chance. *)
Definition pausedTick : Round :=
  outcome mountState (update 10 0.1 idle pausedTown stepOracle).

(** [w] with the car at position [i] replaced by [car]. *)
Definition putCar (i : nat) (car : Car) (w : Round) : Round :=
  Round.set_state
    (GameState.set_cars (<[i := car]> (GameState.cars (Round.state w))) (Round.state w)) w.

(** A car at the centre of tile (2, 10) of [demoTown], on the first
    vertical band, whose flow is down, and heading up: the only flow
    option of the tile is the reverse of its heading. *)
Definition againstFlow : Car :=
  Car.mk (vec 69 330) (vec 22 12) (vec 0 (-3.5)) CAR_SPEED 0 Up DRIVING (vec 1350 166).

Definition uTurnTown : Round := putCar 0 againstFlow demoTown.

(** ** A car at a dead end *)

(** The draws of the frame that sends the last of the ten parked cars of
    [demoTown] onto the road: the first draw, 0, is below the spawn chance
    and the second picks the car. *)
Definition departOracle : Oracle :=
  mkOracle (fun k => if (k =? 0)%N then 0 else if (k =? 1)%N then 19 # 20 else 1 # 2)%Q
           0 (fun _ => 0%Q) 0.

(** The draws of a frame that puts a TRAFFIC_LIGHT on the tile of the
    player, (2, 29): no car leaves, the second draw is below 0.005, the
    third picks the kind and the next two the tile. *)
Definition lightOracle : Oracle :=
  mkOracle (fun k => if (k =? 1)%N then 0 else if (k =? 2)%N then 3 # 8
                     else if (k =? 3)%N then 1 # 20 else if (k =? 4)%N then 59 # 60
                     else 1 # 2)%Q
           0 (fun _ => 0%Q) 0.

(** [n] frames 16 ms apart, with no key held and every draw 1/2. *)
Fixpoint coast (n : nat) (w : Round) : Res Round :=
  match n with
  | O => Ok w
  | S n' =>
      match loop 10 (Frame.mk (Round.lastTimeRef w + 16) false idle) w halfOracle with
      | Ok (w', _) => coast n' w'
      | Throw => Throw
      | Diverge => Diverge
      end
  end.

(** The round a run of frames returns, [mountState] if it does not. *)
Definition arrival (r : Res Round) : Round :=
  match r with
  | Ok w => w
  | _ => mountState
  end.

(** [demoTown] after the frame that sends the car off, 16 ms after the
    start, and 197 frames later: the car has merged into the second
    horizontal band, whose flow is to the right, and is 6 pixels short of
    the centre of its last tile, (49, 15). *)
Definition departed : Round :=
  Eval vm_compute in outcome mountState (loop 10 (Frame.mk 16 false idle) demoTown departOracle).

Definition nearDeadEnd : Round := Eval vm_compute in arrival (coast 197 departed).

(** One more frame: the car is at the centre of the tile, where the tile
    ahead is off the map. *)
Definition arrivedTown : Round := Eval vm_compute in arrival (coast 1 nearDeadEnd).

(** The same frame with the draws of [lightOracle]: the player picks the
    TRAFFIC_LIGHT up in the frame it appears in, which freezes every car
    for 10 s, the car at the dead end among them. *)
Definition jammedTown : Round :=
  Eval vm_compute in
    outcome mountState (loop 10 (Frame.mk 3184 false idle) nearDeadEnd lightOracle).

(** The car at the dead end, as it is in [arrivedTown] and in
    [jammedTown]. *)
Definition carAt (i : nat) (w : Round) : Car :=
  match GameState.cars (Round.state w) !! i with
  | Some c => c
  | None => Car.mk (vec 0 0) (vec 22 12) (vec 0 0) CAR_SPEED 0 Up PARKED (vec 0 0)
  end.

Definition atDeadEnd : Car := Eval vm_compute in carAt 9 arrivedTown.
Definition jammedCar : Car := Eval vm_compute in carAt 9 jammedTown.

(** One tick of 0.1 s on these rounds, no key held, every draw 1/2. *)
Definition arrivedTick : Round := idleTick arrivedTown.
Definition jammedTick : Round := idleTick jammedTown.

(** ** Deliveries *)









(** ** Notions of the further properties *)

(** The fields of a car that no phase of a tick writes. *)
Definition sameBody (c c' : Car) : Prop :=
  Car.size c' = Car.size c /\ Car.speed c' = Car.speed c /\ Car.homePos c' = Car.homePos c.

(** The tail of the DRIVING branch: a car that has left the pixel bounds of
    the map is sent home. *)
Definition settle (car : Car) : Car :=
  if offMapPixels (Car.pos car) then teleportHome car else car.

(** A car as [spawnCar] makes it, and within the pixel bounds of the map
    whenever it is driving. *)
Definition carOnMap (c : Car) : Prop :=
  Car.size c = vec 22 12
  /\ (Car.state c = DRIVING -> offMapPixels (Car.pos c) = false).

(** The position that puts a car of the given size on the centre of tile
    [(tx, ty)]. *)
Definition centred (tx ty : Z) (size : Vector2) : Vector2 :=
  vec (inject_Z (tx * TILE_SIZE) + (inject_Z TILE_SIZE - Vector2.x size) / 2)
      (inject_Z (ty * TILE_SIZE) + (inject_Z TILE_SIZE - Vector2.y size) / 2).

(** What the turning logic may hand on to the tail of the DRIVING branch:
    the car as it is, the car with the velocity of a valid flow option in
    its own direction, or the car snapped to the tile centre and turned
    into a valid flow option that has two ROAD tiles ahead. *)
Definition turnsWithFlow (s : GameState) (car c : Car) : Prop :=
  let tileX := tileOf (carCenterX car) in
  let tileY := tileOf (carCenterY car) in
  c = car
  \/ exists f,
       f ∈ getTrafficFlow tileX tileY (GameState.vRoads s) (GameState.hRoads s)
       /\ isRoad (GameState.map s) (tileX + Flow.x f) (tileY + Flow.y f) = Ok true
       /\ ((Flow.d f = Car.direction car
            /\ c = Car.set_velocity (flowVelocity f (Car.speed car)) car)
           \/ (Flow.d f <> Car.direction car
               /\ isRoad (GameState.map s) (tileX + Flow.x f + Flow.x f)
                         (tileY + Flow.y f + Flow.y f) = Ok true
               /\ Car.direction c = Flow.d f
               /\ Car.velocity c = flowVelocity f (Car.speed car)
               /\ Car.state c = Car.state car
               /\ sameBody car c)).

(** The car [spawnCar] parks on the driveway of house [h]. *)
Definition parkedAt (h : House) (c : Car) : Prop :=
  let home := vec (Vector2.x (House.drivewayPos h) + 6) (Vector2.y (House.drivewayPos h) + 6) in
  c = Car.mk home (vec 22 12) (vec 0 0) CAR_SPEED 0
             (if bool_decide (House.facing h = Up) then Down else Up) PARKED home.

(** The round a step of the tick hands on or returns with. *)
Definition stepped {A} (st : Step A) : A :=
  match st with
  | Continue a => a
  | Return a => a
  end.

(** The boost of the player: the stock of charges is within its bounds,
    and a running boost has time left, at most the 0.5 s it starts with. *)
Definition boostOk (p : Player) : Prop :=
  0 <= Player.boostCharge p <= MAX_BOOST_CHARGE
  /\ (Player.isBoosting p = true ->
      (0 < Player.boostTimer p)%Q /\ (Player.boostTimer p <= 0.5)%Q).

(** A power-up as [spawnPowerUp] makes it, with time left to live. *)
Definition powerUpAlive (u : PowerUp) : Prop :=
  PowerUp.size u = vec 16 16
  /\ PowerUp.maxLife u = Some 10%Q
  /\ exists life, PowerUp.life u = Some life /\ (0 < life)%Q /\ (life <= 10)%Q.

(** The power-ups on the map: at most five, each with time left. *)
Definition powerUpsOk (s : GameState) : Prop :=
  (length (GameState.powerups s) <= 5)%nat /\ Forall powerUpAlive (GameState.powerups s).

(** The score counts the deliveries. *)
Definition scoreOk (s : GameState) : Prop :=
  GameState.score s = GameState.deliveries s /\ 0 <= GameState.score s.

(** The player is not stunned and walks at [PLAYER_SPEED]. *)
Definition unstunned (s : GameState) : Prop :=
  Player.stunned (GameState.player s) = 0%Q
  /\ Player.speed (GameState.player s) = PLAYER_SPEED.

(** ** The position search, attempt by attempt *)

(** The tile of attempt [k] (from 0) of a search that starts with the
    oracle [o]: every attempt draws a column and then a row. *)
Definition attemptTile (o : Oracle) (k : nat) : Z * Z :=
  (Math_floor (rand o (randCalls o + N.of_nat (2 * k)) * inject_Z MAP_WIDTH),
   Math_floor (rand o (randCalls o + N.of_nat (2 * k + 1)) * inject_Z MAP_HEIGHT)).

(** The position the search tries on a tile: 4 pixels into it. *)
Definition tilePos (t : Z * Z) : Vector2 :=
  vec (inject_Z (t.1 * TILE_SIZE + 4)) (inject_Z (t.2 * TILE_SIZE + 4)).

(** The three tests an attempt has to pass. *)
Definition accepted (map : TileMap) (entitySize : Vector2) (avoidEntities : list Entity)
    (t : Z * Z) : Prop :=
  tileIs map t.2 t.1 ROAD = Ok true
  /\ isWalkable (tilePos t) entitySize map = Ok true
  /\ existsb (checkCollision (Entity.mk (tilePos t) entitySize)) avoidEntities = false.

(** Band starts in increasing order, each at least [gap] tiles after the
    one before. *)
Definition spaced (gap : Z) (roads : list Z) : Prop :=
  StronglySorted (fun a b => a + gap <= b) roads.

(** The player stands on the road, or still where [initGame] put it when
    it found no ROAD tile to start on. *)
Definition playerOnRoad (s : GameState) : Prop :=
  GameState.isPlaying s = true ->
  Player.size (GameState.player s) = vec 14 14
  /\ (isWalkable (Player.pos (GameState.player s)) (Player.size (GameState.player s))
                 (GameState.map s) = Ok true
      \/ Player.pos (GameState.player s) = vec 64 64).

(** ** The earlier variant of the traffic rule ([part_000]) *)

Module EarlierFlow.

(** Determine allowed flow direction based on grid (Right Hand Traffic):
    Even X = DOWN, Odd X = UP; Even Y = LEFT, Odd Y = RIGHT. *)
Definition getTrafficFlow (tx ty : Z) : list Flow :=
  let flows :=
    if Z.rem tx 2 =? 0 then [Flow.mk 0 1 Down] else [Flow.mk 0 (-1) Up] in
  if Z.rem ty 2 =? 0 then flows ++ [Flow.mk (-1) 0 Left]
  else flows ++ [Flow.mk 1 0 Right].

End EarlierFlow.

(** The four flow options there are: a unit step and its heading. *)
Definition unitFlows : list Flow :=
  [Flow.mk 0 1 Down; Flow.mk 0 (-1) Up; Flow.mk (-1) 0 Left; Flow.mk 1 0 Right].

(** ** Rounds and runs the further properties are shown on *)

(** [inPuddle] with the raincoat on. *)
Definition coated : Round :=
  Round.set_state
    (GameState.set_player
       (Player.set_puddleImmunity 10.0 (GameState.player (Round.state inPuddle)))
       (Round.state inPuddle))
    inPuddle.

(** The player of [demoTown] in the middle of a dash. *)
Definition dashing : Player :=
  Player.set_boostTimer 0.5 (Player.set_isBoosting true (GameState.player (Round.state demoTown))).

(** The step of the car loop for the car of [uTurnTown] that drives
    against the flow, and the car it yields. *)
Definition uTurnStep : Res (Player * Car * bool * Oracle) :=
  carStep (Round.state uTurnTown) 0.1 (GameState.player (Round.state uTurnTown))
          againstFlow halfOracle.

Definition uTurned : Car := (outcome (dashing, againstFlow, false) uTurnStep).1.2.


(** The countdowns of the round: each runs down from its start value and
    stops within one tick below zero. *)
Definition countdownsOk (s : GameState) : Prop :=
  let p := GameState.player s in
  ((-0.1 <= GameState.trafficPauseTimer s)%Q /\ (GameState.trafficPauseTimer s <= 10)%Q)
  /\ ((-0.1 <= Player.puddleImmunity p)%Q /\ (Player.puddleImmunity p <= 10)%Q)
  /\ ((-0.1 <= Player.invulnerabilityTimer p)%Q /\ (Player.invulnerabilityTimer p <= 2)%Q).

(** The houses of a round up to their [isTarget] flags. *)
Definition sameHouse (h h' : House) : Prop := h' = House.set_isTarget (House.isTarget h') h.

(** The town: what [initGame] builds and no tick rebuilds. *)
Definition sameTown (s s' : GameState) : Prop :=
  GameState.map s' = GameState.map s
  /\ GameState.vRoads s' = GameState.vRoads s
  /\ GameState.hRoads s' = GameState.hRoads s
  /\ GameState.puddles s' = GameState.puddles s
  /\ GameState.staticObjects s' = GameState.staticObjects s
  /\ Forall2 sameHouse (GameState.houses s) (GameState.houses s').

(** No car is frozen for longer than the traffic pause lasts. *)
Definition thawsInTime (s : GameState) : Prop :=
  Forall (fun c => (0 < Car.frozenTimer c)%Q ->
                   (Car.frozenTimer c <= GameState.trafficPauseTimer s)%Q)
         (GameState.cars s).

(** The same before the car loop of a tick has run the timers of the
    frozen cars down by [deltaTime]. *)
Definition thawsAfter (deltaTime : Q) (s : GameState) : Prop :=
  Forall (fun c => (0 < Car.frozenTimer c)%Q ->
                   (Car.frozenTimer c - deltaTime <= GameState.trafficPauseTimer s)%Q)
         (GameState.cars s).

(** A power-up lies clear of every puddle of the town, or at the fallback
    position of the search. *)
Definition offPuddles (s : GameState) (u : PowerUp) : Prop :=
  PowerUp.size u = vec 16 16
  /\ (PowerUp.pos u = vec 64 64
      \/ existsb (checkCollision (powerupBox u)) (puddleBox <$> GameState.puddles s) = false).

(** A puddle as the position search places it: at the fallback position,
    or with its box on the road and clear of the puddles in [earlier]. *)
Definition puddlePlaced (map : TileMap) (earlier : list Puddle) (pud : Puddle) : Prop :=
  Puddle.pos pud = vec 64 64
  \/ (isWalkable (Puddle.pos pud) (Puddle.size pud) map = Ok true
      /\ Forall (fun q => checkCollision (puddleBox pud) (puddleBox q) = false) earlier).

(** [Math.random()] returning 0 three times and 1/2 from then on: a tick
    that draws from it activates a car and spawns a power-up. *)
Definition spawnOracle : Oracle :=
  mkOracle (fun i => if (i <? 3)%N then 0%Q else (1 # 2)%Q) 0 (fun _ => 0%Q) 0.

(** [demoTown] one frame later, 100 ms on, no key held. *)
Definition spawnTick : Round :=
  outcome mountState (loop 10 (Frame.mk 100 false idle) demoTown spawnOracle).

(** ** Roads and bands *)

(** The tile coordinate [t] lies on one of the bands of the axis. *)
Definition onBand (roads : list Z) (t : Z) : Prop := exists v, v ∈ roads /\ inBand t v.

(** Every ROAD tile of [map'] is a ROAD tile of [map]. *)
Definition noNewRoad (map map' : TileMap) : Prop :=
  forall y x, tileAt map' y x = Ok (Some ROAD) -> tileAt map y x = Ok (Some ROAD).

(** Every ROAD tile of the map is on a band, by its column or by its row. *)
Definition roadsOnBands (s : GameState) : Prop :=
  forall y x, tileAt (GameState.map s) y x = Ok (Some ROAD) ->
              onBand (GameState.vRoads s) x \/ onBand (GameState.hRoads s) y.

(** What is ROAD on [map] is ROAD on [map']. *)
Definition keepsRoads (map map' : TileMap) : Prop :=
  forall y x, tileAt map y x = Ok (Some ROAD) -> tileAt map' y x = Ok (Some ROAD).


(** * Properties *)

(** ** Reasoning about results and comparisons *)

Lemma bind_Ok {A B} (m : M A) (k : A -> M B) o b o' :
  bind m k o = Ok (b, o') ->
  exists a o1, m o = Ok (a, o1) /\ k a o1 = Ok (b, o').
Proof.
  unfold bind. destruct (m o) as [[a o1]| |]; try discriminate. eauto.
Qed.

Lemma bindR_Ok {A B} (m : Res A) (k : A -> Res B) b :
  bindR m k = Ok b -> exists a, m = Ok a /\ k a = Ok b.
Proof. destruct m; simpl; try discriminate. eauto. Qed.

Lemma liftR_Ok {A} (m : Res A) o a o' :
  liftR m o = Ok (a, o') -> m = Ok a /\ o' = o.
Proof. destruct m; simpl; intros H; inversion H; auto. Qed.

Lemma ret_Ok {A} (a b : A) o o' : ret a o = Ok (b, o') -> b = a /\ o' = o.
Proof. unfold ret. intros H; inversion H; auto. Qed.

Lemma andR_Ok b m r : andR b m = Ok r -> (b = false /\ r = false) \/ (b = true /\ m = Ok r).
Proof. destruct b; simpl; intros H; [right|left]; auto. inversion H; auto. Qed.

(** One layer of a computation that returned [Ok]. *)
Ltac inv_step H :=
  first
    [ apply bind_Ok in H; destruct H as (? & ? & ? & H)
    | apply bindR_Ok in H; destruct H as (? & ? & H)
    | apply liftR_Ok in H; destruct H as [H ?]; subst
    | apply ret_Ok in H; destruct H as [? ?]; subst
    | discriminate H
    | injection H as ?; subst ].

Ltac inv_ok :=
  repeat match goal with
  | H : Ok _ = Ok _ |- _ => injection H as ?; subst
  | H : (_, _) = (_, _) |- _ => injection H as ?; subst
  | H : Throw = Ok _ |- _ => discriminate H
  | H : Diverge = Ok _ |- _ => discriminate H
  | H : throw _ = Ok _ |- _ => discriminate H
  | H : diverge _ = Ok _ |- _ => discriminate H
  | H : ret _ _ = Ok _ |- _ => apply ret_Ok in H; destruct H as [? ?]; subst
  | H : liftR _ _ = Ok _ |- _ => apply liftR_Ok in H; destruct H as [H ?]; subst
  | H : bind _ _ _ = Ok _ |- _ => apply bind_Ok in H; destruct H as (? & ? & ? & H)
  | H : bindR _ _ = Ok _ |- _ => apply bindR_Ok in H; destruct H as (? & ? & H)
  end.

Lemma Qlt_bool_iff a b : Qlt_bool a b = true <-> (a < b)%Q.
Proof.
  unfold Qlt_bool. rewrite negb_true_iff. split; intros H.
  - apply Qnot_le_lt. intros Hle. apply Qle_bool_iff in Hle. congruence.
  - destruct (Qle_bool b a) eqn:E; auto. apply Qle_bool_iff in E.
    exfalso. exact (Qlt_not_le _ _ H E).
Qed.

Lemma Qlt_bool_false a b : Qlt_bool a b = false <-> (b <= a)%Q.
Proof.
  unfold Qlt_bool. rewrite negb_false_iff. apply Qle_bool_iff.
Qed.

Lemma Qle_bool_false a b : Qle_bool a b = false <-> (b < a)%Q.
Proof.
  split; intros H.
  - apply Qnot_le_lt. intros Hle. apply Qle_bool_iff in Hle. congruence.
  - destruct (Qle_bool a b) eqn:E; auto. apply Qle_bool_iff in E.
    exfalso. exact (Qlt_not_le _ _ H E).
Qed.

(** Turns the boolean comparisons of the hypotheses into propositions. *)
Ltac qbool :=
  repeat match goal with
  | H : Qlt_bool _ _ = true |- _ => apply Qlt_bool_iff in H
  | H : Qlt_bool _ _ = false |- _ => apply Qlt_bool_false in H
  | H : Qle_bool _ _ = true |- _ => apply Qle_bool_iff in H
  | H : Qle_bool _ _ = false |- _ => apply Qle_bool_false in H
  end.

(** [Math.min] on rationals returns one of its arguments. *)
Lemma Qmin_cases a b : (Qmin a b = a /\ (a <= b)%Q) \/ (Qmin a b = b /\ (b < a)%Q).
Proof.
  unfold Qmin, GenericMinMax.gmin.
  destruct (a ?= b)%Q eqn:E.
  - left. split; auto. apply Qeq_alt in E. rewrite E. apply Qle_refl.
  - left. split; auto. apply Qlt_alt in E. apply Qlt_le_weak, E.
  - right. split; auto. apply Qgt_alt in E. exact E.
Qed.

(** ** The oracle *)

Lemma rng_ok_drawn n o o' : rng_ok o -> drawn n o o' -> rng_ok o'.
Proof. intros Hok (Hr & _) i. rewrite Hr. apply Hok. Qed.

Lemma Math_random_Ok o r o' :
  Math_random o = Ok (r, o') -> r = rand o (randCalls o) /\ drawn 1 o o'.
Proof.
  unfold Math_random, drawn. intros H. inversion H; subst. simpl.
  split_and!; auto. lia.
Qed.


Lemma randomIndex_range n o :
  rng_ok o -> 0 < n ->
  0 <= Math_floor (rand o (randCalls o) * inject_Z n) < n.
Proof.
  intros Hok Hn. destruct (Hok (randCalls o)) as [H0 H1].
  set (r := rand o (randCalls o)) in *. unfold Math_floor.
  assert (Hn' : (0 < inject_Z n)%Q).
  { change 0%Q with (inject_Z 0). rewrite <- Zlt_Qlt. exact Hn. }
  split.
  - change 0 with (Qfloor 0). apply Qfloor_resp_le.
    apply Qmult_le_0_compat; auto. apply Qlt_le_weak, Hn'.
  - rewrite Zlt_Qlt. eapply Qle_lt_trans; [apply Qfloor_le|].
    rewrite <- (Qmult_1_l (inject_Z n)) at 2.
    apply Qmult_lt_compat_r; auto.
Qed.
(** ** The traffic flow rule *)

Lemma bandTest_iff t v : bandTest t v = true <-> inBand t v.
Proof. unfold bandTest, inBand. rewrite orb_true_iff, !Z.eqb_eq. tauto. Qed.

Lemma findIndexFrom_band t roads k i v :
  bandsApart roads -> roads !! i = Some v -> inBand t v ->
  findIndexFrom (bandTest t) roads k = k + Z.of_nat i.
Proof.
  revert k i. induction roads as [|a roads IH]; intros k i Hap Hi Hin; [discriminate|].
  destruct Hap as [Hfa Hap]. simpl. destruct i as [|i]; simpl in Hi.
  - inversion Hi; subst a. apply bandTest_iff in Hin. rewrite Hin. lia.
  - assert (Hlt : a + 1 < v).
    { rewrite Forall_forall in Hfa. apply Hfa. eapply list_elem_of_lookup_2, Hi. }
    destruct (bandTest t a) eqn:E.
    + apply bandTest_iff in E. unfold inBand in *. lia.
    + rewrite (IH (k + 1) i); auto. lia.
Qed.

Lemma findIndexFrom_none t roads k :
  (forall v, v ∈ roads -> ~ inBand t v) ->
  findIndexFrom (bandTest t) roads k = -1.
Proof.
  revert k. induction roads as [|a roads IH]; intros k Hno; simpl; auto.
  destruct (bandTest t a) eqn:E.
  - apply bandTest_iff in E. exfalso. apply (Hno a); auto. left.
  - apply IH. intros v Hv. apply Hno. right. exact Hv.
Qed.

Lemma Zeven_of_nat i : Z.even (Z.of_nat i) = Nat.even i.
Proof.
  induction i as [|i IH]; auto.
  rewrite Nat2Z.inj_succ, Z.even_succ, Nat.even_succ, <- Z.negb_even, IH.
  apply Nat.negb_even.
Qed.

Lemma rem2_even i : (Z.rem (Z.of_nat i) 2 =? 0) = Nat.even i.
Proof.
  rewrite Z.rem_mod_nonneg by lia. rewrite Zmod_even, Zeven_of_nat.
  destruct (Nat.even i); reflexivity.
Qed.

Lemma index_not_minus_one i : (Z.of_nat i =? -1) = false.
Proof. apply Z.eqb_neq. lia. Qed.

(** C6. On band systems whose bands share no tile, a tile in the vertical
    band of index [i] gets the flow [down] when [i] is even and [up]
    otherwise, a tile in the horizontal band of index [j] gets [left] when
    [j] is even and [right] otherwise, and a tile on both gets both, the
    vertical option first. *)
Theorem getTrafficFlow_band_parity (tx ty : Z) (vRoads hRoads : list Z) :
  bandsApart vRoads -> bandsApart hRoads ->
  (forall i v j h,
      vRoads !! i = Some v -> inBand tx v -> hRoads !! j = Some h -> inBand ty h ->
      getTrafficFlow tx ty vRoads hRoads = [verticalFlow i; horizontalFlow j])
  /\ (forall i v,
      vRoads !! i = Some v -> inBand tx v -> (forall h, h ∈ hRoads -> ~ inBand ty h) ->
      getTrafficFlow tx ty vRoads hRoads = [verticalFlow i])
  /\ (forall j h,
      hRoads !! j = Some h -> inBand ty h -> (forall v, v ∈ vRoads -> ~ inBand tx v) ->
      getTrafficFlow tx ty vRoads hRoads = [horizontalFlow j]).
Proof.
  intros Hv Hh. unfold getTrafficFlow, findIndex.
  change (fun v => (tx =? v) || (tx =? v + 1)) with (bandTest tx).
  change (fun h => (ty =? h) || (ty =? h + 1)) with (bandTest ty).
  repeat split.
  - intros i v j h Hi Hiv Hj Hjh.
    rewrite (findIndexFrom_band tx vRoads 0 i v), (findIndexFrom_band ty hRoads 0 j h) by auto.
    rewrite ?Z.add_0_l, !index_not_minus_one, !rem2_even.
    unfold verticalFlow, horizontalFlow. destruct (Nat.even i), (Nat.even j); reflexivity.
  - intros i v Hi Hiv Hno.
    rewrite (findIndexFrom_band tx vRoads 0 i v), (findIndexFrom_none ty hRoads 0) by auto.
    rewrite ?Z.add_0_l, !index_not_minus_one, !rem2_even.
    unfold verticalFlow. destruct (Nat.even i); reflexivity.
  - intros j h Hj Hjh Hno.
    rewrite (findIndexFrom_none tx vRoads 0), (findIndexFrom_band ty hRoads 0 j h) by auto.
    rewrite ?Z.add_0_l, !index_not_minus_one, !rem2_even.
    unfold horizontalFlow. destruct (Nat.even j); reflexivity.
Qed.

Lemma getTrafficFlow_band_parity_witness :
  bandsApart [2; 12; 22; 32; 46] /\ bandsApart [2; 12; 26]
  /\ getTrafficFlow 12 3 [2; 12; 22; 32; 46] [2; 12; 26]
     = [Flow.mk 0 (-1) Up; Flow.mk (-1) 0 Left].
Proof.
  assert (Hv : bandsApart [2; 12; 22; 32; 46]) by (simpl; repeat constructor; lia).
  assert (Hh : bandsApart [2; 12; 26]) by (simpl; repeat constructor; lia).
  split; [exact Hv|]. split; [exact Hh|].
  apply (proj1 (getTrafficFlow_band_parity 12 3 _ _ Hv Hh) 1%nat 12 0%nat 2);
    unfold inBand; auto.
Defined.

(** ** Walkability *)

Lemma outOfMap_false tx ty :
  outOfMap tx ty = false <-> (0 <= tx < MAP_WIDTH) /\ (0 <= ty < MAP_HEIGHT).
Proof.
  unfold outOfMap. rewrite !orb_false_iff, !Z.ltb_ge, !Z.geb_leb, !Z.leb_gt. lia.
Qed.

Lemma tileIs_true map ty tx k :
  tileIs map ty tx k = Ok true <-> tileAt map ty tx = Ok (Some k).
Proof.
  unfold tileIs. destruct (tileAt map ty tx) as [t| |]; simpl; split; intros H;
    try discriminate.
  - inversion H as [H1]. apply bool_decide_eq_true in H1. congruence.
  - inversion H; subst. f_equal. apply bool_decide_eq_true. reflexivity.
Qed.

Lemma cornerOnRoad_true map c : cornerOnRoad map c = Ok true <-> onRoad map c.
Proof.
  unfold cornerOnRoad, onRoad. cbv zeta.
  destruct (outOfMap (tileOf (Vector2.x c)) (tileOf (Vector2.y c))) eqn:E.
  - split; [discriminate|]. intros (Hx & Hy & _).
    assert (outOfMap (tileOf (Vector2.x c)) (tileOf (Vector2.y c)) = false)
      by (apply outOfMap_false; auto).
    congruence.
  - apply outOfMap_false in E as [Hx Hy]. rewrite tileIs_true. tauto.
Qed.

Lemma allOnRoad_true map points :
  allOnRoad map points = Ok true <-> Forall (onRoad map) points.
Proof.
  induction points as [|c points IH]; simpl.
  - split; auto.
  - destruct (cornerOnRoad map c) as [[|]| |] eqn:E; simpl.
    + rewrite IH. apply cornerOnRoad_true in E. split.
      * intros H. constructor; auto.
      * intros H. inversion H; auto.
    + split; [discriminate|]. intros H. inversion H as [|? ? Hc _]; subst.
      apply cornerOnRoad_true in Hc. congruence.
    + split; [discriminate|]. intros H. inversion H as [|? ? Hc _]; subst.
      apply cornerOnRoad_true in Hc. congruence.
    + split; [discriminate|]. intros H. inversion H as [|? ? Hc _]; subst.
      apply cornerOnRoad_true in Hc. congruence.
Qed.

Lemma isWalkable_true pos size map :
  isWalkable pos size map = Ok true <-> Forall (onRoad map) (corners pos size).
Proof. apply allOnRoad_true. Qed.

Lemma checkMove_true s p nextPos :
  checkMove s p nextPos = Ok true ->
  isWalkable nextPos (Player.size p) (GameState.map s) = Ok true.
Proof.
  unfold checkMove.
  destruct (isWalkable nextPos (Player.size p) (GameState.map s)) as [[|]| |];
    simpl; intros H; try discriminate; reflexivity.
Qed.

Lemma movePlayer_axes s dx dy p p' :
  movePlayer s dx dy p = Ok p' ->
  Player.size p' = Player.size p
  /\ axisCommitted (checkMove s p (vec (Vector2.x (Player.pos p) + dx) (Vector2.y (Player.pos p))))
       (Vector2.x (Player.pos p)) (Vector2.x (Player.pos p) + dx) (Vector2.x (Player.pos p'))
  /\ axisCommitted (checkMove s p (vec (Vector2.x (Player.pos p')) (Vector2.y (Player.pos p) + dy)))
       (Vector2.y (Player.pos p)) (Vector2.y (Player.pos p) + dy) (Vector2.y (Player.pos p')).
Proof.
  unfold movePlayer, axisCommitted.
  destruct (checkMove s p (vec (Vector2.x (Player.pos p) + dx) (Vector2.y (Player.pos p))))
    as [[|]| |] eqn:EX; simpl; try discriminate.
  - match goal with |- context [checkMove s ?q ?n] => 
      destruct (checkMove s q n) as [[|]| |] eqn:EY end;
      simpl; intros H; inversion H; subst; simpl; simpl in EY; auto 10.
  - match goal with |- context [checkMove s ?q ?n] => 
      destruct (checkMove s q n) as [[|]| |] eqn:EY end;
      simpl; intros H; inversion H; subst; simpl; simpl in EY; auto 10.
Qed.

Lemma movePlayer_walkable s dx dy p p' :
  isWalkable (Player.pos p) (Player.size p) (GameState.map s) = Ok true ->
  movePlayer s dx dy p = Ok p' ->
  isWalkable (Player.pos p') (Player.size p') (GameState.map s) = Ok true.
Proof.
  unfold movePlayer. intros Hw.
  destruct (checkMove s p (vec (Vector2.x (Player.pos p) + dx) (Vector2.y (Player.pos p))))
    as [[|]| |] eqn:EX; simpl; try discriminate.
  - apply checkMove_true in EX.
    match goal with |- context [checkMove s ?q ?n] => 
      destruct (checkMove s q n) as [[|]| |] eqn:EY end;
      simpl; intros H; inversion H; subst; simpl.
    + apply checkMove_true in EY. exact EY.
    + exact EX.
  - match goal with |- context [checkMove s ?q ?n] => 
      destruct (checkMove s q n) as [[|]| |] eqn:EY end;
      simpl; intros H; inversion H; subst; simpl.
    + apply checkMove_true in EY. exact EY.
    + exact Hw.
Qed.

(** C5. Every position the movement resolver reaches from a walkable
    start has the four corners of the player's box on in-bounds ROAD
    tiles; [isWalkable] answers [true] only for such boxes; and each axis
    of a displacement is committed only when [checkMove] accepts the
    resulting position. *)
Theorem resolver_keeps_player_on_road (s : GameState) (p p' : Player) :
  isWalkable (Player.pos p) (Player.size p) (GameState.map s) = Ok true ->
  resolves s p p' ->
  Forall (onRoad (GameState.map s)) (corners (Player.pos p') (Player.size p'))
  /\ (forall pos size,
        isWalkable pos size (GameState.map s) = Ok true ->
        Forall (onRoad (GameState.map s)) (corners pos size))
  /\ (forall dx dy q q',
        movePlayer s dx dy q = Ok q' ->
        axisCommitted
          (checkMove s q (vec (Vector2.x (Player.pos q) + dx) (Vector2.y (Player.pos q))))
          (Vector2.x (Player.pos q)) (Vector2.x (Player.pos q) + dx)
          (Vector2.x (Player.pos q'))
        /\ axisCommitted
             (checkMove s q (vec (Vector2.x (Player.pos q')) (Vector2.y (Player.pos q) + dy)))
             (Vector2.y (Player.pos q)) (Vector2.y (Player.pos q) + dy)
             (Vector2.y (Player.pos q'))).
Proof.
  intros Hw Hr. repeat split.
  - apply isWalkable_true. induction Hr as [p|p dx dy p1 p2 Hm _ IH]; auto.
    apply IH. eapply movePlayer_walkable; eauto.
  - intros pos size. apply isWalkable_true.
  - eapply movePlayer_axes; eauto.
  - eapply movePlayer_axes; eauto.
Qed.
(** ** The bounded position search *)

Lemma at_in_range {A} (l : list A) i :
  0 <= i < Z.of_nat (length l) -> exists a, at_ l i = Some a.
Proof.
  intros [H0 H1]. unfold at_. destruct (i <? 0) eqn:E; [lia|].
  destruct (l !! Z.to_nat i) eqn:E'; eauto.
  apply lookup_ge_None in E'. lia.
Qed.

Lemma tileIs_total map ty tx k :
  0 <= ty < Z.of_nat (length map) -> exists b, tileIs map ty tx k = Ok b.
Proof.
  intros H. unfold tileIs, tileAt. destruct (at_in_range map ty H) as [row ->].
  simpl. eauto.
Qed.

Lemma cornerOnRoad_total map c :
  MAP_HEIGHT <= Z.of_nat (length map) -> exists b, cornerOnRoad map c = Ok b.
Proof.
  intros H. unfold cornerOnRoad. cbv zeta.
  destruct (outOfMap (tileOf (Vector2.x c)) (tileOf (Vector2.y c))) eqn:E; eauto.
  apply outOfMap_false in E as [_ Hy]. apply tileIs_total. lia.
Qed.

Lemma allOnRoad_total map points :
  MAP_HEIGHT <= Z.of_nat (length map) -> exists b, allOnRoad map points = Ok b.
Proof.
  intros H. induction points as [|c points [b IH]]; simpl; eauto.
  destruct (cornerOnRoad_total map c H) as [[|] ->]; simpl; eauto.
Qed.

Lemma isWalkable_total pos size map :
  MAP_HEIGHT <= Z.of_nat (length map) -> exists b, isWalkable pos size map = Ok b.
Proof. apply allOnRoad_total. Qed.

(** The oracle after one more call of [Math.random()]. *)
Lemma rng_ok_next o :
  rng_ok o -> rng_ok (mkOracle (rand o) (N.succ (randCalls o)) (perf o) (perfCalls o)).
Proof. intros H i. apply (H i). Qed.

Lemma bind_liftR {A B} (m : Res A) (k : A -> M B) o :
  bind (liftR m) k o = match m with Ok a => k a o | Throw => Throw | Diverge => Diverge end.
Proof. destruct m; reflexivity. Qed.

Lemma bind_randomIndex {B} n (k : Z -> M B) o :
  bind (randomIndex n) k o
  = k (Math_floor (rand o (randCalls o) * inject_Z n))
      (mkOracle (rand o) (N.succ (randCalls o)) (perf o) (perfCalls o)).
Proof. reflexivity. Qed.

Lemma randomRoadSearch_returns left map entitySize avoidEntities o :
  MAP_HEIGHT <= Z.of_nat (length map) -> rng_ok o ->
  exists pos o' attempts,
    randomRoadSearch left map entitySize avoidEntities o = Ok (pos, o')
    /\ (attempts <= left)%nat
    /\ drawn (2 * attempts) o o'
    /\ (pos = vec 64 64 \/ landed map entitySize avoidEntities pos).
Proof.
  intros Hmap. revert o. induction left as [|left IH]; intros o Hok.
  - exists (vec 64 64), o, 0%nat. simpl.
    split; [reflexivity|]. split; [lia|]. split; [|auto].
    unfold drawn. split_and!; auto. simpl. lia.
  - set (o1 := mkOracle (rand o) (N.succ (randCalls o)) (perf o) (perfCalls o)).
    set (o2 := mkOracle (rand o1) (N.succ (randCalls o1)) (perf o1) (perfCalls o1)).
    assert (Hok1 : rng_ok o1) by (apply rng_ok_next, Hok).
    assert (Hok2 : rng_ok o2) by (apply rng_ok_next, Hok1).
    set (tx := Math_floor (rand o (randCalls o) * inject_Z MAP_WIDTH)).
    set (ty := Math_floor (rand o1 (randCalls o1) * inject_Z MAP_HEIGHT)).
    assert (Htx : 0 <= tx < MAP_WIDTH) by (apply randomIndex_range; [exact Hok|reflexivity]).
    assert (Hty : 0 <= ty < MAP_HEIGHT) by (apply randomIndex_range; [exact Hok1|reflexivity]).
    destruct (IH o2 Hok2) as (pos & o' & n & Hrun & Hn & Hd & Hpos).
    assert (Hretry : exists pos o' attempts,
      randomRoadSearch left map entitySize avoidEntities o2 = Ok (pos, o')
      /\ (attempts <= S left)%nat /\ drawn (2 * attempts) o o'
      /\ (pos = vec 64 64 \/ landed map entitySize avoidEntities pos)).
    { exists pos, o', (S n).
      split; [exact Hrun|]. split; [lia|]. split; [|exact Hpos].
      destruct Hd as (Hr & Hc & Hp & Hpc). unfold drawn.
      rewrite Hr, Hc, Hp, Hpc. simpl. split_and!; auto. lia. }
    cbn [randomRoadSearch]. rewrite !bind_randomIndex. fold o1 tx. fold o2 ty.
    rewrite bind_liftR.
    destruct (tileIs_total map ty tx ROAD) as [road Hroad]; [lia|]. rewrite Hroad.
    destruct road; [|exact Hretry]. cbv zeta.
    set (p := vec (inject_Z (tx * TILE_SIZE + 4)) (inject_Z (ty * TILE_SIZE + 4))).
    destruct (isWalkable_total p entitySize map Hmap) as [walkable Hwalk].
    rewrite bind_liftR, Hwalk.
    destruct walkable; [|exact Hretry].
    destruct (existsb (checkCollision (Entity.mk p entitySize)) avoidEntities) eqn:Ecol;
      [exact Hretry|].
    exists p, o2, 1%nat.
    split; [reflexivity|]. split; [lia|]. split.
    + unfold drawn. simpl. split_and!; auto. lia.
    + right. exists tx, ty.
      split; [exact Htx|]. split; [exact Hty|]. split; [reflexivity|].
      split; [|split; [exact Hwalk|]].
      * apply tileIs_true. exact Hroad.
      * apply Forall_forall. intros e He.
        destruct (checkCollision (Entity.mk p entitySize) e) eqn:Ee; auto.
        assert (existsb (checkCollision (Entity.mk p entitySize)) avoidEntities = true).
        { apply existsb_exists. exists e. split; auto. apply list_elem_of_In. exact He. }
        congruence.
Qed.

(** C10. On a grid map (one that has its [MAP_HEIGHT] rows) and for any
    entity size and avoid list, [getRandomRoadPosition] returns a position
    after at most 1000 attempts (two draws each): the hard-coded fallback
    [(64, 64)], or a position on a ROAD tile that is walkable and overlaps
    nothing to avoid.  It never raises and never runs on. *)
Theorem getRandomRoadPosition_returns (map : TileMap) (entitySize : Vector2)
    (avoidEntities : list Entity) (o : Oracle) :
  MAP_HEIGHT <= Z.of_nat (length map) -> rng_ok o ->
  exists pos o' attempts,
    getRandomRoadPosition map entitySize avoidEntities o = Ok (pos, o')
    /\ (attempts <= 1000)%nat
    /\ drawn (2 * attempts) o o'
    /\ (pos = vec 64 64 \/ landed map entitySize avoidEntities pos).
Proof. apply randomRoadSearch_returns. Qed.
(** ** The phases of a tick *)

Lemma Forall2_same {A} (R : A -> A -> Prop) (l : list A) :
  (forall a, R a a) -> Forall2 R l l.
Proof. intros HR. induction l; constructor; auto. Qed.

Lemma Forall2_insert_same {A} (R : A -> A -> Prop) (l : list A) i a a' :
  (forall b, R b b) -> l !! i = Some a -> R a a' -> Forall2 R l (<[i := a']> l).
Proof.
  intros HR. revert i. induction l as [|b l IH]; intros i Hi Ha; [discriminate|].
  destruct i as [|i]; simpl in *.
  - inversion Hi; subst. constructor; auto. apply Forall2_same, HR.
  - constructor; auto.
Qed.

Lemma activation_refl c : activation c c.
Proof. left. reflexivity. Qed.

Lemma at_Some {A} (l : list A) i a : at_ l i = Some a -> l !! Z.to_nat i = Some a.
Proof. unfold at_. destruct (i <? 0); [discriminate|auto]. Qed.

Lemma parkedIndices_parked cars i :
  In i (parkedIndices cars) ->
  exists c, cars !! i = Some c /\ Car.state c = PARKED.
Proof.
  unfold parkedIndices. rewrite filter_In. intros [_ H].
  destruct (cars !! i) as [c|]; [|discriminate].
  exists c. split; auto. apply bool_decide_eq_true in H. exact H.
Qed.

Lemma activateCar_spec s o s' o' :
  activateCar s o = Ok (s', o') ->
  s' = GameState.set_cars (GameState.cars s') s
  /\ Forall2 activation (GameState.cars s) (GameState.cars s').
Proof.
  unfold activateCar.
  destruct (Z.of_nat (length (parkedIndices (GameState.cars s))) >? 0).
  2:{ intros H. inv_ok. split; [destruct s; reflexivity|].
      apply Forall2_same, activation_refl. }
  intros H. apply bind_Ok in H as (k & o1 & _ & H).
  destruct (at_ (parkedIndices (GameState.cars s)) k) as [i|] eqn:Ek; [|discriminate].
  apply at_Some in Ek. apply list_elem_of_lookup_2, list_elem_of_In in Ek.
  apply parkedIndices_parked in Ek as (c & Hc & Hparked).
  rewrite Hc in H. inv_ok. split; [reflexivity|]. simpl.
  eapply Forall2_insert_same; eauto using activation_refl.
  right. destruct (GameState.trafficPauseTimer s >? 0)%js eqn:Epause;
    constructor; auto; simpl; intros _.
  apply Qlt_bool_iff, Epause.
Qed.

Lemma spawnPowerUp_spec s o s' o' :
  spawnPowerUp s o = Ok (s', o') ->
  s' = GameState.set_powerups (GameState.powerups s') s.
Proof. unfold spawnPowerUp. intros H. inv_ok. reflexivity. Qed.

Lemma takeHit_spec p o p' dead o' :
  takeHit p o = Ok (p', dead, o') ->
  p' = hit p /\ dead = (Player.health p - 1 <=? 0).
Proof. unfold takeHit. intros H. inv_ok. split; reflexivity. Qed.

Lemma struck_hit p : (Player.invulnerabilityTimer p <= 0)%Q -> struck p (hit p).
Proof. intros H. repeat split; auto. Qed.

Lemma movePlayer_cases s dx dy p p' :
  movePlayer s dx dy p = Ok p' -> p' = p \/ exists v, p' = Player.set_pos v p.
Proof.
  unfold movePlayer.
  destruct (checkMove s p _) as [[|]| |]; simpl; try discriminate;
    match goal with |- context [checkMove s ?q ?n] =>
      destruct (checkMove s q n) as [[|]| |] end;
    simpl; intros H; inversion H; subst; eauto.
Qed.

(** The player phase leaves the round state alone but for the player, whom
    it may move and strike once; it ends the round exactly when the strike
    takes the last heart. *)
Lemma playerPhase_spec deltaTime currentInput w o st o' :
  playerPhase deltaTime currentInput w o = Ok (st, o') ->
  exists p' w1,
    Round.state w1 = GameState.set_player p' (Round.state w)
    /\ Round.gameOverReasonRef w1 = Round.gameOverReasonRef w
    /\ Round.lastTimeRef w1 = Round.lastTimeRef w
    /\ Round.gameOverSentRef w1 = Round.gameOverSentRef w
    /\ Player.maxHealth p' = Player.maxHealth (GameState.player (Round.state w))
    /\ Player.size p' = Player.size (GameState.player (Round.state w))
    /\ (isWalkable (Player.pos (GameState.player (Round.state w)))
                   (Player.size (GameState.player (Round.state w)))
                   (GameState.map (Round.state w)) = Ok true ->
        isWalkable (Player.pos p') (Player.size p') (GameState.map (Round.state w)) = Ok true)
    /\ ((st = Continue w1
         /\ (spared (GameState.player (Round.state w)) p'
             \/ (struck (GameState.player (Round.state w)) p' /\ 0 < Player.health p')))
        \/ (st = Return (gameOver "HEALTH" w1)
            /\ struck (GameState.player (Round.state w)) p' /\ Player.health p' <= 0)).
Proof.
  unfold playerPhase.
  set (s := Round.state w). set (p := GameState.player s).
  destruct (Player.stunned p >? 0)%js.
  { intros H. inv_ok.
    set (p' := Player.set_velocity _ _).
    exists p', (Round.set_state (GameState.set_player p' s) w).
    split_and!; try reflexivity; simpl; auto; [].
    left. split; [reflexivity|]. left. split; reflexivity. }
  intros H. apply bind_Ok in H as (w2 & o2 & Hsound & H).
  assert (Hw2 : Round.state w2 = s /\ Round.gameOverReasonRef w2 = Round.gameOverReasonRef w
                /\ Round.lastTimeRef w2 = Round.lastTimeRef w
                /\ Round.gameOverSentRef w2 = Round.gameOverSentRef w).
  { destruct (_ || _) in Hsound; [|inv_ok; auto].
    apply bind_Ok in Hsound as (t & ot & _ & Hsound).
    destruct (_ >? _)%js in Hsound; inv_ok; auto. }
  destruct Hw2 as (Hs2 & Hr2 & Hl2 & Hg2). clear Hsound.
  apply bind_Ok in H as (p3 & o3 & Hdash & H).
  set (p2 := Player.set_direction _ p) in *.
  assert (Hp3 : Player.health p3 = Player.health p
                /\ Player.invulnerabilityTimer p3 = Player.invulnerabilityTimer p
                /\ Player.maxHealth p3 = Player.maxHealth p
                /\ Player.size p3 = Player.size p
                /\ Player.pos p3 = Player.pos p).
  { destruct (_ && _) in Hdash; inv_ok; simpl; auto 10. }
  clear Hdash.
  set (p4 := if Player.isBoosting p3 then _ else p3) in *.
  assert (Hp4 : Player.health p4 = Player.health p
                /\ Player.invulnerabilityTimer p4 = Player.invulnerabilityTimer p
                /\ Player.maxHealth p4 = Player.maxHealth p
                /\ Player.size p4 = Player.size p
                /\ Player.pos p4 = Player.pos p).
  { unfold p4. destruct (Player.isBoosting p3); [|exact Hp3].
    destruct (_ <=? _)%js; simpl; exact Hp3. }
  clearbody p4. clear Hp3.
  apply bind_Ok in H as (p5 & o5 & Hmove & H).
  apply liftR_Ok in Hmove as [Hmove ->].
  assert (Hp5 : Player.health p5 = Player.health p
                /\ Player.invulnerabilityTimer p5 = Player.invulnerabilityTimer p
                /\ Player.maxHealth p5 = Player.maxHealth p
                /\ Player.size p5 = Player.size p).
  { destruct Hp4 as (? & ? & ? & ? & ?).
    destruct (movePlayer_cases _ _ _ _ _ Hmove) as [-> | [v ->]]; simpl; auto. }
  assert (Hwalk : isWalkable (Player.pos p) (Player.size p) (GameState.map s) = Ok true ->
                  isWalkable (Player.pos p5) (Player.size p5) (GameState.map s) = Ok true).
  { intros Hw. eapply movePlayer_walkable; [|exact Hmove].
    destruct Hp4 as (_ & _ & _ & -> & ->). exact Hw. }
  destruct Hp5 as (Hh & Hi & Hm & Hsz).

  destruct (_ && _) eqn:Econd in H.
  - apply bind_Ok in H as ([q dead] & oh & Hhit & H).
    apply takeHit_spec in Hhit as [-> ->].
    apply andb_true_iff in Econd as [_ Einv]. qbool.
    assert (Hstruck : struck p (hit p5)).
    { unfold struck. rewrite <- Hi. simpl. rewrite Hh. auto. }
    exists (hit p5), (Round.set_state (GameState.set_player (hit p5) s)
                        (Round.set_prevDashRef (Input.dash currentInput) w2)).
    split_and!; try reflexivity; simpl; auto; [].
    destruct (Player.health p5 - 1 <=? 0) eqn:Edead; inv_ok.
    + apply Z.leb_le in Edead. right. split_and!; auto.
    + apply Z.leb_gt in Edead. left. split; [reflexivity|]. right. split; auto.
  - inv_ok. exists p5, (Round.set_state (GameState.set_player p5 s)
                          (Round.set_prevDashRef (Input.dash currentInput) w2)).
    split_and!; try reflexivity; simpl; auto; [].
    left. split; [reflexivity|]. left. split; auto.
Qed.

Lemma sameSetting_refl s : sameSetting s s.
Proof. constructor; reflexivity. Qed.

Lemma sameSetting_trans s1 s2 s3 : sameSetting s1 s2 -> sameSetting s2 s3 -> sameSetting s1 s3.
Proof. intros [] []. constructor; congruence. Qed.

Lemma pickNextHouse_other fuel count target o i o' :
  pickNextHouse fuel count target o = Ok (i, o') -> i <> target.
Proof.
  revert o. induction fuel as [|fuel IH]; intros o; simpl; [discriminate|].
  intros H. apply bind_Ok in H as (k & o1 & _ & H).
  destruct (k =? target) eqn:E.
  - eapply IH, H.
  - inv_ok. apply Z.eqb_neq, E.
Qed.

Lemma deliveryLogic_spec fuel s o s' o' :
  deliveryLogic fuel s o = Ok (s', o') -> (s' = s /\ missed s) \/ delivered s s'.
Proof.
  unfold deliveryLogic, missed.
  destruct (findTarget (GameState.houses s)) as [target|] eqn:Etarget;
    [|intros H; inv_ok; left; split; [reflexivity|discriminate]].
  destruct (GameState.houses s !! target) as [targetHouse|] eqn:Ehouse;
    [|intros H; inv_ok; left; split; [reflexivity|intros; congruence]].
  destruct (distanceBelow _ _ _) eqn:Edist;
    [|intros H; inv_ok; left; split; [reflexivity|intros; congruence]].
  intros H. right.
  apply bind_Ok in H as (? & ? & _ & H).
  apply bind_Ok in H as (now1 & ? & _ & H).
  apply bind_Ok in H as (now2 & ? & _ & H).
  apply bind_Ok in H as (? & ? & _ & H).
  apply bind_Ok in H as (next & ? & Hnext & H).
  apply pickNextHouse_other in Hnext.
  apply bind_Ok in H as (houses' & ? & Hset & H).
  apply liftR_Ok in Hset as [Hset ->].
  apply activateCar_spec in H as [-> Hcars]. simpl in *.
  exists target, targetHouse, next,
    (if (now1 / 1000 - GameState.lastDeliveryTime s <? 5)%js then 4%Q else 2%Q).
  split_and!; auto.
  - destruct (_ <? _)%js; auto.
  - constructor; reflexivity.
Qed.

Lemma delivery_outcome s s' :
  (s' = s /\ missed s) \/ delivered s s' -> s' = s \/ delivered s s'.
Proof. intros [[? _]|?]; auto. Qed.

(** A frozen car is stepped by its timer alone, whatever its state. *)
Lemma carStep_frozen s deltaTime p car o :
  (0 < Car.frozenTimer car)%Q ->
  carStep s deltaTime p car o
  = Ok (p, Car.set_frozenTimer (Car.frozenTimer car - deltaTime) car, false, o).
Proof.
  intros H. unfold carStep. apply Qlt_bool_iff in H. rewrite H. reflexivity.
Qed.

Lemma carStep_player s deltaTime p car o p' car' dead o' :
  carStep s deltaTime p car o = Ok (p', car', dead, o') ->
  (p' = p /\ dead = false)
  \/ ((Player.invulnerabilityTimer p <= 0)%Q /\ p' = hit p
      /\ dead = (Player.health p - 1 <=? 0)).
Proof.
  unfold carStep. destruct (Car.frozenTimer car >? 0)%js; [intros H; inv_ok; auto|].
  destruct (Car.state car).
  - intros H; inv_ok; auto.
  - intros H. apply bind_Ok in H as (c1 & o1 & _ & H).
    destruct (_ && _) eqn:E in H; [|inv_ok; auto].
    apply bind_Ok in H as ([q d] & oh & Hhit & H). apply takeHit_spec in Hhit as [-> ->].
    inv_ok. apply andb_true_iff in E as [_ E]. qbool. auto.
  - intros H. apply bind_Ok in H as (turned & o1 & _ & H).
    destruct turned as [c1|c1]; [|inv_ok; auto].
    destruct (_ && _) eqn:E in H; [|inv_ok; auto].
    apply bind_Ok in H as ([q d] & oh & Hhit & H). apply takeHit_spec in Hhit as [-> ->].
    inv_ok. apply andb_true_iff in E as [_ E]. qbool. auto.
  - intros H. apply bind_Ok in H as (c1 & o1 & _ & H). inv_ok. auto.
Qed.

Lemma carLoop_player s deltaTime p cars o p' cars' dead o' :
  carLoop s deltaTime p cars o = Ok (p', cars', dead, o') ->
  length cars' = length cars
  /\ ((p' = p /\ dead = false)
      \/ ((Player.invulnerabilityTimer p <= 0)%Q /\ p' = hit p
          /\ dead = (Player.health p - 1 <=? 0))).
Proof.
  revert p o p' cars' dead o'. induction cars as [|car cars IH];
    intros p o p' cars' dead o'; simpl.
  - intros H. inv_ok. auto.
  - intros H. apply bind_Ok in H as ([[p1 car1] d1] & o1 & Hstep & H).
    apply carStep_player in Hstep.
    destruct d1.
    + inv_ok. split; [reflexivity|]. destruct Hstep as [[_ ?]|?]; [discriminate|auto].
    + apply bind_Ok in H as ([[p2 rest] d2] & o2 & Hrest & H). inv_ok.
      apply IH in Hrest as [Hlen Hrest]. split; [simpl; congruence|].
      destruct Hstep as [[-> _] | (Hinv & -> & Hd)]; [exact Hrest|].
      destruct Hrest as [[-> ->] | (Hinv2 & _)]; [right; auto|].
      simpl in Hinv2. exfalso. revert Hinv2. apply Qlt_not_le. reflexivity.
Qed.

Lemma carLoop_nth s deltaTime p cars o p' cars' dead o' i car :
  carLoop s deltaTime p cars o = Ok (p', cars', dead, o') ->
  cars !! i = Some car ->
  (dead = true /\ cars' !! i = Some car)
  \/ (exists q o1 q' car' d o2,
        carStep s deltaTime q car o1 = Ok (q', car', d, o2) /\ cars' !! i = Some car').
Proof.
  revert p o p' cars' dead o' i. induction cars as [|c cars IH];
    intros p o p' cars' dead o' i; simpl; [discriminate|].
  intros H Hi. apply bind_Ok in H as ([[p1 c1] d1] & o1 & Hstep & H).
  destruct i as [|i]; simpl in Hi.
  - inversion Hi; subst c. right.
    destruct d1.
    + inv_ok. eauto 10.
    + apply bind_Ok in H as ([[p2 rest] d2] & o2 & _ & H). inv_ok. eauto 10.
  - destruct d1.
    + inv_ok. left. auto.
    + apply bind_Ok in H as ([[p2 rest] d2] & o2 & Hrest & H). inv_ok.
      eapply IH in Hrest; eauto.
Qed.

Lemma clockGain_refl t : clockGain t t.
Proof. left. reflexivity. Qed.

Lemma clockGain_trans t1 t2 t3 : clockGain t1 t2 -> clockGain t2 t3 -> clockGain t1 t3.
Proof.
  intros [-> | [Hcap Hlow]] [-> | [Hcap' Hlow']]; unfold clockGain; auto.
  right. split; auto.
  destruct (Qmin_cases t2 INITIAL_TIME) as [[E _]|[_ Hlt]].
  - rewrite E in Hlow'. eapply Qle_trans; eauto.
  - exfalso. exact (Qlt_not_le _ _ Hlt Hcap).
Qed.

Lemma clockGain_clock t : clockGain t (Qmin (t + 10) INITIAL_TIME).
Proof.
  right. split; [apply Q.le_min_r|].
  apply Q.min_glb; [|apply Q.le_min_r].
  eapply Qle_trans; [apply Q.le_min_l|]. lra.
Qed.

Lemma pickedUp_refl p : pickedUp p p.
Proof. constructor; auto; lia. Qed.

Lemma pickedUp_trans p1 p2 p3 : pickedUp p1 p2 -> pickedUp p2 p3 -> pickedUp p1 p3.
Proof. intros [] []. constructor; try congruence; lia. Qed.

Lemma refrozen_refl c : refrozen c c.
Proof. left. reflexivity. Qed.

Lemma Forall2_refrozen_trans l1 l2 l3 :
  Forall2 refrozen l1 l2 -> Forall2 refrozen l2 l3 -> Forall2 refrozen l1 l3.
Proof.
  intros H. revert l3. induction H as [|a b l1 l2 Hab _ IH]; intros l3 H3;
    inversion H3; subst; constructor; auto.
  destruct Hab as [-> | ->]; auto.
  match goal with H : refrozen _ _ |- _ => destruct H as [-> | ->] end;
    right; reflexivity.
Qed.

Lemma Forall2_refrozen_all cars : Forall2 refrozen cars (Car.set_frozenTimer 10.0 <$> cars).
Proof. induction cars; simpl; constructor; auto. right. reflexivity. Qed.

Lemma powered_refl s : powered s s.
Proof.
  constructor; auto using sameSetting_refl, clockGain_refl, pickedUp_refl.
  apply Forall2_same, refrozen_refl.
Qed.

Lemma powered_trans s1 s2 s3 : powered s1 s2 -> powered s2 s3 -> powered s1 s3.
Proof.
  intros [] []. constructor; try congruence;
    eauto using sameSetting_trans, clockGain_trans, pickedUp_trans, Forall2_refrozen_trans.
Qed.

Lemma Forall2_refrozen_same cars : Forall2 refrozen cars cars.
Proof. apply Forall2_same, refrozen_refl. Qed.

Lemma applyPowerUp_powered kind s o s' o' :
  applyPowerUp kind s o = Ok (s', o') ->
  powered s s' /\ GameState.powerups s' = GameState.powerups s.
Proof.
  unfold applyPowerUp. destruct kind as [[| | |]|]; intros H; inv_ok;
    (split; [|reflexivity]); constructor; simpl;
    auto using sameSetting_refl, clockGain_refl, pickedUp_refl, clockGain_clock,
      Forall2_refrozen_all, Forall2_refrozen_same;
    try (constructor; reflexivity).
  all: constructor; simpl; auto; lia.
Qed.

Lemma powerUpStep_powered deltaTime pup s kept o s' kept' o' :
  powerUpStep deltaTime pup (s, kept) o = Ok (s', kept', o') -> powered s s'.
Proof.
  unfold powerUpStep.
  destruct (match PowerUp.life _ with Some _ => _ | None => _ end);
    [intros H; inv_ok; apply powered_refl|].
  destruct (checkCollision _ _); [|intros H; inv_ok; apply powered_refl].
  intros H. apply bind_Ok in H as (s1 & o1 & Happly & H). inv_ok.
  eapply applyPowerUp_powered, Happly.
Qed.

Lemma forEach_powered deltaTime pups s kept o s' kept' o' :
  forEachM pups (powerUpStep deltaTime) (s, kept) o = Ok (s', kept', o') -> powered s s'.
Proof.
  revert s kept o. induction pups as [|pup pups IH]; intros s kept o; simpl.
  - intros H. inv_ok. apply powered_refl.
  - intros H. apply bind_Ok in H as ([s1 k1] & o1 & Hstep & H).
    eapply powered_trans; [eapply powerUpStep_powered, Hstep|eapply IH, H].
Qed.

Lemma updatePowerUps_spec deltaTime s o s' o' :
  updatePowerUps deltaTime s o = Ok (s', o') -> powered s s'.
Proof.
  unfold updatePowerUps. intros H.
  apply bind_Ok in H as ([s1 kept] & o1 & Hloop & H). inv_ok.
  apply forEach_powered in Hloop. destruct Hloop as [[] ? ? ? ? ? ? ?].
  constructor; simpl; auto. constructor; auto.
Qed.

(** ** The shape of a tick *)

Lemma premove_spec s o s2 o2 :
  (let* r := Math_random in
   let* s1 := (if (r <? spawnChance (GameState.timer s))%js then activateCar s else ret s) in
   let* r := Math_random in
   if (r <? 0.005)%js && (Z.of_nat (length (GameState.powerups s1)) <? 5)
   then spawnPowerUp s1 else ret s1)%M o = Ok (s2, o2) ->
  sameSetting s s2
  /\ GameState.timer s2 = GameState.timer s
  /\ GameState.score s2 = GameState.score s
  /\ GameState.deliveries s2 = GameState.deliveries s
  /\ GameState.player s2 = GameState.player s
  /\ GameState.houses s2 = GameState.houses s
  /\ GameState.projectiles s2 = GameState.projectiles s
  /\ Forall2 activation (GameState.cars s) (GameState.cars s2).
Proof.
  intros H.
  apply bind_Ok in H as (r1 & o1 & _ & H).
  apply bind_Ok in H as (s1 & o1' & Hact & H).
  apply bind_Ok in H as (r2 & o1'' & _ & H).
  assert (Hs1 : s1 = GameState.set_cars (GameState.cars s1) s
                /\ Forall2 activation (GameState.cars s) (GameState.cars s1)).
  { destruct (_ <? _)%js in Hact.
    - eapply activateCar_spec, Hact.
    - apply ret_Ok in Hact as [-> _]. split; [destruct s; reflexivity|].
      apply Forall2_same, activation_refl. }
  destruct Hs1 as [Hs1 Hcars].
  assert (Hs2 : s2 = GameState.set_powerups (GameState.powerups s2) s1).
  { destruct (_ && _) in H.
    - eapply spawnPowerUp_spec, H.
    - apply ret_Ok in H as [-> _]. destruct s1; reflexivity. }
  rewrite Hs2, Hs1. simpl. split_and!; auto. constructor; reflexivity.
Qed.

(** Every tick has one of four shapes: it is skipped; it times out; the
    player phase ends it; or it runs on through the delivery, the cars and
    (unless a car ends it) the power-ups. *)
Lemma update_phases fuel deltaTime currentInput w o w' o' :
  update fuel deltaTime currentInput w o = Ok (w', o') ->
  let s := Round.state w in
  ((GameState.isPlaying s = false \/ GameState.isGameOver s = true) /\ w' = w)
  \/ (GameState.isPlaying s = true /\ GameState.isGameOver s = false
      /\ (((GameState.timer s - deltaTime <= 0)%Q
           /\ w' = gameOver "TIMEOUT"
                     (Round.set_state
                        (GameState.set_timer (GameState.timer s - deltaTime)%Q s) w))
          \/ ((0 < GameState.timer s - deltaTime)%Q
              /\ exists s1 o1 moved o2,
                  premoved deltaTime s s1
                  /\ playerPhase deltaTime currentInput (Round.set_state s1 w) o1
                     = Ok (moved, o2)
                  /\ match moved with
                     | Return w2 => w' = w2
                     | Continue w2 => afterMove fuel deltaTime w2 w'
                     end))).
Proof.
  unfold update. intros H. set (s := Round.state w) in *.
  destruct (GameState.isPlaying s) eqn:Eplay; simpl in H;
    [|inv_ok; left; auto].
  destruct (GameState.isGameOver s) eqn:Eover; simpl in H;
    [inv_ok; left; auto|].
  right. split; [reflexivity|]. split; [reflexivity|].
  destruct (_ <=? _)%js eqn:Etime in H.
  { inv_ok. left. qbool. simpl in Etime. auto. }
  right. qbool. simpl in Etime. split; [exact Etime|].
  set (st := GameState.set_timer _ s) in *.
  set (s0 := if (GameState.trafficPauseTimer s >? 0)%js then _ else st) in *.
  assert (Hs0 : sameSetting s s0
                /\ GameState.timer s0 = (GameState.timer s - deltaTime)%Q
                /\ GameState.score s0 = GameState.score s
                /\ GameState.deliveries s0 = GameState.deliveries s
                /\ GameState.player s0 = GameState.player s
                /\ GameState.houses s0 = GameState.houses s
                /\ GameState.projectiles s0 = GameState.projectiles s
                /\ GameState.cars s0 = GameState.cars s).
  { unfold s0, st. destruct (_ >? _)%js; simpl; split_and!; auto; constructor; reflexivity. }
  clearbody s0.
  apply bind_Ok in H as (r1 & oa & Hr1 & H).
  apply bind_Ok in H as (sa & ob & Hact & H).
  apply bind_Ok in H as (r2 & oc & Hr2 & H).
  apply bind_Ok in H as (s1 & o1 & Hspawn & H).
  apply bind_Ok in H as (moved & o2 & Hmove & H).
  assert (Hpre : (let* r := Math_random in
                  let* s1 := (if (r <? spawnChance (GameState.timer s0))%js
                              then activateCar s0 else ret s0) in
                  let* r := Math_random in
                  if (r <? 0.005)%js && (Z.of_nat (length (GameState.powerups s1)) <? 5)
                  then spawnPowerUp s1 else ret s1)%M o = Ok (s1, o1)).
  { unfold bind at 1. rewrite Hr1. unfold bind at 1. rewrite Hact.
    unfold bind at 1. rewrite Hr2. exact Hspawn. }
  apply premove_spec in Hpre as (Hset & Ht & Hsc & Hd & Hp & Hh & Hpr & Hc).
  destruct Hs0 as (Hset0 & Ht0 & Hsc0 & Hd0 & Hp0 & Hh0 & Hpr0 & Hc0).
  exists s1, o1, moved, o2. split; [|split; [exact Hmove|]].
  { constructor; try congruence. eapply sameSetting_trans; eauto. }
  destruct moved as [w2|w2]; [|inv_ok; reflexivity].
  unfold afterMove.
  apply bind_Ok in H as (s4 & o4 & Hdel & H).
  apply bind_Ok in H as (projs & o5 & _ & H).
  apply bind_Ok in H as ([[p5 cars5] dead] & o6 & Hcars & H).
  exists s4, o2, o4, projs, o5, p5, cars5, dead, o6.
  split; [exact Hdel|]. split; [exact Hcars|].
  destruct dead.
  - inv_ok. left. auto.
  - right. split; [reflexivity|].
    apply bind_Ok in H as (s6 & o7 & Hpow & H). inv_ok. eauto.
Qed.
(** ** One tick, summarised *)

Lemma buffTimers_vitals deltaTime p :
  Player.health (buffTimers deltaTime p) = Player.health p
  /\ Player.maxHealth (buffTimers deltaTime p) = Player.maxHealth p
  /\ Player.pos (buffTimers deltaTime p) = Player.pos p
  /\ Player.size (buffTimers deltaTime p) = Player.size p
  /\ Player.invulnerabilityTimer (buffTimers deltaTime p)
     = (if (Player.invulnerabilityTimer p >? 0)%js
        then Player.invulnerabilityTimer p - deltaTime
        else Player.invulnerabilityTimer p)%Q.
Proof.
  unfold buffTimers.
  destruct (Player.invulnerabilityTimer p >? 0)%js; simpl;
    match goal with |- context [if ?b then _ else _] => destruct b end; simpl; auto.
Qed.

Lemma delivered_player s s' : s' = s \/ delivered s s' ->
  GameState.player s' = GameState.player s /\ sameSetting s s'.
Proof.
  intros [->|(? & ? & ? & ? & H)]; [auto using sameSetting_refl|].
  destruct H as (_ & _ & _ & _ & _ & _ & _ & _ & _ & _ & Hp & _ & _ & Hs). auto.
Qed.

(** The part of a tick after the player phase, with the phases replaced
    by what they are known to do. *)
Lemma afterMove_spec fuel deltaTime w2 w' :
  afterMove fuel deltaTime w2 w' ->
  exists s4 projectiles p5 cars5 dead o5 o6,
    let s2 := Round.state w2 in
    let p3 := buffTimers deltaTime (GameState.player s2) in
    let s3 := GameState.set_player p3 s2 in
    let s4' := GameState.set_projectiles projectiles s4 in
    let s5 := GameState.set_cars cars5 (GameState.set_player p5 s4') in
    ((s4 = s3 /\ missed s3) \/ delivered s3 s4)
    /\ carLoop s4' deltaTime p3 (GameState.cars s4) o5 = Ok (p5, cars5, dead, o6)
    /\ ((p5 = p3 /\ dead = false)
        \/ ((Player.invulnerabilityTimer p3 <= 0)%Q /\ p5 = hit p3
            /\ dead = (Player.health p3 - 1 <=? 0)))
    /\ ((dead = true /\ w' = gameOver "HEALTH" (Round.set_state s5 w2))
        \/ (dead = false /\ exists s6, powered s5 s6 /\ w' = Round.set_state s6 w2)).
Proof.
  intros (s4 & o3 & o4 & projs & o5 & p5 & cars5 & dead & o6 & Hdel & Hcars & Hend).
  apply deliveryLogic_spec in Hdel.
  destruct (delivered_player _ _ (delivery_outcome _ _ Hdel)) as [Hp _]. simpl in Hp, Hcars. rewrite Hp in Hcars.
  exists s4, projs, p5, cars5, dead, o5, o6. cbv zeta.
  split; [exact Hdel|]. split; [exact Hcars|].
  split; [eapply carLoop_player, Hcars|].
  destruct Hend as [?|[? (s6 & o7 & Hpow & ->)]]; [left; auto|].
  right. split; auto. exists s6. split; auto. eapply updatePowerUps_spec, Hpow.
Qed.

Lemma delivered_timer s s' :
  s' = s \/ delivered s s' ->
  (GameState.timer s <= INITIAL_TIME)%Q ->
  (GameState.timer s <= GameState.timer s')%Q /\ (GameState.timer s' <= INITIAL_TIME)%Q.
Proof.
  intros [->|(? & ? & ? & bonus & H)] Hcap; [split; [apply Qle_refl|exact Hcap]|].
  destruct H as (_ & _ & _ & _ & Hb & _ & _ & _ & -> & _).
  split; [|apply Q.le_min_r].
  apply Q.min_glb; [|exact Hcap]. destruct Hb as [-> | ->]; lra.
Qed.

Lemma clockGain_bounds t t' :
  clockGain t t' -> (t <= INITIAL_TIME)%Q -> (t <= t')%Q /\ (t' <= INITIAL_TIME)%Q.
Proof.
  intros [->|[Hcap Hlow]] Ht; [split; [apply Qle_refl|exact Ht]|].
  split; [|exact Hcap].
  destruct (Qmin_cases t INITIAL_TIME) as [[E _]|[_ Hlt]].
  - rewrite E in Hlow. exact Hlow.
  - exfalso. exact (Qlt_not_le _ _ Hlt Ht).
Qed.

Lemma afterMove_ranOn fuel deltaTime w2 w' :
  afterMove fuel deltaTime w2 w' ->
  GameState.isGameOver (Round.state w2) = false ->
  Player.health (GameState.player (Round.state w2))
  <= Player.maxHealth (GameState.player (Round.state w2)) ->
  0 < Player.health (GameState.player (Round.state w2)) ->
  (GameState.timer (Round.state w2) <= INITIAL_TIME)%Q ->
  ranOn deltaTime w2 w'.
Proof.
  intros H Hover Hcap Hpos Htimer.
  apply afterMove_spec in H
    as (s4 & projs & p5 & cars5 & dead & o5 & o6 & Hdel & _ & Hhit & Hend).
  cbv zeta in *.
  set (s2 := Round.state w2) in *. set (p2 := GameState.player s2) in *.
  destruct (buffTimers_vitals deltaTime p2) as (Hh3 & Hm3 & Hpos3 & Hsz3 & Hi3).
  set (p3 := buffTimers deltaTime p2) in *.
  apply delivery_outcome in Hdel.
  destruct (delivered_player _ _ Hdel) as [Hp4 Hset4].
  destruct (delivered_timer _ _ Hdel) as [Ht4 Ht4']; [exact Htimer|].
  simpl in Ht4.
  destruct Hset4 as [Hs1 Hs2 Hs3 Hs4 Hs5 Hs6 Hs7]. simpl in *.
  assert (Hp5 : Player.maxHealth p5 = Player.maxHealth p2
                /\ Player.pos p5 = Player.pos p2 /\ Player.size p5 = Player.size p2).
  { destruct Hhit as [[-> _]|(_ & -> & _)]; simpl; auto. }
  destruct Hp5 as (Hm5 & Hpos5 & Hsz5).
  destruct Hend as [[-> ->]|[-> (s6 & Hpow & ->)]].
  - (* a car took the last heart *)
    destruct Hhit as [[_ ?]|(Hinv & -> & Hdead)]; [discriminate|].
    symmetry in Hdead. apply Z.leb_le in Hdead.
    constructor; simpl; fold s2; fold p2.
    + constructor; simpl; auto.
    + reflexivity.
    + reflexivity.
    + exact Hm3.
    + exact Hpos3.
    + exact Hsz3.
    + lia.
    + lia.
    + right. rewrite <- Hi3. split_and!; auto. lia.
    + exact Ht4'.
    + exact Ht4.
    + discriminate.
    + intros _. split; [lia|reflexivity].
  - (* the tick went through the power-ups *)
    destruct Hpow as [[Hq1 Hq2 Hq3 Hq4 Hq5 Hq6 Hq7] _ _ _ _ Hclock Hpick _].
    destruct Hpick as [Hk1 Hk2 Hk3 Hk4 Hk5 Hk6]. simpl in *.
    destruct (clockGain_bounds _ _ Hclock Ht4') as [Hc1 Hc2].
    assert (Hlive : 0 < Player.health p5 /\ Player.health p5 <= Player.maxHealth p5
                    /\ Player.health p2 - 1 <= Player.health p5).
    { destruct Hhit as [[-> _]|(_ & -> & Hdead)]; simpl.
      - lia.
      - symmetry in Hdead. apply Z.leb_gt in Hdead. lia. }
    constructor; simpl; fold s2; fold p2.
    + constructor; simpl; congruence.
    + reflexivity.
    + reflexivity.
    + congruence.
    + congruence.
    + congruence.
    + lia.
    + lia.
    + destruct Hhit as [[-> _]|(Hinv & -> & Hdead)]; simpl in *.
      * left. split; [lia|congruence].
      * right. rewrite <- Hi3. split_and!; auto. lia.
    + exact Hc2.
    + eapply Qle_trans; eauto.
    + intros _. split; [lia|reflexivity].
    + intros Hov. congruence.
Qed.

Lemma update_ticked fuel deltaTime currentInput w o w' o' :
  update fuel deltaTime currentInput w o = Ok (w', o') ->
  GameState.isPlaying (Round.state w) = true ->
  GameState.isGameOver (Round.state w) = false ->
  (0 <= deltaTime)%Q -> (deltaTime < 2)%Q ->
  Player.health (GameState.player (Round.state w))
  <= Player.maxHealth (GameState.player (Round.state w)) ->
  0 < Player.health (GameState.player (Round.state w)) ->
  (GameState.timer (Round.state w) <= INITIAL_TIME)%Q ->
  ticked deltaTime w w'.
Proof.
  intros H Hplay Hover Hdt0 Hdt2 Hcap Hpos Htimer.
  apply update_phases in H. cbv zeta in H.
  set (s := Round.state w) in *. set (p := GameState.player s) in *.
  destruct H as [[[?|?] _]|(_ & _ & [[Hout ->]|(Hin & s1 & o1 & moved & o2 & Hpre & Hmove & H)])];
    try congruence.
  - (* the timer ran out *)
    constructor; simpl; fold s; fold p.
    + constructor; simpl; congruence.
    + reflexivity.
    + reflexivity.
    + reflexivity.
    + reflexivity.
    + auto.
    + lia.
    + lia.
    + apply vitals_unhurt; [lia|auto].
    + unfold INITIAL_TIME in *. lra.
    + apply Qle_refl.
    + discriminate.
    + intros _. left. auto.
    + auto.
  - (* the round was played *)
    destruct Hpre as [[Hs1 Hs2 Hs3 Hs4 Hs5 Hs6 Hs7] Ht1 _ _ Hp1 _ _ _].
    apply playerPhase_spec in Hmove
      as (p2 & w1 & Hw1 & Hr1 & Hl1 & Hg1 & Hm2 & Hsz2 & Hwalk & Hcases).
    simpl in Hw1, Hr1, Hl1, Hg1, Hm2, Hsz2, Hwalk, Hcases.
    rewrite Hp1 in Hm2, Hsz2, Hwalk, Hcases. rewrite Hs3 in Hwalk.
    fold p in Hm2, Hsz2, Hwalk, Hcases.
    destruct Hcases as [[-> Hvit]|(-> & (Hinv & Hh2 & Hi2) & Hdead)].
    + (* the player phase handed on *)
      assert (Hh2 : 0 < Player.health p2 /\ Player.health p - 1 <= Player.health p2
                    /\ Player.health p2 <= Player.health p).
      { destruct Hvit as [[-> _]|[(_ & -> & _) ?]]; lia. }
      assert (R : ranOn deltaTime w1 w').
      { eapply afterMove_ranOn; eauto; rewrite Hw1; simpl; try congruence; try lia.
        rewrite Ht1. fold s. lra. }
      destruct R as [[Hq1 Hq2 Hq3 Hq4 Hq5 Hq6 Hq7] Hl Hg Hm Hps Hsz Hn Hc Hv Htc Htf Hal Hov].
      rewrite Hw1 in *. simpl in *.
      constructor; fold s; fold p.
      * constructor; simpl; congruence.
      * congruence.
      * congruence.
      * congruence.
      * congruence.
      * intros Hw. rewrite Hps, Hsz, Hq3, Hs3. auto.
      * exact Hn.
      * lia.
      * destruct Hvit as [[Hh Hi]|[(Hinv & Hh & Hi) _]].
        -- rewrite Hi in Hv.
           destruct (Player.invulnerabilityTimer p >? 0)%js eqn:E; qbool;
             destruct Hv as [[Hv1 Hv2]|(Hv1 & Hv2 & Hv3)].
           ++ apply vitals_unhurt; [lia|auto].
           ++ apply vitals_struck; [lra|lia|auto].
           ++ apply vitals_unhurt; [lia|auto].
           ++ apply vitals_struck; [lra|lia|auto].
        -- rewrite Hi in Hv.
           assert (E : (2.0 >? 0)%js = true) by reflexivity. rewrite E in Hv.
           destruct Hv as [[Hv1 Hv2]|(Hv1 & _)]; [|exfalso; lra].
           apply vitals_struck; [lra|lia|auto].
      * exact Htc.
      * rewrite Ht1 in Htf. exact Htf.
      * intros Hov'. destruct (Hal Hov') as [? ?]. split_and!; auto; try congruence.
        eapply Qlt_le_trans; [|exact Htf]. rewrite Ht1. exact Hin.
      * intros Hov'. right. destruct (Hov Hov'). auto.
      * intros Hout. exfalso. lra.
    + (* a puddle took the last heart *)
      subst w'. constructor; simpl; rewrite ?Hw1; simpl; fold s; fold p.
      * constructor; simpl; congruence.
      * congruence.
      * congruence.
      * congruence.
      * congruence.
      * rewrite Hs3. exact Hwalk.
      * lia.
      * lia.
      * apply vitals_struck; [lra|lia|auto].
      * rewrite Ht1. fold s. unfold INITIAL_TIME in *. lra.
      * rewrite Ht1. apply Qle_refl.
      * discriminate.
      * intros _. right. auto.
      * intros Hout. exfalso. lra.
Qed.
(** ** Generation *)

Lemma forEachM_preserves {A S} (P : S -> Prop) (body : A -> S -> M S) (l : list A) :
  (forall a s o s' o', body a s o = Ok (s', o') -> P s -> P s') ->
  forall s o s' o', forEachM l body s o = Ok (s', o') -> P s -> P s'.
Proof.
  intros Hbody. induction l as [|a l IH]; intros s o s' o'; simpl.
  - intros H. inv_ok. auto.
  - intros H Hs. apply bind_Ok in H as (s1 & o1 & Hstep & H).
    eapply IH; eauto.
Qed.

(** Every path through a computation that returned. *)
Ltac unravel H :=
  repeat first
    [ apply ret_Ok in H as [? ?]; subst
    | apply liftR_Ok in H as [H ?]; subst
    | discriminate H
    | match type of H with
      | bind (liftR _) _ _ = Ok _ =>
          let H' := fresh "Hlift" in
          apply bind_Ok in H as (? & ? & H' & H);
          apply liftR_Ok in H' as [_ ?]; subst
      | bind _ _ _ = Ok _ =>
          apply bind_Ok in H as (? & ? & _ & H)
      | (if ?b then _ else _) _ = Ok _ => destruct b
      | (match ?x with _ => _ end) _ = Ok _ => destruct x
      end ].

Lemma placeHouse_untargeted parkBlock y x map houses o map' houses' o' :
  placeHouse parkBlock y x (map, houses) o = Ok (map', houses', o') ->
  Forall (fun h => House.isTarget h = false) houses ->
  Forall (fun h => House.isTarget h = false) houses'.
Proof.
  unfold placeHouse. intros H Hall.
  unravel H; auto.
  all: try (injection H as ? ?; subst; auto).
  all: apply Forall_app; split; auto.
Qed.

Lemma placeHouses_untargeted parkBlock map o map' houses o' :
  placeHouses parkBlock map o = Ok (map', houses, o') ->
  Forall (fun h => House.isTarget h = false) houses.
Proof.
  unfold placeHouses. intros H.
  set (P := fun st : TileMap * list House =>
              Forall (fun h => House.isTarget h = false) (snd st)).
  change (P (map', houses)).
  eapply (forEachM_preserves P); [|exact H|constructor].
  intros y st o1 st' o1' Hrow Hst.
  eapply (forEachM_preserves P); [|exact Hrow|exact Hst].
  intros x [m hs] o2 [m' hs'] o2' Hcell. unfold P. simpl.
  eapply placeHouse_untargeted, Hcell.
Qed.

Lemma targetCount_untargeted houses :
  Forall (fun h => House.isTarget h = false) houses -> targetCount houses = 0%nat.
Proof.
  unfold targetCount. induction 1 as [|h houses Hh _ IH]; simpl; auto.
  rewrite Hh. exact IH.
Qed.

Lemma targetCount_insert houses i h h' :
  houses !! i = Some h ->
  (targetCount (<[i := h']> houses) + (if House.isTarget h then 1 else 0)
   = targetCount houses + (if House.isTarget h' then 1 else 0))%nat.
Proof.
  unfold targetCount. revert i. induction houses as [|a houses IH]; intros i Hi; [discriminate|].
  destruct i as [|i]; simpl in *.
  - inversion Hi; subst a. destruct (House.isTarget h), (House.isTarget h'); simpl; lia.
  - specialize (IH i Hi). destruct (House.isTarget a); simpl; lia.
Qed.

Lemma setTarget_spec houses i v houses' :
  setTarget houses i v = Ok houses' ->
  exists h, 0 <= i /\ houses !! Z.to_nat i = Some h
            /\ houses' = <[Z.to_nat i := House.set_isTarget v h]> houses.
Proof.
  unfold setTarget, at_. destruct (i <? 0) eqn:E; [discriminate|].
  destruct (houses !! Z.to_nat i) as [h|] eqn:Eh; [|discriminate].
  intros H. inversion H. exists h. apply Z.ltb_ge in E. auto.
Qed.

Lemma chooseInitialTarget_count houses o houses' o' :
  chooseInitialTarget houses o = Ok (houses', o') ->
  Forall (fun h => House.isTarget h = false) houses ->
  (houses = [] /\ houses' = []) \/ (houses <> [] /\ targetCount houses' = 1%nat).
Proof.
  unfold chooseInitialTarget. intros H Hall.
  destruct (Z.of_nat (length houses) >? 0) eqn:E.
  - right. split; [intros ->; discriminate|].
    apply bind_Ok in H as (i & o1 & _ & H). apply liftR_Ok in H as [H _].
    apply setTarget_spec in H as (h & _ & Hh & ->).
    pose proof (targetCount_insert houses _ h (House.set_isTarget true h) Hh) as Hc.
    rewrite (targetCount_untargeted houses Hall) in Hc.
    rewrite Forall_forall in Hall. rewrite (Hall h) in Hc by (eapply list_elem_of_lookup_2, Hh).
    simpl in Hc. lia.
  - apply ret_Ok in H as [-> _]. left.
    destruct houses; auto. rewrite Z.gtb_ltb in E. apply Z.ltb_ge in E.
    simpl length in E. lia.
Qed.

(** The round [initGame] leaves behind. *)
Lemma initGame_spec fuel w o w' o' :
  initGame fuel w o = Ok (w', o') ->
  let s' := Round.state w' in
  GameState.isPlaying s' = true /\ GameState.isGameOver s' = false
  /\ GameState.score s' = 0 /\ GameState.timer s' = INITIAL_TIME
  /\ Player.health (GameState.player s') = 3 /\ Player.maxHealth (GameState.player s') = 3
  /\ Player.invulnerabilityTimer (GameState.player s') = 0%Q
  /\ Round.gameOverReasonRef w' = EmptyString
  /\ (GameState.houses s' <> [] -> targetCount (GameState.houses s') = 1%nat)
  /\ Forall (fun c => Car.state c = PARKED) (GameState.cars s').
Proof.
  unfold initGame. intros H.
  apply bind_Ok in H as (vRoads & ? & _ & H).
  apply bind_Ok in H as (hRoads & ? & _ & H).
  apply bind_Ok in H as (map1 & ? & _ & H).
  apply bind_Ok in H as (map2 & ? & _ & H).
  apply bind_Ok in H as ([map3 houses0] & ? & Hplace & H).
  apply placeHouses_untargeted in Hplace.
  apply bind_Ok in H as ([map4 statics1] & ? & _ & H).
  apply bind_Ok in H as ([map5 statics2] & ? & _ & H).
  apply bind_Ok in H as ([[map6 statics3] puddles1] & ? & _ & H).
  apply bind_Ok in H as (houses & ? & Htarget & H).
  apply chooseInitialTarget_count in Htarget; [|exact Hplace].
  apply bind_Ok in H as (startPos & ? & _ & H).
  apply bind_Ok in H as (puddles & ? & _ & H).
  apply bind_Ok in H as (cars & ? & Hcars & H).
  apply bind_Ok in H as (now & ? & _ & H).
  inv_ok. simpl. split_and!; auto.
  - intros Hne. destruct Htarget as [[_ ->]|[_ ?]]; [congruence|auto].
  - eapply (forEachM_preserves (Forall (fun c => Car.state c = PARKED)));
      [|exact Hcars|constructor].
    intros h cs o1 cs' o1' Hspawn Hcs. unfold spawnCar in Hspawn.
    apply bind_Ok in Hspawn as (r & ? & _ & Hspawn).
    destruct (r >? 0.5)%js; inv_ok; auto.
    apply Forall_app. split; auto.
Qed.
(** ** Deliveries within a tick *)

(** A tick of a round that is being played either ends before the
    delivery check (the timer ran out, or a puddle took the last heart) or
    runs the check on the state [s3] and continues from its result [s4]. *)
Lemma update_delivery fuel deltaTime currentInput w o w' o' :
  update fuel deltaTime currentInput w o = Ok (w', o') ->
  GameState.isPlaying (Round.state w) = true ->
  GameState.isGameOver (Round.state w) = false ->
  let s := Round.state w in
  let s' := Round.state w' in
  (GameState.isGameOver s' = true
   /\ GameState.houses s' = GameState.houses s
   /\ GameState.score s' = GameState.score s
   /\ ((GameState.timer s - deltaTime <= 0)%Q
       \/ ((Player.invulnerabilityTimer (GameState.player s) <= 0)%Q
           /\ Player.health (GameState.player s) <= 1)))
  \/ exists s3 s4,
      GameState.houses s3 = GameState.houses s
      /\ GameState.score s3 = GameState.score s
      /\ GameState.timer s3 = (GameState.timer s - deltaTime)%Q
      /\ (0 < GameState.timer s - deltaTime)%Q
      /\ Player.pos (GameState.player s3) = Player.pos (GameState.player s')
      /\ ((s4 = s3 /\ missed s3) \/ delivered s3 s4)
      /\ GameState.houses s' = GameState.houses s4
      /\ GameState.score s' = GameState.score s4
      /\ clockGain (GameState.timer s4) (GameState.timer s').
Proof.
  intros H Hplay Hover. apply update_phases in H. cbv zeta in *.
  set (s := Round.state w) in *.
  destruct H as [[[?|?] _]|(_ & _ & [[Hout ->]|(Hin & s1 & o1 & moved & o2 & Hpre & Hmove & H)])];
    try congruence.
  - left. simpl. fold s. auto.
  - destruct Hpre as [_ Ht1 Hsc1 _ Hp1 Hh1 _ _].
    apply playerPhase_spec in Hmove
      as (p2 & w1 & Hw1 & _ & _ & _ & _ & _ & _ & Hcases).
    simpl in Hw1, Hcases. rewrite Hp1 in Hcases.
    destruct Hcases as [[-> _]|(-> & (Hinv & Hh2 & _) & Hdead)].
    + right. apply afterMove_spec in H
        as (s4 & projs & p5 & cars5 & dead & o5 & o6 & Hdel & _ & Hhit & Hend).
      cbv zeta in *. rewrite Hw1 in *. simpl in *.
      destruct (buffTimers_vitals deltaTime p2) as (_ & _ & Hpos3 & _ & _).
      set (p3 := buffTimers deltaTime p2) in *.
      assert (Hpos5 : Player.pos p5 = Player.pos p3)
        by (destruct Hhit as [[-> _]|(_ & -> & _)]; reflexivity).
      exists (GameState.set_player p3 s1), s4. simpl.
      split; [exact Hh1|]. split; [exact Hsc1|]. split; [exact Ht1|]. split; [exact Hin|].
      destruct Hend as [[_ ->]|[_ (s6 & Hpow & ->)]]; simpl.
      * split_and!; auto using clockGain_refl.
      * destruct Hpow as [_ Hq1 _ Hq2 _ Hq3 [Hq4 _ _ _ _ _] _]. simpl in *.
        split_and!; auto. congruence.
    + left. subst w'. simpl. rewrite Hw1. simpl. split_and!; auto.
      right. fold s in Hinv, Hh2. split; [exact Hinv|lia].
Qed.

Lemma findTarget_Some houses i :
  findTarget houses = Some i ->
  exists h, houses !! i = Some h /\ House.isTarget h = true.
Proof.
  unfold findTarget, findIndex.
  assert (G : forall l k, 0 <= k ->
            (findIndexFrom House.isTarget l k = -1
             \/ exists j h, findIndexFrom House.isTarget l k = k + Z.of_nat j
                            /\ l !! j = Some h /\ House.isTarget h = true)).
  { induction l as [|a l IH]; intros k Hk; simpl; auto.
    destruct (House.isTarget a) eqn:E.
    - right. exists 0%nat, a. split_and!; auto. lia.
    - destruct (IH (k + 1)) as [?|(j & h & Hj & Hl & Hh)]; [lia|auto|].
      right. exists (S j), h. split_and!; auto. lia. }
  destruct (G houses 0) as [->|(j & h & -> & Hl & Hh)]; [lia|discriminate|].
  rewrite Z.add_0_l. destruct (Z.of_nat j) eqn:Ej; intros H; inversion H; subst.
  - exists h. split; auto. assert (j = 0%nat) by lia. subst. exact Hl.
  - exists h. split; auto. rewrite <- Ej, Nat2Z.id. exact Hl.
Qed.

(** A delivery moves the target flag from one house to another. *)
Lemma delivered_target s s' :
  delivered s s' ->
  exists target next targetHouse nextHouse,
    findTarget (GameState.houses s) = Some target
    /\ GameState.houses s !! target = Some targetHouse
    /\ House.isTarget targetHouse = true
    /\ next <> target
    /\ GameState.houses s !! next = Some nextHouse
    /\ GameState.houses s'
       = <[next := House.set_isTarget true nextHouse]>
           (<[target := House.set_isTarget false targetHouse]> (GameState.houses s)).
Proof.
  intros (target & targetHouse & next & bonus & Hfind & Hth & _ & Hne & _ & Hset & _).
  apply setTarget_spec in Hset as (h & Hnext0 & Hh & Hs').
  destruct (findTarget_Some _ _ Hfind) as (th & Hth' & Htrue).
  rewrite Hth in Hth'. inversion Hth'; subst th.
  assert (Hne' : Z.to_nat next <> target) by lia.
  rewrite list_lookup_insert_ne in Hh by auto.
  exists target, (Z.to_nat next), targetHouse, h. split_and!; auto.
Qed.

Lemma delivered_targetCount s s' :
  delivered s s' ->
  targetCount (GameState.houses s) = 1%nat ->
  targetCount (GameState.houses s') = 1%nat /\ GameState.houses s <> [].
Proof.
  intros H Hone.
  destruct (delivered_target _ _ H)
    as (target & next & th & nh & _ & Hth & Htrue & Hne & Hnh & ->).
  split; [|intros E; rewrite E in Hth; discriminate].
  pose proof (targetCount_insert _ _ th (House.set_isTarget false th) Hth) as H1.
  rewrite Htrue, Hone in H1. simpl in H1.
  set (houses1 := <[target := House.set_isTarget false th]> (GameState.houses s)) in *.
  assert (Hnh1 : houses1 !! next = Some nh)
    by (unfold houses1; rewrite list_lookup_insert_ne; auto).
  pose proof (targetCount_insert _ _ nh (House.set_isTarget true nh) Hnh1) as H2.
  simpl in H2.
  assert (Hoff : House.isTarget nh = false).
  { destruct (House.isTarget nh) eqn:E; auto.
    assert (Hzero : targetCount houses1 = 0%nat) by lia.
    unfold targetCount in Hzero. apply length_zero_iff_nil in Hzero.
    assert (Hin : In nh (List.filter House.isTarget houses1)).
    { apply filter_In. split; auto. apply list_elem_of_In.
      eapply list_elem_of_lookup_2, Hnh1. }
    rewrite Hzero in Hin. destruct Hin. }
  rewrite Hoff in H2. lia.
Qed.
(** ** What every reachable round satisfies *)

Lemma mountState_invariant : roundInvariant mountState.
Proof.
  constructor; simpl.
  - apply Qle_refl.
  - intros _. reflexivity.
  - lia.
  - lia.
  - intros _. lia.
  - lia.
  - congruence.
Qed.

Lemma update_skipped fuel deltaTime currentInput w o w' o' :
  update fuel deltaTime currentInput w o = Ok (w', o') ->
  GameState.isPlaying (Round.state w) = false \/ GameState.isGameOver (Round.state w) = true ->
  w' = w.
Proof.
  unfold update. intros H Hskip.
  assert (E : negb (GameState.isPlaying (Round.state w))
              || GameState.isGameOver (Round.state w) = true).
  { destruct Hskip as [-> | ->]; [reflexivity|apply orb_true_r]. }
  rewrite E in H. inv_ok. reflexivity.
Qed.

Lemma update_invariant fuel deltaTime currentInput w o w' o' :
  update fuel deltaTime currentInput w o = Ok (w', o') ->
  (0 <= deltaTime)%Q -> (deltaTime < 2)%Q ->
  roundInvariant w -> roundInvariant w'.
Proof.
  intros H Hdt0 Hdt2 Hinv.
  destruct (GameState.isPlaying (Round.state w)) eqn:Eplay;
    [|erewrite update_skipped; eauto].
  destruct (GameState.isGameOver (Round.state w)) eqn:Eover;
    [erewrite update_skipped; eauto|].
  destruct Hinv as [Htc Htp Hhc Hhn Hal Hde Htg].
  pose proof (update_ticked _ _ _ _ _ _ _ H Eplay Eover Hdt0 Hdt2 Hhc (Hal Eover) Htc) as T.
  pose proof (update_delivery _ _ _ _ _ _ _ H Eplay Eover) as D. cbv zeta in D.
  destruct T as [_ _ _ Hm _ _ Hn Hc _ Htc' _ Halive Hover _].
  constructor.
  - exact Htc'.
  - intros E. apply Halive, E.
  - rewrite Hm. exact Hc.
  - exact Hn.
  - intros E. apply Halive, E.
  - intros Hzero.
    destruct (GameState.isGameOver (Round.state w')) eqn:E.
    + split; [reflexivity|].
      destruct (Hover eq_refl) as [(_ & _ & _ & Hsame)|(_ & _ & ?)]; [|assumption].
      specialize (Hal Eover). lia.
    + destruct (Halive eq_refl). lia.
  - intros Hne.
    destruct D as [(_ & Hh & _)|(s3 & s4 & Hh3 & _ & _ & _ & _ & Hdel & Hh' & _)].
    + rewrite Hh in *. auto.
    + rewrite Hh' in *. destruct Hdel as [[-> _]|Hdel].
      * rewrite Hh3 in *. auto.
      * assert (Hne3 : GameState.houses s3 <> []).
        { destruct (delivered_target _ _ Hdel) as (? & ? & ? & ? & _ & Hth & _).
          intros E. rewrite E in Hth. discriminate. }
        rewrite Hh3 in Hne3. specialize (Htg Hne3). rewrite <- Hh3 in Htg.
        apply (delivered_targetCount _ _ Hdel Htg).
Qed.

(** The delta [loop] hands to [update]: never negative when time does not
    run backwards, never above a tenth of a second. *)
Lemma clamped_delta (last time : Q) :
  (last <= time)%Q ->
  (0 <= Qmin ((time - last) / 1000) 0.1)%Q /\ (Qmin ((time - last) / 1000) 0.1 <= 0.1)%Q.
Proof.
  intros H. split; [|apply Q.le_min_r].
  apply Q.min_glb; [|discriminate].
  unfold Qdiv. apply Qmult_le_0_compat; [lra|discriminate].
Qed.

Lemma loop_spec fuel f w o w' o' :
  loop fuel f w o = Ok (w', o') ->
  exists w1,
    Round.state w' = Round.state w1
    /\ Round.gameOverReasonRef w' = Round.gameOverReasonRef w1
    /\ Round.lastTimeRef w' = Frame.time f
    /\ (w1 = Round.set_lastTimeRef (Frame.time f) w
        \/ (Frame.isPaused f = false
            /\ GameState.isGameOver (Round.state w) = false
            /\ exists o1,
                 update fuel (Qmin ((Frame.time f - Round.lastTimeRef w) / 1000) 0.1)
                   (Frame.input f) (Round.set_lastTimeRef (Frame.time f) w) o
                 = Ok (w1, o1))).
Proof.
  unfold loop. intros H. apply bind_Ok in H as (w1 & o1 & Hup & H).
  apply bind_Ok in H as (u & o2 & _ & H).
  exists w1.
  assert (Hw' : Round.state w' = Round.state w1
                /\ Round.gameOverReasonRef w' = Round.gameOverReasonRef w1
                /\ Round.lastTimeRef w' = Round.lastTimeRef w1).
  { destruct (_ && _) in H; inv_ok; simpl; auto. }
  destruct Hw' as (Hs & Hr & Hl). rewrite Hl. split_and!; auto.
  - destruct (_ && _) in Hup.
    + apply update_phases in Hup. cbv zeta in Hup. simpl in Hup.
      destruct Hup as [[_ ->]|(_ & _ & [[_ ->]|(_ & s1 & ? & moved & ? & _ & Hmove & Hrest)])];
        try reflexivity.
      apply playerPhase_spec in Hmove as (p2 & w2 & _ & _ & Hl2 & _ & _ & _ & _ & Hc).
      simpl in Hl2.
      destruct Hc as [[-> _]|(-> & _)].
      * apply afterMove_spec in Hrest as (? & ? & ? & ? & ? & ? & ? & _ & _ & _ & Hend).
        cbv zeta in Hend.
        destruct Hend as [[_ ->]|[_ (? & _ & ->)]]; simpl; exact Hl2.
      * subst w1. simpl. exact Hl2.
    + inv_ok. reflexivity.
  - destruct (negb (Frame.isPaused f)) eqn:E1 in Hup; simpl in Hup.
    + destruct (negb (GameState.isGameOver (Round.state w))) eqn:E2 in Hup; simpl in Hup.
      * right. apply negb_true_iff in E1, E2. eauto.
      * inv_ok. auto.
    + inv_ok. auto.
Qed.

Lemma loop_invariant fuel f w o w' o' :
  loop fuel f w o = Ok (w', o') ->
  (Round.lastTimeRef w <= Frame.time f)%Q ->
  roundInvariant w -> roundInvariant w'.
Proof.
  intros H Htime Hinv.
  apply loop_spec in H as (w1 & Hs & Hr & _ & Hw1).
  assert (Hinv1 : roundInvariant w1).
  { destruct Hw1 as [->|(_ & _ & o1 & Hup)].
    - destruct Hinv. constructor; simpl; auto.
    - destruct (clamped_delta _ _ Htime) as [H0 H1].
      eapply update_invariant; [exact Hup|exact H0| |].
      + eapply Qle_lt_trans; [exact H1|reflexivity].
      + destruct Hinv. constructor; simpl; auto. }
  destruct Hinv1. constructor; rewrite ?Hs, ?Hr; auto.
Qed.

Lemma startLoop_invariant fuel w o w' o' :
  startLoop fuel w o = Ok (w', o') -> roundInvariant w -> roundInvariant w'.
Proof.
  unfold startLoop. intros H Hinv.
  apply bind_Ok in H as (w1 & o1 & Hinit & H).
  apply bind_Ok in H as (now & o2 & _ & H). inv_ok.
  assert (Hinv1 : roundInvariant w1).
  { destruct (negb _) in Hinit; [|inv_ok; exact Hinv].
    apply initGame_spec in Hinit. cbv zeta in Hinit.
    destruct Hinit as (_ & Hover & _ & Ht & Hh & Hm & _ & _ & Htg & _).
    constructor; rewrite ?Ht, ?Hh, ?Hm.
    - apply Qle_refl.
    - intros _. reflexivity.
    - lia.
    - lia.
    - intros _. lia.
    - lia.
    - exact Htg. }
  destruct Hinv1. constructor; simpl; auto.
Qed.

Lemma reachable_invariant w : reachable w -> roundInvariant w.
Proof.
  induction 1 as [|fuel w o w' o' _ IH Hstart|fuel f w o w' o' _ IH Htime Hloop].
  - exact mountState_invariant.
  - eapply startLoop_invariant; eauto.
  - eapply loop_invariant; eauto.
Qed.

(** ** Idle ticks *)

(** Ticks with no input, no spawn and nothing on the map to meet: they
    only run the clock down.  From the round [initGame] generates when
    every draw is 0 they lead to a round whose timer has run out. *)

Lemma bind_run {A B} (m : M A) (k : A -> M B) o a o1 :
  m o = Ok (a, o1) -> bind m k o = k a o1.
Proof. intros H. unfold bind. rewrite H. reflexivity. Qed.

Lemma activateCar_none s o : GameState.cars s = [] -> activateCar s o = Ok (s, o).
Proof. intros H. unfold activateCar. rewrite H. reflexivity. Qed.

Lemma deliveryLogic_none fuel s o : GameState.houses s = [] -> deliveryLogic fuel s o = Ok (s, o).
Proof. intros H. unfold deliveryLogic. rewrite H. reflexivity. Qed.

Lemma updatePowerUps_none dt s o :
  GameState.powerups s = [] -> updatePowerUps dt s o = Ok (GameState.set_powerups [] s, o).
Proof. intros H. unfold updatePowerUps. rewrite H. reflexivity. Qed.

Lemma movePlayer_setting s s' dx dy p :
  GameState.map s' = GameState.map s ->
  GameState.staticObjects s' = GameState.staticObjects s ->
  movePlayer s' dx dy p = movePlayer s dx dy p.
Proof.
  intros Hm Hs. unfold movePlayer, checkMove. rewrite Hm, Hs. reflexivity.
Qed.

(** The tests of the player phase are decided by computing with the
    integers behind the rationals. *)
Section QuietPlayer.

#[local] Arguments Z.mul : simpl nomatch.
#[local] Arguments Z.add : simpl nomatch.
#[local] Arguments Z.sub : simpl nomatch.
#[local] Arguments Z.opp : simpl nomatch.
#[local] Arguments Z.abs : simpl nomatch.

Lemma playerPhase_quiet dt w o :
  GameState.player (Round.state w) = quietPlayer ->
  movePlayer (Round.state w) 0 0 quietPlayer = Ok quietPlayer ->
  existsb (fun pud => checkCollision (playerBox quietPlayer) (puddleBox pud))
          (GameState.puddles (Round.state w)) = false ->
  playerPhase dt idle w o
  = Ok (Continue (Round.set_state (GameState.set_player quietPlayer (Round.state w))
                                  (Round.set_prevDashRef false w)), o).
Proof.
  intros Hplayer Hmove Hdry.
  unfold playerPhase. cbv zeta. rewrite Hplayer.
  cbn -[movePlayer existsb playerBox puddleBox Round.set_state GameState.set_player
        Round.set_prevDashRef].
  change (movePlayer _ _ _ _) with (movePlayer (Round.state w) 0 0 quietPlayer).
  rewrite Hmove. cbn [bind liftR]. rewrite Hdry. reflexivity.
Qed.

End QuietPlayer.

Lemma update_quiet w dt :
  quiet w ->
  let t' := (GameState.timer (Round.state w) - dt)%Q in
  exists w' o', update 10 dt idle w halfOracle = Ok (w', o')
    /\ GameState.timer (Round.state w') = t'
    /\ Round.lastTimeRef w' = Round.lastTimeRef w
    /\ Round.gameOverSentRef w' = false
    /\ GameState.houses (Round.state w') = []
    /\ ((0 < t')%Q -> quiet w')
    /\ ((t' <= 0)%Q -> GameState.isGameOver (Round.state w') = true).
Proof.
  intros Hq t'. pose proof Hq as [Hplay Hover Hpause Hhouses Hcars Hpowerups Hprojectiles Hplayer Hmove Hdry Hdash Hsent].
  unfold update. rewrite Hplay, Hover. cbn [negb orb].
  cbn [GameState.timer GameState.set_timer]. fold t'.
  destruct (Qlt_le_dec 0 t') as [Hpos|Hneg].
  - assert (Ht : (t' <=? 0)%js = false) by (apply Qle_bool_false; exact Hpos).
    rewrite Ht. cbn [GameState.trafficPauseTimer GameState.set_timer]. rewrite Hpause.
    change ((0 >? 0)%js) with false. cbv iota.
    set (s1 := GameState.set_timer t' (Round.state w)).
    erewrite bind_run by reflexivity.
    erewrite bind_run.
    2:{ destruct (_ <? _)%js; [apply activateCar_none; exact Hcars | reflexivity]. }
    erewrite bind_run by reflexivity.
    change ((1 # 2 <? 0.005)%js) with false. cbn [andb].
    erewrite bind_run by reflexivity.
    erewrite bind_run.
    2:{ apply playerPhase_quiet.
        - exact Hplayer.
        - rewrite <- Hmove. apply movePlayer_setting; reflexivity.
        - exact Hdry. }
    cbv iota.
    set (w2 := Round.set_state _ (Round.set_prevDashRef false _)).
    set (s3 := GameState.set_player _ (Round.state w2)).
    assert (Hp3 : GameState.player s3 = quietPlayer) by reflexivity.
    erewrite bind_run by (apply deliveryLogic_none; exact Hhouses).
    assert (Hproj : GameState.projectiles s3 = []) by exact Hprojectiles.
    rewrite Hproj.
    erewrite bind_run by reflexivity.
    assert (Hc3 : GameState.cars (GameState.set_projectiles [] s3) = []) by exact Hcars.
    rewrite Hc3.
    erewrite bind_run by reflexivity.
    cbv iota.
    erewrite bind_run by (apply updatePowerUps_none; exact Hpowerups).
    eexists _, _. split; [reflexivity|].
    split; [reflexivity|]. split; [reflexivity|]. split; [exact Hsent|].
    split; [exact Hhouses|].
    split; [|intros Hle; exfalso; apply (Qlt_irrefl 0); eapply Qlt_le_trans; eauto].
    intros _. constructor; try assumption; try reflexivity.
  - assert (Ht : (t' <=? 0)%js = true) by (apply Qle_bool_iff; exact Hneg).
    rewrite Ht. eexists _, _. split; [reflexivity|].
    split; [reflexivity|]. split; [reflexivity|]. split; [exact Hsent|].
    split; [exact Hhouses|]. split; [|reflexivity].
    intros Hpos. exfalso. apply (Qlt_irrefl 0). eapply Qlt_le_trans; eauto.
Qed.

Lemma quiet_lastTime time w : quiet w -> quiet (Round.set_lastTimeRef time w).
Proof. intros []. constructor; assumption. Qed.

Lemma loop_quiet w time :
  quiet w ->
  let t' := (GameState.timer (Round.state w)
             - Qmin ((time - Round.lastTimeRef w) / 1000) 0.1)%Q in
  exists w' o', loop 10 (Frame.mk time false idle) w halfOracle = Ok (w', o')
    /\ GameState.timer (Round.state w') = t'
    /\ Round.lastTimeRef w' = time
    /\ ((0 < t')%Q -> quiet w')
    /\ ((t' <= 0)%Q -> GameState.isGameOver (Round.state w') = true).
Proof.
  intros Hq t'.
  destruct (update_quiet (Round.set_lastTimeRef time w)
              (Qmin ((time - Round.lastTimeRef w) / 1000) 0.1)
              (quiet_lastTime time w Hq))
    as (w1 & o1 & Hrun & Htimer & Hlast & Hsent & Hnone & Hquiet & Hend).
  unfold loop. cbn [Frame.isPaused Frame.time Frame.input negb andb].
  replace (GameState.isGameOver (Round.state (Round.set_lastTimeRef time w))) with false
    by (symmetry; apply Hq).
  cbn [negb andb]. erewrite bind_run by exact Hrun.
  assert (Hdraw : draw (Round.state w1) o1 = Ok (tt, o1))
    by (unfold draw; rewrite Hnone; reflexivity).
  erewrite bind_run by exact Hdraw.
  rewrite Hsent. cbn [negb]. rewrite andb_true_r.
  destruct (GameState.isGameOver (Round.state w1)) eqn:Eover.
  - eexists _, _. split; [reflexivity|]. split; [exact Htimer|].
    split; [exact Hlast|]. split; [|intros _; exact Eover].
    intros Hpos. apply Hquiet in Hpos. destruct Hpos. congruence.
  - eexists _, _. split; [reflexivity|]. split; [exact Htimer|].
    split; [exact Hlast|]. split; [exact Hquiet|].
    intros Hle. rewrite Eover. exact (Hend Hle).
Qed.

Lemma inject_Z_sub a b : (inject_Z a - inject_Z b)%Q = inject_Z (a - b).
Proof. unfold Qminus, Qplus, Qopp, inject_Z. simpl. f_equal. lia. Qed.

Lemma started_run o w :
  started o = w -> GameState.isPlaying (Round.state w) = true ->
  exists o', startLoop 10 mountState o = Ok (w, o').
Proof.
  unfold started. intros H Hplay.
  destruct (startLoop 10 mountState o) as [[w1 o']| |]; subst; try discriminate.
  exists o'. reflexivity.
Qed.

Lemma started_reachable o w :
  started o = w -> GameState.isPlaying (Round.state w) = true -> reachable w.
Proof.
  intros H Hplay. destruct (started_run o w H Hplay) as [o' Hrun].
  exact (reachable_start _ _ _ _ _ reachable_mount Hrun).
Qed.

Lemma emptyTown_started : started zeroOracle = emptyTown.
Proof. exact (@eq_refl Round emptyTown <: started zeroOracle = emptyTown). Qed.

Lemma emptyTown_reachable : reachable emptyTown.
Proof. apply (started_reachable zeroOracle); [exact emptyTown_started|reflexivity]. Qed.

Lemma emptyTown_quiet : quiet emptyTown.
Proof. constructor; vm_compute; reflexivity. Qed.

Lemma idleTimer_value k :
  (idleTimer k == 150 - (9 # 100) * inject_Z (Z.of_nat k))%Q.
Proof.
  induction k as [|k IH].
  - reflexivity.
  - cbn [idleTimer]. rewrite IH, Nat2Z.inj_succ. unfold Z.succ. rewrite inject_Z_plus.
    change idleDelta with ((90 # 1000)%Q). change (inject_Z 1) with 1%Q. ring.
Qed.

Lemma idle_reachable k :
  (k <= 1666)%nat ->
  exists w, reachable w /\ quiet w
            /\ GameState.timer (Round.state w) = idleTimer k
            /\ Round.lastTimeRef w = inject_Z (90 * Z.of_nat k).
Proof.
  induction k as [|k IH]; intros Hk.
  - exists emptyTown. split; [exact emptyTown_reachable|].
    split; [exact emptyTown_quiet|]. split; reflexivity.
  - destruct IH as (w & Hreach & Hq & Htimer & Hlast); [lia|].
    destruct (loop_quiet w (inject_Z (90 * Z.of_nat (S k))) Hq)
      as (w' & o' & Hrun & Htimer' & Hlast' & Hquiet & _).
    rewrite Hlast, inject_Z_sub in Htimer', Hquiet.
    replace (90 * Z.of_nat (S k) - 90 * Z.of_nat k) with 90 in Htimer', Hquiet by lia.
    rewrite Htimer in Htimer', Hquiet.
    exists w'. split.
    + eapply reachable_frame; [exact Hreach| |exact Hrun].
      rewrite Hlast. cbn [Frame.time]. rewrite <- Zle_Qle. lia.
    + split; [|split; [exact Htimer'|exact Hlast']].
      apply Hquiet. fold idleDelta. change (idleTimer k - idleDelta)%Q with (idleTimer (S k)).
      rewrite idleTimer_value.
      assert (H : (inject_Z (Z.of_nat (S k)) <= 1666)%Q).
      { change 1666%Q with (inject_Z 1666). rewrite <- Zle_Qle. lia. }
      lra.
Qed.

(** * The properties of the specification *)

(** A frame either leaves the round state as it is or runs one tick of
    [update] on a round that is being played. *)
Lemma loop_ticked fuel f w o w' o' :
  loop fuel f w o = Ok (w', o') ->
  (Round.lastTimeRef w <= Frame.time f)%Q ->
  roundInvariant w ->
  (Round.state w' = Round.state w /\ Round.gameOverReasonRef w' = Round.gameOverReasonRef w)
  \/ (Frame.isPaused f = false
      /\ GameState.isPlaying (Round.state w) = true
      /\ GameState.isGameOver (Round.state w) = false
      /\ exists w1,
          ticked (Qmin ((Frame.time f - Round.lastTimeRef w) / 1000) 0.1)
                 (Round.set_lastTimeRef (Frame.time f) w) w1
          /\ Round.state w' = Round.state w1
          /\ Round.gameOverReasonRef w' = Round.gameOverReasonRef w1).
Proof.
  intros Hloop Htime Hinv.
  apply loop_spec in Hloop as (w1 & Hstate & Hreason & _ & [-> | (Hpaused & Hover & o1 & Hupd)]).
  { left. split; assumption. }
  destruct (GameState.isPlaying (Round.state w)) eqn:Hplay.
  - right. split; [exact Hpaused|]. split; [reflexivity|]. split; [exact Hover|].
    exists w1. split; [|split; assumption].
    destruct (clamped_delta _ _ Htime) as [Hlo Hhi].
    apply (update_ticked fuel _ (Frame.input f) (Round.set_lastTimeRef (Frame.time f) w)
             o w1 o1 Hupd).
    + exact Hplay.
    + exact Hover.
    + exact Hlo.
    + eapply Qle_lt_trans; [exact Hhi|reflexivity].
    + apply (inv_health_cap w Hinv).
    + apply (inv_alive w Hinv Hover).
    + apply (inv_timer_cap w Hinv).
  - left. apply update_skipped in Hupd; [|left; exact Hplay]. subst w1.
    split; assumption.
Qed.


(** A frame that is not paused, on a round that is not over, runs
    [update] with the clamped delta. *)
Lemma loop_running fuel f w o w' o' :
  loop fuel f w o = Ok (w', o') ->
  Frame.isPaused f = false ->
  GameState.isGameOver (Round.state w) = false ->
  exists w1 o1,
    update fuel (Qmin ((Frame.time f - Round.lastTimeRef w) / 1000) 0.1) (Frame.input f)
           (Round.set_lastTimeRef (Frame.time f) w) o = Ok (w1, o1)
    /\ Round.state w' = Round.state w1
    /\ Round.gameOverReasonRef w' = Round.gameOverReasonRef w1.
Proof.
  unfold loop. intros H Hpaused Hover.
  rewrite Hpaused in H. cbn [Round.state Round.set_lastTimeRef negb andb] in H.
  rewrite Hover in H. cbn [negb] in H.
  apply bind_Ok in H as (w1 & o1 & Hupd & H).
  apply bind_Ok in H as (u & o2 & _ & H).
  exists w1, o1.
  destruct (GameState.isGameOver (Round.state w1) && negb (Round.gameOverSentRef w1));
    apply ret_Ok in H as [? ?]; subst; auto.
Qed.

Lemma demoTown_started : started stepOracle = demoTown.
Proof. exact (@eq_refl Round demoTown <: started stepOracle = demoTown). Qed.

Lemma demoTown_reachable : reachable demoTown.
Proof. apply (started_reachable stepOracle); [exact demoTown_started|reflexivity]. Qed.

(** ** Timer bounds *)

(** C2, counterexample: a reachable round whose timer is negative.  From
    the town with no house and no car, 1666 frames 90 ms apart with no key
    held leave 0.06 s on the clock; the next one takes the timer to
    -0.03, and [update] returns with the round over and the timer as it
    is. *)
Lemma timer_negative_after_timeout :
  exists w, reachable w
            /\ GameState.isGameOver (Round.state w) = true
            /\ (GameState.timer (Round.state w) < 0)%Q.
Proof.
  destruct (idle_reachable 1666) as (w & Hreach & Hq & Htimer & Hlast); [lia|].
  destruct (loop_quiet w (inject_Z (90 * Z.of_nat 1667)) Hq)
    as (w' & o' & Hrun & Htimer' & _ & _ & Hover).
  rewrite Hlast, inject_Z_sub in Htimer', Hover.
  replace (90 * Z.of_nat 1667 - 90 * Z.of_nat 1666) with 90 in Htimer', Hover by lia.
  rewrite Htimer in Htimer', Hover. fold idleDelta in Htimer', Hover.
  change (idleTimer 1666 - idleDelta)%Q with (idleTimer 1667) in Htimer', Hover.
  assert (Hneg : (idleTimer 1667 < 0)%Q).
  { rewrite idleTimer_value. reflexivity. }
  exists w'. split; [|split].
  - eapply reachable_frame; [exact Hreach| |exact Hrun].
    rewrite Hlast. cbn [Frame.time]. rewrite <- Zle_Qle. lia.
  - apply Hover. apply Qlt_le_weak. exact Hneg.
  - rewrite Htimer'. exact Hneg.
Qed.

(** C2, as the code has it.  In every round reached by frames none of
    which is older than the time recorded last ([reachable]), the timer is
    at most [INITIAL_TIME], and it is positive as long as the round is not
    over.  A tick whose decrement takes the timer to 0 or below ends the
    round with reason TIMEOUT within that tick, and leaves in the timer
    the decremented value, which may be negative. *)
Theorem timer_bounds (w : Round) :
  reachable w ->
  (GameState.timer (Round.state w) <= INITIAL_TIME)%Q
  /\ (GameState.isGameOver (Round.state w) = false ->
      (0 < GameState.timer (Round.state w))%Q)
  /\ forall fuel f o w' o',
       (Round.lastTimeRef w <= Frame.time f)%Q ->
       Frame.isPaused f = false ->
       GameState.isPlaying (Round.state w) = true ->
       GameState.isGameOver (Round.state w) = false ->
       loop fuel f w o = Ok (w', o') ->
       let deltaTime := Qmin ((Frame.time f - Round.lastTimeRef w) / 1000) 0.1 in
       (GameState.timer (Round.state w) - deltaTime <= 0)%Q ->
       GameState.isGameOver (Round.state w') = true
       /\ Round.gameOverReasonRef w' = "TIMEOUT"%string
       /\ GameState.timer (Round.state w')
          = (GameState.timer (Round.state w) - deltaTime)%Q.
Proof.
  intros Hreach. pose proof (reachable_invariant w Hreach) as Hinv.
  split; [apply Hinv|]. split; [apply Hinv|].
  intros fuel f o w' o' Htime Hpaused Hplay Hover Hloop deltaTime Hzero.
  apply loop_running in Hloop as (w1 & o1 & Hupd & Hstate & Hreason); auto.
  apply update_phases in Hupd as [[[Hp | Ho] _] | (_ & _ & [[_ ->] | [Hpos _]])].
  - cbn [Round.state Round.set_lastTimeRef] in Hp. congruence.
  - cbn [Round.state Round.set_lastTimeRef] in Ho. congruence.
  - rewrite Hstate, Hreason. repeat split.
  - exfalso. cbn [Round.state Round.set_lastTimeRef] in Hpos.
    apply (Qlt_irrefl 0). eapply Qlt_le_trans; [exact Hpos|exact Hzero].
Qed.

Lemma timer_bounds_witness :
  reachable emptyTown /\ (GameState.timer (Round.state emptyTown) <= INITIAL_TIME)%Q.
Proof.
  split; [exact emptyTown_reachable|].
  exact (proj1 (timer_bounds emptyTown emptyTown_reachable)).
Defined.

(** The delta of a frame is clamped from above only.  A frame that is
    older than the time recorded last gives a negative delta, and the tick
    adds to the timer what it should take off: at the start of a round
    that takes the timer above [INITIAL_TIME].  Here the frame is 900 ms
    older than the time [startLoop] recorded. *)
Lemma older_frame_raises_timer :
  exists w' o',
    loop 10 (Frame.mk (-900) false idle) emptyTown halfOracle = Ok (w', o')
    /\ (GameState.timer (Round.state w') == 150.9)%Q
    /\ (INITIAL_TIME < GameState.timer (Round.state w'))%Q.
Proof.
  destruct (loop_quiet emptyTown (-900) emptyTown_quiet) as (w' & o' & Hrun & Htimer & _).
  exists w', o'. split; [exact Hrun|]. rewrite Htimer. split; reflexivity.
Qed.

(** ** Health bounds *)



(** ** The target house *)

(** C4, counterexample: a round that is being played and has no target
    house.  When every draw of [initGame] is 0 no lot passes the density
    test, the town has no house, and [initGame] marks no target. *)
Lemma playing_without_target :
  exists w, reachable w
            /\ GameState.isPlaying (Round.state w) = true
            /\ GameState.isGameOver (Round.state w) = false
            /\ targetCount (GameState.houses (Round.state w)) = 0%nat.
Proof.
  exists emptyTown. split; [exact emptyTown_reachable|]. repeat split.
Qed.

(** C4, as the code has it.  In every reachable round that has a house,
    exactly one house has [isTarget] set. *)
Theorem single_target (w : Round) :
  reachable w ->
  GameState.houses (Round.state w) <> [] ->
  targetCount (GameState.houses (Round.state w)) = 1%nat.
Proof. intros Hreach. apply (inv_target w (reachable_invariant w Hreach)). Qed.

Lemma single_target_witness :
  reachable demoTown
  /\ GameState.houses (Round.state demoTown) <> []
  /\ targetCount (GameState.houses (Round.state demoTown)) = 1%nat.
Proof.
  assert (Hhouses : GameState.houses (Round.state demoTown) <> []).
  { intros H. apply (f_equal (@length House)) in H. vm_compute in H. discriminate H. }
  split; [exact demoTown_reachable|]. split; [exact Hhouses|].
  exact (single_target demoTown demoTown_reachable Hhouses).
Defined.

Lemma outcome_run {A} (d : A) (r : Res (A * Oracle)) :
  succeeded r = true -> exists o', r = Ok (outcome d r, o').
Proof. destruct r as [[a o']| |]; try discriminate. intros _. exists o'. reflexivity. Qed.

(** ** The invulnerability window *)

Lemma update_vitals fuel deltaTime input w o w' o' :
  update fuel deltaTime input w o = Ok (w', o') ->
  frameDelta deltaTime -> roundInvariant w ->
  tickVitals deltaTime (GameState.player (Round.state w)) (GameState.player (Round.state w')).
Proof.
  intros Hupd [Hlo Hhi] Hinv.
  destruct (GameState.isPlaying (Round.state w)) eqn:Hplay;
    [destruct (GameState.isGameOver (Round.state w)) eqn:Hover|].
  - apply update_skipped in Hupd; [|right; exact Hover]. subst w'.
    apply vitals_unhurt; [lia|left; reflexivity].
  - apply (ticked_vitals deltaTime w w').
    apply (update_ticked fuel deltaTime input w o w' o' Hupd); auto; apply Hinv; auto.
  - apply update_skipped in Hupd; [|left; exact Hplay]. subst w'.
    apply vitals_unhurt; [lia|left; reflexivity].
Qed.

(** A tick that the invulnerability timer outlasts does not lower the
    health, and leaves the timer as it was or takes its delta off. *)
Lemma tick_shielded fuel deltaTime input w o w1 o1 :
  update fuel deltaTime input w o = Ok (w1, o1) ->
  frameDelta deltaTime -> roundInvariant w ->
  (deltaTime < Player.invulnerabilityTimer (GameState.player (Round.state w)))%Q ->
  Player.health (GameState.player (Round.state w))
  <= Player.health (GameState.player (Round.state w1)).
Proof.
  intros Hupd Hd Hinv Hlong.
  pose proof (update_vitals _ _ _ _ _ _ _ Hupd Hd Hinv) as [Hh _ | Hexpired _ _].
  - exact Hh.
  - exfalso. lra.
Qed.

Lemma shielded_unhurt w rounds :
  shielded w rounds -> roundInvariant w -> unhurt w rounds.
Proof.
  induction 1 as [w|fuel d input w o w1 o1 rounds Hd Hlong Hupd Hrest IH];
    intros Hinv; cbn [unhurt]; [exact I|].
  split; [exact (tick_shielded _ _ _ _ _ _ _ Hupd Hd Hinv Hlong)|].
  apply IH. destruct Hd. eapply update_invariant; eauto.
Qed.

(** C8.  If a tick takes a health point from the player, it takes exactly
    one and leaves the invulnerability timer positive; and of the ticks
    that follow, none takes another as long as the timer outlasts them
    (the timer at the start of the tick is above its delta), whatever the
    player touches: from each round of such a run to the next the health
    does not go down. *)
Theorem invulnerability_window fuel deltaTime input w o w1 o1 rounds :
  roundInvariant w ->
  frameDelta deltaTime ->
  update fuel deltaTime input w o = Ok (w1, o1) ->
  Player.health (GameState.player (Round.state w1))
  < Player.health (GameState.player (Round.state w)) ->
  shielded w1 rounds ->
  Player.health (GameState.player (Round.state w1))
  = Player.health (GameState.player (Round.state w)) - 1
  /\ (0 < Player.invulnerabilityTimer (GameState.player (Round.state w1)))%Q
  /\ unhurt w1 rounds.
Proof.
  intros Hinv Hd Hupd Hhit Hrun.
  pose proof (update_vitals _ _ _ _ _ _ _ Hupd Hd Hinv) as [Hh _ | _ Hh Ht]; [lia|].
  split; [lia|]. split.
  - destruct Ht as [-> | ->]; destruct Hd; lra.
  - apply (shielded_unhurt w1 rounds Hrun).
    destruct Hd. eapply update_invariant; eauto.
Qed.

Lemma placePlayer_invariant pos w : roundInvariant w -> roundInvariant (placePlayer pos w).
Proof. intros []. constructor; assumption. Qed.

Lemma demoTown_invariant : roundInvariant demoTown.
Proof. exact (reachable_invariant demoTown demoTown_reachable). Qed.

Lemma idleTick_run w :
  succeeded (update 10 0.1 idle w halfOracle) = true ->
  exists o', update 10 0.1 idle w halfOracle = Ok (idleTick w, o').
Proof. apply outcome_run. Qed.

Lemma invulnerability_window_witness :
  Player.health (GameState.player (Round.state (idleTick inPuddle)))
  = Player.health (GameState.player (Round.state inPuddle)) - 1
  /\ unhurt (idleTick inPuddle)
            [idleTick (idleTick inPuddle); idleTick (idleTick (idleTick inPuddle))].
Proof.
  destruct (idleTick_run inPuddle) as [o1 H1]; [vm_compute; reflexivity|].
  destruct (idleTick_run (idleTick inPuddle)) as [o2 H2]; [vm_compute; reflexivity|].
  destruct (idleTick_run (idleTick (idleTick inPuddle))) as [o3 H3]; [vm_compute; reflexivity|].
  assert (Hd : frameDelta 0.1) by (split; [discriminate|reflexivity]).
  destruct (invulnerability_window 10 0.1 idle inPuddle halfOracle (idleTick inPuddle) o1
              [idleTick (idleTick inPuddle); idleTick (idleTick (idleTick inPuddle))])
    as (Hone & _ & Hrest).
  - apply placePlayer_invariant, demoTown_invariant.
  - exact Hd.
  - exact H1.
  - vm_compute. reflexivity.
  - refine (shielded_cons _ _ _ _ _ _ _ _ Hd _ H2
              (shielded_cons _ _ _ _ _ _ _ _ Hd _ H3 (shielded_nil _)));
      vm_compute; reflexivity.
  - split; [exact Hone|exact Hrest].
Defined.

(** ** One car through a tick *)

Lemma activation_trans c1 c2 c3 : activation c1 c2 -> activation c2 c3 -> activation c1 c3.
Proof.
  intros [-> | H12] [-> | H23]; [left; reflexivity|right; exact H23|right; exact H12|].
  exfalso. pose proof (activated_merging _ _ H12) as Hm.
  pose proof (activated_parked _ _ H23) as Hp. congruence.
Qed.

Lemma delivered_setting s s' : s' = s \/ delivered s s' -> sameSetting s s'.
Proof. intros H. apply (delivered_player s s' H). Qed.

Lemma delivered_cars s s' :
  s' = s \/ delivered s s' -> Forall2 activation (GameState.cars s) (GameState.cars s').
Proof.
  intros [-> | (? & ? & ? & ? & H)]; [apply Forall2_same, activation_refl|].
  apply H.
Qed.

(** The car at position [i] through the phases of a tick: the activations
    before the car loop, its step of the car loop unless the tick ended
    before its turn, and the power-up phase. *)
Lemma update_car fuel deltaTime input w o w' o' i car :
  update fuel deltaTime input w o = Ok (w', o') ->
  GameState.cars (Round.state w) !! i = Some car ->
  exists car1 car2 car3,
    activation car car1
    /\ (car2 = car1
        \/ exists s q o1 q' d o2,
             sameSetting (Round.state w) s
             /\ carStep s deltaTime q car1 o1 = Ok (q', car2, d, o2))
    /\ refrozen car2 car3
    /\ GameState.cars (Round.state w') !! i = Some car3
    /\ (GameState.isPlaying (Round.state w) = true ->
        GameState.isGameOver (Round.state w) = false ->
        GameState.isGameOver (Round.state w') = false ->
        exists s q o1 q' d o2,
          sameSetting (Round.state w) s
          /\ carStep s deltaTime q car1 o1 = Ok (q', car2, d, o2)).
Proof.
  intros Hupd Hcar. apply update_phases in Hupd. cbv zeta in Hupd.
  destruct Hupd as [[Hskip ->]
                   | (Hplay & Hover & [[Hzero ->]
                                      | (Hpos & s1 & o1 & moved & o2 & Hpre & Hphase & Hrest)])].
  - exists car, car, car. split; [apply activation_refl|]. split; [left; reflexivity|].
    split; [apply refrozen_refl|]. split; [exact Hcar|].
    intros Hp Ho _. destruct Hskip; congruence.
  - exists car, car, car. split; [apply activation_refl|]. split; [left; reflexivity|].
    split; [apply refrozen_refl|]. split; [exact Hcar|].
    intros _ _ Hend. discriminate Hend.
  - destruct (Forall2_lookup_l _ _ _ _ _ (premoved_cars _ _ _ Hpre) Hcar)
      as (car1 & Hcar1 & Hact1).
    apply playerPhase_spec in Hphase
      as (p' & w1 & Hstate1 & _ & _ & _ & _ & _ & _ & Hmoved).
    cbn [Round.state Round.set_state] in Hstate1.
    destruct Hmoved as [[-> _] | [-> _]].
    2:{ subst w'. exists car1, car1, car1. split; [exact Hact1|]. split; [left; reflexivity|].
        split; [apply refrozen_refl|].
        split; [cbn [gameOver Round.state Round.set_state Round.set_gameOverReasonRef
                     GameState.cars GameState.set_isGameOver]; rewrite Hstate1; exact Hcar1|].
        intros _ _ Hend. discriminate Hend. }
    apply afterMove_spec in Hrest
      as (s4 & projs & p5 & cars5 & dead & o5 & o6 & Hdel & Hloop & _ & Hend).
    cbv zeta in *.
    set (s3 := GameState.set_player _ (Round.state w1)) in *.
    assert (Hcar3 : GameState.cars s3 !! i = Some car1).
    { subst s3. rewrite Hstate1. exact Hcar1. }
    assert (Hset3 : sameSetting (Round.state w) s3).
    { eapply sameSetting_trans; [exact (premoved_setting _ _ _ Hpre)|].
      subst s3. rewrite Hstate1. constructor; reflexivity. }
    pose proof (delivery_outcome _ _ Hdel) as Hdel'.
    destruct (Forall2_lookup_l _ _ _ _ _ (delivered_cars _ _ Hdel') Hcar3)
      as (car4 & Hcar4 & Hact4).
    assert (Hset4 : sameSetting (Round.state w) (GameState.set_projectiles projs s4)).
    { eapply sameSetting_trans; [exact Hset3|].
      eapply sameSetting_trans; [exact (delivered_setting _ _ Hdel')|].
      constructor; reflexivity. }
    pose proof (carLoop_nth _ _ _ _ _ _ _ _ _ _ _ Hloop Hcar4) as Hnth.
    destruct Hend as [[-> ->] | [-> (s6 & Hpow & ->)]].
    + destruct Hnth as [[_ Hsame] | (q & oa & q' & car5 & d & ob & Hstep & Hcar5)].
      * exists car4, car4, car4. split; [eapply activation_trans; eauto|].
        split; [left; reflexivity|]. split; [apply refrozen_refl|].
        split; [exact Hsame|]. intros _ _ Hend. discriminate Hend.
      * exists car4, car5, car5. split; [eapply activation_trans; eauto|].
        split; [right; eauto 10|]. split; [apply refrozen_refl|].
        split; [exact Hcar5|]. intros _ _ Hend. discriminate Hend.
    + destruct Hnth as [[Hdead _] | (q & oa & q' & car5 & d & ob & Hstep & Hcar5)];
        [discriminate Hdead|].
      destruct (Forall2_lookup_l _ _ _ _ _ (powered_cars _ _ Hpow) Hcar5)
        as (car6 & Hcar6 & Hfrozen).
      exists car4, car5, car6. split; [eapply activation_trans; eauto|].
      split; [right; eauto 10|]. split; [exact Hfrozen|].
      split; [exact Hcar6|]. intros _ _ _. eauto 10.
Qed.

(** ** Frozen cars *)

Lemma pausedTick_run :
  exists o', update 10 0.1 idle pausedTown stepOracle = Ok (pausedTick, o').
Proof. apply outcome_run. vm_compute. reflexivity. Qed.

(** C9, counterexample.  While the traffic is paused, every car is frozen;
    [activateCar] still picks a parked car, and the tick takes it from
    PARKED to MERGING. *)
Lemma frozen_car_activated :
  exists o',
    update 10 0.1 idle pausedTown stepOracle = Ok (pausedTick, o')
    /\ Car.frozenTimer <$> GameState.cars (Round.state pausedTown) !! 1%nat = Some 10.0%Q
    /\ Car.state <$> GameState.cars (Round.state pausedTown) !! 1%nat = Some PARKED
    /\ Car.state <$> GameState.cars (Round.state pausedTick) !! 1%nat = Some MERGING.
Proof.
  destruct pausedTick_run as [o' Hrun]. exists o'.
  split; [exact Hrun|]. split; [|split]; vm_compute; reflexivity.
Qed.

(** C9, as the code has it.  The step of the car loop leaves a frozen car
    as it is but for [frozenTimer], from which it takes the delta.  Over
    the whole tick the car keeps its position and its velocity; it keeps
    its state and its direction unless it is a parked car that
    [activateCar] picks, which starts merging. *)
Theorem frozen_car_stays fuel deltaTime input w o w' o' i car :
  update fuel deltaTime input w o = Ok (w', o') ->
  GameState.cars (Round.state w) !! i = Some car ->
  (0 < Car.frozenTimer car)%Q ->
  (forall s p o1,
     carStep s deltaTime p car o1
     = Ok (p, Car.set_frozenTimer (Car.frozenTimer car - deltaTime) car, false, o1))
  /\ exists car',
      GameState.cars (Round.state w') !! i = Some car'
      /\ Car.pos car' = Car.pos car
      /\ Car.velocity car' = Car.velocity car
      /\ ((Car.state car' = Car.state car /\ Car.direction car' = Car.direction car)
          \/ (Car.state car = PARKED /\ Car.state car' = MERGING)).
Proof.
  intros Hupd Hcar Hfrozen.
  split; [intros s p o1; apply carStep_frozen, Hfrozen|].
  destruct (update_car _ _ _ _ _ _ _ _ _ Hupd Hcar)
    as (car1 & car2 & car3 & Hact & Hstep & Hpow & Hcar3 & _).
  exists car3. split; [exact Hcar3|].
  assert (Hfrozen1 : (0 < Car.frozenTimer car1)%Q).
  { destruct Hact as [-> | Hact]; [exact Hfrozen|]. apply (activated_frozen _ _ Hact Hfrozen). }
  assert (H12 : Car.pos car2 = Car.pos car1 /\ Car.velocity car2 = Car.velocity car1
                /\ Car.state car2 = Car.state car1
                /\ Car.direction car2 = Car.direction car1).
  { destruct Hstep as [-> | (s & q & o1 & q' & d & o2 & _ & Hstep)]; [auto|].
    rewrite (carStep_frozen s deltaTime q car1 o1 Hfrozen1) in Hstep.
    injection Hstep as _ <- _ _. auto. }
  assert (H23 : Car.pos car3 = Car.pos car2 /\ Car.velocity car3 = Car.velocity car2
                /\ Car.state car3 = Car.state car2
                /\ Car.direction car3 = Car.direction car2).
  { destruct Hpow as [-> | ->]; auto. }
  destruct H12 as (Hp12 & Hv12 & Hs12 & Hd12). destruct H23 as (Hp23 & Hv23 & Hs23 & Hd23).
  rewrite Hp23, Hp12, Hv23, Hv12, Hs23, Hs12, Hd23, Hd12.
  destruct Hact as [-> | Hact]; [auto|].
  split; [apply (activated_pos _ _ Hact)|]. split; [apply (activated_velocity _ _ Hact)|].
  right. split; [apply (activated_parked _ _ Hact)|apply (activated_merging _ _ Hact)].
Qed.

Lemma frozen_car_stays_witness :
  exists car',
    GameState.cars (Round.state pausedTick) !! 0%nat = Some car'
    /\ Car.pos car' = vec 1350 166
    /\ Car.state car' = PARKED.
Proof.
  destruct pausedTick_run as [o' Hrun].
  destruct (frozen_car_stays 10 0.1 idle pausedTown stepOracle pausedTick o' 0%nat
              (Car.mk (vec 1350 166) (vec 22 12) (vec 0 0) CAR_SPEED 10.0 Down PARKED
                      (vec 1350 166)) Hrun)
    as (_ & car' & Hcar' & Hpos & _ & Hstate).
  - vm_compute. reflexivity.
  - reflexivity.
  - exists car'. split; [exact Hcar'|]. split; [exact Hpos|].
    destruct Hstate as [[Hstate _] | [_ Hmerging]]; [exact Hstate|].
    assert (H : Car.state <$> GameState.cars (Round.state pausedTick) !! 0%nat = Some PARKED)
      by (vm_compute; reflexivity).
    rewrite Hcar' in H. injection H as H. congruence.
Defined.

(** ** Dead ends *)

Lemma validOptionsAt_setting s s' tileX tileY d :
  sameSetting s s' -> validOptionsAt s' tileX tileY d = validOptionsAt s tileX tileY d.
Proof.
  intros H. unfold validOptionsAt.
  rewrite (same_map _ _ H), (same_vRoads _ _ H), (same_hRoads _ _ H). reflexivity.
Qed.

(** The step of the car loop for a driving car at the centre of a tile
    with no valid flow option, when the car does not peel off into a
    driveway. *)
Lemma carStep_dead_end s deltaTime p car o :
  Car.state car = DRIVING ->
  (Car.frozenTimer car <= 0)%Q ->
  (distToCenter car < Car.speed car)%Q ->
  (0.1 <= rand o (randCalls o))%Q
  \/ findDriveway (GameState.map s) (tileOf (carCenterX car)) (tileOf (carCenterY car))
                  neighbors = Ok None ->
  validOptionsAt s (tileOf (carCenterX car)) (tileOf (carCenterY car)) (Car.direction car)
  = Ok [] ->
  exists o', carStep s deltaTime p car o = Ok (p, teleportHome car, false, o').
Proof.
  intros Hstate Hfrozen Hcentre Hdrive Hvalid.
  unfold carStep.
  assert (E1 : (Car.frozenTimer car >? 0)%js = false) by (apply Qlt_bool_false; exact Hfrozen).
  assert (E2 : (distToCenter car <? Car.speed car)%js = true)
    by (apply Qlt_bool_iff; exact Hcentre).
  rewrite E1, Hstate, E2.
  assert (Hturn : exists o', turningLogic s car o = Ok (Return (teleportHome car), o')).
  { unfold turningLogic. cbv zeta. erewrite bind_run by reflexivity.
    assert (E3 : (if (rand o (randCalls o) <? 0.1)%js
                  then findDriveway (GameState.map s) (tileOf (carCenterX car))
                                    (tileOf (carCenterY car)) neighbors
                  else Ok None) = Ok None).
    { destruct (rand o (randCalls o) <? 0.1)%js eqn:E; [|reflexivity].
      destruct Hdrive as [Hdraw | Hnone]; [|exact Hnone].
      apply Qlt_bool_iff in E. exfalso. apply (Qlt_irrefl 0.1). eapply Qle_lt_trans; eauto. }
    rewrite E3. rewrite bind_liftR. rewrite bind_liftR, Hvalid. eexists. reflexivity. }
  destruct Hturn as [o' Hturn]. erewrite bind_run by exact Hturn.
  exists o'. reflexivity.
Qed.

(** The rounds a run of frames 16 ms apart goes through are reachable. *)
Lemma coast_reachable n w w' : reachable w -> coast n w = Ok w' -> reachable w'.
Proof.
  revert w. induction n as [|n IH]; intros w Hreach H; cbn [coast] in H.
  - injection H as <-. exact Hreach.
  - destruct (loop 10 (Frame.mk (Round.lastTimeRef w + 16) false idle) w halfOracle)
      as [[w1 o1]| |] eqn:Hloop; try discriminate.
    apply (IH w1); [|exact H].
    refine (reachable_frame _ _ _ _ _ _ Hreach _ Hloop). cbn [Frame.time]. lra.
Qed.

Lemma departed_run :
  exists o', loop 10 (Frame.mk 16 false idle) demoTown departOracle = Ok (departed, o').
Proof.
  apply (outcome_run mountState (loop 10 (Frame.mk 16 false idle) demoTown departOracle)).
  vm_compute. reflexivity.
Qed.

Lemma nearDeadEnd_run : coast 197 departed = Ok nearDeadEnd.
Proof. exact (@eq_refl (Res Round) (Ok nearDeadEnd) <: coast 197 departed = Ok nearDeadEnd). Qed.

Lemma arrivedTown_run : coast 1 nearDeadEnd = Ok arrivedTown.
Proof. exact (@eq_refl (Res Round) (Ok arrivedTown) <: coast 1 nearDeadEnd = Ok arrivedTown). Qed.

Lemma jammedTown_run :
  exists o', loop 10 (Frame.mk 3184 false idle) nearDeadEnd lightOracle = Ok (jammedTown, o').
Proof.
  apply (outcome_run mountState (loop 10 (Frame.mk 3184 false idle) nearDeadEnd lightOracle)).
  vm_compute. reflexivity.
Qed.

Lemma nearDeadEnd_reachable : reachable nearDeadEnd.
Proof.
  destruct departed_run as [o' Hrun].
  apply (coast_reachable 197 departed); [|exact nearDeadEnd_run].
  refine (reachable_frame _ _ _ _ _ _ demoTown_reachable _ Hrun). discriminate.
Qed.

Lemma arrivedTown_reachable : reachable arrivedTown.
Proof. exact (coast_reachable 1 _ _ nearDeadEnd_reachable arrivedTown_run). Qed.

Lemma jammedTown_reachable : reachable jammedTown.
Proof.
  destruct jammedTown_run as [o' Hrun].
  refine (reachable_frame _ _ _ _ _ _ nearDeadEnd_reachable _ Hrun). discriminate.
Qed.

(** C7, counterexample.  A round the component reaches: a car has left its
    driveway, merged into the band that flows to the right and driven on
    to the centre of the last tile of the band, where no flow option is
    valid; in the frame before, the player has picked up a TRAFFIC_LIGHT,
    which froze the car.  The next tick skips the car: it is still
    DRIVING, at the same place, and not at its home position. *)
Lemma frozen_at_dead_end :
  reachable jammedTown
  /\ GameState.cars (Round.state jammedTown) !! 9%nat = Some jammedCar
  /\ Car.state jammedCar = DRIVING
  /\ (distToCenter jammedCar < Car.speed jammedCar)%Q
  /\ validOptionsAt (Round.state jammedTown) (tileOf (carCenterX jammedCar))
                    (tileOf (carCenterY jammedCar)) (Car.direction jammedCar)
     = Ok []
  /\ (0 < Car.frozenTimer jammedCar)%Q
  /\ exists o',
       update 10 0.1 idle jammedTown halfOracle = Ok (jammedTick, o')
       /\ GameState.isGameOver (Round.state jammedTick) = false
       /\ Car.state (carAt 9 jammedTick) = DRIVING
       /\ Car.pos (carAt 9 jammedTick) = Car.pos jammedCar
       /\ Car.pos jammedCar <> Car.homePos jammedCar.
Proof.
  split; [exact jammedTown_reachable|].
  split; [vm_compute; reflexivity|]. split; [reflexivity|]. split; [reflexivity|].
  split; [vm_compute; reflexivity|]. split; [reflexivity|].
  destruct (idleTick_run jammedTown) as [o' Hrun]; [vm_compute; reflexivity|].
  exists o'. split; [exact Hrun|].
  split; [vm_compute; reflexivity|]. split; [vm_compute; reflexivity|].
  split; [vm_compute; reflexivity|]. discriminate.
Qed.

(** What else a tick may do with a driving car at a dead end.  With a
    driveway next to the tile and a first draw below 0.1 the car turns
    into the driveway, before the flow options are looked at. *)
Lemma dead_end_turns_home s deltaTime p car o n :
  Car.state car = DRIVING ->
  (Car.frozenTimer car <= 0)%Q ->
  (distToCenter car < Car.speed car)%Q ->
  (rand o (randCalls o) < 0.1)%Q ->
  findDriveway (GameState.map s) (tileOf (carCenterX car)) (tileOf (carCenterY car))
               neighbors = Ok (Some n) ->
  exists car' o',
    carStep s deltaTime p car o = Ok (p, car', false, o')
    /\ Car.state car' = RETURNING
    /\ Car.direction car' = Neighbor.d n.
Proof.
  intros Hstate Hfrozen Hcentre Hdraw Hdrive.
  unfold carStep.
  assert (E1 : (Car.frozenTimer car >? 0)%js = false) by (apply Qlt_bool_false; exact Hfrozen).
  assert (E2 : (distToCenter car <? Car.speed car)%js = true)
    by (apply Qlt_bool_iff; exact Hcentre).
  assert (E3 : (rand o (randCalls o) <? 0.1)%js = true) by (apply Qlt_bool_iff; exact Hdraw).
  rewrite E1, Hstate, E2.
  assert (Hturn : exists c o', turningLogic s car o = Ok (Return c, o')
                               /\ Car.state c = RETURNING
                               /\ Car.direction c = Neighbor.d n).
  { unfold turningLogic. cbv zeta. erewrite bind_run by reflexivity.
    rewrite E3, Hdrive. rewrite bind_liftR.
    eexists _, _. split; [reflexivity|]. split; reflexivity. }
  destruct Hturn as (c & o' & Hturn & Hc & Hd). erewrite bind_run by exact Hturn.
  exists c, o'. split; [reflexivity|]. split; assumption.
Qed.

(** A tick in which the timer runs out returns before the car loop: the
    cars are left as they are. *)
Lemma timeout_skips_cars fuel deltaTime input w o w' o' :
  update fuel deltaTime input w o = Ok (w', o') ->
  GameState.isPlaying (Round.state w) = true ->
  GameState.isGameOver (Round.state w) = false ->
  (GameState.timer (Round.state w) - deltaTime <= 0)%Q ->
  GameState.cars (Round.state w') = GameState.cars (Round.state w)
  /\ GameState.isGameOver (Round.state w') = true.
Proof.
  intros Hupd Hplay Hover Hzero. apply update_phases in Hupd. cbv zeta in Hupd.
  destruct Hupd as [[[Hp | Ho] _] | (_ & _ & [[_ ->] | [Hpos _]])].
  - congruence.
  - congruence.
  - split; reflexivity.
  - exfalso. apply (Qlt_irrefl 0). eapply Qlt_le_trans; [exact Hpos|exact Hzero].
Qed.

(** [getTrafficFlow] offers at most one way along each axis, so never a
    flow together with its reverse: for a car that heads along a flow of
    its tile the options that are not the reverse of its heading are all
    the options. *)
Lemma getTrafficFlow_no_reverse tx ty vRoads hRoads f g :
  f ∈ getTrafficFlow tx ty vRoads hRoads ->
  g ∈ getTrafficFlow tx ty vRoads hRoads ->
  Flow.d g <> reverseDir (Flow.d f).
Proof.
  unfold getTrafficFlow. cbv zeta.
  destruct (_ =? -1); destruct (_ =? -1); repeat destruct (_ =? 0); cbn [app];
    intros Hf Hg;
    repeat match goal with
           | H : _ ∈ [] |- _ => inversion H
           | H : _ ∈ _ :: _ |- _ => apply elem_of_cons in H as [-> | H]
           end; discriminate.
Qed.

(** C7, as the code has it.  A driving car that is not frozen, at the
    centre of a tile none of whose flow options is valid, the reverse of
    its heading included, and with no driveway next to it, is parked at
    its home position with no velocity when the tick ends, provided the
    tick does not end the round. *)
Theorem dead_end_parks fuel deltaTime input w o w' o' i car :
  update fuel deltaTime input w o = Ok (w', o') ->
  GameState.isPlaying (Round.state w) = true ->
  GameState.isGameOver (Round.state w) = false ->
  GameState.isGameOver (Round.state w') = false ->
  GameState.cars (Round.state w) !! i = Some car ->
  Car.state car = DRIVING ->
  (Car.frozenTimer car <= 0)%Q ->
  (distToCenter car < Car.speed car)%Q ->
  findDriveway (GameState.map (Round.state w)) (tileOf (carCenterX car))
               (tileOf (carCenterY car)) neighbors = Ok None ->
  validOptionsAt (Round.state w) (tileOf (carCenterX car)) (tileOf (carCenterY car))
                 (Car.direction car) = Ok [] ->
  exists car',
    GameState.cars (Round.state w') !! i = Some car'
    /\ Car.state car' = PARKED
    /\ Car.pos car' = Car.homePos car
    /\ Car.velocity car' = vec 0 0.
Proof.
  intros Hupd Hplay Hover Hend Hcar Hstate Hfrozen Hcentre Hdrive Hvalid.
  destruct (update_car _ _ _ _ _ _ _ _ _ Hupd Hcar)
    as (car1 & car2 & car3 & Hact & _ & Hpow & Hcar3 & Hstep).
  destruct (Hstep Hplay Hover Hend) as (s & q & o1 & q' & d & o2 & Hset & Hrun).
  assert (car1 = car) as ->.
  { destruct Hact as [-> | Hact]; [reflexivity|].
    pose proof (activated_parked _ _ Hact). congruence. }
  destruct (carStep_dead_end s deltaTime q car o1 Hstate Hfrozen Hcentre) as [o3 Hpark].
  - right. rewrite (same_map _ _ Hset). exact Hdrive.
  - rewrite (validOptionsAt_setting _ _ _ _ _ Hset). exact Hvalid.
  - rewrite Hpark in Hrun. injection Hrun as _ <- _ _.
    exists car3. split; [exact Hcar3|].
    destruct Hpow as [-> | ->]; repeat split.
Qed.

Lemma dead_end_parks_witness :
  reachable arrivedTown
  /\ exists car',
       GameState.cars (Round.state arrivedTick) !! 9%nat = Some car'
       /\ Car.state car' = PARKED
       /\ Car.pos car' = Car.homePos atDeadEnd
       /\ Car.velocity car' = vec 0 0.
Proof.
  split; [exact arrivedTown_reachable|].
  destruct (idleTick_run arrivedTown) as [o' Hrun]; [vm_compute; reflexivity|].
  apply (dead_end_parks 10 0.1 idle arrivedTown halfOracle arrivedTick o' 9%nat atDeadEnd Hrun).
  - reflexivity.
  - reflexivity.
  - vm_compute. reflexivity.
  - vm_compute. reflexivity.
  - reflexivity.
  - discriminate.
  - reflexivity.
  - vm_compute. reflexivity.
  - vm_compute. reflexivity.
Defined.

(** ** Deliveries *)


(** With a single house every draw picks the target again: the loop does
    not end. *)
Lemma pickNextHouse_single fuel o : rng_ok o -> pickNextHouse fuel 1 0 o = Diverge.
Proof.
  revert o. induction fuel as [|fuel IH]; intros o Hok; [reflexivity|].
  cbn [pickNextHouse]. rewrite bind_randomIndex.
  pose proof (randomIndex_range 1 o Hok eq_refl) as Hrange.
  replace (Math_floor (rand o (randCalls o) * inject_Z 1)) with 0 by lia.
  cbn [Z.eqb]. apply IH, rng_ok_next, Hok.
Qed.








(** ** Concrete instances of the walkability and of the search properties *)

Lemma resolver_keeps_player_on_road_witness :
  Forall (onRoad (GameState.map (Round.state demoTown)))
         (corners (vec 78 938) (vec 14 14)).
Proof.
  assert (Hmove : movePlayer (Round.state demoTown) 4 0 quietPlayer
                  = Ok (Player.set_pos (vec 78 938) quietPlayer))
    by (vm_compute; reflexivity).
  assert (Hstart : isWalkable (Player.pos quietPlayer) (Player.size quietPlayer)
                              (GameState.map (Round.state demoTown)) = Ok true)
    by (vm_compute; reflexivity).
  exact (proj1 (resolver_keeps_player_on_road (Round.state demoTown) quietPlayer
                  (Player.set_pos (vec 78 938) quietPlayer) Hstart
                  (resolves_move _ _ _ _ _ _ Hmove (resolves_here _ _)))).
Defined.

Lemma getRandomRoadPosition_returns_witness :
  exists pos o' attempts,
    getRandomRoadPosition (GameState.map (Round.state demoTown)) (vec 16 16) [] halfOracle
    = Ok (pos, o')
    /\ (attempts <= 1000)%nat
    /\ drawn (2 * attempts) halfOracle o'
    /\ (pos = vec 64 64
        \/ landed (GameState.map (Round.state demoTown)) (vec 16 16) [] pos).
Proof.
  apply (getRandomRoadPosition_returns (GameState.map (Round.state demoTown)) (vec 16 16) []
           halfOracle).
  - vm_compute. discriminate.
  - intros i. split; [discriminate|reflexivity].
Defined.

(** * Further properties of the code *)

(** ** The helpers *)

(** X1. [checkCollision] does not depend on the order of the two boxes, and
    boxes that only share an edge do not collide. *)
Theorem checkCollision_symmetric (a b : Entity) :
  checkCollision a b = checkCollision b a
  /\ ((Vector2.x (Entity.pos a) + Vector2.x (Entity.size a) == Vector2.x (Entity.pos b))%Q ->
      checkCollision a b = false)
  /\ ((Vector2.y (Entity.pos a) + Vector2.y (Entity.size a) == Vector2.y (Entity.pos b))%Q ->
      checkCollision a b = false).
Proof.
  unfold checkCollision. split; [|split].
  - destruct (_ <? _)%js, (_ >? _)%js, (_ <? _)%js, (_ >? _)%js; reflexivity.
  - intros H.
    assert (E : (Vector2.x (Entity.pos a) + Vector2.x (Entity.size a)
                 >? Vector2.x (Entity.pos b))%js = false).
    { apply Qlt_bool_false. rewrite H. apply Qle_refl. }
    rewrite E, ?andb_false_r. reflexivity.
  - intros H.
    assert (E : (Vector2.y (Entity.pos a) + Vector2.y (Entity.size a)
                 >? Vector2.y (Entity.pos b))%js = false).
    { apply Qlt_bool_false. rewrite H. apply Qle_refl. }
    rewrite E, ?andb_false_r. reflexivity.
Qed.

(** X2. The chance that a tick activates a parked car lies between 1% and 5%,
    it is 1% while more than 60 s are left, and it does not go down as
    the timer runs down. *)
Theorem spawnChance_range (t t' : Q) :
  (0.01 <= spawnChance t <= 0.05)%Q
  /\ ((60 < t)%Q -> spawnChance t = 0.01%Q)
  /\ ((t <= t')%Q -> (spawnChance t' <= spawnChance t)%Q).
Proof.
  assert (Hval : forall u, (u <= 60)%Q ->
            (spawnChance u == 0.01 + (1 - Qmax 0 u * (1 # 60)) * 0.04)%Q).
  { intros u Hu. unfold spawnChance.
    assert (E : (u <=? 60)%js = true) by (apply Qle_bool_iff; exact Hu).
    rewrite E. reflexivity. }
  assert (Hhigh : forall u, (60 < u)%Q -> spawnChance u = 0.01%Q).
  { intros u Hu. unfold spawnChance.
    assert (E : (u <=? 60)%js = false) by (apply Qle_bool_false; exact Hu).
    rewrite E. reflexivity. }
  assert (Hmax : forall u, (0 <= Qmax 0 u)%Q /\ (u <= Qmax 0 u)%Q
                           /\ ((u <= 60)%Q -> (Qmax 0 u <= 60)%Q)).
  { intros u. split; [apply Q.le_max_l|]. split; [apply Q.le_max_r|].
    intros Hu. apply Q.max_lub; [discriminate|exact Hu]. }
  assert (Hrange : forall u, (0.01 <= spawnChance u <= 0.05)%Q).
  { intros u. destruct (Qlt_le_dec 60 u) as [Hu|Hu].
    - rewrite (Hhigh u Hu). split; discriminate.
    - rewrite (Hval u Hu). destruct (Hmax u) as (H0 & _ & H60). specialize (H60 Hu).
      split; lra. }
  split; [apply Hrange|]. split; [apply Hhigh|].
  intros Hle. destruct (Qlt_le_dec 60 t') as [Ht'|Ht'].
  - rewrite (Hhigh t' Ht'). apply Hrange.
  - assert (Ht : (t <= 60)%Q) by (eapply Qle_trans; eauto).
    rewrite (Hval t Ht), (Hval t' Ht').
    assert (Hm : (Qmax 0 t <= Qmax 0 t')%Q).
    { apply Q.max_le_compat_l. exact Hle. }
    lra.
Qed.

(** ** The step of the car loop, branch by branch *)

Lemma carStep_cases s deltaTime p car o p' car' dead o' :
  carStep s deltaTime p car o = Ok (p', car', dead, o') ->
  ((0 < Car.frozenTimer car)%Q
   /\ car' = Car.set_frozenTimer (Car.frozenTimer car - deltaTime) car)
  \/ ((Car.frozenTimer car <= 0)%Q
      /\ match Car.state car with
         | PARKED => car' = car
         | RETURNING => stepReturning (GameState.map s) car = Ok car'
         | MERGING => stepMerging s car = Ok car'
         | DRIVING =>
             exists turned o1,
               (if (distToCenter car <? Car.speed car)%js then turningLogic s car
                else ret (Continue (laneCorrection car))) o = Ok (turned, o1)
               /\ match turned with
                  | Return c => car' = c
                  | Continue c => car' = settle (addVelocity c)
                  end
         end).
Proof.
  unfold carStep. destruct (Car.frozenTimer car >? 0)%js eqn:Efrozen.
  { intros H. inv_ok. left. split; [apply Qlt_bool_iff; exact Efrozen|reflexivity]. }
  apply Qlt_bool_false in Efrozen. intros H. right. split; [exact Efrozen|].
  destruct (Car.state car).
  - inv_ok. reflexivity.
  - apply bind_Ok in H as (c1 & o1 & Hstep & H). apply liftR_Ok in Hstep as [Hstep _].
    destruct (_ && _) in H.
    + apply bind_Ok in H as ([q d] & oh & _ & H). inv_ok. exact Hstep.
    + inv_ok. exact Hstep.
  - apply bind_Ok in H as (turned & o1 & Hturn & H).
    exists turned, o1. split; [exact Hturn|].
    destruct turned as [c1|c1]; [|inv_ok; reflexivity].
    fold (settle (addVelocity c1)) in H.
    destruct (_ && _) in H.
    + apply bind_Ok in H as ([q d] & oh & _ & H). inv_ok. reflexivity.
    + inv_ok. reflexivity.
  - apply bind_Ok in H as (c1 & o1 & Hstep & H). apply liftR_Ok in Hstep as [Hstep _].
    inv_ok. exact Hstep.
Qed.

Lemma sameBody_refl c : sameBody c c.
Proof. repeat split. Qed.

Lemma sameBody_trans c1 c2 c3 : sameBody c1 c2 -> sameBody c2 c3 -> sameBody c1 c3.
Proof. intros (? & ? & ?) (? & ? & ?). repeat split; congruence. Qed.

Lemma stepReturning_spec map c c' :
  stepReturning map c = Ok c' ->
  sameBody c c'
  /\ Car.direction c' = Car.direction c
  /\ Car.velocity c' = Car.velocity c
  /\ (Car.state c' = Car.state c \/ Car.state c' = PARKED).
Proof.
  unfold stepReturning. intros H.
  apply bindR_Ok in H as (onDriveway & _ & H).
  destruct onDriveway; [|inversion H; subst; repeat split; auto].
  cbv zeta in H. apply bindR_Ok in H as (leaves & _ & H).
  inversion H; subst. destruct leaves; repeat split; auto.
Qed.

Lemma stepMerging_spec s c c' :
  stepMerging s c = Ok c' ->
  sameBody c c'
  /\ ((Car.state c' = Car.state c /\ Car.direction c' = Car.direction c
       /\ Car.velocity c' = Car.velocity c)
      \/ (Car.state c' = DRIVING
          /\ exists tx ty,
               outOfMap tx ty = false
               /\ tileAt (GameState.map s) ty tx = Ok (Some ROAD)
               /\ Car.pos c' = centred tx ty (Car.size c))).
Proof.
  unfold stepMerging. cbv zeta. intros H.
  apply bindR_Ok in H as (onRoad & Hroad & H).
  destruct onRoad; [|inversion H; subst; repeat split; auto].
  apply andR_Ok in Hroad as [[_ ?] | [Hin Hroad]]; [discriminate|].
  apply negb_true_iff in Hin. apply tileIs_true in Hroad.
  split.
  - destruct (getTrafficFlow _ _ _ _); inversion H; subst; repeat split.
  - right. split.
    + destruct (getTrafficFlow _ _ _ _); inversion H; subst; reflexivity.
    + eexists _, _. split; [exact Hin|]. split; [exact Hroad|].
      destruct (getTrafficFlow _ _ _ _); inversion H; subst; reflexivity.
Qed.

Lemma filterR_spec {A} (f : A -> Res bool) (l l' : list A) :
  filterR f l = Ok l' -> forall x, x ∈ l' -> x ∈ l /\ f x = Ok true.
Proof.
  revert l'. induction l as [|a l IH]; intros l' H x Hx; cbn [filterR] in H.
  - inversion H; subst. inversion Hx.
  - apply bindR_Ok in H as (keep & Hkeep & H). apply bindR_Ok in H as (rest & Hrest & H).
    inversion H; subst. destruct keep.
    + apply elem_of_cons in Hx as [-> | Hx].
      * split; [left|exact Hkeep].
      * destruct (IH rest Hrest x Hx). split; [right|]; assumption.
    + destruct (IH rest Hrest x Hx). split; [right|]; assumption.
Qed.

Lemma flowIsValid_spec map tileX tileY direction f :
  flowIsValid map tileX tileY direction f = Ok true ->
  isRoad map (tileX + Flow.x f) (tileY + Flow.y f) = Ok true
  /\ (Flow.d f <> direction ->
      isRoad map (tileX + Flow.x f + Flow.x f) (tileY + Flow.y f + Flow.y f) = Ok true).
Proof.
  unfold flowIsValid. cbv zeta. intros H.
  apply bindR_Ok in H as (ahead & Hahead & H).
  destruct ahead; [|discriminate]. cbn [negb] in H. split; [exact Hahead|].
  intros Hne. destruct (bool_decide (Flow.d f = direction)) eqn:E.
  - apply bool_decide_eq_true in E. contradiction.
  - exact H.
Qed.

Lemma at_elem_of {A} (l : list A) i a : at_ l i = Some a -> a ∈ l.
Proof. intros H. apply at_Some in H. eapply list_elem_of_lookup_2, H. Qed.

Lemma turningLogic_spec s car o turned o' :
  turningLogic s car o = Ok (turned, o') ->
  match turned with
  | Return c =>
      (Car.state c = RETURNING /\ sameBody car c)
      \/ (c = teleportHome car
          /\ validOptionsAt s (tileOf (carCenterX car)) (tileOf (carCenterY car))
                            (Car.direction car) = Ok [])
  | Continue c => turnsWithFlow s car c
  end.
Proof.
  unfold turningLogic. cbv zeta. intros H.
  apply bind_Ok in H as (r & o1 & _ & H).
  apply bind_Ok in H as (driveway & o2 & _ & H).
  destruct driveway as [n|].
  { inv_ok. left. repeat split. }
  apply bind_Ok in H as (validOptions & o3 & Hvalid & H).
  apply liftR_Ok in Hvalid as [Hvalid _].
  destruct validOptions as [|v vs] eqn:Evalid.
  { inv_ok. right. split; [reflexivity|exact Hvalid]. }
  rewrite <- Evalid in *. clear Evalid v vs.
  set (candidates0 := List.filter _ validOptions) in *.
  set (candidates := match candidates0 with [] => validOptions | _ => candidates0 end) in *.
  assert (Hcand : forall f, f ∈ candidates -> f ∈ validOptions).
  { intros f Hf. unfold candidates in Hf. destruct candidates0 eqn:E; [exact Hf|].
    rewrite <- E in Hf. unfold candidates0 in Hf.
    apply list_elem_of_In, filter_In in Hf as [Hf _]. apply list_elem_of_In. exact Hf. }
  apply bind_Ok in H as (i & o4 & _ & H).
  apply bind_Ok in H as (choice & o5 & Hchoice & H).
  assert (Hin : match choice with Some f => f ∈ candidates | None => True end).
  { destruct (List.find _ candidates) as [st|] eqn:Efind in Hchoice.
    - apply bind_Ok in Hchoice as (r2 & ? & _ & Hchoice). apply ret_Ok in Hchoice as [-> _].
      destruct (r2 >? 0.4)%js.
      + apply find_some in Efind as [Hst _]. apply list_elem_of_In. exact Hst.
      + destruct (at_ candidates i) eqn:Eat; [|exact I]. eapply at_elem_of, Eat.
    - apply ret_Ok in Hchoice as [-> _].
      destruct (at_ candidates i) eqn:Eat; [|exact I]. eapply at_elem_of, Eat. }
  clear Hchoice.
  destruct choice as [f|]; [|inv_ok; unfold turnsWithFlow; left; reflexivity].
  apply Hcand in Hin. destruct (filterR_spec _ _ _ Hvalid f Hin) as [Hflow Hok].
  apply flowIsValid_spec in Hok as [Hahead Htwo].
  destruct (bool_decide (Flow.d f = Car.direction car)) eqn:E; cbn [negb] in H; inv_ok;
    unfold turnsWithFlow; cbv zeta; right; exists f;
    (split; [exact Hflow|]); (split; [exact Hahead|]).
  - apply bool_decide_eq_true in E. left. split; [exact E|reflexivity].
  - apply bool_decide_eq_false in E. right. split; [exact E|].
    split; [exact (Htwo E)|]. repeat split.
Qed.

Lemma turnsWithFlow_body s car c : turnsWithFlow s car c -> sameBody car c.
Proof.
  intros [-> | (f & _ & _ & [[_ ->] | (_ & _ & _ & _ & _ & H)])];
    [apply sameBody_refl|repeat split|exact H].
Qed.

Lemma settle_body c : sameBody c (settle c).
Proof. unfold settle. destruct (offMapPixels _); repeat split. Qed.

(** What the first half of the DRIVING branch hands on. *)
Lemma driving_turned s car o turned o' :
  (if (distToCenter car <? Car.speed car)%js then turningLogic s car
   else ret (Continue (laneCorrection car))) o = Ok (turned, o') ->
  match turned with
  | Return c =>
      (Car.state c = RETURNING /\ sameBody car c)
      \/ (c = teleportHome car
          /\ validOptionsAt s (tileOf (carCenterX car)) (tileOf (carCenterY car))
                            (Car.direction car) = Ok [])
  | Continue c => turnsWithFlow s car c \/ c = laneCorrection car
  end.
Proof.
  destruct (_ <? _)%js.
  - intros H. apply turningLogic_spec in H. destruct turned; auto.
  - intros H. apply ret_Ok in H as [-> _]. right. reflexivity.
Qed.

Lemma laneCorrection_spec car :
  sameBody car (laneCorrection car)
  /\ Car.direction (laneCorrection car) = Car.direction car
  /\ Car.state (laneCorrection car) = Car.state car
  /\ Car.velocity (laneCorrection car) = Car.velocity car.
Proof.
  unfold laneCorrection, sameBody. cbv zeta.
  destruct (Car.direction car) eqn:E; destruct (_ >? _)%js; cbn; rewrite ?E; auto.
Qed.

Lemma carStep_body s deltaTime p car o p' car' dead o' :
  carStep s deltaTime p car o = Ok (p', car', dead, o') -> sameBody car car'.
Proof.
  intros H. apply carStep_cases in H as [[_ ->] | [_ H]]; [repeat split|].
  destruct (Car.state car).
  - subst. apply sameBody_refl.
  - apply stepMerging_spec in H. apply H.
  - destruct H as (turned & o1 & Hturn & H). apply driving_turned in Hturn.
    destruct turned as [c|c]; subst car'.
    + apply (sameBody_trans car c).
      * destruct Hturn as [Hturn | ->];
          [eapply turnsWithFlow_body, Hturn|apply laneCorrection_spec].
      * apply (sameBody_trans c (addVelocity c)); [repeat split|apply settle_body].
    + destruct Hturn as [[_ Hbody] | [-> _]]; [exact Hbody|repeat split].
  - apply stepReturning_spec in H. apply H.
Qed.

Lemma centred_on_map tx ty :
  outOfMap tx ty = false -> offMapPixels (centred tx ty (vec 22 12)) = false.
Proof.
  intros H. apply outOfMap_false in H as [Hx Hy].
  unfold MAP_WIDTH, MAP_HEIGHT in *.
  assert (Hx0 : (0 <= inject_Z (tx * TILE_SIZE))%Q).
  { change 0%Q with (inject_Z 0). rewrite <- Zle_Qle. unfold TILE_SIZE. lia. }
  assert (Hx1 : (inject_Z (tx * TILE_SIZE) <= 1568)%Q).
  { change 1568%Q with (inject_Z 1568). rewrite <- Zle_Qle. unfold TILE_SIZE. lia. }
  assert (Hy0 : (0 <= inject_Z (ty * TILE_SIZE))%Q).
  { change 0%Q with (inject_Z 0). rewrite <- Zle_Qle. unfold TILE_SIZE. lia. }
  assert (Hy1 : (inject_Z (ty * TILE_SIZE) <= 928)%Q).
  { change 928%Q with (inject_Z 928). rewrite <- Zle_Qle. unfold TILE_SIZE. lia. }
  unfold offMapPixels, centred. cbn [Vector2.x Vector2.y].
  change (inject_Z MAP_PIXEL_WIDTH) with 1600%Q.
  change (inject_Z MAP_PIXEL_HEIGHT) with 960%Q.
  set (x := inject_Z (tx * TILE_SIZE)) in *. set (y := inject_Z (ty * TILE_SIZE)) in *.
  set (dx := ((inject_Z TILE_SIZE - 22) / 2)%Q).
  set (dy := ((inject_Z TILE_SIZE - 12) / 2)%Q).
  assert (Hdx : (dx == 5)%Q) by reflexivity.
  assert (Hdy : (dy == 10)%Q) by reflexivity.
  clearbody dx dy.
  assert (E1 : (x + dx <? 0)%js = false) by (apply Qlt_bool_false; lra).
  assert (E2 : (x + dx >? 1600)%js = false) by (apply Qlt_bool_false; lra).
  assert (E3 : (y + dy <? 0)%js = false) by (apply Qlt_bool_false; lra).
  assert (E4 : (y + dy >? 960)%js = false) by (apply Qlt_bool_false; lra).
  rewrite E1, E2, E3, E4. reflexivity.
Qed.

Lemma carStep_on_map s deltaTime p car o p' car' dead o' :
  carStep s deltaTime p car o = Ok (p', car', dead, o') -> carOnMap car -> carOnMap car'.
Proof.
  intros H [Hsize Hin].
  pose proof (carStep_body _ _ _ _ _ _ _ _ _ H) as (Hsize' & _ & _).
  split; [congruence|].
  apply carStep_cases in H as [[_ ->] | [_ H]]; [exact Hin|].
  destruct (Car.state car) eqn:Estate.
  - subst. intros Hd. congruence.
  - apply stepMerging_spec in H as [_ [(E & _ & _) | (_ & tx & ty & Hmap & _ & Hpos)]].
    + intros Hd. congruence.
    + intros _. rewrite Hpos, Hsize. apply centred_on_map, Hmap.
  - destruct H as (turned & o1 & Hturn & H). apply driving_turned in Hturn.
    destruct turned as [c|c]; subst car'.
    + unfold settle. destruct (offMapPixels (Car.pos (addVelocity c))) eqn:E.
      * intros Hd. discriminate Hd.
      * intros _. exact E.
    + destruct Hturn as [[E _] | [-> _]]; intros Hd; [congruence|discriminate Hd].
  - apply stepReturning_spec in H as (_ & _ & _ & [E | E]); intros Hd; congruence.
Qed.

(** ** The cars through a tick *)

Lemma update_cars_length fuel deltaTime input w o w' o' :
  update fuel deltaTime input w o = Ok (w', o') ->
  length (GameState.cars (Round.state w')) = length (GameState.cars (Round.state w)).
Proof.
  intros Hupd. apply update_phases in Hupd. cbv zeta in Hupd.
  destruct Hupd as [[_ ->]
                   | (_ & _ & [[_ ->]
                              | (_ & s1 & o1 & moved & o2 & Hpre & Hphase & Hrest)])];
    [reflexivity|reflexivity|].
  pose proof (Forall2_length _ _ _ (premoved_cars _ _ _ Hpre)) as Hlen1.
  apply playerPhase_spec in Hphase as (p' & w1 & Hstate1 & _ & _ & _ & _ & _ & _ & Hmoved).
  cbn [Round.state Round.set_state] in Hstate1.
  destruct Hmoved as [[-> _] | [-> _]].
  2:{ subst w'. cbn [gameOver Round.state Round.set_state Round.set_gameOverReasonRef
                     GameState.cars GameState.set_isGameOver].
      rewrite Hstate1. cbn [GameState.cars GameState.set_player]. congruence. }
  apply afterMove_spec in Hrest
    as (s4 & projs & p5 & cars5 & dead & o5 & o6 & Hdel & Hloop & _ & Hend).
  cbv zeta in *.
  pose proof (Forall2_length _ _ _ (delivered_cars _ _ (delivery_outcome _ _ Hdel))) as Hlen4.
  cbn [GameState.cars GameState.set_player] in Hlen4. rewrite Hstate1 in Hlen4.
  cbn [GameState.cars GameState.set_player] in Hlen4.
  apply carLoop_player in Hloop as [Hlen5 _].
  destruct Hend as [[_ ->] | [_ (s6 & Hpow & ->)]].
  - cbn [gameOver Round.state Round.set_state Round.set_gameOverReasonRef
         GameState.cars GameState.set_isGameOver GameState.set_cars]. congruence.
  - pose proof (Forall2_length _ _ _ (powered_cars _ _ Hpow)) as Hlen6.
    cbn [GameState.cars GameState.set_cars] in Hlen6.
    cbn [Round.state Round.set_state]. congruence.
Qed.

(** A property of cars that the activation of a parked car, the step of
    the car loop and the freeze of a TRAFFIC_LIGHT pick-up keep is kept by
    the whole tick. *)
Lemma update_cars_invariant (P : Car -> Prop) fuel deltaTime input w o w' o' :
  (forall c c', activation c c' -> P c -> P c') ->
  (forall s q c oa q' c' d ob,
     carStep s deltaTime q c oa = Ok (q', c', d, ob) -> P c -> P c') ->
  (forall c, P c -> P (Car.set_frozenTimer 10.0 c)) ->
  update fuel deltaTime input w o = Ok (w', o') ->
  Forall P (GameState.cars (Round.state w)) ->
  Forall P (GameState.cars (Round.state w')).
Proof.
  intros Hact Hstep Hfreeze Hupd Hall.
  rewrite Forall_lookup in Hall. apply Forall_lookup. intros i c3 Hc3.
  pose proof (update_cars_length _ _ _ _ _ _ _ Hupd) as Hlen.
  destruct (GameState.cars (Round.state w) !! i) as [car|] eqn:Hcar.
  2:{ apply lookup_ge_None in Hcar. apply lookup_lt_Some in Hc3. lia. }
  destruct (update_car _ _ _ _ _ _ _ _ _ Hupd Hcar)
    as (car1 & car2 & car3 & Hact1 & Hstep2 & Hpow & Hcar3 & _).
  assert (c3 = car3) as -> by congruence.
  assert (P1 : P car1) by (eapply Hact; eauto).
  assert (P2 : P car2).
  { destruct Hstep2 as [-> | (s & q & o1 & q' & d & o2 & _ & Hrun)]; [exact P1|].
    eapply Hstep; eauto. }
  destruct Hpow as [-> | ->]; auto.
Qed.

Lemma activation_body c c' : activation c c' -> sameBody c c'.
Proof.
  intros [-> | H]; [apply sameBody_refl|].
  split; [apply (activated_size _ _ H)|].
  split; [apply (activated_speed _ _ H)|apply (activated_homePos _ _ H)].
Qed.

(** X3. A tick neither adds nor removes a car, and every car keeps its size,
    its speed and its home position. *)
Theorem update_keeps_cars fuel deltaTime input w o w' o' :
  update fuel deltaTime input w o = Ok (w', o') ->
  Forall2 sameBody (GameState.cars (Round.state w)) (GameState.cars (Round.state w')).
Proof.
  intros Hupd. apply Forall2_same_length_lookup.
  split; [symmetry; eapply update_cars_length, Hupd|].
  intros i car c3 Hcar Hc3.
  destruct (update_car _ _ _ _ _ _ _ _ _ Hupd Hcar)
    as (car1 & car2 & car3 & Hact1 & Hstep2 & Hpow & Hcar3 & _).
  assert (c3 = car3) as -> by congruence.
  apply (sameBody_trans car car1); [apply activation_body, Hact1|].
  apply (sameBody_trans car1 car2).
  - destruct Hstep2 as [-> | (s & q & o1 & q' & d & o2 & _ & Hrun)];
      [apply sameBody_refl|eapply carStep_body, Hrun].
  - destruct Hpow as [-> | ->]; repeat split.
Qed.

Lemma update_keeps_cars_witness :
  Forall2 sameBody (GameState.cars (Round.state pausedTown))
                   (GameState.cars (Round.state pausedTick)).
Proof.
  destruct pausedTick_run as [o' Hrun].
  exact (update_keeps_cars _ _ _ _ _ _ _ Hrun).
Defined.

(** ** The round [initGame] generates *)

(** The frame that takes [demoTown] to [spawnTick]. *)
Lemma spawnTick_run :
  exists o', loop 10 (Frame.mk 100 false idle) demoTown spawnOracle = Ok (spawnTick, o').
Proof. apply outcome_run. vm_compute. reflexivity. Qed.

Lemma spawnTick_reachable : reachable spawnTick.
Proof.
  destruct spawnTick_run as [o' Hrun].
  refine (reachable_frame _ _ _ _ _ _ demoTown_reachable _ Hrun). discriminate.
Qed.

(** The round [initGame] generates from [stepOracle] has the state of
    [demoTown]. *)
Lemma demoTown_generated :
  exists w1 o1,
    initGame 10 mountState stepOracle = Ok (w1, o1)
    /\ Round.state w1 = Round.state demoTown.
Proof.
  destruct (started_run stepOracle demoTown demoTown_started eq_refl) as [o' Hrun].
  unfold startLoop in Hrun. apply bind_Ok in Hrun as (w1 & o1 & Hgen & Hrun).
  apply bind_Ok in Hrun as (now & o2 & _ & Hrun). apply ret_Ok in Hrun as [Hw _].
  cbn [negb GameState.isPlaying Round.state mountState] in Hgen.
  exists w1, o1. split; [exact Hgen|]. rewrite Hw. reflexivity.
Qed.

Lemma stepOracle_ok : rng_ok stepOracle.
Proof.
  intros i. cbn [stepOracle rand].
  pose proof (N.mod_upper_bound i 10 ltac:(discriminate)) as H.
  set (m := (i mod 10)%N) in *. clearbody m.
  unfold Qle, Qlt. cbn [Qnum Qden]. lia.
Qed.

Lemma spawnCars_spec houses cars o cars' o' :
  forEachM houses spawnCar cars o = Ok (cars', o') ->
  exists new,
    cars' = cars ++ new
    /\ (length new <= length houses)%nat
    /\ Forall (fun c => exists h, h ∈ houses /\ parkedAt h c) new.
Proof.
  revert cars o. induction houses as [|h houses IH]; intros cars o H; cbn [forEachM] in H.
  - apply ret_Ok in H as [-> _]. exists []. rewrite app_nil_r. repeat split; auto.
  - apply bind_Ok in H as (cars1 & o1 & Hspawn & H).
    apply IH in H as (new & -> & Hlen & Hall).
    assert (Hnew : forall c, (exists h0, h0 ∈ houses /\ parkedAt h0 c) ->
                             exists h0, h0 ∈ h :: houses /\ parkedAt h0 c).
    { intros c (h0 & Hin & Hc). exists h0. split; [right; exact Hin|exact Hc]. }
    unfold spawnCar in Hspawn. apply bind_Ok in Hspawn as (r & o2 & _ & Hspawn).
    destruct (r >? 0.5)%js; apply ret_Ok in Hspawn as [-> _].
    + eexists (_ :: new). rewrite <- app_assoc. split; [reflexivity|].
      split; [simpl; lia|]. constructor.
      * exists h. split; [left|reflexivity].
      * eapply Forall_impl; [exact Hall|]. exact Hnew.
    + exists new. split; [reflexivity|]. split; [simpl; lia|].
      eapply Forall_impl; [exact Hall|]. exact Hnew.
Qed.

(** What [initGame] puts into the round state, whatever the map it
    generates. *)
Lemma initGame_fresh fuel w o w' o' :
  initGame fuel w o = Ok (w', o') ->
  let s' := Round.state w' in
  GameState.score s' = 0 /\ GameState.deliveries s' = 0
  /\ GameState.trafficPauseTimer s' = 0%Q
  /\ GameState.powerups s' = [] /\ GameState.projectiles s' = []
  /\ Player.boostCharge (GameState.player s') = 0
  /\ Player.isBoosting (GameState.player s') = false
  /\ Player.stunned (GameState.player s') = Player.stunned (GameState.player (Round.state w))
  /\ Player.speed (GameState.player s') = Player.speed (GameState.player (Round.state w))
  /\ (length (GameState.cars s') <= length (GameState.houses s'))%nat
  /\ Forall (fun c => exists h, h ∈ GameState.houses s' /\ parkedAt h c) (GameState.cars s').
Proof.
  unfold initGame. intros H.
  apply bind_Ok in H as (vRoads & ? & _ & H).
  apply bind_Ok in H as (hRoads & ? & _ & H).
  apply bind_Ok in H as (map1 & ? & _ & H).
  apply bind_Ok in H as (map2 & ? & _ & H).
  apply bind_Ok in H as ([map3 houses0] & ? & _ & H).
  apply bind_Ok in H as ([map4 statics1] & ? & _ & H).
  apply bind_Ok in H as ([map5 statics2] & ? & _ & H).
  apply bind_Ok in H as ([[map6 statics3] puddles1] & ? & _ & H).
  apply bind_Ok in H as (houses & ? & _ & H).
  apply bind_Ok in H as (startPos & ? & _ & H).
  apply bind_Ok in H as (puddles & ? & _ & H).
  apply bind_Ok in H as (cars & ? & Hcars & H).
  apply bind_Ok in H as (now & ? & _ & H).
  inv_ok. simpl.
  apply spawnCars_spec in Hcars as (new & -> & Hlen & Hall).
  split_and!; auto.
Qed.

(** X4. The cars of a new round: at most one for each house, each parked on
    the driveway of a house, 6 pixels in, at rest and not frozen. *)
Theorem initGame_parks_cars fuel w o w' o' :
  initGame fuel w o = Ok (w', o') ->
  (length (GameState.cars (Round.state w')) <= length (GameState.houses (Round.state w')))%nat
  /\ Forall (fun c => exists h, h ∈ GameState.houses (Round.state w') /\ parkedAt h c)
            (GameState.cars (Round.state w')).
Proof. intros H. apply initGame_fresh in H. cbv zeta in H. split; apply H. Qed.

(** ** Properties of every reachable round *)

Lemma roundInvariant_lastTime time w :
  roundInvariant w -> roundInvariant (Round.set_lastTimeRef time w).
Proof. intros []. constructor; assumption. Qed.

(** What holds of the round state when the component is created, of every
    state [initGame] generates, and is kept by every tick that [loop] can
    run, holds of every reachable round. *)
Lemma reachable_state_invariant (P : GameState -> Prop) :
  P (Round.state mountState) ->
  (forall fuel w o w' o',
     initGame fuel w o = Ok (w', o') -> P (Round.state w) -> P (Round.state w')) ->
  (forall fuel deltaTime input w o w' o',
     update fuel deltaTime input w o = Ok (w', o') ->
     (0 <= deltaTime)%Q -> (deltaTime <= 0.1)%Q -> roundInvariant w ->
     P (Round.state w) -> P (Round.state w')) ->
  forall w, reachable w -> P (Round.state w).
Proof.
  intros Hmount Hinit Hupd w Hreach.
  induction Hreach as [|fuel w o w' o' Hreach IH Hstart|fuel f w o w' o' Hreach IH Htime Hloop].
  - exact Hmount.
  - unfold startLoop in Hstart.
    apply bind_Ok in Hstart as (w1 & o1 & Hgen & Hstart).
    apply bind_Ok in Hstart as (now & o2 & _ & Hstart). apply ret_Ok in Hstart as [-> _].
    cbn [Round.state Round.set_lastTimeRef].
    destruct (negb _) in Hgen; [eapply Hinit; [exact Hgen|exact IH]|].
    apply ret_Ok in Hgen as [-> _]. exact IH.
  - apply loop_spec in Hloop as (w1 & -> & _ & _ & [-> | (_ & _ & o1 & Hrun)]); [exact IH|].
    destruct (clamped_delta _ _ Htime) as [Hlo Hhi].
    eapply Hupd; [exact Hrun|exact Hlo|exact Hhi| |exact IH].
    apply roundInvariant_lastTime, reachable_invariant, Hreach.
Qed.

Lemma initGame_parks_cars_witness :
  (length (GameState.cars (Round.state demoTown))
   <= length (GameState.houses (Round.state demoTown)))%nat
  /\ Forall (fun c => exists h, h ∈ GameState.houses (Round.state demoTown) /\ parkedAt h c)
            (GameState.cars (Round.state demoTown)).
Proof.
  destruct demoTown_generated as (w1 & o1 & Hgen & Hstate).
  rewrite <- Hstate. exact (initGame_parks_cars _ _ _ _ _ Hgen).
Defined.

Lemma activation_on_map c c' : activation c c' -> carOnMap c -> carOnMap c'.
Proof.
  intros [-> | H] [Hsize Hin]; [split; assumption|].
  split; [rewrite (activated_size _ _ H); exact Hsize|].
  intros Hd. pose proof (activated_merging _ _ H). congruence.
Qed.

(** X5. In every reachable round a car in DRIVING state lies within the pixel
    bounds of the map. *)
Theorem driving_cars_stay_on_map (w : Round) :
  reachable w ->
  Forall (fun c => Car.state c = DRIVING -> offMapPixels (Car.pos c) = false)
         (GameState.cars (Round.state w)).
Proof.
  intros Hreach.
  assert (H : Forall carOnMap (GameState.cars (Round.state w))).
  { revert w Hreach.
    apply (reachable_state_invariant (fun s => Forall carOnMap (GameState.cars s))).
    - constructor.
    - intros fuel w o w' o' Hgen _. apply initGame_fresh in Hgen. cbv zeta in Hgen.
      destruct Hgen as (_ & _ & _ & _ & _ & _ & _ & _ & _ & _ & Hall).
      eapply Forall_impl; [exact Hall|].
      intros c (h & _ & ->). split; [reflexivity|discriminate].
    - intros fuel deltaTime input w o w' o' Hupd _ _ _ Hall.
      refine (update_cars_invariant carOnMap _ _ _ _ _ _ _ _ _ _ Hupd Hall).
      + apply activation_on_map.
      + intros s q c oa q' c' d ob Hstep. eapply carStep_on_map, Hstep.
      + intros c [Hsize Hin]. split; assumption. }
  eapply Forall_impl; [exact H|]. intros c [_ Hin]. exact Hin.
Qed.

Lemma driving_cars_stay_on_map_witness :
  Forall (fun c => Car.state c = DRIVING -> offMapPixels (Car.pos c) = false)
         (GameState.cars (Round.state demoTown)).
Proof. exact (driving_cars_stay_on_map demoTown demoTown_reachable). Defined.

(** ** Turning *)

(** X6. A car that is DRIVING before and after its step of the car loop and
    has a new heading has turned into an option the traffic flow gives at
    its tile: the next two tiles that way are ROAD tiles, and the car moves
    at its own speed in the new heading. *)
Theorem driving_car_turns_with_flow s deltaTime p car o p' car' dead o' :
  carStep s deltaTime p car o = Ok (p', car', dead, o') ->
  Car.state car = DRIVING -> Car.state car' = DRIVING ->
  Car.direction car' <> Car.direction car ->
  let tileX := tileOf (carCenterX car) in
  let tileY := tileOf (carCenterY car) in
  exists f,
    f ∈ getTrafficFlow tileX tileY (GameState.vRoads s) (GameState.hRoads s)
    /\ Flow.d f = Car.direction car'
    /\ isRoad (GameState.map s) (tileX + Flow.x f) (tileY + Flow.y f) = Ok true
    /\ isRoad (GameState.map s) (tileX + Flow.x f + Flow.x f) (tileY + Flow.y f + Flow.y f)
       = Ok true
    /\ Car.velocity car' = flowVelocity f (Car.speed car).
Proof.
  intros H Hd Hd' Hdir. cbv zeta.
  apply carStep_cases in H as [[_ ->] | [_ H]]; [contradiction Hdir; reflexivity|].
  rewrite Hd in H. destruct H as (turned & o1 & Hturn & H).
  apply driving_turned in Hturn. destruct turned as [c|c]; subst car'.
  - assert (Hset : settle (addVelocity c) = addVelocity c).
    { unfold settle in *. destruct (offMapPixels _); [discriminate Hd'|reflexivity]. }
    rewrite Hset in *. cbn in Hdir, Hd' |- *.
    destruct Hturn as [[-> | (f & Hin & Hroad & [[_ ->] | (_ & Hroad2 & Hf & Hv & _)])] | ->].
    + contradiction Hdir; reflexivity.
    + contradiction Hdir; reflexivity.
    + exists f. rewrite Hf, Hv. auto.
    + contradiction Hdir. apply laneCorrection_spec.
  - destruct Hturn as [[E _] | [-> _]]; [congruence|discriminate Hd'].
Qed.

Lemma uTurnStep_run :
  exists p' dead o', uTurnStep = Ok (p', uTurned, dead, o').
Proof.
  destruct (outcome_run (dashing, againstFlow, false) uTurnStep) as [o' Hrun];
    [vm_compute; reflexivity|].
  exists (outcome (dashing, againstFlow, false) uTurnStep).1.1,
         (outcome (dashing, againstFlow, false) uTurnStep).2, o'.
  rewrite Hrun at 1. unfold uTurned.
  destruct (outcome (dashing, againstFlow, false) uTurnStep) as [[p' c'] d]. reflexivity.
Qed.

Lemma driving_car_turns_with_flow_witness :
  Car.direction uTurned = Down
  /\ exists f,
       f ∈ getTrafficFlow 2 10 (GameState.vRoads (Round.state uTurnTown))
                          (GameState.hRoads (Round.state uTurnTown))
       /\ Flow.d f = Car.direction uTurned
       /\ isRoad (GameState.map (Round.state uTurnTown)) (2 + Flow.x f) (10 + Flow.y f) = Ok true
       /\ isRoad (GameState.map (Round.state uTurnTown))
                 (2 + Flow.x f + Flow.x f) (10 + Flow.y f + Flow.y f) = Ok true
       /\ Car.velocity uTurned = flowVelocity f (Car.speed againstFlow).
Proof.
  assert (Hdir : Car.direction uTurned = Down) by (vm_compute; reflexivity).
  split; [exact Hdir|].
  destruct uTurnStep_run as (p' & dead & o' & Hrun).
  refine (driving_car_turns_with_flow _ _ _ _ _ _ _ _ _ Hrun eq_refl _ _).
  - vm_compute; reflexivity.
  - rewrite Hdir. discriminate.
Defined.

(** ** Invariants of the round state, phase by phase *)

(** A property of the round state that every phase of a tick keeps is kept
    by [update]. *)
Lemma update_state_invariant (P : GameState -> Prop) fuel deltaTime input w o w' o' :
  (forall s, P s -> P (GameState.set_timer (GameState.timer s - deltaTime)%Q s)) ->
  (forall s,
     (0 < GameState.trafficPauseTimer s)%Q -> P s ->
     P (GameState.set_trafficPauseTimer (GameState.trafficPauseTimer s - deltaTime)%Q s)) ->
  (forall s b, P s -> P (GameState.set_isGameOver b s)) ->
  (forall s oa s' ob, activateCar s oa = Ok (s', ob) -> P s -> P s') ->
  (forall s oa s' ob,
     (length (GameState.powerups s) < 5)%nat ->
     spawnPowerUp s oa = Ok (s', ob) -> P s -> P s') ->
  (forall v oa st ob,
     playerPhase deltaTime input v oa = Ok (st, ob) ->
     P (Round.state v) -> P (Round.state (stepped st))) ->
  (forall s, P s -> P (GameState.set_player (buffTimers deltaTime (GameState.player s)) s)) ->
  (forall s oa s' ob, deliveryLogic fuel s oa = Ok (s', ob) -> P s -> P s') ->
  (forall s oa projectiles ob,
     updateProjectiles deltaTime (GameState.projectiles s) oa = Ok (projectiles, ob) ->
     P s -> P (GameState.set_projectiles projectiles s)) ->
  (forall s oa p cars dead ob,
     carLoop s deltaTime (GameState.player s) (GameState.cars s) oa = Ok (p, cars, dead, ob) ->
     P s -> P (GameState.set_cars cars (GameState.set_player p s))) ->
  (forall s oa s' ob, updatePowerUps deltaTime s oa = Ok (s', ob) -> P s -> P s') ->
  update fuel deltaTime input w o = Ok (w', o') ->
  P (Round.state w) -> P (Round.state w').
Proof.
  intros Htimer Hpause Hover Hact Hspawn Hmove Hbuff Hdel Hproj Hcars Hpow.
  unfold update. set (s := Round.state w). intros H HP.
  destruct (negb (GameState.isPlaying s) || GameState.isGameOver s); [inv_ok; exact HP|].
  destruct (_ <=? _)%js in H.
  { inv_ok. apply Hover, Htimer, HP. }
  set (s0 := if (_ >? _)%js then _ else _) in H.
  assert (P0 : P s0).
  { subst s0. destruct (_ >? _)%js eqn:E; [|apply Htimer, HP].
    apply Qlt_bool_iff in E. apply Hpause; [exact E|apply Htimer, HP]. }
  clearbody s0.
  apply bind_Ok in H as (r1 & oa & _ & H).
  apply bind_Ok in H as (sa & ob & Hrun & H).
  assert (Pa : P sa).
  { destruct (_ <? _)%js in Hrun; [eapply Hact; eauto|].
    apply ret_Ok in Hrun as [-> _]. exact P0. }
  apply bind_Ok in H as (r2 & oc & _ & H).
  apply bind_Ok in H as (s1 & o1 & Hrun1 & H).
  assert (P1 : P s1).
  { destruct (r2 <? 0.005)%js in Hrun1; cbn [andb] in Hrun1.
    - destruct (Z.of_nat (length (GameState.powerups sa)) <? 5) eqn:E in Hrun1.
      + apply Z.ltb_lt in E. eapply Hspawn; [|exact Hrun1|exact Pa]. lia.
      + apply ret_Ok in Hrun1 as [-> _]. exact Pa.
    - apply ret_Ok in Hrun1 as [-> _]. exact Pa. }
  apply bind_Ok in H as (moved & o2 & Hphase & H).
  apply Hmove in Hphase; [|exact P1].
  destruct moved as [w2|w2]; cbn [stepped] in Hphase; [|inv_ok; exact Hphase].
  apply bind_Ok in H as (s4 & o4 & Hrun4 & H).
  apply Hdel in Hrun4; [|apply Hbuff, Hphase].
  apply bind_Ok in H as (projs & o5 & Hrun5 & H).
  apply Hproj in Hrun5; [|exact Hrun4].
  apply bind_Ok in H as ([[p5 cars5] dead] & o6 & Hrun6 & H).
  apply Hcars in Hrun6; [|exact Hrun5].
  destruct dead.
  - inv_ok. apply Hover, Hrun6.
  - apply bind_Ok in H as (s6 & o7 & Hrun7 & H). inv_ok.
    eapply Hpow; [exact Hrun7|exact Hrun6].
Qed.

(** ** What the phases do to the counters, the power-ups and the boost *)

Lemma spawnPowerUp_adds s o s' o' :
  spawnPowerUp s o = Ok (s', o') ->
  exists kind pos,
    s' = GameState.set_powerups
           (GameState.powerups s ++ [PowerUp.mk kind pos (vec 16 16) (Some 10%Q) (Some 10%Q)]) s.
Proof. unfold spawnPowerUp. intros H. inv_ok. eauto. Qed.

Lemma movePlayer_lands s dx dy p p' :
  movePlayer s dx dy p = Ok p' ->
  Player.size p' = Player.size p
  /\ (Player.pos p' = Player.pos p
      \/ isWalkable (Player.pos p') (Player.size p') (GameState.map s) = Ok true).
Proof.
  unfold movePlayer.
  destruct (checkMove s p (vec (Vector2.x (Player.pos p) + dx) (Vector2.y (Player.pos p))))
    as [[|]| |] eqn:EX; simpl; try discriminate.
  - apply checkMove_true in EX.
    match goal with |- context [checkMove s ?q ?n] =>
      destruct (checkMove s q n) as [[|]| |] eqn:EY end;
      simpl; intros H; inversion H; subst; simpl; (split; [reflexivity|right]).
    + apply checkMove_true in EY. exact EY.
    + exact EX.
  - match goal with |- context [checkMove s ?q ?n] =>
      destruct (checkMove s q n) as [[|]| |] eqn:EY end;
      simpl; intros H; inversion H; subst; simpl; (split; [reflexivity|]).
    + right. apply checkMove_true in EY. exact EY.
    + left. reflexivity.
Qed.

(** The player phase and the parts of the player it leaves alone; where it
    moves the player, the new position is walkable. *)
Lemma playerPhase_player deltaTime input v o st o' :
  playerPhase deltaTime input v o = Ok (st, o') ->
  (0 <= deltaTime)%Q ->
  let s := Round.state v in
  let p := GameState.player s in
  exists p',
    (Round.state (stepped st) = GameState.set_player p' s
     \/ Round.state (stepped st) = GameState.set_isGameOver true (GameState.set_player p' s))
    /\ (boostOk p -> boostOk p')
    /\ (Player.stunned p = 0%Q -> Player.stunned p' = 0%Q)
    /\ Player.speed p' = Player.speed p
    /\ Player.puddleImmunity p' = Player.puddleImmunity p
    /\ Player.size p' = Player.size p
    /\ (Player.pos p' = Player.pos p
        \/ isWalkable (Player.pos p') (Player.size p') (GameState.map s) = Ok true)
    /\ (Player.invulnerabilityTimer p' = Player.invulnerabilityTimer p
        \/ Player.invulnerabilityTimer p' = 2.0%Q).
Proof.
  intros H Hdt. cbv zeta. unfold playerPhase in H.
  set (s := Round.state v) in *. set (p := GameState.player s) in *.
  destruct (Player.stunned p >? 0)%js eqn:Estun.
  { inv_ok. eexists. split; [left; reflexivity|]. cbn.
    split; [auto|]. split; [|auto 10].
    intros E. rewrite E in Estun. discriminate Estun. }
  apply bind_Ok in H as (w2 & o2 & Hsound & H).
  assert (Hs2 : Round.state w2 = s).
  { destruct (_ || _) in Hsound; [|inv_ok; auto].
    apply bind_Ok in Hsound as (t & ot & _ & Hsound).
    destruct (_ >? _)%js in Hsound; inv_ok; auto. }
  clear Hsound.
  apply bind_Ok in H as (p3 & o3 & Hdash & H).
  set (p2 := Player.set_direction _ p) in *.
  assert (Hp3 : (boostOk p -> boostOk p3)
                /\ Player.stunned p3 = Player.stunned p
                /\ Player.speed p3 = Player.speed p
                /\ Player.puddleImmunity p3 = Player.puddleImmunity p
                /\ Player.size p3 = Player.size p
                /\ Player.pos p3 = Player.pos p
                /\ Player.invulnerabilityTimer p3 = Player.invulnerabilityTimer p).
  { destruct (_ && _) eqn:E in Hdash; inv_ok; [|cbn; auto 10].
    apply andb_true_iff in E as [E _]. apply andb_true_iff in E as [_ E].
    apply Z.geb_le in E. cbn in E.
    split; [|cbn; auto 10]. intros [[Hlo Hhi] _]. unfold boostOk. cbn.
    split; [lia|]. intros _. split; reflexivity || discriminate. }
  clear Hdash.
  set (p4 := if Player.isBoosting p3 then _ else p3) in *.
  assert (Hp4 : (boostOk p -> boostOk p4)
                /\ Player.stunned p4 = Player.stunned p
                /\ Player.speed p4 = Player.speed p
                /\ Player.puddleImmunity p4 = Player.puddleImmunity p
                /\ Player.size p4 = Player.size p
                /\ Player.pos p4 = Player.pos p
                /\ Player.invulnerabilityTimer p4 = Player.invulnerabilityTimer p).
  { destruct Hp3 as (Hb & Hst & Hsp & Hpi & Hsz & Hpos & Hinv). unfold p4.
    destruct (Player.isBoosting p3) eqn:Eb; [|auto 10].
    destruct (_ <=? _)%js eqn:Et; cbn; (split; [|auto 10]); intros Hok;
      destruct (Hb Hok) as [Hc Ht]; split; cbn; try exact Hc; [discriminate|].
    intros _. cbn in Et. apply Qle_bool_false in Et.
    destruct (Ht Eb) as [_ Hhi]. split; [exact Et|]. lra. }
  clearbody p4. clear Hp3.
  apply bind_Ok in H as (p5 & o5 & Hmove & H).
  apply liftR_Ok in Hmove as [Hmove ->].
  assert (Hp5 : (boostOk p -> boostOk p5)
                /\ Player.stunned p5 = Player.stunned p
                /\ Player.speed p5 = Player.speed p
                /\ Player.puddleImmunity p5 = Player.puddleImmunity p
                /\ Player.size p5 = Player.size p
                /\ (Player.pos p5 = Player.pos p
                    \/ isWalkable (Player.pos p5) (Player.size p5) (GameState.map s) = Ok true)
                /\ Player.invulnerabilityTimer p5 = Player.invulnerabilityTimer p).
  { destruct Hp4 as (Hb & Hst & Hsp & Hpi & Hsz & Hpos & Hinv).
    destruct (movePlayer_lands _ _ _ _ _ Hmove) as [Hsz5 Hpos5].
    split; [|split; [|split; [|split; [|split; [|split]]]]].
    - destruct (movePlayer_cases _ _ _ _ _ Hmove) as [-> | [x ->]]; exact Hb.
    - destruct (movePlayer_cases _ _ _ _ _ Hmove) as [-> | [x ->]]; exact Hst.
    - destruct (movePlayer_cases _ _ _ _ _ Hmove) as [-> | [x ->]]; exact Hsp.
    - destruct (movePlayer_cases _ _ _ _ _ Hmove) as [-> | [x ->]]; exact Hpi.
    - congruence.
    - destruct Hpos5 as [Hsame | Hwalk]; [left; congruence|right; exact Hwalk].
    - destruct (movePlayer_cases _ _ _ _ _ Hmove) as [-> | [x ->]]; exact Hinv. }
  destruct Hp5 as (Hb & Hst & Hsp & Hpi & Hsz & Hpos & Hinv).
  destruct (_ && _) in H.
  - apply bind_Ok in H as ([q dead] & oh & Hhit & H).
    apply takeHit_spec in Hhit as [-> ->].
    exists (hit p5). split.
    + destruct (_ <=? _) in H; inv_ok; cbn; auto.
    + split; [exact Hb|]. split; [cbn; congruence|].
      split_and!; try assumption. right. reflexivity.
  - inv_ok. exists p5. split; [left; reflexivity|].
    split; [exact Hb|]. split; [congruence|]. split_and!; try assumption. left. exact Hinv.
Qed.

Lemma buffTimers_boost deltaTime p :
  Player.boostCharge (buffTimers deltaTime p) = Player.boostCharge p
  /\ Player.isBoosting (buffTimers deltaTime p) = Player.isBoosting p
  /\ Player.boostTimer (buffTimers deltaTime p) = Player.boostTimer p
  /\ Player.stunned (buffTimers deltaTime p) = Player.stunned p
  /\ Player.speed (buffTimers deltaTime p) = Player.speed p.
Proof.
  unfold buffTimers.
  destruct (Player.invulnerabilityTimer p >? 0)%js; simpl;
    match goal with |- context [if ?b then _ else _] => destruct b end; simpl; auto.
Qed.

Lemma delivery_keeps s s' :
  (s' = s /\ missed s) \/ delivered s s' ->
  GameState.player s' = GameState.player s
  /\ GameState.powerups s' = GameState.powerups s
  /\ GameState.score s' - GameState.score s = GameState.deliveries s' - GameState.deliveries s
  /\ GameState.score s <= GameState.score s' <= GameState.score s + 1.
Proof.
  intros [[-> _] | (? & ? & ? & ? & H)]; [split_and!; auto; lia|].
  destruct H as (_ & _ & _ & _ & _ & _ & Hs & Hd & _ & _ & Hp & Hu & _).
  split_and!; auto; lia.
Qed.

(** A collected power-up and the player: a cup of coffee never takes the
    stock of charges beyond its cap. *)
Lemma applyPowerUp_player kind s o s' o' :
  applyPowerUp kind s o = Ok (s', o') ->
  (boostOk (GameState.player s) -> boostOk (GameState.player s'))
  /\ Player.stunned (GameState.player s') = Player.stunned (GameState.player s)
  /\ Player.speed (GameState.player s') = Player.speed (GameState.player s).
Proof.
  unfold applyPowerUp. intros H.
  destruct kind as [[| | |]|]; inv_ok; cbn; auto.
  split; [|auto]. intros [[Hlo Hhi] Ht]. split; [|exact Ht]. cbn.
  unfold MAX_BOOST_CHARGE in *. lia.
Qed.

Lemma powerUpStep_player deltaTime pup s kept o s' kept' o' :
  powerUpStep deltaTime pup (s, kept) o = Ok (s', kept', o') ->
  (boostOk (GameState.player s) -> boostOk (GameState.player s'))
  /\ Player.stunned (GameState.player s') = Player.stunned (GameState.player s)
  /\ Player.speed (GameState.player s') = Player.speed (GameState.player s).
Proof.
  unfold powerUpStep.
  destruct (match PowerUp.life _ with Some _ => _ | None => _ end);
    [intros H; inv_ok; auto|].
  destruct (checkCollision _ _); [|intros H; inv_ok; auto].
  intros H. apply bind_Ok in H as (s1 & o1 & Happly & H).
  apply ret_Ok in H as [H _]. injection H as -> ->.
  eapply applyPowerUp_player, Happly.
Qed.

Lemma powerUps_player deltaTime pups s kept o s' kept' o' :
  forEachM pups (powerUpStep deltaTime) (s, kept) o = Ok (s', kept', o') ->
  (boostOk (GameState.player s) -> boostOk (GameState.player s'))
  /\ Player.stunned (GameState.player s') = Player.stunned (GameState.player s)
  /\ Player.speed (GameState.player s') = Player.speed (GameState.player s).
Proof.
  revert s kept o. induction pups as [|pup pups IH]; intros s kept o H; cbn [forEachM] in H.
  - inv_ok. auto.
  - apply bind_Ok in H as ([s2 k2] & o2 & Hstep & H).
    apply powerUpStep_player in Hstep as (Hb & Hst & Hsp).
    apply IH in H as (Hb' & Hst' & Hsp').
    split; [auto|]. split; congruence.
Qed.

Lemma updatePowerUps_player deltaTime s o s' o' :
  updatePowerUps deltaTime s o = Ok (s', o') ->
  (boostOk (GameState.player s) -> boostOk (GameState.player s'))
  /\ Player.stunned (GameState.player s') = Player.stunned (GameState.player s)
  /\ Player.speed (GameState.player s') = Player.speed (GameState.player s).
Proof.
  unfold updatePowerUps. intros H.
  apply bind_Ok in H as ([s1 kept] & o1 & Hloop & H). inv_ok. cbn.
  eapply powerUps_player, Hloop.
Qed.

(** The power-up phase keeps a power-up only with time left to live. *)
Lemma powerUps_kept deltaTime pups s kept o s' kept' o' :
  forEachM pups (powerUpStep deltaTime) (s, kept) o = Ok (s', kept', o') ->
  (0 <= deltaTime)%Q ->
  Forall powerUpAlive pups ->
  exists new,
    kept' = kept ++ new /\ (length new <= length pups)%nat /\ Forall powerUpAlive new.
Proof.
  intros H Hdt. revert s kept o H.
  induction pups as [|pup pups IH]; intros s kept o H Hall; cbn [forEachM] in H.
  - apply ret_Ok in H as [H _]. injection H as -> ->.
    exists []. rewrite app_nil_r. auto.
  - apply bind_Ok in H as ([s1 k1] & o1 & Hstep & H).
    inversion Hall as [|? ? Hpup Hrest]; subst.
    apply IH in H as (new & -> & Hlen & Hnew); [|exact Hrest].
    destruct Hpup as (Hsize & Hmax & life & Hlife & Hpos & Hcap).
    unfold powerUpStep in Hstep. rewrite Hlife in Hstep. cbn [PowerUp.life PowerUp.set_life] in Hstep.
    destruct (_ <=? _)%js eqn:Edead in Hstep.
    { inv_ok. exists new. split_and!; auto. simpl; lia. }
    destruct (checkCollision _ _) in Hstep.
    + apply bind_Ok in Hstep as (s2 & o2 & Happly & Hstep). inv_ok.
      exists new. split_and!; auto. simpl; lia.
    + inv_ok.
      eexists (_ :: new). rewrite <- app_assoc. split; [reflexivity|].
      split; [simpl; lia|]. constructor; [|exact Hnew].
      apply Qle_bool_false in Edead.
      split; [exact Hsize|]. split; [exact Hmax|].
      exists (life - deltaTime)%Q. split; [reflexivity|]. split; [exact Edead|lra].
Qed.

Lemma updatePowerUps_kept deltaTime s o s' o' :
  updatePowerUps deltaTime s o = Ok (s', o') ->
  (0 <= deltaTime)%Q ->
  Forall powerUpAlive (GameState.powerups s) ->
  (length (GameState.powerups s') <= length (GameState.powerups s))%nat
  /\ Forall powerUpAlive (GameState.powerups s').
Proof.
  unfold updatePowerUps. intros H Hdt Hall.
  apply bind_Ok in H as ([s1 kept] & o1 & Hloop & H). inv_ok.
  apply powerUps_kept in Hloop as (new & Hnew & Hlen & Halive); auto.
  cbn in Hnew. subst kept. cbn. split_and!; auto.
Qed.

(** ** Power-ups, score and boost in every reachable round *)

Lemma playerPhase_state (P : GameState -> Prop) deltaTime input v o st o' :
  (forall s p, P s -> P (GameState.set_player p s)) ->
  (forall s b, P s -> P (GameState.set_isGameOver b s)) ->
  playerPhase deltaTime input v o = Ok (st, o') ->
  (0 <= deltaTime)%Q ->
  P (Round.state v) -> P (Round.state (stepped st)).
Proof.
  intros Hplayer Hover H Hdt HP.
  apply playerPhase_player in H as (p' & [-> | ->] & _); auto.
Qed.

(** X7. In every round reached by frames none of which is older than the time
    recorded last ([reachable]), at most five power-ups lie on the map,
    and each of them has between 0 (excluded) and 10 seconds left to
    live. *)
Theorem powerups_capped (w : Round) :
  reachable w ->
  (length (GameState.powerups (Round.state w)) <= 5)%nat
  /\ Forall powerUpAlive (GameState.powerups (Round.state w)).
Proof.
  revert w. apply (reachable_state_invariant powerUpsOk).
  - split; [simpl; lia|constructor].
  - intros fuel w o w' o' Hgen _. apply initGame_fresh in Hgen. cbv zeta in Hgen.
    destruct Hgen as (_ & _ & _ & Hnone & _). unfold powerUpsOk. rewrite Hnone.
    split; [simpl; lia|constructor].
  - intros fuel deltaTime input w o w' o' Hupd Hdt _ _.
    refine (update_state_invariant powerUpsOk fuel deltaTime input w o w' o'
              _ _ _ _ _ _ _ _ _ _ _ Hupd);
      try (intros; assumption).
    + intros s oa s' ob Hact HP. apply activateCar_spec in Hact as [-> _]. exact HP.
    + intros s oa s' ob Hlen Hspawn [_ Hall].
      apply spawnPowerUp_adds in Hspawn as (kind & pos & ->). unfold powerUpsOk. cbn.
      rewrite length_app. split; [simpl; lia|].
      apply Forall_app. split; [exact Hall|]. constructor; [|constructor].
      split; [reflexivity|]. split; [reflexivity|].
      exists 10%Q. split; [reflexivity|]. split; [reflexivity|discriminate].
    + intros v oa st ob Hphase HP.
      apply (playerPhase_state powerUpsOk deltaTime input v oa st ob); auto.
    + intros s oa s' ob Hdel HP. unfold powerUpsOk.
      apply deliveryLogic_spec, delivery_keeps in Hdel as (_ & -> & _). exact HP.
    + intros s oa s' ob Hpow [Hlen Hall].
      apply updatePowerUps_kept in Hpow as (Hlen' & Hall'); auto.
      split; [lia|exact Hall'].
Qed.

Lemma powerups_capped_witness :
  length (GameState.powerups (Round.state spawnTick)) = 1%nat
  /\ Forall powerUpAlive (GameState.powerups (Round.state spawnTick)).
Proof.
  split; [vm_compute; reflexivity|].
  exact (proj2 (powerups_capped spawnTick spawnTick_reachable)).
Defined.

(** X8. In every reachable round the score is the number of deliveries of the
    round. *)
Theorem score_counts_deliveries (w : Round) :
  reachable w ->
  GameState.score (Round.state w) = GameState.deliveries (Round.state w)
  /\ 0 <= GameState.score (Round.state w).
Proof.
  revert w. apply (reachable_state_invariant scoreOk).
  - split; [reflexivity|simpl; lia].
  - intros fuel w o w' o' Hgen _. apply initGame_fresh in Hgen. cbv zeta in Hgen.
    destruct Hgen as (Hs & Hd & _). unfold scoreOk. rewrite Hs, Hd. split; [reflexivity|lia].
  - intros fuel deltaTime input w o w' o' Hupd Hdt _ _.
    refine (update_state_invariant scoreOk fuel deltaTime input w o w' o'
              _ _ _ _ _ _ _ _ _ _ _ Hupd);
      try (intros; assumption).
    + intros s oa s' ob Hact HP. apply activateCar_spec in Hact as [-> _]. exact HP.
    + intros s oa s' ob _ Hspawn HP. apply spawnPowerUp_spec in Hspawn as ->. exact HP.
    + intros v oa st ob Hphase HP.
      apply (playerPhase_state scoreOk deltaTime input v oa st ob); auto.
    + intros s oa s' ob Hdel [Heq Hpos]. unfold scoreOk.
      apply deliveryLogic_spec, delivery_keeps in Hdel as (_ & _ & Hdiff & Hup). lia.
    + intros s oa s' ob Hpow [Heq Hpos]. apply updatePowerUps_spec in Hpow.
      unfold scoreOk. rewrite (powered_score _ _ Hpow), (powered_deliveries _ _ Hpow). auto.
Qed.

Lemma score_counts_deliveries_witness :
  GameState.score (Round.state demoTown) = GameState.deliveries (Round.state demoTown)
  /\ 0 <= GameState.score (Round.state demoTown).
Proof. exact (score_counts_deliveries demoTown demoTown_reachable). Defined.

(** X9. In every round reached by frames none of which is older than the time
    recorded last ([reachable]), the stock of boost charges is between 0
    and [MAX_BOOST_CHARGE], and a boost that is running has time left, at
    most the 0.5 s it starts with. *)
Theorem boost_bounds (w : Round) :
  reachable w ->
  let p := GameState.player (Round.state w) in
  0 <= Player.boostCharge p <= MAX_BOOST_CHARGE
  /\ (Player.isBoosting p = true ->
      (0 < Player.boostTimer p)%Q /\ (Player.boostTimer p <= 0.5)%Q).
Proof.
  revert w. apply (reachable_state_invariant (fun s => boostOk (GameState.player s))).
  - split; [simpl; unfold MAX_BOOST_CHARGE; lia|discriminate].
  - intros fuel w o w' o' Hgen _. apply initGame_fresh in Hgen. cbv zeta in Hgen.
    destruct Hgen as (_ & _ & _ & _ & _ & Hc & Hb & _). unfold boostOk. rewrite Hc, Hb.
    split; [unfold MAX_BOOST_CHARGE; lia|discriminate].
  - intros fuel deltaTime input w o w' o' Hupd Hdt _ _.
    refine (update_state_invariant (fun s => boostOk (GameState.player s))
              fuel deltaTime input w o w' o' _ _ _ _ _ _ _ _ _ _ _ Hupd);
      try (intros; assumption).
    + intros s oa s' ob Hact HP. apply activateCar_spec in Hact as [-> _]. exact HP.
    + intros s oa s' ob _ Hspawn HP. apply spawnPowerUp_spec in Hspawn as ->. exact HP.
    + intros v oa st ob Hphase HP.
      apply playerPhase_player in Hphase as (p' & [-> | ->] & Hb & _); auto.
    + intros s HP. cbn. unfold boostOk.
      destruct (buffTimers_boost deltaTime (GameState.player s)) as (-> & -> & -> & _).
      exact HP.
    + intros s oa s' ob Hdel HP.
      apply deliveryLogic_spec, delivery_keeps in Hdel as (-> & _). exact HP.
    + intros s oa p cars dead ob Hloop HP. cbn.
      apply carLoop_player in Hloop as [_ [[-> _] | (_ & -> & _)]]; exact HP.
    + intros s oa s' ob Hpow HP. apply updatePowerUps_player in Hpow as (Hb & _). auto.
Qed.

Lemma boost_bounds_witness :
  0 <= Player.boostCharge (GameState.player (Round.state demoTown)) <= MAX_BOOST_CHARGE
  /\ (Player.isBoosting (GameState.player (Round.state demoTown)) = true ->
      (0 < Player.boostTimer (GameState.player (Round.state demoTown)))%Q
      /\ (Player.boostTimer (GameState.player (Round.state demoTown)) <= 0.5)%Q).
Proof. exact (boost_bounds demoTown demoTown_reachable). Defined.

(** X10. In every reachable round the player is not stunned and its walking
    speed is [PLAYER_SPEED]: nothing in the game sets either. *)
Theorem player_never_stunned (w : Round) :
  reachable w ->
  Player.stunned (GameState.player (Round.state w)) = 0%Q
  /\ Player.speed (GameState.player (Round.state w)) = PLAYER_SPEED.
Proof.
  revert w. apply (reachable_state_invariant unstunned).
  - split; reflexivity.
  - intros fuel w o w' o' Hgen [Hst Hsp]. apply initGame_fresh in Hgen. cbv zeta in Hgen.
    destruct Hgen as (_ & _ & _ & _ & _ & _ & _ & Hst' & Hsp' & _).
    split; congruence.
  - intros fuel deltaTime input w o w' o' Hupd Hdt _ _.
    refine (update_state_invariant unstunned fuel deltaTime input w o w' o'
              _ _ _ _ _ _ _ _ _ _ _ Hupd);
      try (intros; assumption).
    + intros s oa s' ob Hact HP. apply activateCar_spec in Hact as [-> _]. exact HP.
    + intros s oa s' ob _ Hspawn HP. apply spawnPowerUp_spec in Hspawn as ->. exact HP.
    + intros v oa st ob Hphase [Hst Hsp].
      apply playerPhase_player in Hphase as (p' & [-> | ->] & _ & Hst' & Hsp' & _); auto;
        split; cbn; auto; congruence.
    + intros s [Hst Hsp]. unfold unstunned. cbn.
      destruct (buffTimers_boost deltaTime (GameState.player s)) as (_ & _ & _ & -> & ->).
      auto.
    + intros s oa s' ob Hdel HP. unfold unstunned.
      apply deliveryLogic_spec, delivery_keeps in Hdel as (-> & _). exact HP.
    + intros s oa p cars dead ob Hloop HP. unfold unstunned. cbn.
      apply carLoop_player in Hloop as [_ [[-> _] | (_ & -> & _)]]; exact HP.
    + intros s oa s' ob Hpow [Hst Hsp].
      apply updatePowerUps_player in Hpow as (_ & Hst' & Hsp'). split; congruence.
Qed.

Lemma player_never_stunned_witness :
  Player.stunned (GameState.player (Round.state demoTown)) = 0%Q
  /\ Player.speed (GameState.player (Round.state demoTown)) = PLAYER_SPEED.
Proof. exact (player_never_stunned demoTown demoTown_reachable). Defined.

(** ** The position search returns its first fit *)

Lemma randomRoadSearch_first_fit left map entitySize avoidEntities o pos o' :
  randomRoadSearch left map entitySize avoidEntities o = Ok (pos, o') ->
  (exists k,
     (k < left)%nat
     /\ accepted map entitySize avoidEntities (attemptTile o k)
     /\ (forall j, (j < k)%nat -> ~ accepted map entitySize avoidEntities (attemptTile o j))
     /\ pos = tilePos (attemptTile o k)
     /\ drawn (2 * (k + 1)) o o')
  \/ ((forall j, (j < left)%nat -> ~ accepted map entitySize avoidEntities (attemptTile o j))
      /\ pos = vec 64 64
      /\ drawn (2 * left) o o').
Proof.
  revert o. induction left as [|left IH]; intros o H.
  - cbn [randomRoadSearch] in H. apply ret_Ok in H as [-> ->]. right.
    split; [intros j Hj; lia|]. split; [reflexivity|].
    unfold drawn. split_and!; auto. simpl. lia.
  - cbn [randomRoadSearch] in H. rewrite !bind_randomIndex in H.
    set (o1 := mkOracle (rand o) (N.succ (randCalls o)) (perf o) (perfCalls o)) in *.
    set (o2 := mkOracle (rand o1) (N.succ (randCalls o1)) (perf o1) (perfCalls o1)) in *.
    assert (Ht : attemptTile o 0
                 = (Math_floor (rand o (randCalls o) * inject_Z MAP_WIDTH),
                    Math_floor (rand o1 (randCalls o1) * inject_Z MAP_HEIGHT))).
    { unfold attemptTile. cbn [o1 rand randCalls Nat.mul Nat.add N.of_nat].
      rewrite N.add_0_r. replace (randCalls o + N.of_nat 1)%N with (N.succ (randCalls o)) by lia.
      reflexivity. }
    assert (Hshift : forall j, attemptTile o2 j = attemptTile o (S j)).
    { intros j. unfold attemptTile. cbn [o2 o1 rand randCalls].
      replace (N.succ (N.succ (randCalls o)) + N.of_nat (2 * j))%N
        with (randCalls o + N.of_nat (2 * S j))%N by lia.
      replace (N.succ (N.succ (randCalls o)) + N.of_nat (2 * j + 1))%N
        with (randCalls o + N.of_nat (2 * S j + 1))%N by lia.
      reflexivity. }
    set (t := attemptTile o 0) in *.
    assert (Hretry :
      ~ accepted map entitySize avoidEntities t ->
      randomRoadSearch left map entitySize avoidEntities o2 = Ok (pos, o') ->
      (exists k,
         (k < S left)%nat
         /\ accepted map entitySize avoidEntities (attemptTile o k)
         /\ (forall j, (j < k)%nat -> ~ accepted map entitySize avoidEntities (attemptTile o j))
         /\ pos = tilePos (attemptTile o k)
         /\ drawn (2 * (k + 1)) o o')
      \/ ((forall j, (j < S left)%nat ->
                     ~ accepted map entitySize avoidEntities (attemptTile o j))
          /\ pos = vec 64 64
          /\ drawn (2 * S left) o o')).
    { intros Hno Hrun. apply IH in Hrun as [(k & Hk & Hacc & Hfirst & Hpos & Hd) | (Hnone & Hpos & Hd)].
      - left. exists (S k). split; [lia|]. rewrite <- Hshift. split; [exact Hacc|].
        split; [|split; [exact Hpos|]].
        + intros [|j] Hj; [exact Hno|]. rewrite <- Hshift. apply Hfirst. lia.
        + destruct Hd as (Hr & Hc & Hp & Hpc). unfold drawn.
          rewrite Hr, Hc, Hp, Hpc. cbn [o2 o1 rand randCalls perf perfCalls].
          split_and!; auto. lia.
      - right. split; [|split; [exact Hpos|]].
        + intros [|j] Hj; [exact Hno|]. rewrite <- Hshift. apply Hnone. lia.
        + destruct Hd as (Hr & Hc & Hp & Hpc). unfold drawn.
          rewrite Hr, Hc, Hp, Hpc. cbn [o2 o1 rand randCalls perf perfCalls].
          split_and!; auto. lia. }
    rewrite bind_liftR in H.
    assert (Hfst : Math_floor (rand o (randCalls o) * inject_Z MAP_WIDTH) = t.1)
      by (rewrite Ht; reflexivity).
    assert (Hsnd : Math_floor (rand o1 (randCalls o1) * inject_Z MAP_HEIGHT) = t.2)
      by (rewrite Ht; reflexivity).
    rewrite Hfst, Hsnd in H. fold (tilePos t) in H.
    destruct (tileIs map t.2 t.1 ROAD) as [[|]| |] eqn:Eroad; try discriminate H.
    2:{ apply Hretry; [|exact H]. intros (Hacc & _). congruence. }
    cbv zeta in H. rewrite bind_liftR in H.
    destruct (isWalkable (tilePos t) entitySize map) as [[|]| |] eqn:Ewalk; try discriminate H.
    2:{ apply Hretry; [|exact H]. intros (_ & Hacc & _). congruence. }
    destruct (existsb _ avoidEntities) eqn:Ecol.
    { apply Hretry; [|exact H]. intros (_ & _ & Hacc). congruence. }
    apply ret_Ok in H as [-> ->]. left. exists 0%nat.
    split; [lia|]. split; [split_and!; assumption|].
    split; [intros j Hj; lia|]. split; [reflexivity|].
    unfold drawn. cbn. split_and!; auto. lia.
Qed.

(** X11. [getRandomRoadPosition] returns the position of the first of its 1000
    attempts that passes the three tests, after two draws for each attempt
    made; it returns the fallback (64, 64) only when all 1000 attempts
    fail, after 2000 draws. *)
Theorem getRandomRoadPosition_first_fit map entitySize avoidEntities o pos o' :
  getRandomRoadPosition map entitySize avoidEntities o = Ok (pos, o') ->
  (exists k,
     (k < 1000)%nat
     /\ accepted map entitySize avoidEntities (attemptTile o k)
     /\ (forall j, (j < k)%nat -> ~ accepted map entitySize avoidEntities (attemptTile o j))
     /\ pos = tilePos (attemptTile o k)
     /\ drawn (2 * (k + 1)) o o')
  \/ ((forall j, (j < 1000)%nat -> ~ accepted map entitySize avoidEntities (attemptTile o j))
      /\ pos = vec 64 64
      /\ drawn 2000 o o').
Proof. apply randomRoadSearch_first_fit. Qed.

Lemma getRandomRoadPosition_first_fit_witness :
  accepted (GameState.map (Round.state demoTown)) (vec 16 16) [] (attemptTile halfOracle 0)
  /\ getRandomRoadPosition (GameState.map (Round.state demoTown)) (vec 16 16) [] halfOracle
     = Ok (tilePos (attemptTile halfOracle 0),
           mkOracle (rand halfOracle) 2 (perf halfOracle) (perfCalls halfOracle)).
Proof.
  assert (Hrun : getRandomRoadPosition (GameState.map (Round.state demoTown)) (vec 16 16) []
                                       halfOracle
                 = Ok (tilePos (attemptTile halfOracle 0),
                       mkOracle (rand halfOracle) 2 (perf halfOracle) (perfCalls halfOracle)))
    by (vm_compute; reflexivity).
  split; [|exact Hrun].
  destruct (getRandomRoadPosition_first_fit _ _ _ _ _ _ Hrun)
    as [(k & _ & Hacc & Hfirst & _ & Hd) | (_ & Hpos & _)].
  - destruct k as [|k]; [exact Hacc|].
    destruct Hd as (_ & Hcalls & _). cbn in Hcalls. lia.
  - discriminate Hpos.
Defined.

(** ** Frames *)





(** X13. However long the gap between two frames, a frame takes at most 0.1 s
    off the round timer of a reachable round, and the timer stays at most
    [INITIAL_TIME]. *)
Theorem frame_drains_at_most_a_tenth fuel f w o w' o' :
  loop fuel f w o = Ok (w', o') ->
  reachable w ->
  (Round.lastTimeRef w <= Frame.time f)%Q ->
  (GameState.timer (Round.state w) - 0.1 <= GameState.timer (Round.state w'))%Q
  /\ (GameState.timer (Round.state w') <= INITIAL_TIME)%Q.
Proof.
  intros Hloop Hreach Htime.
  pose proof (reachable_invariant w Hreach) as Hinv.
  destruct (loop_ticked _ _ _ _ _ _ Hloop Htime Hinv)
    as [[-> _] | (_ & _ & _ & w1 & Htick & -> & _)].
  - split; [|apply (inv_timer_cap w Hinv)].
    set (t := GameState.timer (Round.state w)). lra.
  - destruct (clamped_delta _ _ Htime) as [_ Hhi].
    pose proof (ticked_timer_floor _ _ _ Htick) as Hfloor.
    cbn [Round.state Round.set_lastTimeRef] in Hfloor.
    split; [|apply (ticked_timer_cap _ _ _ Htick)].
    set (d := Qmin _ _) in *. set (t := GameState.timer (Round.state w)) in *.
    set (t1 := GameState.timer (Round.state w1)) in *.
    assert (Hc : (0.1 == 1 # 10)%Q) by reflexivity. lra.
Qed.

Lemma frame_drains_at_most_a_tenth_witness :
  exists w',
    (GameState.timer (Round.state emptyTown) - 0.1 <= GameState.timer (Round.state w'))%Q
    /\ (GameState.timer (Round.state w') <= INITIAL_TIME)%Q
    /\ Round.lastTimeRef w' = 60000%Q.
Proof.
  destruct (loop_quiet emptyTown 60000 emptyTown_quiet) as (w' & o' & Hrun & _ & Hlast & _).
  exists w'.
  destruct (frame_drains_at_most_a_tenth _ _ _ _ _ _ Hrun emptyTown_reachable)
    as [Hlo Hhi]; [discriminate|].
  split; [exact Hlo|]. split; [exact Hhi|exact Hlast].
Defined.

(** ** The road bands of a generated town *)

Lemma spaced_bandsApart gap roads : 2 <= gap -> spaced gap roads -> bandsApart roads.
Proof.
  intros Hgap. induction 1 as [|v rest Hrest IH Hv]; [exact I|].
  split; [|exact IH]. eapply Forall_impl; [exact Hv|]. intros v' H. cbn in H. lia.
Qed.

Lemma addLinesLoop_spec fuel arr last max minGap o arr' o' :
  addLinesLoop fuel arr last max minGap o = Ok (arr', o') ->
  rng_ok o -> 0 <= minGap ->
  rng_ok o'
  /\ exists new,
       arr' = arr ++ new
       /\ Forall (fun v => last + minGap <= v < max - minGap) new
       /\ spaced minGap new.
Proof.
  intros H Hok Hgap. revert arr last o H Hok.
  induction fuel as [|fuel IH]; intros arr last o H Hok; cbn [addLinesLoop] in H;
    [discriminate H|].
  apply bind_Ok in H as (r & o1 & Hr & H).
  apply Math_random_Ok in Hr as [-> Hdrawn].
  pose proof (rng_ok_drawn _ _ _ Hok Hdrawn) as Hok1.
  assert (Hfloor : 0 <= Math_floor (rand o (randCalls o) * 5)).
  { destruct (Hok (randCalls o)) as [H0 _]. unfold Math_floor.
    change 0 with (Qfloor 0). apply Qfloor_resp_le.
    apply Qmult_le_0_compat; [exact H0|discriminate]. }
  set (next := last + (minGap + Math_floor (rand o (randCalls o) * 5))) in *.
  destruct (next >=? max - minGap) eqn:E.
  - apply ret_Ok in H as [-> ->]. split; [exact Hok1|].
    exists []. rewrite app_nil_r. split; [reflexivity|]. split; constructor.
  - rewrite Z.geb_leb in E. apply Z.leb_gt in E.
    apply IH in H as (Hok' & new & -> & Hall & Hsorted); [|exact Hok1].
    split; [exact Hok'|]. exists (next :: new). rewrite <- app_assoc.
    split; [reflexivity|]. split.
    + constructor; [subst next; lia|].
      eapply Forall_impl; [exact Hall|]. intros v Hv. cbn in Hv. subst next. lia.
    + constructor; [exact Hsorted|].
      eapply Forall_impl; [exact Hall|]. intros v Hv. cbn in Hv. lia.
Qed.

Lemma spaced_sorted gap roads : 0 <= gap -> spaced gap roads -> StronglySorted Z.le roads.
Proof.
  intros Hgap. induction 1 as [|v rest Hrest IH Hv]; constructor; [exact IH|].
  eapply Forall_impl; [exact Hv|]. intros v' H. cbn in H. lia.
Qed.

(** The bands [addLines] adds to the two perimeter bands lie between them:
    the sorted array starts with the first perimeter band and ends with
    the second, and consecutive bands are at least [minGap] tiles apart. *)
Lemma addLines_spec fuel first max minGap o roads o' :
  addLines fuel [first; max] max minGap o = Ok (roads, o') ->
  rng_ok o -> 0 <= minGap -> first + minGap <= max ->
  rng_ok o'
  /\ exists new, roads = first :: new ++ [max] /\ spaced minGap roads.
Proof.
  unfold addLines. intros H Hok Hgap Hle.
  apply bind_Ok in H as (arr' & o1 & Hloop & H). apply ret_Ok in H as [-> ->].
  apply addLinesLoop_spec in Hloop as (Hok' & new & -> & Hall & Hsorted); auto.
  split; [exact Hok'|]. exists new.
  assert (Hgoal : spaced minGap (first :: new ++ [max])).
  { constructor.
    - apply StronglySorted_app_2; [|exact Hsorted|repeat constructor].
      intros x1 x2 H1 H2. apply list_elem_of_singleton in H2 as ->.
      rewrite Forall_forall in Hall. specialize (Hall x1 H1). cbn in Hall. lia.
    - apply Forall_app. split.
      + eapply Forall_impl; [exact Hall|]. intros v Hv. cbn in Hv. lia.
      + constructor; [exact Hle|constructor]. }
  assert (Heq : merge_sort Z.le ([first; max] ++ new) = first :: new ++ [max]).
  { apply (StronglySorted_unique_strong Z.le).
    - intros x1 x2 _ _ H1 H2. lia.
    - apply StronglySorted_merge_sort; apply _.
    - eapply spaced_sorted; [exact Hgap|exact Hgoal].
    - rewrite merge_sort_Permutation. cbn. constructor.
      apply Permutation_cons_append. }
  rewrite Heq. split; [reflexivity|exact Hgoal].
Qed.

(** X14. The road bands of a town [initGame] generates, on each axis: the first
    band starts at tile 2 and the last one 4 tiles before the end of the
    map, and each band starts at least 10 tiles after the one before, so
    that no two bands share a tile. *)
Theorem initGame_roads_spaced fuel w o w' o' :
  initGame fuel w o = Ok (w', o') ->
  rng_ok o ->
  let s' := Round.state w' in
  (exists inner, GameState.vRoads s' = 2 :: inner ++ [MAP_WIDTH - 4])
  /\ (exists inner, GameState.hRoads s' = 2 :: inner ++ [MAP_HEIGHT - 4])
  /\ spaced 10 (GameState.vRoads s') /\ spaced 10 (GameState.hRoads s')
  /\ bandsApart (GameState.vRoads s') /\ bandsApart (GameState.hRoads s').
Proof.
  unfold initGame. intros H Hok.
  apply bind_Ok in H as (vRoads & o1 & Hv & H).
  apply bind_Ok in H as (hRoads & o2 & Hh & H).
  apply bind_Ok in H as (map1 & ? & _ & H).
  apply bind_Ok in H as (map2 & ? & _ & H).
  apply bind_Ok in H as ([map3 houses0] & ? & _ & H).
  apply bind_Ok in H as ([map4 statics1] & ? & _ & H).
  apply bind_Ok in H as ([map5 statics2] & ? & _ & H).
  apply bind_Ok in H as ([[map6 statics3] puddles1] & ? & _ & H).
  apply bind_Ok in H as (houses & ? & _ & H).
  apply bind_Ok in H as (startPos & ? & _ & H).
  apply bind_Ok in H as (puddles & ? & _ & H).
  apply bind_Ok in H as (cars & ? & _ & H).
  apply bind_Ok in H as (now & ? & _ & H).
  inv_ok. cbn.
  apply addLines_spec in Hv as (Hok1 & innerV & HeqV & HspV);
    [|exact Hok|lia|unfold MAP_WIDTH; lia].
  apply addLines_spec in Hh as (_ & innerH & HeqH & HspH);
    [|exact Hok1|lia|unfold MAP_HEIGHT; lia].
  split; [exists innerV; exact HeqV|]. split; [exists innerH; exact HeqH|].
  split; [exact HspV|]. split; [exact HspH|].
  split; eapply spaced_bandsApart; eauto; lia.
Qed.

Lemma initGame_roads_spaced_witness :
  spaced 10 (GameState.vRoads (Round.state demoTown))
  /\ spaced 10 (GameState.hRoads (Round.state demoTown)).
Proof.
  destruct demoTown_generated as (w1 & o1 & Hgen & Hstate).
  destruct (initGame_roads_spaced _ _ _ _ _ Hgen stepOracle_ok) as (_ & _ & Hv & Hh & _).
  rewrite <- Hstate. split; [exact Hv|exact Hh].
Defined.

(** ** The player stays on the road *)

Lemma tileOf_offset x k c :
  (c == inject_Z (x * TILE_SIZE + k))%Q -> 0 <= k < TILE_SIZE -> tileOf c = x.
Proof.
  intros Hc Hk. unfold tileOf, Math_floor. rewrite Hc.
  unfold TILE_SIZE in *. unfold Qdiv, Qmult, Qinv, inject_Z, Qfloor. cbn [Qnum Qden].
  rewrite Z.mul_1_r. symmetry. apply (Z.div_unique _ _ x k); lia.
Qed.

Lemma firstRoadInRow_found map y xs x :
  firstRoadInRow map y xs = Ok (Some x) -> x ∈ xs /\ tileIs map y x ROAD = Ok true.
Proof.
  induction xs as [|x0 xs IH]; cbn [firstRoadInRow]; [discriminate|].
  destruct (tileIs map y x0 ROAD) as [[|]| |] eqn:E; cbn; try discriminate.
  - intros H. injection H as ->. split; [left|exact E].
  - intros H. apply IH in H as [Hin Hroad]. split; [right; exact Hin|exact Hroad].
Qed.

(** A box of 14 by 14 pixels placed 10 pixels into a ROAD tile of the map
    is walkable. *)
Lemma start_walkable map x y :
  0 <= x < MAP_WIDTH -> 0 <= y < MAP_HEIGHT ->
  tileIs map y x ROAD = Ok true ->
  isWalkable (vec (inject_Z (x * TILE_SIZE + 10)) (inject_Z (y * TILE_SIZE + 10)))
             (vec 14 14) map = Ok true.
Proof.
  intros Hx Hy Hroad. apply isWalkable_true. apply tileIs_true in Hroad.
  assert (Hx0 : tileOf (inject_Z (x * TILE_SIZE + 10)) = x)
    by (apply (tileOf_offset x 10); [reflexivity|unfold TILE_SIZE; lia]).
  assert (Hy0 : tileOf (inject_Z (y * TILE_SIZE + 10)) = y)
    by (apply (tileOf_offset y 10); [reflexivity|unfold TILE_SIZE; lia]).
  assert (Hx1 : tileOf (inject_Z (x * TILE_SIZE + 10) + 14 - 1) = x).
  { apply (tileOf_offset x 23); [|unfold TILE_SIZE; lia].
    rewrite !inject_Z_plus. change (inject_Z 23) with 23%Q. change (inject_Z 10) with 10%Q.
    ring. }
  assert (Hy1 : tileOf (inject_Z (y * TILE_SIZE + 10) + 14 - 1) = y).
  { apply (tileOf_offset y 23); [|unfold TILE_SIZE; lia].
    rewrite !inject_Z_plus. change (inject_Z 23) with 23%Q. change (inject_Z 10) with 10%Q.
    ring. }
  unfold corners. cbn [Vector2.x Vector2.y].
  repeat constructor; unfold onRoad; cbn [Vector2.x Vector2.y];
    rewrite ?Hx0, ?Hy0, ?Hx1, ?Hy1; auto; lia.
Qed.

Lemma elem_of_range lo hi i : i ∈ range lo hi -> lo <= i < hi.
Proof. unfold range. rewrite elem_of_seqZ. lia. Qed.

(** The start position [initGame] looks for: 10 pixels into a ROAD tile of
    the map, where the player's box is walkable, or the fallback (64, 64)
    when no row of the map has a ROAD tile. *)
Lemma findStartPos_spec map startPos :
  findStartPos map = Ok startPos ->
  isWalkable startPos (vec 14 14) map = Ok true \/ startPos = vec 64 64.
Proof.
  unfold findStartPos.
  assert (Hgen : forall ys start pos,
    (forall y, y ∈ ys -> 0 <= y < MAP_HEIGHT) ->
    isWalkable start (vec 14 14) map = Ok true \/ start = vec 64 64 ->
    forEachR ys
      (fun y startPos =>
         (let? found := firstRoadInRow map y (range 0 MAP_WIDTH) in
          match found with
          | Some x => Ok (vec (inject_Z (x * TILE_SIZE + 10)) (inject_Z (y * TILE_SIZE + 10)))
          | None => Ok startPos
          end)%R) start = Ok pos ->
    isWalkable pos (vec 14 14) map = Ok true \/ pos = vec 64 64).
  { induction ys as [|y ys IH]; intros start pos Hys Hstart H; cbn [forEachR] in H.
    - injection H as <-. exact Hstart.
    - apply bindR_Ok in H as (start' & Hrow & H).
      apply (IH start' pos); [intros y' Hy'; apply Hys; right; exact Hy'| |exact H].
      apply bindR_Ok in Hrow as (found & Hfound & Hrow).
      destruct found as [x|]; injection Hrow as <-; [|exact Hstart].
      apply firstRoadInRow_found in Hfound as [Hx Hroad]. left.
      apply start_walkable; [apply elem_of_range in Hx; lia| |exact Hroad].
      apply Hys. left. }
  apply Hgen; [|right; reflexivity].
  intros y Hy. apply elem_of_range in Hy. lia.
Qed.

Lemma initGame_start fuel w o w' o' :
  initGame fuel w o = Ok (w', o') ->
  let s' := Round.state w' in
  GameState.isPlaying s' = true
  /\ Player.size (GameState.player s') = vec 14 14
  /\ findStartPos (GameState.map s') = Ok (Player.pos (GameState.player s')).
Proof.
  unfold initGame. intros H.
  apply bind_Ok in H as (vRoads & ? & _ & H).
  apply bind_Ok in H as (hRoads & ? & _ & H).
  apply bind_Ok in H as (map1 & ? & _ & H).
  apply bind_Ok in H as (map2 & ? & _ & H).
  apply bind_Ok in H as ([map3 houses0] & ? & _ & H).
  apply bind_Ok in H as ([map4 statics1] & ? & _ & H).
  apply bind_Ok in H as ([map5 statics2] & ? & _ & H).
  apply bind_Ok in H as ([[map6 statics3] puddles1] & ? & _ & H).
  apply bind_Ok in H as (houses & ? & _ & H).
  apply bind_Ok in H as (startPos & ? & Hstart & H).
  apply liftR_Ok in Hstart as [Hstart _].
  apply bind_Ok in H as (puddles & ? & _ & H).
  apply bind_Ok in H as (cars & ? & _ & H).
  apply bind_Ok in H as (now & ? & _ & H).
  inv_ok. cbn. auto.
Qed.

Lemma powered_onRoad s s' : powered s s' -> playerOnRoad s -> playerOnRoad s'.
Proof.
  intros Hpow HP Hplay.
  pose proof (powered_setting _ _ Hpow) as Hset.
  pose proof (powered_player _ _ Hpow) as Hp.
  rewrite (same_isPlaying _ _ Hset) in Hplay. destruct (HP Hplay) as [Hsize Hpos].
  rewrite (pickedUp_size _ _ Hp), (pickedUp_pos _ _ Hp), (same_map _ _ Hset).
  split; assumption.
Qed.

(** X15. In every reachable round that is being played the box of the player,
    14 by 14 pixels, has its four corners on ROAD tiles of the map, unless
    the player still stands at the fallback position (64, 64) that
    [initGame] uses when it finds no ROAD tile to start on. *)
Theorem player_stays_on_road (w : Round) :
  reachable w ->
  GameState.isPlaying (Round.state w) = true ->
  Player.size (GameState.player (Round.state w)) = vec 14 14
  /\ (isWalkable (Player.pos (GameState.player (Round.state w)))
                 (Player.size (GameState.player (Round.state w)))
                 (GameState.map (Round.state w)) = Ok true
      \/ Player.pos (GameState.player (Round.state w)) = vec 64 64).
Proof.
  revert w. apply (reachable_state_invariant playerOnRoad).
  - intros Hplay. discriminate Hplay.
  - intros fuel w o w' o' Hgen _ _. apply initGame_start in Hgen as (_ & Hsize & Hstart).
    split; [exact Hsize|]. rewrite Hsize. apply findStartPos_spec, Hstart.
  - intros fuel deltaTime input w o w' o' Hupd Hdt _ _.
    refine (update_state_invariant playerOnRoad fuel deltaTime input w o w' o'
              _ _ _ _ _ _ _ _ _ _ _ Hupd);
      try (intros; assumption).
    + intros s oa s' ob Hact HP. apply activateCar_spec in Hact as [-> _]. exact HP.
    + intros s oa s' ob _ Hspawn HP. apply spawnPowerUp_spec in Hspawn as ->. exact HP.
    + intros v oa st ob Hphase HP.
      apply playerPhase_player in Hphase
        as (p' & Hstate & _ & _ & _ & _ & Hsize & Hpos & _); [|exact Hdt].
      assert (HP' : playerOnRoad (GameState.set_player p' (Round.state v))).
      { intros Hplay. destruct (HP Hplay) as [Hsz Hwalk]. cbn.
        split; [congruence|].
        destruct Hpos as [Hsame | Hnew]; [|left; exact Hnew].
        rewrite Hsame, Hsize. exact Hwalk. }
      destruct Hstate as [-> | ->]; exact HP'.
    + intros s HP Hplay. destruct (HP Hplay) as [Hsz Hwalk]. cbn.
      destruct (buffTimers_vitals deltaTime (GameState.player s)) as (_ & _ & -> & -> & _).
      split; assumption.
    + intros s oa s' ob Hdel HP Hplay.
      apply deliveryLogic_spec, delivery_outcome, delivered_player in Hdel as [Hp Hset].
      rewrite (same_isPlaying _ _ Hset) in Hplay.
      rewrite Hp, (same_map _ _ Hset). exact (HP Hplay).
    + intros s oa p cars dead ob Hloop HP Hplay. cbn.
      apply carLoop_player in Hloop as [_ [[-> _] | (_ & -> & _)]]; exact (HP Hplay).
    + intros s oa s' ob Hpow. apply powered_onRoad. eapply updatePowerUps_spec, Hpow.
Qed.

Lemma player_stays_on_road_witness :
  isWalkable (Player.pos (GameState.player (Round.state demoTown)))
             (Player.size (GameState.player (Round.state demoTown)))
             (GameState.map (Round.state demoTown)) = Ok true.
Proof.
  destruct (player_stays_on_road demoTown demoTown_reachable eq_refl) as [_ [H | H]];
    [exact H|discriminate H].
Defined.

(** ** The options of the traffic rule *)

Lemma findIndexFrom_cases {A} (f : A -> bool) l k :
  findIndexFrom f l k = -1 \/ k <= findIndexFrom f l k.
Proof.
  revert k. induction l as [|a l IH]; intros k; cbn [findIndexFrom]; [left; reflexivity|].
  destruct (f a); [right; lia|]. destruct (IH (k + 1)) as [H | H]; [left; exact H|right; lia].
Qed.

(** X16. [getTrafficFlow] gives at most two options, each a unit step with its
    heading, and none on a tile that is on no band; in particular none
    when there are no bands. *)
Theorem getTrafficFlow_options (tx ty : Z) (vRoads hRoads : list Z) :
  (length (getTrafficFlow tx ty vRoads hRoads) <= 2)%nat
  /\ Forall (fun f => f ∈ unitFlows) (getTrafficFlow tx ty vRoads hRoads)
  /\ ((forall v, v ∈ vRoads -> ~ inBand tx v) ->
      (forall h, h ∈ hRoads -> ~ inBand ty h) ->
      getTrafficFlow tx ty vRoads hRoads = [])
  /\ getTrafficFlow tx ty [] [] = [].
Proof.
  unfold getTrafficFlow, findIndex, unitFlows.
  change (fun v => (tx =? v) || (tx =? v + 1)) with (bandTest tx).
  change (fun h => (ty =? h) || (ty =? h + 1)) with (bandTest ty).
  split; [|split; [|split]].
  - destruct (_ =? -1); destruct (_ =? -1); repeat destruct (_ =? 0); simpl; lia.
  - destruct (_ =? -1); destruct (_ =? -1); repeat destruct (_ =? 0); simpl;
      repeat constructor; set_solver.
  - intros Hv Hh. rewrite (findIndexFrom_none tx vRoads 0 Hv), (findIndexFrom_none ty hRoads 0 Hh).
    reflexivity.
  - reflexivity.
Qed.

(** ** The earlier traffic rule *)

Lemma rem2_test x : (Z.rem x 2 =? 0) = Z.even x.
Proof.
  rewrite (Zeven_mod x).
  destruct (Z.rem x 2 =? 0) eqn:E.
  - apply Z.eqb_eq in E. symmetry. apply Z.eqb_eq.
    pose proof (Z.rem_mod_eq_0 x 2 ltac:(lia)) as H. apply H. exact E.
  - apply Z.eqb_neq in E. symmetry. apply Z.eqb_neq. intros H. apply E.
    apply (Z.rem_mod_eq_0 x 2 ltac:(lia)). exact H.
Qed.

(** X17. The earlier variant gives every tile two options, by the parity of
    its coordinates alone: down in an even column and up in an odd one,
    then left in an even row and right in an odd one; so the two columns
    of a band carry opposite flows. *)
Theorem earlier_flow_by_parity (tx ty : Z) :
  EarlierFlow.getTrafficFlow tx ty
  = [if Z.even tx then Flow.mk 0 1 Down else Flow.mk 0 (-1) Up;
     if Z.even ty then Flow.mk (-1) 0 Left else Flow.mk 1 0 Right]
  /\ Flow.d <$> head (EarlierFlow.getTrafficFlow (tx + 1) ty)
     = reverseDir <$> (Flow.d <$> head (EarlierFlow.getTrafficFlow tx ty))
  /\ EarlierFlow.getTrafficFlow (tx + 2) (ty + 2) = EarlierFlow.getTrafficFlow tx ty.
Proof.
  assert (Hform : forall x y,
    EarlierFlow.getTrafficFlow x y
    = [if Z.even x then Flow.mk 0 1 Down else Flow.mk 0 (-1) Up;
       if Z.even y then Flow.mk (-1) 0 Left else Flow.mk 1 0 Right]).
  { intros x y. unfold EarlierFlow.getTrafficFlow. rewrite !rem2_test.
    destruct (Z.even x), (Z.even y); reflexivity. }
  split; [apply Hform|]. split.
  - rewrite !Hform. cbn [head fmap option_fmap option_map].
    rewrite Z.even_add. destruct (Z.even tx); reflexivity.
  - rewrite !Hform. rewrite !Z.even_add. destruct (Z.even tx), (Z.even ty); reflexivity.
Qed.

(** ** Activation *)






(** ** The raincoat *)

(** X19. While the raincoat buff runs, the player phase of a tick takes no
    health, even with the player standing in a puddle: it hands the round
    on, with the health and the invulnerability timer of the player as
    they were. *)
Theorem raincoat_keeps_dry deltaTime input v o st o' :
  playerPhase deltaTime input v o = Ok (st, o') ->
  (0 < Player.puddleImmunity (GameState.player (Round.state v)))%Q ->
  exists w1,
    st = Continue w1
    /\ Player.health (GameState.player (Round.state w1))
       = Player.health (GameState.player (Round.state v))
    /\ Player.invulnerabilityTimer (GameState.player (Round.state w1))
       = Player.invulnerabilityTimer (GameState.player (Round.state v))
    /\ GameState.isGameOver (Round.state w1) = GameState.isGameOver (Round.state v).
Proof.
  intros H Hcoat. unfold playerPhase in H.
  set (s := Round.state v) in *. set (p := GameState.player s) in *.
  destruct (Player.stunned p >? 0)%js.
  { inv_ok. eexists. split; [reflexivity|]. cbn. auto. }
  apply bind_Ok in H as (w2 & o2 & _ & H).
  apply bind_Ok in H as (p3 & o3 & Hdash & H).
  set (p2 := Player.set_direction _ p) in *.
  assert (Hp3 : Player.health p3 = Player.health p
                /\ Player.invulnerabilityTimer p3 = Player.invulnerabilityTimer p
                /\ Player.puddleImmunity p3 = Player.puddleImmunity p).
  { destruct (_ && _) in Hdash; inv_ok; cbn; auto. }
  clear Hdash.
  set (p4 := if Player.isBoosting p3 then _ else p3) in *.
  assert (Hp4 : Player.health p4 = Player.health p
                /\ Player.invulnerabilityTimer p4 = Player.invulnerabilityTimer p
                /\ Player.puddleImmunity p4 = Player.puddleImmunity p).
  { unfold p4. destruct (Player.isBoosting p3); [|exact Hp3].
    destruct (_ <=? _)%js; cbn; exact Hp3. }
  clearbody p4. clear Hp3.
  apply bind_Ok in H as (p5 & o5 & Hmove & H).
  apply liftR_Ok in Hmove as [Hmove ->].
  assert (Hp5 : Player.health p5 = Player.health p
                /\ Player.invulnerabilityTimer p5 = Player.invulnerabilityTimer p
                /\ Player.puddleImmunity p5 = Player.puddleImmunity p).
  { destruct (movePlayer_cases _ _ _ _ _ Hmove) as [-> | [x ->]]; exact Hp4. }
  destruct Hp5 as (Hh & Hi & Hc).
  assert (Edry : (Player.puddleImmunity p5 <=? 0)%js = false).
  { apply Qle_bool_false. rewrite Hc. exact Hcoat. }
  rewrite Edry, andb_false_r in H. cbn [andb] in H.
  inv_ok. eexists. split; [reflexivity|]. cbn. auto.
Qed.

Lemma coated_run :
  exists st o', playerPhase 0.1 idle coated halfOracle = Ok (st, o').
Proof.
  destruct (outcome_run (Continue coated) (playerPhase 0.1 idle coated halfOracle))
    as [o' Hrun]; [vm_compute; reflexivity|].
  eauto.
Qed.

Lemma raincoat_keeps_dry_witness :
  existsb (fun pud => checkCollision (playerBox (GameState.player (Round.state coated)))
                                     (puddleBox pud))
          (GameState.puddles (Round.state coated)) = true
  /\ exists st w1,
       st = Continue w1
       /\ Player.health (GameState.player (Round.state w1))
          = Player.health (GameState.player (Round.state coated)).
Proof.
  split; [vm_compute; reflexivity|].
  destruct coated_run as (st & o' & Hrun).
  destruct (raincoat_keeps_dry _ _ _ _ _ _ Hrun) as (w1 & Hst & Hhealth & _);
    [reflexivity|].
  exists st, w1. split; [exact Hst|exact Hhealth].
Defined.

(** ** Walkability at the edges *)

(** X20. [isWalkable] answers with a boolean, whatever the box, on every map
    that has its [MAP_HEIGHT] rows: a box whose first corner falls outside
    the map is not walkable.  On the empty map of the mounted component it
    raises for a box at the origin. *)
Theorem isWalkable_edges (pos size : Vector2) (map : TileMap) :
  (MAP_HEIGHT <= Z.of_nat (length map) -> exists b, isWalkable pos size map = Ok b)
  /\ (outOfMap (tileOf (Vector2.x pos)) (tileOf (Vector2.y pos)) = true ->
      isWalkable pos size map = Ok false)
  /\ isWalkable (vec 0 0) size [] = Throw.
Proof.
  split; [apply isWalkable_total|]. split.
  - intros Hout. unfold isWalkable, corners. cbn [allOnRoad].
    unfold cornerOnRoad. cbn [Vector2.x Vector2.y]. rewrite Hout. reflexivity.
  - reflexivity.
Qed.

(** ** Dashing through traffic *)

Lemma carStep_boosting s deltaTime p car o p' car' dead o' :
  carStep s deltaTime p car o = Ok (p', car', dead, o') ->
  Player.isBoosting p = true -> p' = p /\ dead = false.
Proof.
  intros H Hboost. unfold carStep in H. rewrite Hboost in H.
  destruct (Car.frozenTimer car >? 0)%js; [inv_ok; auto|].
  destruct (Car.state car).
  - inv_ok; auto.
  - apply bind_Ok in H as (c1 & o1 & _ & H).
    rewrite andb_false_r in H. cbn [andb] in H. inv_ok; auto.
  - apply bind_Ok in H as (turned & o1 & _ & H).
    destruct turned as [c1|c1]; [|inv_ok; auto].
    rewrite andb_false_r in H. cbn [andb] in H. inv_ok; auto.
  - apply bind_Ok in H as (c1 & o1 & _ & H). inv_ok. auto.
Qed.

(** X21. While the player is boosting no car of the car loop takes health,
    whatever the cars do: the loop steps every car and hands the player
    back as it was. *)
Theorem boost_passes_through_traffic s deltaTime p cars o p' cars' dead o' :
  carLoop s deltaTime p cars o = Ok (p', cars', dead, o') ->
  Player.isBoosting p = true ->
  p' = p /\ dead = false /\ length cars' = length cars.
Proof.
  intros H Hboost. revert o cars' H.
  induction cars as [|car cars IH]; intros o cars' H; cbn [carLoop] in H.
  - inv_ok. auto.
  - apply bind_Ok in H as ([[p1 car1] d1] & o1 & Hstep & H).
    apply carStep_boosting in Hstep as [-> ->]; [|exact Hboost].
    apply bind_Ok in H as ([[p2 rest] d2] & o2 & Hrest & H). inv_ok.
    apply IH in Hrest as (-> & -> & Hlen). cbn [length]. auto.
Qed.

Lemma boost_passes_through_traffic_witness :
  exists cars' o',
    carLoop (Round.state uTurnTown) 0.1 dashing (GameState.cars (Round.state uTurnTown)) halfOracle
    = Ok (dashing, cars', false, o').
Proof.
  destruct (outcome_run (dashing, [], false)
              (carLoop (Round.state uTurnTown) 0.1 dashing
                       (GameState.cars (Round.state uTurnTown)) halfOracle))
    as [o' Hrun]; [vm_compute; reflexivity|].
  destruct (outcome _ _) as [[p' cars'] dead] in Hrun.
  destruct (boost_passes_through_traffic _ _ _ _ _ _ _ _ _ Hrun eq_refl) as (-> & -> & _).
  exists cars', o'. exact Hrun.
Defined.

(** ** Countdowns *)

(** A property of the round state that does not depend on the power-ups
    on the map and that every pick-up keeps is kept by the power-up phase. *)
Lemma updatePowerUps_invariant (P : GameState -> Prop) deltaTime s o s' o' :
  (forall kind s oa s' ob, applyPowerUp kind s oa = Ok (s', ob) -> P s -> P s') ->
  (forall s l, P s -> P (GameState.set_powerups l s)) ->
  updatePowerUps deltaTime s o = Ok (s', o') -> P s -> P s'.
Proof.
  intros Hpick Hlist H HP. unfold updatePowerUps in H.
  apply bind_Ok in H as ([s1 kept] & o1 & Hloop & H). apply ret_Ok in H as [-> _].
  apply Hlist.
  assert (Hgen : forall pups s kept o s1 kept1 o1,
            forEachM pups (powerUpStep deltaTime) (s, kept) o = Ok (s1, kept1, o1) ->
            P s -> P s1).
  { clear -Hpick. induction pups as [|pup pups IH]; intros s kept o s1 kept1 o1 H HP;
      cbn [forEachM] in H.
    - inv_ok. exact HP.
    - apply bind_Ok in H as ([s2 k2] & o2 & Hstep & H).
      apply (IH _ _ _ _ _ _ H).
      unfold powerUpStep in Hstep.
      destruct (match PowerUp.life _ with Some _ => _ | None => _ end) in Hstep;
        [inv_ok; exact HP|].
      destruct (checkCollision _ _) in Hstep; [|inv_ok; exact HP].
      apply bind_Ok in Hstep as (s3 & o3 & Happly & Hstep).
      apply ret_Ok in Hstep as [Hstep _]. injection Hstep as -> ->.
      eapply Hpick; eauto. }
  eapply Hgen; eauto.
Qed.

Lemma buffTimers_countdowns deltaTime p :
  Player.invulnerabilityTimer (buffTimers deltaTime p)
  = (if (Player.invulnerabilityTimer p >? 0)%js
     then Player.invulnerabilityTimer p - deltaTime
     else Player.invulnerabilityTimer p)%Q
  /\ Player.puddleImmunity (buffTimers deltaTime p)
     = (if (Player.puddleImmunity p >? 0)%js
        then Player.puddleImmunity p - deltaTime
        else Player.puddleImmunity p)%Q.
Proof.
  unfold buffTimers.
  destruct (Player.invulnerabilityTimer p >? 0)%js; cbn;
    destruct (Player.puddleImmunity p >? 0)%js; cbn; auto.
Qed.

Lemma countdown_step (t deltaTime top : Q) :
  (0 <= deltaTime)%Q -> (deltaTime <= 0.1)%Q ->
  (-0.1 <= t)%Q -> (t <= top)%Q ->
  (-0.1 <= (if (t >? 0)%js then t - deltaTime else t))%Q
  /\ ((if (t >? 0)%js then t - deltaTime else t) <= top)%Q.
Proof.
  intros Hlo Hhi Ht Htop. destruct (t >? 0)%js eqn:E; [|auto].
  apply Qlt_bool_iff in E.
  assert (Hc : (0.1 == 1 # 10)%Q) by reflexivity. split; lra.
Qed.

(** X22. In every round reached by frames none of which is older than the time
    recorded last ([reachable]), the three countdowns the HUD and the
    hazard checks read are within their ranges: the traffic pause and the
    raincoat between -0.1 and 10 seconds, the invulnerability between
    -0.1 and 2 seconds. *)
Theorem countdowns_bounded (w : Round) :
  reachable w ->
  let s := Round.state w in
  let p := GameState.player s in
  ((-0.1 <= GameState.trafficPauseTimer s)%Q /\ (GameState.trafficPauseTimer s <= 10)%Q)
  /\ ((-0.1 <= Player.puddleImmunity p)%Q /\ (Player.puddleImmunity p <= 10)%Q)
  /\ ((-0.1 <= Player.invulnerabilityTimer p)%Q /\ (Player.invulnerabilityTimer p <= 2)%Q).
Proof.
  revert w. apply (reachable_state_invariant countdownsOk).
  - repeat split; discriminate.
  - intros fuel w o w' o' Hgen _. unfold initGame in Hgen.
    apply bind_Ok in Hgen as (vRoads & ? & _ & H).
    apply bind_Ok in H as (hRoads & ? & _ & H).
    apply bind_Ok in H as (map1 & ? & _ & H).
    apply bind_Ok in H as (map2 & ? & _ & H).
    apply bind_Ok in H as ([map3 houses0] & ? & _ & H).
    apply bind_Ok in H as ([map4 statics1] & ? & _ & H).
    apply bind_Ok in H as ([map5 statics2] & ? & _ & H).
    apply bind_Ok in H as ([[map6 statics3] puddles1] & ? & _ & H).
    apply bind_Ok in H as (houses & ? & _ & H).
    apply bind_Ok in H as (startPos & ? & _ & H).
    apply bind_Ok in H as (puddles & ? & _ & H).
    apply bind_Ok in H as (cars & ? & _ & H).
    apply bind_Ok in H as (now & ? & _ & H).
    inv_ok. repeat split; discriminate.
  - intros fuel deltaTime input w o w' o' Hupd Hlo Hhi _.
    assert (Hc : (0.1 == 1 # 10)%Q) by reflexivity.
    refine (update_state_invariant countdownsOk fuel deltaTime input w o w' o'
              _ _ _ _ _ _ _ _ _ _ _ Hupd);
      try (intros; assumption).
    + intros s Hpos ((H1 & H2) & Hrest). split; [|exact Hrest]. cbn. split; lra.
    + intros s oa s' ob Hact HP. apply activateCar_spec in Hact as [-> _]. exact HP.
    + intros s oa s' ob _ Hspawn HP. apply spawnPowerUp_spec in Hspawn as ->. exact HP.
    + intros v oa st ob Hphase (Hpause & Hcoat & Hinv).
      apply playerPhase_player in Hphase
        as (p' & Hstate & _ & _ & _ & Hpi & _ & _ & Hiv); [|exact Hlo].
      assert (HP' : countdownsOk (GameState.set_player p' (Round.state v))).
      { split; [exact Hpause|]. cbn. rewrite Hpi. split; [exact Hcoat|].
        destruct Hiv as [-> | ->]; [exact Hinv|]. split; discriminate. }
      destruct Hstate as [-> | ->]; exact HP'.
    + intros s (Hpause & Hcoat & Hinv). split; [exact Hpause|]. cbn.
      destruct (buffTimers_countdowns deltaTime (GameState.player s)) as [-> ->].
      split; apply countdown_step; tauto.
    + intros s oa s' ob Hdel HP.
      apply deliveryLogic_spec in Hdel as [[-> _] | (? & ? & ? & ? & Hd)]; [exact HP|].
      destruct Hd as (_ & _ & _ & _ & _ & _ & _ & _ & _ & _ & Hp & _ & Hpause & _).
      unfold countdownsOk. rewrite Hp, Hpause. exact HP.
    + intros s oa p cars dead ob Hloop (Hpause & Hcoat & Hinv).
      apply carLoop_player in Hloop as [_ [[-> _] | (_ & -> & _)]];
        [split; [exact Hpause|split; assumption]|].
      split; [exact Hpause|]. cbn. split; [exact Hcoat|]. split; discriminate.
    + intros s oa s' ob. apply updatePowerUps_invariant; [|intros; assumption].
      clear. intros kind s oa s' ob Happly (Hpause & Hcoat & Hinv).
      unfold applyPowerUp in Happly.
      destruct kind as [[| | |]|]; inv_ok; cbn; repeat split; try tauto; discriminate.
Qed.

Lemma countdowns_bounded_witness :
  (GameState.trafficPauseTimer (Round.state spawnTick) <= 10)%Q
  /\ (Player.puddleImmunity (GameState.player (Round.state spawnTick)) <= 10)%Q
  /\ (Player.invulnerabilityTimer (GameState.player (Round.state spawnTick)) <= 2)%Q.
Proof.
  destruct (countdowns_bounded spawnTick spawnTick_reachable)
    as ((_ & H1) & (_ & H2) & (_ & H3)).
  split; [exact H1|]. split; [exact H2|exact H3].
Defined.

(** ** The town is fixed *)

Lemma sameHouse_refl houses : Forall2 sameHouse houses houses.
Proof. apply Forall2_same. intros []. reflexivity. Qed.

Lemma sameHouse_flag h b : sameHouse h (House.set_isTarget b h).
Proof. destruct h. reflexivity. Qed.

Lemma sameHouse_trans h1 h2 h3 : sameHouse h1 h2 -> sameHouse h2 h3 -> sameHouse h1 h3.
Proof. unfold sameHouse. intros -> ->. destruct h1. reflexivity. Qed.

Lemma sameHouses_trans l1 l2 l3 :
  Forall2 sameHouse l1 l2 -> Forall2 sameHouse l2 l3 -> Forall2 sameHouse l1 l3.
Proof.
  intros H12. revert l3. induction H12 as [|h1 h2 l1 l2 Hh H12 IH]; intros l3 H23;
    inversion H23; subst; constructor; eauto using sameHouse_trans.
Qed.

Lemma sameTown_refl s : sameTown s s.
Proof. unfold sameTown. split_and!; auto. apply sameHouse_refl. Qed.

Lemma sameTown_trans s1 s2 s3 : sameTown s1 s2 -> sameTown s2 s3 -> sameTown s1 s3.
Proof.
  intros (? & ? & ? & ? & ? & H12) (? & ? & ? & ? & ? & H23).
  unfold sameTown. split_and!; try congruence. eapply sameHouses_trans; eauto.
Qed.

Lemma setTarget_sameHouse houses i v houses' :
  setTarget houses i v = Ok houses' -> Forall2 sameHouse houses houses'.
Proof.
  unfold setTarget. destruct (at_ houses i) as [h|] eqn:E; [|discriminate].
  intros H. injection H as <-. apply at_Some in E.
  eapply Forall2_insert_same; eauto.
  - intros []. reflexivity.
  - apply sameHouse_flag.
Qed.

Lemma deliveryLogic_town fuel s o s' o' :
  deliveryLogic fuel s o = Ok (s', o') -> sameTown s s'.
Proof.
  intros H. apply deliveryLogic_spec in H as [[-> _] | H]; [apply sameTown_refl|].
  destruct H as (target & targetHouse & next & bonus & _ & Hhouse & _ & _ & _ & Hset & H).
  destruct H as (_ & _ & _ & _ & _ & _ & _ & Hsame).
  destruct Hsame as [_ _ Hm Hv Hh Hp Hs]. unfold sameTown. split_and!; auto.
  apply setTarget_sameHouse in Hset.
  eapply sameHouses_trans; [|exact Hset].
  eapply Forall2_insert_same; eauto.
  - intros []. reflexivity.
  - apply sameHouse_flag.
Qed.

Lemma update_sameTown fuel deltaTime input w o w' o' :
  update fuel deltaTime input w o = Ok (w', o') ->
  sameTown (Round.state w) (Round.state w').
Proof.
  intros Hupd.
  refine (update_state_invariant (sameTown (Round.state w)) fuel deltaTime input w o w' o'
            _ _ _ _ _ _ _ _ _ _ _ Hupd (sameTown_refl _));
    try (intros; assumption).
  - intros s oa s' ob Hact HP. apply activateCar_spec in Hact as [-> _]. exact HP.
  - intros s oa s' ob _ Hspawn HP. apply spawnPowerUp_spec in Hspawn as ->. exact HP.
  - intros v oa st ob Hphase HP.
    apply playerPhase_spec in Hphase as (p' & w1 & Hstate & _ & _ & _ & _ & _ & _ & Hst).
    destruct Hst as [[-> _] | [-> _]]; cbn [stepped gameOver Round.state Round.set_state
                                              Round.set_gameOverReasonRef];
      rewrite Hstate; exact HP.
  - intros s oa s' ob Hdel HP. eapply sameTown_trans; [exact HP|].
    eapply deliveryLogic_town, Hdel.
  - intros s oa s' ob Hpow HP. apply updatePowerUps_spec in Hpow.
    pose proof (powered_setting _ _ Hpow) as [_ _ Hm Hv Hh Hp Hs].
    pose proof (powered_houses _ _ Hpow) as Hhouses.
    destruct HP as (? & ? & ? & ? & ? & ?). unfold sameTown.
    rewrite Hhouses. split_and!; congruence || assumption.
Qed.

(** X23. A tick of [update] never alters the town: the map, the road bands,
    the puddles and the static objects stay as they are, and so do the
    houses, in number, order and every field but [isTarget]. *)
Theorem update_keeps_town fuel deltaTime input w o w' o' :
  update fuel deltaTime input w o = Ok (w', o') ->
  GameState.map (Round.state w') = GameState.map (Round.state w)
  /\ GameState.vRoads (Round.state w') = GameState.vRoads (Round.state w)
  /\ GameState.hRoads (Round.state w') = GameState.hRoads (Round.state w)
  /\ GameState.puddles (Round.state w') = GameState.puddles (Round.state w)
  /\ GameState.staticObjects (Round.state w') = GameState.staticObjects (Round.state w)
  /\ Forall2 sameHouse (GameState.houses (Round.state w)) (GameState.houses (Round.state w')).
Proof. intros Hupd. exact (update_sameTown _ _ _ _ _ _ _ Hupd). Qed.

Lemma update_keeps_town_witness :
  GameState.map (Round.state pausedTick) = GameState.map (Round.state pausedTown)
  /\ Forall2 sameHouse (GameState.houses (Round.state pausedTown))
                       (GameState.houses (Round.state pausedTick)).
Proof.
  destruct pausedTick_run as [o' Hrun].
  destruct (update_keeps_town _ _ _ _ _ _ _ Hrun) as (Hmap & _ & _ & _ & _ & Hhouses).
  split; [exact Hmap|exact Hhouses].
Defined.

(** ** Frozen cars and the traffic pause *)

Lemma turningLogic_frozenTimer s car o turned o' :
  turningLogic s car o = Ok (turned, o') ->
  Car.frozenTimer (stepped turned) = Car.frozenTimer car.
Proof.
  unfold turningLogic. cbv zeta. intros H.
  apply bind_Ok in H as (r & o1 & _ & H).
  apply bind_Ok in H as (driveway & o2 & _ & H).
  destruct driveway as [n|]; [inv_ok; reflexivity|].
  apply bind_Ok in H as (validOptions & o3 & _ & H).
  destruct validOptions as [|v vs]; [inv_ok; reflexivity|].
  apply bind_Ok in H as (i & o4 & _ & H).
  apply bind_Ok in H as (choice & o5 & _ & H).
  destruct choice as [f|]; [destruct (negb _) in H|]; inv_ok; reflexivity.
Qed.

Lemma laneCorrection_frozenTimer car :
  Car.frozenTimer (laneCorrection car) = Car.frozenTimer car.
Proof.
  unfold laneCorrection. cbv zeta.
  destruct (Car.direction car); destruct (_ >? _)%js; reflexivity.
Qed.

Lemma stepReturning_frozenTimer map c c' :
  stepReturning map c = Ok c' -> Car.frozenTimer c' = Car.frozenTimer c.
Proof.
  unfold stepReturning. intros H.
  apply bindR_Ok in H as (onDriveway & _ & H).
  destruct onDriveway; [|inversion H; subst; reflexivity].
  cbv zeta in H. apply bindR_Ok in H as (leaves & _ & H).
  inversion H; subst. destruct leaves; reflexivity.
Qed.

Lemma stepMerging_frozenTimer s c c' :
  stepMerging s c = Ok c' -> Car.frozenTimer c' = Car.frozenTimer c.
Proof.
  unfold stepMerging. cbv zeta. intros H.
  apply bindR_Ok in H as (onRoad & _ & H).
  destruct onRoad; [|inversion H; subst; reflexivity].
  destruct (getTrafficFlow _ _ _ _); inversion H; subst; reflexivity.
Qed.

(** The step of the car loop and the timer of the car: a frozen car's
    timer runs down by [deltaTime], any other car's is left alone. *)
Lemma carStep_frozenTimer s deltaTime p car o p' car' dead o' :
  carStep s deltaTime p car o = Ok (p', car', dead, o') ->
  Car.frozenTimer car'
  = (if (Car.frozenTimer car >? 0)%js then Car.frozenTimer car - deltaTime
     else Car.frozenTimer car)%Q.
Proof.
  intros H. apply carStep_cases in H as [[Hpos ->] | [Hneg H]].
  - apply Qlt_bool_iff in Hpos. rewrite Hpos. reflexivity.
  - apply Qlt_bool_false in Hneg. rewrite Hneg.
    destruct (Car.state car).
    + subst. reflexivity.
    + eapply stepMerging_frozenTimer, H.
    + destruct H as (turned & o1 & Hturn & H).
      assert (Ht : Car.frozenTimer (stepped turned) = Car.frozenTimer car).
      { destruct (_ <? _)%js in Hturn; [eapply turningLogic_frozenTimer, Hturn|].
        apply ret_Ok in Hturn as [-> _]. apply laneCorrection_frozenTimer. }
      destruct turned as [c|c]; subst car'; cbn [stepped] in Ht; [|exact Ht].
      unfold settle. destruct (offMapPixels _); exact Ht.
    + eapply stepReturning_frozenTimer, H.
Qed.

Lemma carLoop_thaws s deltaTime p cars o p' cars' o' pause :
  carLoop s deltaTime p cars o = Ok (p', cars', false, o') ->
  Forall (fun c => (0 < Car.frozenTimer c)%Q -> (Car.frozenTimer c - deltaTime <= pause)%Q) cars ->
  Forall (fun c => (0 < Car.frozenTimer c)%Q -> (Car.frozenTimer c <= pause)%Q) cars'.
Proof.
  revert p o p' cars' o'. induction cars as [|car cars IH]; intros p o p' cars' o' H Hall;
    cbn [carLoop] in H.
  - inv_ok. constructor.
  - apply bind_Ok in H as ([[p1 car1] d1] & o1 & Hstep & H).
    destruct d1; [apply ret_Ok in H as [H _]; discriminate H|].
    apply bind_Ok in H as ([[p2 rest] d2] & o2 & Hrest & H).
    apply ret_Ok in H as [H _]. injection H as -> -> <-.
    inversion Hall as [|? ? Hcar Hcars]; subst.
    constructor; [|eapply IH; eauto].
    apply carStep_frozenTimer in Hstep. rewrite Hstep.
    destruct (Car.frozenTimer car >? 0)%js eqn:E.
    + intros _. apply Hcar. apply Qlt_bool_iff. exact E.
    + intros Hpos. apply Qlt_bool_false in E. lra.
Qed.

Lemma activateCar_thaws deltaTime s o s' o' :
  activateCar s o = Ok (s', o') ->
  (0 <= deltaTime)%Q ->
  thawsAfter deltaTime s -> thawsAfter deltaTime s'.
Proof.
  unfold activateCar. intros H Hdt HJ.
  destruct (Z.of_nat (length (parkedIndices (GameState.cars s))) >? 0);
    [|apply ret_Ok in H as [-> _]; exact HJ].
  apply bind_Ok in H as (k & o1 & _ & H).
  destruct (at_ (parkedIndices (GameState.cars s)) k) as [i|]; [|discriminate].
  destruct (GameState.cars s !! i) as [car|] eqn:Hcar; [|discriminate].
  apply bind_Ok in H as (d & o2 & _ & H). apply ret_Ok in H as [-> _].
  unfold thawsAfter in *. cbn [GameState.cars GameState.set_cars GameState.trafficPauseTimer].
  apply Forall_insert; [exact HJ|].
  destruct (GameState.trafficPauseTimer s >? 0)%js eqn:E; cbn.
  - intros _. lra.
  - rewrite Forall_lookup in HJ. exact (HJ i car Hcar).
Qed.

Lemma deliveryLogic_thaws fuel deltaTime s o s' o' :
  deliveryLogic fuel s o = Ok (s', o') ->
  (0 <= deltaTime)%Q ->
  thawsAfter deltaTime s -> thawsAfter deltaTime s'.
Proof.
  unfold deliveryLogic. intros H Hdt HJ.
  destruct (findTarget (GameState.houses s)) as [target|];
    [|apply ret_Ok in H as [-> _]; exact HJ].
  destruct (GameState.houses s !! target) as [targetHouse|];
    [|apply ret_Ok in H as [-> _]; exact HJ].
  destruct (distanceBelow _ _ _); [|apply ret_Ok in H as [-> _]; exact HJ].
  apply bind_Ok in H as (? & ? & _ & H).
  apply bind_Ok in H as (now1 & ? & _ & H).
  apply bind_Ok in H as (now2 & ? & _ & H).
  apply bind_Ok in H as (? & ? & _ & H).
  apply bind_Ok in H as (next & ? & _ & H).
  apply bind_Ok in H as (houses' & ? & _ & H).
  eapply activateCar_thaws; [exact H|exact Hdt|exact HJ].
Qed.

(** X24. In every round that is reached by frames none of which is older than
    the time recorded last ([reachable]) and is not over, no car is frozen
    for longer than the traffic pause lasts: a positive [frozenTimer] is
    at most [trafficPauseTimer], so once the pause has run out every car
    moves again. *)
Theorem frozen_cars_thaw_with_pause (w : Round) :
  reachable w ->
  GameState.isGameOver (Round.state w) = false ->
  Forall (fun c => (0 < Car.frozenTimer c)%Q ->
                   (Car.frozenTimer c <= GameState.trafficPauseTimer (Round.state w))%Q)
         (GameState.cars (Round.state w)).
Proof.
  revert w.
  apply (reachable_state_invariant (fun s => GameState.isGameOver s = false -> thawsInTime s)).
  - intros _. constructor.
  - intros fuel w o w' o' Hgen _ _. apply initGame_fresh in Hgen. cbv zeta in Hgen.
    destruct Hgen as (_ & _ & _ & _ & _ & _ & _ & _ & _ & _ & Hall).
    eapply Forall_impl; [exact Hall|]. intros c (h & _ & ->). cbn. intros Hpos.
    exfalso. revert Hpos. apply Qlt_irrefl.
  - intros fuel deltaTime input w o w' o' Hupd Hdt _ _ HP Hover'.
    unfold update in Hupd. set (s := Round.state w) in *.
    destruct (negb (GameState.isPlaying s) || GameState.isGameOver s) eqn:Eskip.
    { apply ret_Ok in Hupd as [-> _]. exact (HP Hover'). }
    apply orb_false_iff in Eskip as [_ Eover]. specialize (HP Eover).
    destruct (_ <=? _)%js in Hupd.
    { apply ret_Ok in Hupd as [-> _]. discriminate Hover'. }
    set (s0 := if (_ >? _)%js then _ else _) in Hupd.
    assert (J0 : thawsAfter deltaTime s0).
    { subst s0. cbn [GameState.trafficPauseTimer GameState.set_timer].
      unfold thawsAfter, thawsInTime in *.
      destruct (GameState.trafficPauseTimer s >? 0)%js eqn:E;
        cbn [GameState.cars GameState.trafficPauseTimer GameState.set_timer
             GameState.set_trafficPauseTimer];
        (eapply Forall_impl; [exact HP|]); intros c Hc Hpos; specialize (Hc Hpos).
      - lra.
      - apply Qlt_bool_false in E. lra. }
    clearbody s0.
    apply bind_Ok in Hupd as (r1 & oa & _ & H).
    apply bind_Ok in H as (sa & ob & Hrun & H).
    assert (Ja : thawsAfter deltaTime sa).
    { destruct (_ <? _)%js in Hrun; [eapply activateCar_thaws; eauto|].
      apply ret_Ok in Hrun as [-> _]. exact J0. }
    apply bind_Ok in H as (r2 & oc & _ & H).
    apply bind_Ok in H as (s1 & o1 & Hrun1 & H).
    assert (J1 : thawsAfter deltaTime s1).
    { destruct (_ && _) in Hrun1.
      - apply spawnPowerUp_spec in Hrun1 as ->. exact Ja.
      - apply ret_Ok in Hrun1 as [-> _]. exact Ja. }
    apply bind_Ok in H as (moved & o2 & Hphase & H).
    apply playerPhase_spec in Hphase as (p' & w1 & Hstate & _ & _ & _ & _ & _ & _ & Hst).
    cbn [Round.state Round.set_state] in Hstate.
    destruct Hst as [[-> _] | [-> _]];
      [|apply ret_Ok in H as [-> _]; discriminate Hover'].
    apply bind_Ok in H as (s4 & o4 & Hrun4 & H).
    apply deliveryLogic_thaws with (deltaTime := deltaTime) in Hrun4;
      [|exact Hdt|rewrite Hstate; exact J1].
    apply bind_Ok in H as (projs & o5 & _ & H).
    apply bind_Ok in H as ([[p5 cars5] dead] & o6 & Hloop & H).
    destruct dead; [apply ret_Ok in H as [-> _]; discriminate Hover'|].
    apply bind_Ok in H as (s6 & o7 & Hpow & H). apply ret_Ok in H as [-> _].
    cbn [Round.state Round.set_state]. cbn [Round.state Round.set_state] in Hover'.
    refine (updatePowerUps_invariant thawsInTime deltaTime _ o6 s6 o7 _ _ Hpow _).
    + clear. intros kind s oa s' ob Happly HI. unfold applyPowerUp in Happly.
      destruct kind as [[| | |]|]; inv_ok; try exact HI.
      unfold thawsInTime. cbn. apply Forall_fmap, Forall_true. intros c _. cbn.
      apply Qle_refl.
    + intros; assumption.
    + unfold thawsInTime. cbn.
      eapply carLoop_thaws; [exact Hloop|]. exact Hrun4.
Qed.

Lemma frozen_cars_thaw_with_pause_witness :
  Forall (fun c => (0 < Car.frozenTimer c)%Q ->
                   (Car.frozenTimer c <= GameState.trafficPauseTimer (Round.state spawnTick))%Q)
         (GameState.cars (Round.state spawnTick)).
Proof.
  apply (frozen_cars_thaw_with_pause spawnTick spawnTick_reachable).
  vm_compute. reflexivity.
Defined.

(** ** Power-ups and puddles *)

Lemma randomRoadSearch_clear left map entitySize avoidEntities o pos o' :
  randomRoadSearch left map entitySize avoidEntities o = Ok (pos, o') ->
  pos = vec 64 64
  \/ (isWalkable pos entitySize map = Ok true
      /\ existsb (checkCollision (Entity.mk pos entitySize)) avoidEntities = false).
Proof.
  intros H.
  destruct (randomRoadSearch_first_fit _ _ _ _ _ _ _ H)
    as [(k & _ & (_ & Hwalk & Hclear) & _ & Hpos & _) | (_ & Hpos & _)].
  - right. subst pos. split; [exact Hwalk|exact Hclear].
  - left. exact Hpos.
Qed.

(** A position the search returns is its fallback, or a position where
    the box is walkable and overlaps nothing to avoid. *)
Lemma getRandomRoadPosition_clear map entitySize avoidEntities o pos o' :
  getRandomRoadPosition map entitySize avoidEntities o = Ok (pos, o') ->
  pos = vec 64 64
  \/ (isWalkable pos entitySize map = Ok true
      /\ existsb (checkCollision (Entity.mk pos entitySize)) avoidEntities = false).
Proof. apply randomRoadSearch_clear. Qed.

Lemma spawnPowerUp_clear s o s' o' :
  spawnPowerUp s o = Ok (s', o') ->
  exists u,
    s' = GameState.set_powerups (GameState.powerups s ++ [u]) s /\ offPuddles s u.
Proof.
  unfold spawnPowerUp. intros H.
  apply bind_Ok in H as (i & o1 & _ & H).
  apply bind_Ok in H as (pos & o2 & Hpos & H).
  apply bind_Ok in H as (? & o3 & _ & H). apply ret_Ok in H as [-> _].
  eexists. split; [reflexivity|]. split; [reflexivity|].
  apply getRandomRoadPosition_clear in Hpos as [-> | [_ Hclear]]; [left; reflexivity|].
  right. exact Hclear.
Qed.

(** The power-up phase keeps power-ups where they are. *)
Lemma powerUps_stay deltaTime pups s kept o s' kept' o' :
  forEachM pups (powerUpStep deltaTime) (s, kept) o = Ok (s', kept', o') ->
  exists new,
    kept' = kept ++ new
    /\ Forall (fun u' => exists u, u ∈ pups /\ PowerUp.pos u' = PowerUp.pos u
                                   /\ PowerUp.size u' = PowerUp.size u) new.
Proof.
  revert s kept o. induction pups as [|pup pups IH]; intros s kept o H; cbn [forEachM] in H.
  - apply ret_Ok in H as [H _]. injection H as -> ->. exists []. rewrite app_nil_r. auto.
  - apply bind_Ok in H as ([s1 k1] & o1 & Hstep & H).
    apply IH in H as (new & -> & Hnew).
    assert (Hnew' : Forall (fun u' => exists u, u ∈ pup :: pups
                                                /\ PowerUp.pos u' = PowerUp.pos u
                                                /\ PowerUp.size u' = PowerUp.size u) new).
    { eapply Forall_impl; [exact Hnew|]. intros u' (u & Hin & Hu). exists u.
      split; [right; exact Hin|exact Hu]. }
    unfold powerUpStep in Hstep.
    destruct (match PowerUp.life _ with Some _ => _ | None => _ end) in Hstep.
    { inv_ok. exists new. auto. }
    destruct (checkCollision _ _) in Hstep.
    + apply bind_Ok in Hstep as (s2 & o2 & _ & Hstep). inv_ok. exists new. auto.
    + inv_ok. eexists (_ :: new). rewrite <- app_assoc. split; [reflexivity|].
      constructor; [|exact Hnew'].
      exists pup. split; [left|]. destruct (PowerUp.life pup); split; reflexivity.
Qed.

(** X25. In every reachable round every power-up on the map is clear of all
    puddles of the town, unless it lies at the fallback position
    (64, 64) of the position search. *)
Theorem powerups_spawn_off_puddles (w : Round) :
  reachable w ->
  Forall (fun u =>
            PowerUp.pos u = vec 64 64
            \/ Forall (fun pud => checkCollision (powerupBox u) (puddleBox pud) = false)
                      (GameState.puddles (Round.state w)))
         (GameState.powerups (Round.state w)).
Proof.
  intros Hreach.
  assert (H : Forall (offPuddles (Round.state w)) (GameState.powerups (Round.state w))).
  { revert w Hreach.
    apply (reachable_state_invariant (fun s => Forall (offPuddles s) (GameState.powerups s))).
    - constructor.
    - intros fuel w o w' o' Hgen _. apply initGame_fresh in Hgen. cbv zeta in Hgen.
      destruct Hgen as (_ & _ & _ & -> & _). constructor.
    - intros fuel deltaTime input w o w' o' Hupd _ _ _.
      refine (update_state_invariant (fun s => Forall (offPuddles s) (GameState.powerups s))
                fuel deltaTime input w o w' o' _ _ _ _ _ _ _ _ _ _ _ Hupd);
        try (intros; assumption).
      + intros s oa s' ob Hact HP. apply activateCar_spec in Hact as [-> _]. exact HP.
      + intros s oa s' ob _ Hspawn HP.
        apply spawnPowerUp_clear in Hspawn as (u & -> & Hu). cbn.
        apply Forall_app. split; [exact HP|]. constructor; [exact Hu|constructor].
      + intros v oa st ob Hphase HP.
        apply playerPhase_spec in Hphase as (p' & w1 & Hstate & _ & _ & _ & _ & _ & _ & Hst).
        destruct Hst as [[-> _] | [-> _]];
          cbn [stepped gameOver Round.state Round.set_state Round.set_gameOverReasonRef];
          rewrite Hstate; exact HP.
      + intros s oa s' ob Hdel HP.
        apply deliveryLogic_spec in Hdel as [[-> _] | (? & ? & ? & ? & Hd)]; [exact HP|].
        destruct Hd as (_ & _ & _ & _ & _ & _ & _ & _ & _ & _ & _ & Hu & _ & Hset).
        rewrite Hu. eapply Forall_impl; [exact HP|].
        intros u Hoff. unfold offPuddles. rewrite (same_puddles _ _ Hset). exact Hoff.
      + intros s oa s' ob Hpow HP. pose proof Hpow as Hpowered.
        apply updatePowerUps_spec in Hpowered.
        pose proof (same_puddles _ _ (powered_setting _ _ Hpowered)) as Hpud.
        unfold updatePowerUps in Hpow.
        apply bind_Ok in Hpow as ([s1 kept] & o1 & Hloop & Hpow).
        apply ret_Ok in Hpow as [-> _]. cbn [GameState.powerups GameState.set_powerups].
        apply powerUps_stay in Hloop as (new & -> & Hnew). cbn [app].
        eapply Forall_impl; [exact Hnew|]. intros u' (u & Hin & Hpos & Hsize).
        rewrite Forall_forall in HP. destruct (HP u Hin) as [Hsz Hoff].
        cbn in Hpud. unfold offPuddles, powerupBox. cbn [GameState.puddles GameState.set_powerups].
        rewrite Hpos, Hsize. rewrite Hpud. split; [exact Hsz|exact Hoff]. }
  eapply Forall_impl; [exact H|]. intros u [_ [Hpos | Hclear]]; [left; exact Hpos|right].
  apply Forall_forall. intros pud Hpud.
  destruct (checkCollision (powerupBox u) (puddleBox pud)) eqn:E; [|reflexivity].
  assert (Hex : existsb (checkCollision (powerupBox u))
                        (puddleBox <$> GameState.puddles (Round.state w)) = true).
  { apply existsb_exists. exists (puddleBox pud). split; [|exact E].
    apply list_elem_of_In, list_elem_of_fmap. exists pud. split; [reflexivity|exact Hpud]. }
  congruence.
Qed.

Lemma powerups_spawn_off_puddles_witness :
  PowerUp.pos <$> GameState.powerups (Round.state spawnTick) = [vec 804 484]
  /\ Forall (fun u =>
               PowerUp.pos u = vec 64 64
               \/ Forall (fun pud => checkCollision (powerupBox u) (puddleBox pud) = false)
                         (GameState.puddles (Round.state spawnTick)))
            (GameState.powerups (Round.state spawnTick)).
Proof.
  split; [vm_compute; reflexivity|].
  exact (powerups_spawn_off_puddles spawnTick spawnTick_reachable).
Defined.

(** ** The puddles of a generated town *)

Lemma existsb_false_Forall {A} (f : A -> bool) (l : list A) :
  existsb f l = false -> Forall (fun a => f a = false) l.
Proof.
  induction l as [|a l IH]; cbn [existsb]; [constructor|].
  intros H. apply orb_false_iff in H as [Ha Hl]. constructor; auto.
Qed.

Lemma addPuddle_spec map puddles o puddles' o' :
  addPuddle map puddles o = Ok (puddles', o') ->
  exists pud, puddles' = puddles ++ [pud] /\ puddlePlaced map puddles pud.
Proof.
  unfold addPuddle. intros H.
  apply bind_Ok in H as (rw & o1 & _ & H).
  apply bind_Ok in H as (rh & o2 & _ & H).
  apply bind_Ok in H as (pos & o3 & Hpos & H).
  apply bind_Ok in H as (n & o4 & _ & H).
  apply bind_Ok in H as (? & o5 & _ & H). apply ret_Ok in H as [-> _].
  eexists. split; [reflexivity|].
  apply getRandomRoadPosition_clear in Hpos as [-> | [Hwalk Hclear]]; [left; reflexivity|].
  right. split; [exact Hwalk|].
  apply existsb_false_Forall in Hclear. apply Forall_fmap in Hclear. exact Hclear.
Qed.

(** A loop whose body appends one element a round appends as many
    elements as it has rounds; what the body promises of an element and
    the list it is appended to holds of every element the loop appends. *)
Lemma forEachM_appends {A B} (body : A -> list B -> M (list B))
    (Q : list B -> B -> Prop) (rounds : list A) l o l' o' :
  (forall a l o l' o', body a l o = Ok (l', o') -> exists b, l' = l ++ [b] /\ Q l b) ->
  forEachM rounds body l o = Ok (l', o') ->
  exists new,
    l' = l ++ new
    /\ length new = length rounds
    /\ forall i b, new !! i = Some b -> Q (l ++ take i new) b.
Proof.
  intros Hbody. revert l o. induction rounds as [|a rounds IH]; intros l o H;
    cbn [forEachM] in H.
  - apply ret_Ok in H as [-> _]. exists []. rewrite app_nil_r.
    split; [reflexivity|]. split; [reflexivity|]. intros i b Hi. discriminate Hi.
  - apply bind_Ok in H as (l1 & o1 & Hadd & H).
    apply Hbody in Hadd as (b0 & -> & Hb0).
    apply IH in H as (new & -> & Hlen & Hall).
    exists (b0 :: new). rewrite <- app_assoc. split; [reflexivity|].
    split; [cbn; lia|].
    intros [|i] b Hi; cbn in Hi.
    + injection Hi as <-. cbn [take]. rewrite app_nil_r. exact Hb0.
    + specialize (Hall i b Hi). cbn [take]. rewrite <- app_assoc in Hall. exact Hall.
Qed.

Lemma addPuddles_spec {A} (rounds : list A) map puddles o puddles' o' :
  forEachM rounds (fun _ puddles => addPuddle map puddles) puddles o = Ok (puddles', o') ->
  exists random,
    puddles' = puddles ++ random
    /\ length random = length rounds
    /\ forall i pud, random !! i = Some pud ->
                     puddlePlaced map (puddles ++ take i random) pud.
Proof.
  apply (forEachM_appends (fun _ puddles => addPuddle map puddles) (puddlePlaced map)).
  intros a l oa l1 ob H. exact (addPuddle_spec _ _ _ _ _ H).
Qed.

Lemma decoratePark_pond parkBlock map staticObjects o map' staticObjects' puddles' o' :
  decoratePark parkBlock (map, staticObjects, []) o = Ok (map', staticObjects', puddles', o') ->
  (length puddles' <= 1)%nat.
Proof.
  unfold decoratePark. destruct (negb _).
  - intros H. apply ret_Ok in H as [H _]. injection H as _ _ ->. cbn. lia.
  - cbv zeta. intros H. apply bind_Ok in H as (? & o1 & _ & H).
    apply bind_Ok in H as ([map1 st1] & o2 & _ & H).
    apply ret_Ok in H as [H _]. injection H as _ _ ->. cbn. lia.
Qed.

(** X26. The puddles of the round [initGame] generates: the pond of the park,
    if there is a park, and then ten puddles, each placed by the position
    search: unless it fell back to (64, 64), the box of the puddle is on
    the road and overlaps neither the pond nor any of the puddles placed
    before it. *)
Theorem initGame_puddles_apart fuel w o w' o' :
  initGame fuel w o = Ok (w', o') ->
  exists pond random,
    GameState.puddles (Round.state w') = pond ++ random
    /\ (length pond <= 1)%nat
    /\ length random = 10%nat
    /\ forall i pud, random !! i = Some pud ->
                     puddlePlaced (GameState.map (Round.state w')) (pond ++ take i random) pud.
Proof.
  unfold initGame. intros H.
  apply bind_Ok in H as (vRoads & ? & _ & H).
  apply bind_Ok in H as (hRoads & ? & _ & H).
  apply bind_Ok in H as (map1 & ? & _ & H).
  apply bind_Ok in H as (map2 & ? & _ & H).
  apply bind_Ok in H as ([map3 houses0] & ? & _ & H).
  apply bind_Ok in H as ([map4 statics1] & ? & _ & H).
  apply bind_Ok in H as ([map5 statics2] & ? & _ & H).
  apply bind_Ok in H as ([[map6 statics3] puddles1] & ? & Hpark & H).
  apply bind_Ok in H as (houses & ? & _ & H).
  apply bind_Ok in H as (startPos & ? & _ & H).
  apply bind_Ok in H as (puddles & ? & Hpuddles & H).
  apply bind_Ok in H as (cars & ? & _ & H).
  apply bind_Ok in H as (now & ? & _ & H).
  apply ret_Ok in H as [-> _]. cbn [Round.state GameState.puddles GameState.map].
  apply decoratePark_pond in Hpark.
  apply addPuddles_spec in Hpuddles as (random & -> & Hlen & Hall).
  exists puddles1, random. split; [reflexivity|]. split; [exact Hpark|].
  split; [rewrite Hlen; reflexivity|exact Hall].
Qed.

Lemma initGame_puddles_apart_witness :
  exists pond random,
    GameState.puddles (Round.state demoTown) = pond ++ random
    /\ (length pond <= 1)%nat
    /\ length random = 10%nat
    /\ forall i pud, random !! i = Some pud ->
                     puddlePlaced (GameState.map (Round.state demoTown))
                                  (pond ++ take i random) pud.
Proof.
  destruct demoTown_generated as (w1 & o1 & Hgen & Hstate).
  rewrite <- Hstate. exact (initGame_puddles_apart _ _ _ _ _ Hgen).
Defined.

(** ** Roads lie on the bands *)

Lemma tileAt_setTile map ty tx v map' y x :
  setTile map ty tx v = Ok map' ->
  tileAt map' y x = if (y =? ty) && (x =? tx) then Ok (Some v) else tileAt map y x.
Proof.
  unfold setTile, tileAt, at_.
  destruct (ty <? 0) eqn:Ety; [discriminate|]. apply Z.ltb_ge in Ety.
  destruct (map !! Z.to_nat ty) as [row|] eqn:Erow; [|discriminate].
  intros H. injection H as <-.
  destruct (y <? 0) eqn:Ey.
  { apply Z.ltb_lt in Ey. assert (E : (y =? ty) = false) by (apply Z.eqb_neq; lia).
    rewrite E. reflexivity. }
  apply Z.ltb_ge in Ey.
  destruct (y =? ty) eqn:E.
  - apply Z.eqb_eq in E. subst y. cbn [andb].
    rewrite list_lookup_insert_eq by (eapply lookup_lt_Some, Erow).
    rewrite Erow. destruct (x =? tx) eqn:Ex.
    + apply Z.eqb_eq in Ex. subst x. rewrite lookup_insert_eq. reflexivity.
    + apply Z.eqb_neq in Ex. rewrite lookup_insert_ne by congruence. reflexivity.
  - apply Z.eqb_neq in E. cbn [andb].
    rewrite list_lookup_insert_ne by lia. reflexivity.
Qed.

Lemma noNewRoad_refl map : noNewRoad map map.
Proof. intros y x H. exact H. Qed.

Lemma noNewRoad_trans m1 m2 m3 : noNewRoad m1 m2 -> noNewRoad m2 m3 -> noNewRoad m1 m3.
Proof. intros H12 H23 y x H. apply H12, H23, H. Qed.

Lemma setTile_noNewRoad map ty tx v map' :
  v <> ROAD -> setTile map ty tx v = Ok map' -> noNewRoad map map'.
Proof.
  intros Hv Hset y x H. rewrite (tileAt_setTile _ _ _ _ _ y x Hset) in H.
  destruct (_ && _); [|exact H]. injection H as H. contradiction.
Qed.

Lemma forEachR_preserves {A S} (P : S -> Prop) (body : A -> S -> Res S) (l : list A) :
  (forall a s s', a ∈ l -> body a s = Ok s' -> P s -> P s') ->
  forall s s', forEachR l body s = Ok s' -> P s -> P s'.
Proof.
  induction l as [|a l IH]; intros Hbody s s' H HP; cbn [forEachR] in H.
  - injection H as <-. exact HP.
  - apply bindR_Ok in H as (s1 & Hstep & H).
    apply (IH (fun a0 s0 s0' Hin => Hbody a0 s0 s0' (list_elem_of_further _ _ _ Hin)) s1 s' H).
    eapply Hbody; [left|exact Hstep|exact HP].
Qed.

Lemma forEachR_noNewRoad {A} (body : A -> TileMap -> Res TileMap) (l : list A) map map' :
  (forall a m m', body a m = Ok m' -> noNewRoad m m') ->
  forEachR l body map = Ok map' -> noNewRoad map map'.
Proof.
  intros Hbody H.
  apply (forEachR_preserves (noNewRoad map) body l) with (s := map) (s' := map');
    [|exact H|apply noNewRoad_refl].
  intros a s s' _ Hstep HP. eapply noNewRoad_trans; [exact HP|]. eapply Hbody, Hstep.
Qed.

Lemma grassMap_no_road y x : tileAt grassMap y x <> Ok (Some ROAD).
Proof.
  unfold tileAt, at_. destruct (y <? 0); [discriminate|].
  destruct (grassMap !! Z.to_nat y) as [row|] eqn:E; [|discriminate].
  unfold grassMap in E. apply lookup_replicate in E as [-> _].
  intros H. injection H as H. unfold grassRow in H.
  apply elem_of_list_to_map_2 in H. apply list_elem_of_fmap in H as (i & Hi & _).
  discriminate Hi.
Qed.

(** A ROAD tile after [rasterizeV] was a ROAD tile before, or its column
    is on a vertical band. *)
Lemma rasterizeV_roads vRoads map map' :
  rasterizeV vRoads map = Ok map' ->
  forall y x, tileAt map' y x = Ok (Some ROAD) ->
              tileAt map y x = Ok (Some ROAD) \/ onBand vRoads x.
Proof.
  unfold rasterizeV. intros H.
  refine (forEachR_preserves
            (fun m => forall y x, tileAt m y x = Ok (Some ROAD) ->
                                  tileAt map y x = Ok (Some ROAD) \/ onBand vRoads x)
            _ vRoads _ map map' H _); [|auto].
  intros v m m' Hv Hcol HP.
  refine (forEachR_preserves
            (fun m => forall y x, tileAt m y x = Ok (Some ROAD) ->
                                  tileAt map y x = Ok (Some ROAD) \/ onBand vRoads x)
            _ (range 0 MAP_HEIGHT) _ m m' Hcol HP).
  intros y0 ma mb _ Hstep HPa y x Hroad.
  apply bindR_Ok in Hstep as (m1 & H1 & H2).
  rewrite (tileAt_setTile _ _ _ _ _ y x H2) in Hroad.
  destruct ((y =? y0) && (x =? v + 1)) eqn:E2.
  { apply andb_true_iff in E2 as [_ E2]. apply Z.eqb_eq in E2.
    right. exists v. split; [exact Hv|right; exact E2]. }
  rewrite (tileAt_setTile _ _ _ _ _ y x H1) in Hroad.
  destruct ((y =? y0) && (x =? v)) eqn:E1; [|exact (HPa y x Hroad)].
  apply andb_true_iff in E1 as [_ E1]. apply Z.eqb_eq in E1.
  right. exists v. split; [exact Hv|left; exact E1].
Qed.

Lemma rasterizeH_roads hRoads map map' :
  rasterizeH hRoads map = Ok map' ->
  forall y x, tileAt map' y x = Ok (Some ROAD) ->
              tileAt map y x = Ok (Some ROAD) \/ onBand hRoads y.
Proof.
  unfold rasterizeH. intros H.
  refine (forEachR_preserves
            (fun m => forall y x, tileAt m y x = Ok (Some ROAD) ->
                                  tileAt map y x = Ok (Some ROAD) \/ onBand hRoads y)
            _ hRoads _ map map' H _); [|auto].
  intros h m m' Hh Hrow HP.
  refine (forEachR_preserves
            (fun m => forall y x, tileAt m y x = Ok (Some ROAD) ->
                                  tileAt map y x = Ok (Some ROAD) \/ onBand hRoads y)
            _ (range 0 MAP_WIDTH) _ m m' Hrow HP).
  intros x0 ma mb _ Hstep HPa y x Hroad.
  apply bindR_Ok in Hstep as (m1 & H1 & H2).
  rewrite (tileAt_setTile _ _ _ _ _ y x H2) in Hroad.
  destruct ((y =? h + 1) && (x =? x0)) eqn:E2.
  { apply andb_true_iff in E2 as [E2 _]. apply Z.eqb_eq in E2.
    right. exists h. split; [exact Hh|right; exact E2]. }
  rewrite (tileAt_setTile _ _ _ _ _ y x H1) in Hroad.
  destruct ((y =? h) && (x =? x0)) eqn:E1; [|exact (HPa y x Hroad)].
  apply andb_true_iff in E1 as [E1 _]. apply Z.eqb_eq in E1.
  right. exists h. split; [exact Hh|left; exact E1].
Qed.

(** Keeps the steps that compute a map on the way through a computation
    that returned. *)
Ltac unravel_maps H :=
  repeat first
    [ discriminate H
    | match type of H with
      | ret _ _ = Ok _ => fail 1
      | bind (liftR _) _ _ = Ok _ =>
          let H' := fresh "Hlift" in
          apply bind_Ok in H as (? & ? & H' & H);
          apply liftR_Ok in H' as [H' ?]; subst
      | bind _ _ _ = Ok _ =>
          let H' := fresh "Hrun" in
          apply bind_Ok in H as (? & ? & H' & H)
      | (if ?b then _ else _) _ = Ok _ => destruct b
      | (match ?x with _ => _ end) _ = Ok _ => destruct x
      end ].

Ltac road_body :=
  let a := fresh "a" in let m := fresh "m" in let m' := fresh "m'" in let Hb := fresh "Hb" in
  intros a m m' Hb;
  try (destruct a);
  repeat match type of Hb with
         | (if ?b then _ else _) = Ok _ => destruct b
         end;
  first [ injection Hb as <-; apply noNewRoad_refl
        | eapply setTile_noNewRoad; [|exact Hb]; discriminate ].

Ltac road_steps :=
  repeat match goal with
         | H : forEachR _ _ ?m = Ok ?m' |- _ =>
             apply forEachR_noNewRoad in H; [|road_body]
         | H : setTile ?m _ _ _ = Ok ?m' |- _ =>
             apply setTile_noNewRoad in H; [|discriminate]
         | H : (if ?b then _ else _) = Ok _ |- _ => destruct b
         | H : @Ok TileMap _ = Ok _ |- _ => injection H as <-
         end.

Lemma placeHouse_roads parkBlock y x map houses o map' houses' o' :
  placeHouse parkBlock y x (map, houses) o = Ok (map', houses', o') -> noNewRoad map map'.
Proof.
  unfold placeHouse. cbv zeta. intros H. unravel_maps H; inv_ok; road_steps;
    eauto using noNewRoad_refl, noNewRoad_trans.
Qed.

Lemma forEachM_noNewRoad {A S} (proj : S -> TileMap) (body : A -> S -> M S) (l : list A) :
  (forall a s o s' o', body a s o = Ok (s', o') -> noNewRoad (proj s) (proj s')) ->
  forall s o s' o', forEachM l body s o = Ok (s', o') -> noNewRoad (proj s) (proj s').
Proof.
  intros Hbody. induction l as [|a l IH]; intros s o s' o' H; cbn [forEachM] in H.
  - apply ret_Ok in H as [-> _]. apply noNewRoad_refl.
  - apply bind_Ok in H as (s1 & o1 & Hstep & H).
    eapply noNewRoad_trans; [exact (Hbody _ _ _ _ _ Hstep)|exact (IH _ _ _ _ H)].
Qed.

Lemma placeHouses_roads parkBlock map o map' houses' o' :
  placeHouses parkBlock map o = Ok (map', houses', o') -> noNewRoad map map'.
Proof.
  unfold placeHouses. intros H.
  refine (forEachM_noNewRoad fst _ _ _ (map, []) o (map', houses') o' H).
  intros y s1 o1 s2 o2 Hrow.
  refine (forEachM_noNewRoad fst _ _ _ s1 o1 s2 o2 Hrow).
  intros x [m h] oa [m2 h2] ob Hstep. exact (placeHouse_roads _ _ _ _ _ _ _ _ _ Hstep).
Qed.

Lemma fillGardens_roads parkBlock tiles map map' :
  fillGardens parkBlock tiles map = Ok map' -> noNewRoad map map'.
Proof.
  unfold fillGardens. apply forEachR_noNewRoad.
  intros [y x] m m' H. destruct (inBlock parkBlock x y).
  { injection H as <-. apply noNewRoad_refl. }
  apply bindR_Ok in H as (g & _ & H). destruct g.
  - eapply setTile_noNewRoad; [|exact H]. discriminate.
  - injection H as <-. apply noNewRoad_refl.
Qed.

Lemma decorateGarden_roads cityMaxX cityMaxY yx st o st' o' :
  decorateGarden cityMaxX cityMaxY yx st o = Ok (st', o') -> noNewRoad (fst st) (fst st').
Proof.
  unfold decorateGarden. destruct yx as [y x], st as [map objs]. cbv zeta. intros H.
  unravel_maps H; inv_ok; cbn [fst]; road_steps;
    eauto using noNewRoad_refl, noNewRoad_trans.
Qed.

Lemma footpathAt_roads yx st o st' o' :
  footpathAt yx st o = Ok (st', o') -> noNewRoad (fst st) (fst st').
Proof.
  unfold footpathAt. destruct yx as [y x], st as [map objs]. intros H.
  unravel_maps H; inv_ok; cbn [fst]; road_steps;
    eauto using noNewRoad_refl, noNewRoad_trans.
Qed.

Lemma decoratePark_roads parkBlock st o st' o' :
  decoratePark parkBlock st o = Ok (st', o') -> noNewRoad (fst (fst st)) (fst (fst st')).
Proof.
  unfold decoratePark. destruct st as [[map objs] puddles]. cbv zeta.
  destruct (negb _).
  { intros H. apply ret_Ok in H as [<- _]. apply noNewRoad_refl. }
  intros H. apply bind_Ok in H as (u & o1 & _ & H).
  apply bind_Ok in H as ([m2 objs2] & o2 & Hloop & H).
  apply ret_Ok in H as [-> _]. cbn [fst].
  refine (forEachM_noNewRoad fst _ _ _ (map, objs) o1 (m2, objs2) o2 Hloop).
  clear. intros [y x] [m objs] o [m' objs'] o' H.
  unravel_maps H; inv_ok; cbn [fst]; road_steps;
    eauto using noNewRoad_refl, noNewRoad_trans.
Qed.

Lemma findIndexFrom_found {A} (f : A -> bool) l k a :
  0 <= k -> a ∈ l -> f a = true -> findIndexFrom f l k <> -1.
Proof.
  revert k. induction l as [|b l IH]; intros k Hk Hin Hf; [inversion Hin|].
  cbn [findIndexFrom]. destruct (f b) eqn:Eb; [lia|].
  apply elem_of_cons in Hin as [-> | Hin]; [congruence|].
  apply IH; [lia|exact Hin|exact Hf].
Qed.

Lemma onBand_findIndex roads t :
  onBand roads t -> findIndex (fun v => (t =? v) || (t =? v + 1)) roads <> -1.
Proof.
  intros (v & Hin & Hband). unfold findIndex.
  apply (findIndexFrom_found _ _ _ v); [lia|exact Hin|].
  apply orb_true_iff. destruct Hband as [-> | ->]; [left|right]; apply Z.eqb_refl.
Qed.

Lemma onBand_flow vRoads hRoads tx ty :
  onBand vRoads tx \/ onBand hRoads ty -> getTrafficFlow tx ty vRoads hRoads <> [].
Proof.
  unfold getTrafficFlow. cbv zeta. intros [H | H]; apply onBand_findIndex in H.
  - apply Z.eqb_neq in H. rewrite H. clear H.
    destruct (_ =? -1); repeat destruct (_ =? 0); discriminate.
  - apply Z.eqb_neq in H. rewrite H. clear H.
    destruct (_ =? 0); intros E; apply (f_equal length) in E;
      rewrite length_app in E; cbn [length] in E; lia.
Qed.

Lemma initGame_roads fuel w o w' o' :
  initGame fuel w o = Ok (w', o') -> roadsOnBands (Round.state w').
Proof.
  unfold initGame. intros H.
  apply bind_Ok in H as (vRoads & ? & _ & H).
  apply bind_Ok in H as (hRoads & ? & _ & H).
  apply bind_Ok in H as (map1 & ? & HV & H). apply liftR_Ok in HV as [HV _].
  apply bind_Ok in H as (map2 & ? & HH & H). apply liftR_Ok in HH as [HH _].
  apply bind_Ok in H as ([map3 houses0] & ? & Hhouses & H).
  apply placeHouses_roads in Hhouses.
  apply bind_Ok in H as ([map4 statics1] & ? & Hgardens & H).
  assert (H34 : noNewRoad map3 map4).
  { destruct (head vRoads), (last vRoads), (head hRoads), (last hRoads);
      try (apply ret_Ok in Hgardens as [Hgardens _]; injection Hgardens as <- _;
           apply noNewRoad_refl).
    apply bind_Ok in Hgardens as (m & ? & Hfill & Hdec).
    apply liftR_Ok in Hfill as [Hfill _]. apply fillGardens_roads in Hfill.
    eapply noNewRoad_trans; [exact Hfill|].
    refine (forEachM_noNewRoad fst _ _ _ (m, []) _ (map4, statics1) _ Hdec).
    intros a s oa s' ob Hstep. exact (decorateGarden_roads _ _ _ _ _ _ _ Hstep). }
  clear Hgardens.
  apply bind_Ok in H as ([map5 statics2] & ? & Hpaths & H).
  assert (H45 : noNewRoad map4 map5).
  { refine (forEachM_noNewRoad fst _ _ _ (map4, statics1) _ (map5, statics2) _ Hpaths).
    intros a s oa s' ob Hstep. exact (footpathAt_roads _ _ _ _ _ Hstep). }
  clear Hpaths.
  apply bind_Ok in H as ([[map6 statics3] puddles1] & ? & Hpark & H).
  apply decoratePark_roads in Hpark. cbn [fst] in Hpark.
  apply bind_Ok in H as (houses & ? & _ & H).
  apply bind_Ok in H as (startPos & ? & _ & H).
  apply bind_Ok in H as (puddles & ? & _ & H).
  apply bind_Ok in H as (cars & ? & _ & H).
  apply bind_Ok in H as (now & ? & _ & H).
  inv_ok. intros ty tx Hroad. cbn in Hroad |- *.
  apply Hpark, H45, H34, Hhouses in Hroad.
  destruct (rasterizeH_roads _ _ _ HH ty tx Hroad) as [Hroad1 | Hband]; [|right; exact Hband].
  destruct (rasterizeV_roads _ _ _ HV ty tx Hroad1) as [Hroad0 | Hband]; [|left; exact Hband].
  destruct (grassMap_no_road _ _ Hroad0).
Qed.

(** X27. In every reachable round each ROAD tile of the map is on a road band,
    a vertical one by its column or a horizontal one by its row, so the
    traffic rule [getTrafficFlow] gives at least one direction there. *)
Theorem road_tiles_have_flow (w : Round) (ty tx : Z) :
  reachable w ->
  tileAt (GameState.map (Round.state w)) ty tx = Ok (Some ROAD) ->
  (onBand (GameState.vRoads (Round.state w)) tx \/ onBand (GameState.hRoads (Round.state w)) ty)
  /\ getTrafficFlow tx ty (GameState.vRoads (Round.state w)) (GameState.hRoads (Round.state w))
     <> [].
Proof.
  intros Hreach Hroad.
  assert (Hbands : roadsOnBands (Round.state w)).
  { revert w Hreach Hroad. intros w Hreach _. revert w Hreach.
    apply (reachable_state_invariant roadsOnBands).
    - intros y x H. unfold tileAt, at_ in H. cbn in H.
      destruct (y <? 0); discriminate H.
    - intros fuel w o w' o' Hgen _. exact (initGame_roads _ _ _ _ _ Hgen).
    - intros fuel deltaTime input w o w' o' Hupd _ _ _ HP y x H.
      destruct (update_sameTown _ _ _ _ _ _ _ Hupd) as (Hm & Hv & Hh & _).
      rewrite Hv, Hh. rewrite Hm in H. exact (HP y x H). }
  split; [exact (Hbands ty tx Hroad)|]. apply onBand_flow, Hbands, Hroad.
Qed.

Lemma road_tiles_have_flow_witness :
  tileAt (GameState.map (Round.state demoTown)) 0 2 = Ok (Some ROAD)
  /\ getTrafficFlow 2 0 (GameState.vRoads (Round.state demoTown))
                        (GameState.hRoads (Round.state demoTown)) <> [].
Proof.
  assert (Hroad : tileAt (GameState.map (Round.state demoTown)) 0 2 = Ok (Some ROAD))
    by (vm_compute; reflexivity).
  split; [exact Hroad|].
  exact (proj2 (road_tiles_have_flow demoTown 0 2 demoTown_reachable Hroad)).
Defined.

(** ** The bands stay roads *)

Lemma keepsRoads_refl map : keepsRoads map map.
Proof. intros y x H. exact H. Qed.

Lemma keepsRoads_trans m1 m2 m3 : keepsRoads m1 m2 -> keepsRoads m2 m3 -> keepsRoads m1 m3.
Proof. intros H12 H23 y x H. apply H23, H12, H. Qed.

Lemma setTile_keepsRoads map0 m ty tx v m' :
  tileAt map0 ty tx <> Ok (Some ROAD) -> keepsRoads map0 m ->
  setTile m ty tx v = Ok m' -> keepsRoads map0 m'.
Proof.
  intros Hfree Hkeep Hset y x H. rewrite (tileAt_setTile _ _ _ _ _ y x Hset).
  destruct ((y =? ty) && (x =? tx)) eqn:E; [|exact (Hkeep y x H)].
  apply andb_true_iff in E as [Ey Ex]. apply Z.eqb_eq in Ey, Ex. subst. contradiction.
Qed.

Lemma setTile_road m ty tx m' :
  setTile m ty tx ROAD = Ok m' -> keepsRoads m m' /\ tileAt m' ty tx = Ok (Some ROAD).
Proof.
  intros Hset. split.
  - intros y x H. rewrite (tileAt_setTile _ _ _ _ _ y x Hset).
    destruct (_ && _); [reflexivity|exact H].
  - rewrite (tileAt_setTile _ _ _ _ _ ty tx Hset), !Z.eqb_refl. reflexivity.
Qed.

Lemma forEachR_roads {A} (T : A -> Z -> Z -> Prop) (body : A -> TileMap -> Res TileMap)
    (l : list A) :
  (forall a m m', body a m = Ok m' ->
     keepsRoads m m' /\ forall y x, T a y x -> tileAt m' y x = Ok (Some ROAD)) ->
  forall m m', forEachR l body m = Ok m' ->
    keepsRoads m m' /\ forall a y x, a ∈ l -> T a y x -> tileAt m' y x = Ok (Some ROAD).
Proof.
  intros Hbody. induction l as [|a l IH]; intros m m' H; cbn [forEachR] in H.
  - injection H as <-. split; [apply keepsRoads_refl|]. intros a y x Hin. inversion Hin.
  - apply bindR_Ok in H as (m1 & Hstep & H).
    destruct (Hbody _ _ _ Hstep) as [Hkeep1 Hroad1].
    destruct (IH _ _ H) as [Hkeep Hroad].
    split; [eapply keepsRoads_trans; eassumption|].
    intros b y x Hin HT. apply elem_of_cons in Hin as [-> | Hin].
    + apply Hkeep, Hroad1, HT.
    + exact (Hroad b y x Hin HT).
Qed.

Lemma range_elem lo hi i : lo <= i < hi -> i ∈ range lo hi.
Proof. unfold range. rewrite elem_of_seqZ. lia. Qed.

Lemma rasterizeV_bands vRoads map map' :
  rasterizeV vRoads map = Ok map' ->
  keepsRoads map map'
  /\ forall y x, 0 <= y < MAP_HEIGHT -> onBand vRoads x -> tileAt map' y x = Ok (Some ROAD).
Proof.
  unfold rasterizeV. intros H.
  apply (forEachR_roads (fun v y x => 0 <= y < MAP_HEIGHT /\ inBand x v)) in H.
  - destruct H as [Hkeep Hroad]. split; [exact Hkeep|].
    intros y x Hy (v & Hv & Hband). exact (Hroad v y x Hv (conj Hy Hband)).
  - clear. intros v m m' H.
    apply (forEachR_roads (fun y0 y x => y = y0 /\ inBand x v)) in H.
    + destruct H as [Hkeep Hroad]. split; [exact Hkeep|].
      intros y x [Hy Hband]. apply (Hroad y y x); [apply range_elem; lia|auto].
    + clear. intros y0 m m' H. apply bindR_Ok in H as (m1 & H1 & H2).
      apply setTile_road in H1 as [Hk1 Hr1]. apply setTile_road in H2 as [Hk2 Hr2].
      split; [eapply keepsRoads_trans; eassumption|].
      intros y x [-> [-> | ->]]; [apply Hk2, Hr1|exact Hr2].
Qed.

Lemma rasterizeH_bands hRoads map map' :
  rasterizeH hRoads map = Ok map' ->
  keepsRoads map map'
  /\ forall y x, 0 <= x < MAP_WIDTH -> onBand hRoads y -> tileAt map' y x = Ok (Some ROAD).
Proof.
  unfold rasterizeH. intros H.
  apply (forEachR_roads (fun h y x => 0 <= x < MAP_WIDTH /\ inBand y h)) in H.
  - destruct H as [Hkeep Hroad]. split; [exact Hkeep|].
    intros y x Hx (h & Hh & Hband). exact (Hroad h y x Hh (conj Hx Hband)).
  - clear. intros h m m' H.
    apply (forEachR_roads (fun x0 y x => x = x0 /\ inBand y h)) in H.
    + destruct H as [Hkeep Hroad]. split; [exact Hkeep|].
      intros y x [Hx Hband]. apply (Hroad x y x); [apply range_elem; lia|auto].
    + clear. intros x0 m m' H. apply bindR_Ok in H as (m1 & H1 & H2).
      apply setTile_road in H1 as [Hk1 Hr1]. apply setTile_road in H2 as [Hk2 Hr2].
      split; [eapply keepsRoads_trans; eassumption|].
      intros y x [-> [-> | ->]]; [apply Hk2, Hr1|exact Hr2].
Qed.

Lemma everyR_true {A} (f : A -> Res bool) l :
  everyR f l = Ok true -> forall a, a ∈ l -> f a = Ok true.
Proof.
  induction l as [|b l IH]; intros H a Hin; [inversion Hin|]. cbn [everyR] in H.
  apply bindR_Ok in H as (v & Hv & H). apply bindR_Ok in H as (rest & Hrest & H).
  injection H as H. apply andb_true_iff in H as [-> ->].
  apply elem_of_cons in Hin as [-> | Hin]; [exact Hv|exact (IH Hrest a Hin)].
Qed.

Lemma elem_of_offsets h w dy dx : (dy, dx) ∈ offsets h w <-> 0 <= dy < h /\ 0 <= dx < w.
Proof.
  unfold offsets. rewrite list_elem_of_In, in_flat_map. split.
  - intros (y & Hy & Hin). apply list_elem_of_In, elem_of_range in Hy.
    apply list_elem_of_In, list_elem_of_fmap in Hin as (x & E & Hx).
    apply elem_of_range in Hx. injection E as -> ->. lia.
  - intros [Hy Hx]. exists dy. split; [apply list_elem_of_In, range_elem; lia|].
    apply list_elem_of_In, list_elem_of_fmap. exists dx.
    split; [reflexivity|apply range_elem; lia].
Qed.

(** Keeps every step on the way through a computation that returned, with
    the branch each test took. *)
Ltac unravel_tiles H :=
  repeat first
    [ discriminate H
    | match type of H with
      | ret _ _ = Ok _ => fail 1
      | bind (liftR _) _ _ = Ok _ =>
          let H' := fresh "Hlift" in
          apply bind_Ok in H as (? & ? & H' & H);
          apply liftR_Ok in H' as [H' ?]; subst
      | bind _ _ _ = Ok _ =>
          let H' := fresh "Hrun" in
          apply bind_Ok in H as (? & ? & H' & H)
      | (if negb ?b then _ else _) _ = Ok _ =>
          first [ is_var b; destruct b
                | let E := fresh "Eif" in destruct b eqn:E ];
          cbn [negb] in H
      | (if ?b then _ else _) _ = Ok _ =>
          first [ is_var b; destruct b
                | let E := fresh "Eif" in destruct b eqn:E ]
      | (match ?x with _ => _ end) _ = Ok _ => destruct x
      end ].

Ltac z_tests :=
  repeat match goal with
         | H : context [?a <? ?b] |- _ => destruct (Z.ltb_spec a b)
         | |- context [?a <? ?b] => destruct (Z.ltb_spec a b)
         end.

Lemma lot_free map y x :
  (if (y + hTiles >=? MAP_HEIGHT) || (x + wTiles >=? MAP_WIDTH) then Ok false
   else everyR (fun '(dy, dx) => tileIs map (y + dy) (x + dx) GRASS)
               (offsets hTiles wTiles)) = Ok true ->
  forall ty tx, 0 <= ty - y < hTiles -> 0 <= tx - x < wTiles ->
                tileAt map ty tx <> Ok (Some ROAD).
Proof.
  intros H ty tx Hy Hx. destruct (_ || _); [discriminate H|].
  pose proof (everyR_true _ _ H (ty - y, tx - x)) as Hin. cbv beta iota in Hin.
  replace (y + (ty - y)) with ty in Hin by lia.
  replace (x + (tx - x)) with tx in Hin by lia.
  rewrite tileIs_true in Hin. rewrite Hin; [discriminate|].
  apply elem_of_offsets. lia.
Qed.

Lemma placeHouse_keeps parkBlock y x map houses o map' houses' o' :
  placeHouse parkBlock y x (map, houses) o = Ok (map', houses', o') -> keepsRoads map map'.
Proof.
  unfold placeHouse. cbv zeta. intros H. unravel_tiles H; inv_ok;
    try apply keepsRoads_refl.
  all: match goal with
       | Hc : (if _ then Ok false else everyR _ _) = Ok true |- _ =>
           pose proof (lot_free _ _ _ Hc) as Hfree; clear Hc
       end.
  all: match goal with
       | Hg : forEachR (offsets hTiles wTiles) _ ?m0 = Ok ?m |- _ =>
           assert (Hgarden : keepsRoads map m);
           [ refine (forEachR_preserves (keepsRoads map) _ _ _ map m Hg
                       (keepsRoads_refl _));
             intros [dy dx] m1 m2 Hin Hb HP; apply elem_of_offsets in Hin;
             refine (setTile_keepsRoads _ _ _ _ _ _ _ HP Hb); apply Hfree; lia
           | clear Hg ]
       end.
  2: exact Hgarden.
  match goal with
  | Ht : andR (negb (bool_decide (?d = Up))) _ = Ok ?b |- _ =>
      assert (Htop : d = Up -> b = false)
        by (intros ->; cbn in Ht; injection Ht as <-; reflexivity);
      clear Ht
  end.
  match goal with
  | Hh : forEachR (offsets _ _) _ ?m = Ok ?m2 |- _ =>
      assert (Hhouse : keepsRoads map m2); [|clear Hh]
  end.
  { match goal with
    | Hh : forEachR (offsets _ _) _ ?m = Ok ?m2 |- _ =>
        refine (forEachR_preserves (keepsRoads map) _ _ _ m m2 Hh Hgarden)
    end.
    intros [dy dx] m1 m2 Hin Hb HP. apply elem_of_offsets in Hin.
    destruct (isHousePart _ _ _ _ _ _); [|injection Hb as <-; exact HP].
    refine (setTile_keepsRoads _ _ _ _ _ _ _ HP Hb). apply Hfree.
    - clear -Hin Htop. unfold hTiles in *.
      case_bool_decide as Hd; [specialize (Htop Hd); subst|clear Htop];
        repeat match goal with b : bool |- _ => destruct b end; lia.
    - clear -Hin. unfold wTiles, hTiles in *.
      repeat match goal with b : bool |- _ => destruct b end;
        z_tests; cbn [orb] in Hin; lia. }
  match goal with
  | Hd : forEachR (range 0 hTiles) _ ?m = Ok ?m2 |- _ =>
      refine (forEachR_preserves (keepsRoads map) _ _ _ m m2 Hd Hhouse)
  end.
  intros dy m1 m2 Hin Hb HP. apply elem_of_range in Hin.
  destruct (_ <? MAP_WIDTH); [|injection Hb as <-; exact HP].
  refine (setTile_keepsRoads _ _ _ _ _ _ _ HP Hb). apply Hfree; [lia|].
  match goal with E : (_ >? 0) = true |- _ => rewrite Z.gtb_ltb in E; revert E end.
  clear. unfold wTiles, hTiles.
  repeat match goal with b : bool |- _ => destruct b end;
    z_tests; cbn [orb] in *; intros E; try discriminate E; lia.
Qed.

Lemma forEachM_preserves_in {A S} (P : S -> Prop) (body : A -> S -> M S) (l : list A) :
  (forall a s o s' o', a ∈ l -> body a s o = Ok (s', o') -> P s -> P s') ->
  forall s o s' o', forEachM l body s o = Ok (s', o') -> P s -> P s'.
Proof.
  induction l as [|a l IH]; intros Hbody s o s' o' H HP; cbn [forEachM] in H.
  - apply ret_Ok in H as [<- _]. exact HP.
  - apply bind_Ok in H as (s1 & o1 & Hstep & H).
    refine (IH (fun a0 s0 oa s0' ob Hin => Hbody a0 s0 oa s0' ob
                  (list_elem_of_further _ _ _ Hin)) s1 o1 s' o' H _).
    eapply Hbody; [left|exact Hstep|exact HP].
Qed.

Lemma placeHouses_keeps parkBlock map o map' houses' o' :
  placeHouses parkBlock map o = Ok (map', houses', o') -> keepsRoads map map'.
Proof.
  unfold placeHouses. intros H.
  refine (forEachM_preserves_in (fun st => keepsRoads map (fst st)) _ _ _
            (map, []) o (map', houses') o' H (keepsRoads_refl _)).
  intros y s1 o1 s2 o2 _ Hrow HP1.
  refine (forEachM_preserves_in (fun st => keepsRoads map (fst st)) _ _ _ s1 o1 s2 o2 Hrow HP1).
  intros x [m h] oa [m2 h2] ob _ Hstep HP. cbn [fst] in HP |- *.
  eapply keepsRoads_trans; [exact HP|]. exact (placeHouse_keeps _ _ _ _ _ _ _ _ _ Hstep).
Qed.

Lemma tile_not_road map y x k :
  k <> ROAD -> tileIs map y x k = Ok true -> tileAt map y x <> Ok (Some ROAD).
Proof. intros Hk H. apply tileIs_true in H. rewrite H. congruence. Qed.

Lemma fillGardens_keeps parkBlock tiles map map' :
  fillGardens parkBlock tiles map = Ok map' -> keepsRoads map map'.
Proof.
  unfold fillGardens. intros H.
  refine (forEachR_preserves (keepsRoads map) _ _ _ map map' H (keepsRoads_refl _)).
  intros [y x] m m' _ Hb HP. destruct (inBlock parkBlock x y).
  { injection Hb as <-. exact HP. }
  apply bindR_Ok in Hb as (g & Hg & Hb). destruct g; [|injection Hb as <-; exact HP].
  eapply keepsRoads_trans; [exact HP|].
  refine (setTile_keepsRoads _ _ _ _ _ _ _ (keepsRoads_refl _) Hb).
  (eapply tile_not_road; [|exact Hg]; discriminate).
Qed.

Lemma pool_free map y x cityMaxX cityMaxY pw ph :
  (if (x + pw >? cityMaxX) || (y + ph >? cityMaxY) then Ok false
   else everyR (fun '(dy, dx) =>
                  (let? g := tileIs map (y + dy) (x + dx) GARDEN in
                   let? adj := hasAdjacentRoad map (x + dx) (y + dy) in
                   Ok (g && negb adj))%R)
               (offsets ph pw)) = Ok true ->
  forall dy dx, (dy, dx) ∈ offsets ph pw -> tileAt map (y + dy) (x + dx) <> Ok (Some ROAD).
Proof.
  intros H dy dx Hin. destruct (_ || _); [discriminate H|].
  pose proof (everyR_true _ _ H (dy, dx) Hin) as Hpool. cbv beta iota in Hpool.
  apply bindR_Ok in Hpool as (g & Hg & Hpool).
  apply bindR_Ok in Hpool as (adj & _ & Hpool). injection Hpool as Hpool.
  apply andb_true_iff in Hpool as [-> _].
  (eapply tile_not_road; [|exact Hg]; discriminate).
Qed.

Lemma decorateGarden_keeps cityMaxX cityMaxY yx st o st' o' :
  decorateGarden cityMaxX cityMaxY yx st o = Ok (st', o') -> keepsRoads (fst st) (fst st').
Proof.
  unfold decorateGarden. destruct yx as [y x], st as [map objs]. cbv zeta. intros H.
  unravel_tiles H; inv_ok; cbn [fst]; try apply keepsRoads_refl.
  - match goal with
    | Hc : (if _ then Ok false else everyR _ _) = Ok true |- _ =>
        pose proof (pool_free _ _ _ _ _ _ _ Hc) as Hfree; clear Hc
    end.
    match goal with
    | Hw : forEachR _ _ ?m0 = Ok ?m |- _ =>
        refine (forEachR_preserves (keepsRoads m0) _ _ _ m0 m Hw (keepsRoads_refl _))
    end.
    intros [dy dx] m1 m2 Hin Hb HP.
    refine (setTile_keepsRoads _ _ _ _ _ _ _ HP Hb). exact (Hfree dy dx Hin).
  - match goal with
    | Hs : setTile _ _ _ _ = Ok _ |- _ =>
        refine (setTile_keepsRoads _ _ _ _ _ _ _ (keepsRoads_refl _) Hs)
    end.
    match goal with
    | Hg : tileIs _ _ _ GARDEN = Ok true |- _ =>
        (eapply tile_not_road; [|exact Hg]; discriminate)
    end.
Qed.

Lemma footpathAt_keeps yx st o st' o' :
  footpathAt yx st o = Ok (st', o') -> keepsRoads (fst st) (fst st').
Proof.
  unfold footpathAt. destruct yx as [y x], st as [map objs]. intros H.
  unravel_tiles H; inv_ok; cbn [fst]; try apply keepsRoads_refl.
  all: match goal with
       | Hs : setTile _ _ _ _ = Ok _ |- _ =>
           refine (setTile_keepsRoads _ _ _ _ _ _ _ (keepsRoads_refl _) Hs)
       end.
  all: match goal with
       | Hgarden : tileIs _ _ _ GARDEN = Ok ?g,
         Hgrass : (if ?g then Ok true else tileIs _ _ _ GRASS) = Ok true |- _ =>
           destruct g; eapply tile_not_road; [|exact Hgarden| |exact Hgrass]; discriminate
       end.
Qed.

Lemma decoratePark_keeps parkBlock st o st' o' :
  (forall y x, inBlock parkBlock x y = true ->
               tileAt (fst (fst st)) y x <> Ok (Some ROAD)) ->
  decoratePark parkBlock st o = Ok (st', o') -> keepsRoads (fst (fst st)) (fst (fst st')).
Proof.
  unfold decoratePark. destruct st as [[map objs] puddles]. cbv zeta. cbn [fst].
  intros Hfree. destruct (negb _).
  { intros H. apply ret_Ok in H as [-> _]. apply keepsRoads_refl. }
  intros H. apply bind_Ok in H as (u & o1 & _ & H).
  apply bind_Ok in H as ([m2 objs2] & o2 & Hloop & H).
  apply ret_Ok in H as [-> _]. cbn [fst].
  refine (forEachM_preserves_in (fun s => keepsRoads map (fst s)) _ _ _
            (map, objs) o1 (m2, objs2) o2 Hloop (keepsRoads_refl _)).
  intros [y x] [m objs1] oa [m' objs'] ob Hin H HP. cbn [fst] in HP |- *.
  assert (Hblock : inBlock parkBlock x y = true).
  { apply list_elem_of_In, in_flat_map in Hin as (y0 & Hy & Hin).
    apply list_elem_of_In, elem_of_range in Hy.
    apply list_elem_of_In, list_elem_of_fmap in Hin as (x0 & E & Hx).
    apply elem_of_range in Hx. injection E as -> ->. unfold inBlock.
    rewrite !andb_true_iff, !Z.geb_le, !Z.ltb_lt. lia. }
  specialize (Hfree y x Hblock). clear Hin Hloop.
  apply bind_Ok in H as (fp & ? & _ & H).
  apply bind_Ok in H as (m1 & ? & Hset & H). apply liftR_Ok in Hset as [Hset _].
  assert (Hm1 : keepsRoads map m1).
  { destruct fp; [injection Hset as <-; exact HP|].
    exact (setTile_keepsRoads _ _ _ _ _ _ Hfree HP Hset). }
  unravel_tiles H; inv_ok; exact Hm1.
Qed.

Lemma consecutive_sorted l v v' :
  StronglySorted Z.le l -> (v, v') ∈ consecutive l ->
  v ∈ l /\ forall u, u ∈ l -> u <= v \/ v' <= u.
Proof.
  unfold consecutive. induction 1 as [|a l Hsorted IH Ha]; intros Hin; [inversion Hin|].
  cbn [tail] in Hin. destruct l as [|b l]; [inversion Hin|]. cbn [zip zip_with] in Hin.
  apply elem_of_cons in Hin as [E | Hin].
  - injection E as -> ->. split; [left|]. intros u Hu.
    apply elem_of_cons in Hu as [-> | Hu]; [left; lia|]. right.
    apply elem_of_cons in Hu as [-> | Hu]; [lia|].
    inversion Hsorted as [|? ? _ Hb]; subst. rewrite Forall_forall in Hb. exact (Hb u Hu).
  - destruct (IH Hin) as [Hv Hu]. split; [right; exact Hv|]. intros u Hin'.
    apply elem_of_cons in Hin' as [-> | Hin']; [|exact (Hu u Hin')].
    left. rewrite Forall_forall in Ha. exact (Ha v Hv).
Qed.

Lemma parkCandidates_elem vRoads hRoads b :
  b ∈ parkCandidates vRoads hRoads ->
  exists v v' h h',
    (v, v') ∈ consecutive vRoads /\ (h, h') ∈ consecutive hRoads
    /\ b = Block.mk (v + 2) (h + 2) (v' - v - 2) (h' - h - 2).
Proof.
  unfold parkCandidates. intros H.
  apply list_elem_of_In, in_flat_map in H as ([v v'] & Hv & H).
  apply in_flat_map in H as ([h h'] & Hh & H).
  apply list_elem_of_In in Hv, Hh. exists v, v', h, h'.
  destruct (_ && _); [|destruct H]. destruct H as [<- | []]. auto.
Qed.

Lemma firstOfLargestRank_elem best rest : firstOfLargestRank best rest ∈ best :: rest.
Proof.
  revert best. induction rest as [|b rest IH]; intros best; cbn [firstOfLargestRank]; [left|].
  destruct (_ <? _)%js.
  - right. apply IH.
  - specialize (IH best). apply elem_of_cons in IH as [-> | IH]; [left|right; right; exact IH].
Qed.

Lemma off_band roads v v' t :
  (forall u, u ∈ roads -> u <= v \/ v' <= u) -> v + 2 <= t < v' -> ~ onBand roads t.
Proof.
  intros Hroads Ht (u & Hu & Hband). destruct (Hroads u Hu), Hband; lia.
Qed.

Lemma chooseParkBlock_off_bands vRoads hRoads x y :
  StronglySorted Z.le vRoads -> StronglySorted Z.le hRoads ->
  inBlock (chooseParkBlock vRoads hRoads) x y = true ->
  ~ onBand vRoads x /\ ~ onBand hRoads y.
Proof.
  intros Hv Hh. unfold chooseParkBlock.
  destruct (parkCandidates vRoads hRoads) as [|b rest] eqn:E.
  { unfold inBlock. cbn. rewrite !andb_true_iff, !Z.geb_le, !Z.ltb_lt. lia. }
  pose proof (firstOfLargestRank_elem b rest) as Hin. rewrite <- E in Hin.
  apply parkCandidates_elem in Hin as (v & v' & h & h' & Hvv & Hhh & ->).
  unfold inBlock. cbn [Block.x Block.y Block.w Block.h].
  rewrite !andb_true_iff, !Z.geb_le, !Z.ltb_lt. intros Hbox.
  destruct (consecutive_sorted _ _ _ Hv Hvv) as [_ Hvs].
  destruct (consecutive_sorted _ _ _ Hh Hhh) as [_ Hhs].
  split; eapply off_band; eauto; lia.
Qed.

Lemma addLines_sorted fuel arr max minGap o roads o' :
  addLines fuel arr max minGap o = Ok (roads, o') -> StronglySorted Z.le roads.
Proof.
  unfold addLines. destruct arr as [|last arr]; [discriminate|]. intros H.
  apply bind_Ok in H as (arr' & o1 & _ & H). apply ret_Ok in H as [-> _].
  apply StronglySorted_merge_sort; apply _.
Qed.

(** X28. The ROAD tiles of the map [initGame] generates are the tiles of the
    road bands: a tile of the map is ROAD exactly when its column is on a
    vertical band or its row on a horizontal one.  Houses, gardens, pools,
    footpaths and the park never take a tile of a band. *)
Theorem initGame_roads_are_bands fuel w o w' o' (ty tx : Z) :
  initGame fuel w o = Ok (w', o') ->
  0 <= ty < MAP_HEIGHT -> 0 <= tx < MAP_WIDTH ->
  tileAt (GameState.map (Round.state w')) ty tx = Ok (Some ROAD)
  <-> onBand (GameState.vRoads (Round.state w')) tx
      \/ onBand (GameState.hRoads (Round.state w')) ty.
Proof.
  intros Hgen Hy Hx. split; [exact (initGame_roads _ _ _ _ _ Hgen ty tx)|].
  revert Hgen. unfold initGame. intros H.
  apply bind_Ok in H as (vRoads & ? & HsV & H). apply addLines_sorted in HsV.
  apply bind_Ok in H as (hRoads & ? & HsH & H). apply addLines_sorted in HsH.
  apply bind_Ok in H as (map1 & ? & HV & H). apply liftR_Ok in HV as [HV _].
  apply bind_Ok in H as (map2 & ? & HH & H). apply liftR_Ok in HH as [HH _].
  apply bind_Ok in H as ([map3 houses0] & ? & Hhouses & H).
  apply bind_Ok in H as ([map4 statics1] & ? & Hgardens & H).
  apply bind_Ok in H as ([map5 statics2] & ? & Hpaths & H).
  apply bind_Ok in H as ([[map6 statics3] puddles1] & ? & Hpark & H).
  apply bind_Ok in H as (houses & ? & _ & H).
  apply bind_Ok in H as (startPos & ? & _ & H).
  apply bind_Ok in H as (puddles & ? & _ & H).
  apply bind_Ok in H as (cars & ? & _ & H).
  apply bind_Ok in H as (now & ? & _ & H).
  inv_ok. cbn.
  assert (N34 : noNewRoad map3 map4 /\ keepsRoads map3 map4).
  { destruct (head vRoads), (last vRoads), (head hRoads), (last hRoads);
      try (apply ret_Ok in Hgardens as [Hgardens _]; injection Hgardens as <- _;
           split; [apply noNewRoad_refl|apply keepsRoads_refl]).
    apply bind_Ok in Hgardens as (m & ? & Hfill & Hdec).
    apply liftR_Ok in Hfill as [Hfill _]. split.
    - eapply noNewRoad_trans; [exact (fillGardens_roads _ _ _ _ Hfill)|].
      refine (forEachM_noNewRoad fst _ _ _ (m, []) _ (map4, statics1) _ Hdec).
      intros a s oa s' ob Hstep. exact (decorateGarden_roads _ _ _ _ _ _ _ Hstep).
    - eapply keepsRoads_trans; [exact (fillGardens_keeps _ _ _ _ Hfill)|].
      refine (forEachM_preserves_in (fun s => keepsRoads m (fst s)) _ _ _
                (m, []) _ (map4, statics1) _ Hdec (keepsRoads_refl _)).
      intros a s oa s' ob _ Hstep HP. eapply keepsRoads_trans; [exact HP|].
      exact (decorateGarden_keeps _ _ _ _ _ _ _ Hstep). }
  destruct N34 as [N34 K34]. clear Hgardens.
  assert (N45 : noNewRoad map4 map5).
  { refine (forEachM_noNewRoad fst _ _ _ (map4, statics1) _ (map5, statics2) _ Hpaths).
    intros a s oa s' ob Hstep. exact (footpathAt_roads _ _ _ _ _ Hstep). }
  assert (K45 : keepsRoads map4 map5).
  { refine (forEachM_preserves_in (fun s => keepsRoads map4 (fst s)) _ _ _
              (map4, statics1) _ (map5, statics2) _ Hpaths (keepsRoads_refl _)).
    intros a s oa s' ob _ Hstep HP. eapply keepsRoads_trans; [exact HP|].
    exact (footpathAt_keeps _ _ _ _ _ Hstep). }
  clear Hpaths.
  pose proof (placeHouses_roads _ _ _ _ _ _ Hhouses) as N23.
  pose proof (placeHouses_keeps _ _ _ _ _ _ Hhouses) as K23. clear Hhouses.
  destruct (rasterizeV_bands _ _ _ HV) as [_ BV].
  destruct (rasterizeH_bands _ _ _ HH) as [K12 BH].
  assert (K56 : keepsRoads map5 map6).
  { refine (decoratePark_keeps _ (map5, statics2, []) _ _ _ _ Hpark). cbn [fst].
    intros py px Hblock Hroad.
    apply N45, N34, N23 in Hroad.
    destruct (chooseParkBlock_off_bands _ _ _ _ HsV HsH Hblock) as [HnV HnH].
    destruct (rasterizeH_roads _ _ _ HH py px Hroad) as [Hroad1 | Hband];
      [|exact (HnH Hband)].
    destruct (rasterizeV_roads _ _ _ HV py px Hroad1) as [Hroad0 | Hband];
      [|exact (HnV Hband)].
    exact (grassMap_no_road _ _ Hroad0). }
  intros Hband. apply K56, K45, K34, K23.
  destruct Hband as [Hband | Hband]; [apply K12, BV; assumption|apply BH; assumption].
Qed.

Lemma initGame_roads_are_bands_witness :
  tileAt (GameState.map (Round.state demoTown)) 10 2 = Ok (Some ROAD)
  <-> onBand (GameState.vRoads (Round.state demoTown)) 2
      \/ onBand (GameState.hRoads (Round.state demoTown)) 10.
Proof.
  destruct demoTown_generated as (w1 & o1 & Hgen & Hstate).
  rewrite <- Hstate.
  apply (initGame_roads_are_bands _ _ _ _ _ 10 2 Hgen); unfold MAP_HEIGHT, MAP_WIDTH; lia.
Defined.
